(** * A shallow embedding of CVC4's simplex decision procedure

    The engine of [src/theory/arith/simplex.cpp] is embedded function by
    function.  Its collaborators (exact rationals, delta-rationals, the
    reduced rows and the tableau, the partial model, the two work queues,
    the term handles) are not part of the translated file; they are
    modelled from the written specification and marked as such. *)

From Stdlib Require Import QArith Qcanon NArith ZArith List Lia Bool.
From Stdlib Require Import Sorting.Sorted Setoid.
From Stdlib Require Import Lqa.
Import ListNotations.

Set Implicit Arguments.

(** ** Arithmetic variables *)

(** [ArithVar] is a dense unsigned 32-bit identifier; the largest value of
    the type is the sentinel for "no variable". *)
Abbreviation ArithVar := N.

Definition UINT32_MAX : N := 4294967295.
Definition ARITHVAR_SENTINEL : ArithVar := UINT32_MAX.

(** ** Exact rationals *)

(** Modelled from the spec: [Rational] is an exact rational number with
    field operations, comparison with zero and multiplicative inverse.
    Canonical rationals give it Leibniz equality. *)
Abbreviation Rational := Qc.

Module Rat.
Open Scope Qc_scope.

Definition eqb (x y : Rational) : bool := Qeq_bool x y.

Definition ltb (x y : Rational) : bool :=
  match x ?= y with Lt => true | _ => false end.

Definition leb (x y : Rational) : bool :=
  match x ?= y with Gt => false | _ => true end.

(** [a.cmp(b)]: negative, zero or positive. *)
Definition cmp (x y : Rational) : Z :=
  match Qccompare x y with Lt => (-1)%Z | Eq => 0%Z | Gt => 1%Z end.

Definition inverse (x : Rational) : Rational := / x.

Definition of_Z (z : Z) : Rational := Q2Qc (inject_Z z).
Definition frac (n : Z) (d : positive) : Rational := Q2Qc (n # d).

Lemma rat_eqb_eq x y : eqb x y = true <-> x = y.
Proof.
  unfold eqb. rewrite Qeq_bool_iff. split.
  - apply Qc_is_canon.
  - intros ->. reflexivity.
Qed.

Lemma rat_eqb_neq x y : eqb x y = false <-> x <> y.
Proof.
  rewrite <- rat_eqb_eq. destruct (eqb x y); split; congruence.
Qed.

Lemma rat_compare_refl x : (x ?= x) = Eq.
Proof. apply Qceq_alt. reflexivity. Qed.

Lemma rat_ltb_lt x y : ltb x y = true <-> x < y.
Proof.
  unfold ltb. rewrite Qclt_alt. destruct (x ?= y); split; congruence.
Qed.

Lemma rat_leb_le x y : leb x y = true <-> x <= y.
Proof.
  unfold leb. rewrite Qcle_alt. destruct (x ?= y); split; congruence.
Qed.

Lemma cmp_neg x y : (cmp x y < 0)%Z <-> x < y.
Proof.
  unfold cmp. rewrite Qclt_alt. destruct (x ?= y); split; (lia || congruence).
Qed.

Lemma cmp_pos x y : (cmp x y > 0)%Z <-> y < x.
Proof.
  unfold cmp. pose proof (Qcgt_alt x y) as H. cbv beta in H.
  destruct (x ?= y); split; intros H'; try lia;
    first [ now apply H | apply H in H'; discriminate ].
Qed.

Lemma cmp_zero x y : cmp x y = 0%Z <-> x = y.
Proof.
  unfold cmp. rewrite Qceq_alt. destruct (x ?= y); split; (lia || congruence).
Qed.
End Rat.

(** ** Delta-rationals *)

(** Modelled from the spec: [DeltaRational] is a pair [(c, k)] read as
    [c + k*delta] for a symbolic positive infinitesimal [delta], with
    component-wise addition, subtraction and equality, multiplication by a
    [Rational], and the lexicographic order on [(c, k)]. *)
Module DeltaRational.
Open Scope Qc_scope.

Record t : Type := mk { c : Rational; k : Rational }.

Definition zero : t := mk 0 0.
Definition of_rational (q : Rational) : t := mk q 0.

Definition add (a b : t) : t := mk (c a + c b) (k a + k b).
Definition sub (a b : t) : t := mk (c a - c b) (k a - k b).
Definition mul (a : t) (q : Rational) : t := mk (c a * q) (k a * q).

Definition compare (a b : t) : comparison :=
  match c a ?= c b with
  | Eq => k a ?= k b
  | r => r
  end.

Definition eqb (a b : t) : bool := Rat.eqb (k a) (k b) && Rat.eqb (c a) (c b).
Definition leb (a b : t) : bool :=
  match compare a b with Gt => false | _ => true end.
Definition gtb (a b : t) : bool := negb (leb a b).
Definition ltb (a b : t) : bool := gtb b a.
Definition geb (a b : t) : bool := leb b a.

Definition le (a b : t) : Prop := compare a b <> Gt.
Definition lt (a b : t) : Prop := compare a b = Lt.
End DeltaRational.

Abbreviation DRat := DeltaRational.t.

Declare Scope drat_scope.
Delimit Scope drat_scope with DR.
Bind Scope drat_scope with DeltaRational.t.
Infix "+" := DeltaRational.add : drat_scope.
Infix "-" := DeltaRational.sub : drat_scope.
Infix "*" := DeltaRational.mul : drat_scope.
Infix "<=" := DeltaRational.le : drat_scope.
Infix "<" := DeltaRational.lt : drat_scope.

Module DRatFacts.
Import DeltaRational.
Open Scope Qc_scope.

Lemma eq_intro (a b : DRat) : c a = c b -> k a = k b -> a = b.
Proof. destruct a, b; simpl; intros; subst; reflexivity. Qed.

Lemma eqb_eq a b : eqb a b = true <-> a = b.
Proof.
  unfold eqb. rewrite andb_true_iff, !Rat.rat_eqb_eq. split.
  - intros [? ?]. now apply eq_intro.
  - intros ->. auto.
Qed.

Lemma compare_refl a : compare a a = Eq.
Proof. unfold compare. now rewrite !Rat.rat_compare_refl. Qed.

Lemma compare_eq a b : compare a b = Eq <-> a = b.
Proof.
  unfold compare. split.
  - destruct (c a ?= c b) eqn:E; try discriminate.
    intros E'. apply eq_intro; now apply Qceq_alt.
  - intros ->. now rewrite !Rat.rat_compare_refl.
Qed.

Lemma compare_antisym a b : compare b a = CompOpp (compare a b).
Proof.
  unfold compare.
  assert (H : forall x y : Qc, (y ?= x) = CompOpp (x ?= y)).
  { intros x y. unfold Qccompare. symmetry. apply Qcompare_antisym. }
  rewrite (H (c a) (c b)), (H (k a) (k b)).
  destruct (c a ?= c b); reflexivity.
Qed.

Lemma leb_le a b : leb a b = true <-> (a <= b)%DR.
Proof. unfold leb, le. destruct (compare a b); split; congruence. Qed.

Lemma ltb_lt a b : ltb a b = true <-> (a < b)%DR.
Proof.
  unfold ltb, gtb, leb, lt. rewrite (compare_antisym a b).
  destruct (compare a b); simpl; split; congruence.
Qed.

Lemma gtb_lt a b : gtb a b = true <-> (b < a)%DR.
Proof. apply ltb_lt. Qed.

Lemma geb_le a b : geb a b = true <-> (b <= a)%DR.
Proof. apply leb_le. Qed.

Lemma le_refl a : (a <= a)%DR.
Proof. unfold le. now rewrite compare_refl. Qed.

Lemma lt_iff a b :
  (a < b)%DR <-> c a < c b \/ (c a = c b /\ k a < k b).
Proof.
  unfold lt, compare. destruct (c a ?= c b) eqn:E.
  - apply Qceq_alt in E. split.
    + intros H. right. now split.
    + intros [H | [_ H]]; [ | exact H ].
      exfalso. exact (Qclt_not_eq _ _ H E).
  - split; [ intros _; left; now apply Qclt_alt | reflexivity ].
  - split; [ discriminate | ].
    intros [H | [H _]];
      [ pose proof (proj1 (Qclt_alt _ _) H) | pose proof (proj1 (Qceq_alt _ _) H) ];
      congruence.
Qed.

Lemma le_iff a b :
  (a <= b)%DR <-> c a < c b \/ (c a = c b /\ k a <= k b).
Proof.
  unfold le, compare. destruct (c a ?= c b) eqn:E.
  - apply Qceq_alt in E. split.
    + intros H. right. split; [ exact E | now apply Qcle_alt ].
    + intros [H | [_ H]]; [ | now apply Qcle_alt ].
      exfalso. exact (Qclt_not_eq _ _ H E).
  - split; [ intros _; left; now apply Qclt_alt | discriminate ].
  - split; [ congruence | ].
    intros [H | [H _]];
      [ pose proof (proj1 (Qclt_alt _ _) H) | pose proof (proj1 (Qceq_alt _ _) H) ];
      congruence.
Qed.

Lemma le_not_lt a b : (a <= b)%DR <-> ~ (b < a)%DR.
Proof.
  unfold le, lt. rewrite (compare_antisym a b).
  destruct (compare a b); simpl; split; congruence.
Qed.

Lemma lt_le_incl a b : (a < b)%DR -> (a <= b)%DR.
Proof. unfold le, lt. congruence. Qed.


Lemma le_trans a b d : (a <= b)%DR -> (b <= d)%DR -> (a <= d)%DR.
Proof.
  rewrite !le_iff. intros [H1 | [H1 H1']] [H2 | [H2 H2']].
  - left. eapply Qclt_trans; eauto.
  - left. now rewrite <- H2.
  - left. now rewrite H1.
  - right. split; [congruence | eapply Qcle_trans; eauto].
Qed.

Lemma le_lt_trans a b d : (a <= b)%DR -> (b < d)%DR -> (a < d)%DR.
Proof.
  rewrite le_iff, !lt_iff. intros [H1 | [H1 H1']] [H2 | [H2 H2']].
  - left. eapply Qclt_trans; eauto.
  - left. now rewrite <- H2.
  - left. now rewrite H1.
  - right. split; [congruence | eapply Qcle_lt_trans; eauto].
Qed.

Lemma add_zero_l a : (zero + a)%DR = a.
Proof. apply eq_intro; simpl; ring. Qed.

Lemma add_assoc a b d : (a + (b + d))%DR = (a + b + d)%DR.
Proof. apply eq_intro; simpl; ring. Qed.

Lemma add_comm a b : (a + b)%DR = (b + a)%DR.
Proof. apply eq_intro; simpl; ring. Qed.
End DRatFacts.

(** ** Outcomes of fallible code *)

(** A failed [Assert], an [Unreachable()] or any other broken precondition
    aborts the engine: the call ends in [Fatal]. *)
Inductive Result (A : Type) : Type :=
| Ok (a : A)
| Fatal.

Arguments Ok {A} a.
Arguments Fatal {A}.

Definition bind {A B : Type} (r : Result A) (f : A -> Result B) : Result B :=
  match r with
  | Ok a => f a
  | Fatal => Fatal
  end.

Notation "x <- e ;; k" := (bind e (fun x => k))
  (at level 61, e at next level, right associativity).
Notation "' p <- e ;; k" := (bind e (fun p => k))
  (at level 61, p pattern, e at next level, right associativity).

(** The Bland stage of the main loop has no iteration bound.  The
    functions that contain it take fuel; [None] says that the fuel ran
    out before the call ended. *)
Definition Fueled (A : Type) : Type := option (Result A).

(** [Assert(b)] *)
Definition Assert (b : bool) : Result unit := if b then Ok tt else Fatal.

Lemma bind_Ok_inv {A B} (r : Result A) (f : A -> Result B) (b : B) :
  bind r f = Ok b -> exists a, r = Ok a /\ f a = Ok b.
Proof. destruct r; simpl; intros H; try discriminate. eauto. Qed.

Lemma Assert_Ok_inv b : Assert b = Ok tt -> b = true.
Proof. destruct b; simpl; congruence. Qed.

(** ** Term handles *)

(** Modelled from the spec: a [Node] is an opaque term handle; the engine
    only tests it for null, compares handles, counts children and builds
    [AND] nodes.  Terms are hash-consed in the node manager, so handle
    equality is structural equality. *)
Inductive Kind : Type :=
| AND
| OTHER (tag : N).

Inductive Node : Type :=
| NullNode
| mkNode (kind : Kind) (children : list Node).

Abbreviation TNode := Node.

Definition Kind_eqb (a b : Kind) : bool :=
  match a, b with
  | AND, AND => true
  | OTHER m, OTHER n => N.eqb m n
  | _, _ => false
  end.

Fixpoint Node_eqb (x y : Node) {struct x} : bool :=
  match x, y with
  | NullNode, NullNode => true
  | mkNode k cs, mkNode k' cs' =>
      Kind_eqb k k' &&
      (fix all2 (l l' : list Node) {struct l} : bool :=
         match l, l' with
         | [], [] => true
         | a :: l, b :: l' => Node_eqb a b && all2 l l'
         | _, _ => false
         end) cs cs'
  | _, _ => false
  end.

Definition isNull (n : Node) : bool :=
  match n with NullNode => true | _ => false end.

Definition getNumChildren (n : Node) : nat :=
  match n with NullNode => 0 | mkNode _ cs => length cs end.

(** An atomic constraint handed in by the caller. *)
Definition atom (n : N) : Node := mkNode (OTHER n) [].

(** ** Sparse rows *)

(** Modelled from the spec: a [ReducedRowVector] for the basic variable
    [basic] is a sparse vector of nonzero coefficients, iterated in order
    of increasing variable; it holds the non-basic variables of the row
    and the key [basic] itself with coefficient [-1]. *)
Definition Entry : Type := (ArithVar * Rational)%type.

Definition getArithVar (e : Entry) : ArithVar := fst e.
Definition getCoefficient (e : Entry) : Rational := snd e.

Module ReducedRowVector.
Open Scope Qc_scope.

Record t : Type := mk { basic : ArithVar; entries : list Entry }.

Definition has (r : t) (x : ArithVar) : bool :=
  existsb (fun e => N.eqb (fst e) x) (entries r).

Fixpoint coeffIn (es : list Entry) (x : ArithVar) : Rational :=
  match es with
  | [] => 0
  | (y, a) :: es' => if N.eqb y x then a else coeffIn es' x
  end.

Definition coeff (r : t) (x : ArithVar) : Rational := coeffIn (entries r) x.

(** [lookup] is only defined on the variables of the row. *)
Definition lookup (r : t) (x : ArithVar) : Result Rational :=
  if has r x then Ok (coeff r x) else Fatal.

Definition scale (q : Rational) (es : list Entry) : list Entry :=
  map (fun e => (fst e, snd e * q)) es.

(** [addRows q r s] is [r + q*s] on sorted sparse vectors; an entry that
    cancels is dropped. *)
Fixpoint addRows (q : Rational) (r s : list Entry) {struct r} : list Entry :=
  match r with
  | [] => scale q s
  | (x, a) :: r' =>
      (fix into (s : list Entry) {struct s} : list Entry :=
         match s with
         | [] => (x, a) :: r'
         | (y, b) :: s' =>
             match N.compare x y with
             | Lt => (x, a) :: addRows q r' s
             | Eq => if Rat.eqb (a + b * q) 0
                     then addRows q r' s'
                     else (x, a + b * q) :: addRows q r' s'
             | Gt => (y, b * q) :: into s'
             end
         end) s
  end.

(** Solve the row for [x_j]: the row is multiplied by [-1/a_j] and [x_j]
    becomes its basic variable. *)
Definition pivot (r : t) (x_j : ArithVar) : t :=
  mk x_j (scale (- Rat.inverse (coeff r x_j)) (entries r)).

(** Replace the variable [basic row_s] of [r] by its definition. *)
Definition substitute (r row_s : t) : t :=
  mk (basic r) (addRows (coeff r (basic row_s)) (entries r) (entries row_s)).
End ReducedRowVector.

Abbreviation Row := ReducedRowVector.t.

(** ** The tableau *)

(** Modelled from the spec: the tableau is the set of basic variables,
    each owning one row; the list order is the iteration order of the
    basic set.  The basic manager's membership test is membership in this
    set. *)
Module Tableau.
Import ReducedRowVector.

Definition t : Type := list Row.

Definition basics (T : t) : list ArithVar := map basic T.

Definition isBasic (T : t) (x : ArithVar) : bool :=
  existsb (fun r => N.eqb (basic r) x) T.

Definition find (T : t) (x : ArithVar) : option Row :=
  List.find (fun r => N.eqb (basic r) x) T.

(** Looking up the row of a non-basic variable is fatal. *)
Definition lookup (T : t) (x : ArithVar) : Result Row :=
  match find T x with
  | Some r => Ok r
  | None => Fatal
  end.

(** Number of rows in which [x] appears with a nonzero coefficient. *)
Definition getRowCount (T : t) (x : ArithVar) : N :=
  N.of_nat (length (filter (fun r => has r x) T)).

(** [pivot x_i x_j]: [x_i] is basic and its row mentions the non-basic
    [x_j] with a nonzero coefficient.  The row of [x_i] is solved for
    [x_j] and the result is substituted into every other row that
    mentions [x_j]. *)
Definition pivot (T : t) (x_i x_j : ArithVar) : Result t :=
  _ <- Assert (isBasic T x_i) ;;
  _ <- Assert (negb (isBasic T x_j)) ;;
  row_i <- lookup T x_i ;;
  a_ij <- ReducedRowVector.lookup row_i x_j ;;
  _ <- Assert (negb (Rat.eqb a_ij 0%Qc)) ;;
  let row_s := ReducedRowVector.pivot row_i x_j in
  Ok (map (fun r =>
             if N.eqb (basic r) x_i then row_s
             else if has r x_j then substitute r row_s
             else r) T).
End Tableau.

(** ** The partial model *)

Definition upd {A : Type} (f : ArithVar -> A) (x : ArithVar) (v : A)
  : ArithVar -> A :=
  fun y => if N.eqb y x then v else f y.

Lemma upd_same {A} (f : ArithVar -> A) x v : upd f x v x = v.
Proof. unfold upd. now rewrite N.eqb_refl. Qed.

Lemma upd_other {A} (f : ArithVar -> A) x v y : y <> x -> upd f x v y = f y.
Proof. unfold upd. intros H. apply N.eqb_neq in H. now rewrite H. Qed.

(** Modelled from the spec: per variable, the current and the safe
    assignment, an optional lower and upper bound, and for each bound the
    term that asserted it. *)
Module ArithPartialModel.
Record t : Type := mk {
  d_assignment : ArithVar -> DRat;
  d_safeAssignment : ArithVar -> DRat;
  d_lowerBound : ArithVar -> option DRat;
  d_upperBound : ArithVar -> option DRat;
  d_lowerConstraint : ArithVar -> Node;
  d_upperConstraint : ArithVar -> Node
}.

Definition setLowerBound (m : t) (x : ArithVar) (c : DRat) : t :=
  mk (d_assignment m) (d_safeAssignment m)
     (upd (d_lowerBound m) x (Some c)) (d_upperBound m)
     (d_lowerConstraint m) (d_upperConstraint m).

Definition setUpperBound (m : t) (x : ArithVar) (c : DRat) : t :=
  mk (d_assignment m) (d_safeAssignment m)
     (d_lowerBound m) (upd (d_upperBound m) x (Some c))
     (d_lowerConstraint m) (d_upperConstraint m).

Definition setLowerConstraint (m : t) (x : ArithVar) (n : Node) : t :=
  mk (d_assignment m) (d_safeAssignment m)
     (d_lowerBound m) (d_upperBound m)
     (upd (d_lowerConstraint m) x n) (d_upperConstraint m).

Definition setUpperConstraint (m : t) (x : ArithVar) (n : Node) : t :=
  mk (d_assignment m) (d_safeAssignment m)
     (d_lowerBound m) (d_upperBound m)
     (d_lowerConstraint m) (upd (d_upperConstraint m) x n).

Definition setAssignment (m : t) (x : ArithVar) (v : DRat) : t :=
  mk (upd (d_assignment m) x v) (d_safeAssignment m)
     (d_lowerBound m) (d_upperBound m)
     (d_lowerConstraint m) (d_upperConstraint m).

Definition setAssignment2 (m : t) (x : ArithVar) (safe v : DRat) : t :=
  mk (upd (d_assignment m) x v) (upd (d_safeAssignment m) x safe)
     (d_lowerBound m) (d_upperBound m)
     (d_lowerConstraint m) (d_upperConstraint m).

Definition getAssignment (m : t) (x : ArithVar) : DRat := d_assignment m x.

Definition getAssignmentSafe (m : t) (x : ArithVar) (useSafe : bool) : DRat :=
  if useSafe then d_safeAssignment m x else d_assignment m x.

Definition hasLowerBound (m : t) (x : ArithVar) : bool :=
  match d_lowerBound m x with Some _ => true | None => false end.

Definition hasUpperBound (m : t) (x : ArithVar) : bool :=
  match d_upperBound m x with Some _ => true | None => false end.

(** Reading a bound that was never installed is fatal. *)
Definition getLowerBound (m : t) (x : ArithVar) : Result DRat :=
  match d_lowerBound m x with Some l => Ok l | None => Fatal end.

Definition getUpperBound (m : t) (x : ArithVar) : Result DRat :=
  match d_upperBound m x with Some u => Ok u | None => Fatal end.

Definition getLowerConstraint (m : t) (x : ArithVar) : Node :=
  d_lowerConstraint m x.

Definition getUpperConstraint (m : t) (x : ArithVar) : Node :=
  d_upperConstraint m x.

(** [v < l] (strict) or [v <= l]; false when there is no lower bound. *)
Definition belowLowerBound (m : t) (x : ArithVar) (v : DRat) (strict : bool)
  : bool :=
  match d_lowerBound m x with
  | None => false
  | Some l => if strict then DeltaRational.ltb v l else DeltaRational.leb v l
  end.

(** [v > u] (strict) or [v >= u]; false when there is no upper bound. *)
Definition aboveUpperBound (m : t) (x : ArithVar) (v : DRat) (strict : bool)
  : bool :=
  match d_upperBound m x with
  | None => false
  | Some u => if strict then DeltaRational.gtb v u else DeltaRational.geb v u
  end.

(** [beta(x) < u], an absent bound being [+oo]. *)
Definition strictlyBelowUpperBound (m : t) (x : ArithVar) : bool :=
  match d_upperBound m x with
  | None => true
  | Some u => DeltaRational.ltb (d_assignment m x) u
  end.

(** [beta(x) > l], an absent bound being [-oo]. *)
Definition strictlyAboveLowerBound (m : t) (x : ArithVar) : bool :=
  match d_lowerBound m x with
  | None => true
  | Some l => DeltaRational.gtb (d_assignment m x) l
  end.

(** [l <= beta(x) <= u] under whichever bounds exist. *)
Definition assignmentIsConsistent (m : t) (x : ArithVar) : bool :=
  negb (belowLowerBound m x (d_assignment m x) true) &&
  negb (aboveUpperBound m x (d_assignment m x) true).
End ArithPartialModel.

(** ** The work queues *)

(** Modelled from the spec: a priority queue is kept as the list of its
    entries in the order in which [top]/[pop] deliver them; [before x y]
    says that [x] leaves the queue strictly before [y]. *)
Section PriorityQueue.
Variable A : Type.
Variable before : A -> A -> bool.

Fixpoint pq_push (x : A) (q : list A) : list A :=
  match q with
  | [] => [x]
  | y :: q' => if before x y then x :: q else y :: pq_push x q'
  end.
End PriorityQueue.

Definition VarDRatPair : Type := (ArithVar * DRat)%type.

(** The queue of the Bland stage: smallest variable first. *)
Definition BlandQueue : Type := list ArithVar.
Definition bland_push : ArithVar -> BlandQueue -> BlandQueue :=
  pq_push N.ltb.

(** The queue of the Griggio stage: largest bound violation first. *)
Definition GriggioPQueue : Type := list VarDRatPair.
Definition griggio_push : VarDRatPair -> GriggioPQueue -> GriggioPQueue :=
  pq_push (fun a b => DeltaRational.gtb (snd a) (snd b)).

(** ** Statistics *)

(** Modelled from the spec: named monotonic counters.  The two timers are
    wall-clock measurements and have no counterpart here. *)
Module Statistics.
Record t : Type := mk {
  d_statPivots : Z;
  d_statUpdates : Z;
  d_statAssertUpperConflicts : Z;
  d_statAssertLowerConflicts : Z;
  d_statUpdateConflicts : Z;
  d_statEjections : Z;
  d_statUnEjections : Z;
  d_statEarlyConflicts : Z;
  d_statEarlyConflictImprovements : Z;
  d_pivotsAfterConflict : Z;
  d_checksWithWastefulPivots : Z
}.

Definition init : t := mk 0 0 0 0 0 0 0 0 0 0 0.

Definition incPivots (s : t) : t :=
  let (a, b, c, d, e, f, g, h, i, j, k) := s in
  mk (a + 1) b c d e f g h i j k.
Definition incUpdates (s : t) : t :=
  let (a, b, c, d, e, f, g, h, i, j, k) := s in
  mk a (b + 1) c d e f g h i j k.
Definition incAssertUpperConflicts (s : t) : t :=
  let (a, b, c, d, e, f, g, h, i, j, k) := s in
  mk a b (c + 1) d e f g h i j k.
Definition incAssertLowerConflicts (s : t) : t :=
  let (a, b, c, d, e, f, g, h, i, j, k) := s in
  mk a b c (d + 1) e f g h i j k.
Definition incUpdateConflicts (s : t) : t :=
  let (a, b, c, d, e, f, g, h, i, j, k) := s in
  mk a b c d (e + 1) f g h i j k.
Definition incEarlyConflicts (s : t) : t :=
  let (a, b, c, d, e, f, g, h, i, j, k) := s in
  mk a b c d e f g (h + 1) i j k.
Definition incEarlyConflictImprovements (s : t) : t :=
  let (a, b, c, d, e, f, g, h, i, j, k) := s in
  mk a b c d e f g h (i + 1) j k.
Definition incPivotsAfterConflict (s : t) : t :=
  let (a, b, c, d, e, f, g, h, i, j, k) := s in
  mk a b c d e f g h i (j + 1) k.
Definition incChecksWithWastefulPivots (s : t) : t :=
  let (a, b, c, d, e, f, g, h, i, j, k) := s in
  mk a b c d e f g h i j (k + 1).
End Statistics.

(** ** The engine state *)

Definition UINT64_MOD : N := 18446744073709551616.
Definition UINT32_MOD : N := 4294967296.

(** The members of [SimplexDecisionProcedure].  [d_out] is the conflict
    sink, kept as the list of the nodes it has received, oldest first. *)
Record SimplexDecisionProcedure : Type := mkSimplex {
  d_partialModel : ArithPartialModel.t;
  d_tableau : Tableau.t;
  d_activityMonitor : ArithVar -> N;
  d_numVariables : N;
  d_griggioRuleQueue : GriggioPQueue;
  d_possiblyInconsistent : BlandQueue;
  d_pivotStage : bool;
  d_foundAConflict : bool;
  d_pivotsSinceConflict : N;
  d_statistics : Statistics.t;
  d_out : list Node
}.

Abbreviation Simplex := SimplexDecisionProcedure.

Section Setters.
Variable s : Simplex.

Definition set_partialModel (m : ArithPartialModel.t) : Simplex :=
  mkSimplex m (d_tableau s) (d_activityMonitor s) (d_numVariables s)
    (d_griggioRuleQueue s) (d_possiblyInconsistent s) (d_pivotStage s)
    (d_foundAConflict s) (d_pivotsSinceConflict s) (d_statistics s) (d_out s).

Definition set_tableau (T : Tableau.t) : Simplex :=
  mkSimplex (d_partialModel s) T (d_activityMonitor s) (d_numVariables s)
    (d_griggioRuleQueue s) (d_possiblyInconsistent s) (d_pivotStage s)
    (d_foundAConflict s) (d_pivotsSinceConflict s) (d_statistics s) (d_out s).

Definition set_activityMonitor (a : ArithVar -> N) : Simplex :=
  mkSimplex (d_partialModel s) (d_tableau s) a (d_numVariables s)
    (d_griggioRuleQueue s) (d_possiblyInconsistent s) (d_pivotStage s)
    (d_foundAConflict s) (d_pivotsSinceConflict s) (d_statistics s) (d_out s).

Definition set_griggioRuleQueue (q : GriggioPQueue) : Simplex :=
  mkSimplex (d_partialModel s) (d_tableau s) (d_activityMonitor s)
    (d_numVariables s) q (d_possiblyInconsistent s) (d_pivotStage s)
    (d_foundAConflict s) (d_pivotsSinceConflict s) (d_statistics s) (d_out s).

Definition set_possiblyInconsistent (q : BlandQueue) : Simplex :=
  mkSimplex (d_partialModel s) (d_tableau s) (d_activityMonitor s)
    (d_numVariables s) (d_griggioRuleQueue s) q (d_pivotStage s)
    (d_foundAConflict s) (d_pivotsSinceConflict s) (d_statistics s) (d_out s).

Definition set_pivotStage (b : bool) : Simplex :=
  mkSimplex (d_partialModel s) (d_tableau s) (d_activityMonitor s)
    (d_numVariables s) (d_griggioRuleQueue s) (d_possiblyInconsistent s) b
    (d_foundAConflict s) (d_pivotsSinceConflict s) (d_statistics s) (d_out s).

Definition set_foundAConflict (b : bool) : Simplex :=
  mkSimplex (d_partialModel s) (d_tableau s) (d_activityMonitor s)
    (d_numVariables s) (d_griggioRuleQueue s) (d_possiblyInconsistent s)
    (d_pivotStage s) b (d_pivotsSinceConflict s) (d_statistics s) (d_out s).

Definition set_pivotsSinceConflict (n : N) : Simplex :=
  mkSimplex (d_partialModel s) (d_tableau s) (d_activityMonitor s)
    (d_numVariables s) (d_griggioRuleQueue s) (d_possiblyInconsistent s)
    (d_pivotStage s) (d_foundAConflict s) n (d_statistics s) (d_out s).

Definition set_statistics (st : Statistics.t) : Simplex :=
  mkSimplex (d_partialModel s) (d_tableau s) (d_activityMonitor s)
    (d_numVariables s) (d_griggioRuleQueue s) (d_possiblyInconsistent s)
    (d_pivotStage s) (d_foundAConflict s) (d_pivotsSinceConflict s) st (d_out s).

(** [d_out->conflict(n)] *)
Definition emit_conflict (n : Node) : Simplex :=
  mkSimplex (d_partialModel s) (d_tableau s) (d_activityMonitor s)
    (d_numVariables s) (d_griggioRuleQueue s) (d_possiblyInconsistent s)
    (d_pivotStage s) (d_foundAConflict s) (d_pivotsSinceConflict s)
    (d_statistics s) (d_out s ++ [n]).
End Setters.

(** [d_activityMonitor[x] = 0] and [d_activityMonitor[x] += 1] on a
    vector of [uint64_t]. *)
Definition resetActivity (s : Simplex) (x : ArithVar) : Simplex :=
  set_activityMonitor s (upd (d_activityMonitor s) x 0%N).

Definition bumpActivity (s : Simplex) (x : ArithVar) : Simplex :=
  set_activityMonitor s
    (upd (d_activityMonitor s) x ((d_activityMonitor s x + 1) mod UINT64_MOD)%N).

Definition count (f : Statistics.t -> Statistics.t) (s : Simplex) : Simplex :=
  set_statistics s (f (d_statistics s)).

Definition isBasic (s : Simplex) (x : ArithVar) : bool :=
  Tableau.isBasic (d_tableau s) x.

(** ** The engine *)

Import ArithPartialModel.
Open Scope N_scope.

(** *** [checkBasicVariable] *)
Definition checkBasicVariable (basic : ArithVar) (s : Simplex)
  : Result Simplex :=
  _ <- Assert (isBasic s basic) ;;
  if negb (assignmentIsConsistent (d_partialModel s) basic) then
    if d_pivotStage s then
      let beta := getAssignment (d_partialModel s) basic in
      diff <- (if belowLowerBound (d_partialModel s) basic beta true
               then l <- getLowerBound (d_partialModel s) basic ;;
                    Ok (l - beta)%DR
               else u <- getUpperBound (d_partialModel s) basic ;;
                    Ok (beta - u)%DR) ;;
      Ok (set_griggioRuleQueue s
            (griggio_push (basic, diff) (d_griggioRuleQueue s)))
    else
      Ok (set_possiblyInconsistent s
            (bland_push basic (d_possiblyInconsistent s)))
  else Ok s.

(** *** [update] *)

(** The loop of [update] over the basic variables of the tableau. *)
Fixpoint update_loop (x_i : ArithVar) (diff : DRat) (bs : list ArithVar)
    (s : Simplex) : Result Simplex :=
  match bs with
  | [] => Ok s
  | x_j :: bs' =>
      row_j <- Tableau.lookup (d_tableau s) x_j ;;
      s' <- (if ReducedRowVector.has row_j x_i then
               a_ji <- ReducedRowVector.lookup row_j x_i ;;
               let assignment := getAssignment (d_partialModel s) x_j in
               let nAssignment := (assignment + diff * a_ji)%DR in
               let s := set_partialModel s
                          (setAssignment (d_partialModel s) x_j nAssignment) in
               let s := bumpActivity s x_j in
               checkBasicVariable x_j s
             else Ok s) ;;
      update_loop x_i diff bs' s'
  end.

(** The paranoid [checkTableau] call at the end of [update] is guarded
    by a debug flag that is off. *)
Definition update (x_i : ArithVar) (v : DRat) (s : Simplex) : Result Simplex :=
  _ <- Assert (negb (isBasic s x_i)) ;;
  let assignment_x_i := getAssignment (d_partialModel s) x_i in
  let s := count Statistics.incUpdates s in
  let diff := (v - assignment_x_i)%DR in
  s <- update_loop x_i diff (Tableau.basics (d_tableau s)) s ;;
  Ok (set_partialModel s (setAssignment (d_partialModel s) x_i v)).

(** *** [AssertLower], [AssertUpper], [AssertEquality] *)

Definition AssertLower (x_i : ArithVar) (c_i : DRat) (original : TNode)
    (s : Simplex) : Result (bool * Simplex) :=
  if belowLowerBound (d_partialModel s) x_i c_i false then
    Ok (false, s)
  else if aboveUpperBound (d_partialModel s) x_i c_i true then
    let ubc := getUpperConstraint (d_partialModel s) x_i in
    let conflict := mkNode AND [ubc; original] in
    let s := emit_conflict s conflict in
    let s := count Statistics.incAssertLowerConflicts s in
    Ok (true, s)
  else
    let s := set_partialModel s
               (setLowerConstraint (d_partialModel s) x_i original) in
    let s := set_partialModel s
               (setLowerBound (d_partialModel s) x_i c_i) in
    let s := resetActivity s x_i in
    s <- (if negb (isBasic s x_i) then
            if DeltaRational.ltb (getAssignment (d_partialModel s) x_i) c_i
            then update x_i c_i s
            else Ok s
          else checkBasicVariable x_i s) ;;
    Ok (false, s).

Definition AssertUpper (x_i : ArithVar) (c_i : DRat) (original : TNode)
    (s : Simplex) : Result (bool * Simplex) :=
  if aboveUpperBound (d_partialModel s) x_i c_i false then
    Ok (false, s)
  else if belowLowerBound (d_partialModel s) x_i c_i true then
    let lbc := getLowerConstraint (d_partialModel s) x_i in
    let conflict := mkNode AND [lbc; original] in
    let s := count Statistics.incAssertUpperConflicts s in
    let s := emit_conflict s conflict in
    Ok (true, s)
  else
    let s := set_partialModel s
               (setUpperConstraint (d_partialModel s) x_i original) in
    let s := set_partialModel s
               (setUpperBound (d_partialModel s) x_i c_i) in
    let s := resetActivity s x_i in
    s <- (if negb (isBasic s x_i) then
            if DeltaRational.gtb (getAssignment (d_partialModel s) x_i) c_i
            then update x_i c_i s
            else Ok s
          else checkBasicVariable x_i s) ;;
    Ok (false, s).

Definition AssertEquality (x_i : ArithVar) (c_i : DRat) (original : TNode)
    (s : Simplex) : Result (bool * Simplex) :=
  if belowLowerBound (d_partialModel s) x_i c_i false &&
     aboveUpperBound (d_partialModel s) x_i c_i false then
    Ok (false, s)
  else if aboveUpperBound (d_partialModel s) x_i c_i true then
    let ubc := getUpperConstraint (d_partialModel s) x_i in
    let conflict := mkNode AND [ubc; original] in
    let s := emit_conflict s conflict in
    Ok (true, s)
  else if belowLowerBound (d_partialModel s) x_i c_i true then
    let lbc := getLowerConstraint (d_partialModel s) x_i in
    let conflict := mkNode AND [lbc; original] in
    let s := emit_conflict s conflict in
    Ok (true, s)
  else
    let s := set_partialModel s
               (setLowerConstraint (d_partialModel s) x_i original) in
    let s := set_partialModel s
               (setLowerBound (d_partialModel s) x_i c_i) in
    let s := set_partialModel s
               (setUpperConstraint (d_partialModel s) x_i original) in
    let s := set_partialModel s
               (setUpperBound (d_partialModel s) x_i c_i) in
    let s := resetActivity s x_i in
    s <- (if negb (isBasic s x_i) then
            if negb (DeltaRational.eqb
                       (getAssignment (d_partialModel s) x_i) c_i)
            then update x_i c_i s
            else Ok s
          else checkBasicVariable x_i s) ;;
    Ok (false, s).

(** *** [selectSlack] *)

(** The row scan of [selectSlack<above>]; [slack] and [numRows] are the
    loop's two locals, [numRows] a [uint32_t].  The four accepting
    branches of the source have the same body, named [consider] here: in
    the Griggio stage keep the candidate with the smaller row count, in
    the Bland stage take the candidate and [break]. *)
Fixpoint selectSlack_loop (above : bool) (s : Simplex) (x_i : ArithVar)
    (es : list Entry) (slack : ArithVar) (numRows : N) : ArithVar :=
  match es with
  | [] => slack
  | nbi :: rest =>
      let nonbasic := getArithVar nbi in
      if nonbasic =? x_i then selectSlack_loop above s x_i rest slack numRows
      else
        let a_ij := snd nbi in
        let cmp := Rat.cmp a_ij 0%Qc in
        let consider :=
          if d_pivotStage s then
            if Tableau.getRowCount (d_tableau s) nonbasic <? numRows then
              selectSlack_loop above s x_i rest nonbasic
                (Tableau.getRowCount (d_tableau s) nonbasic)
            else selectSlack_loop above s x_i rest slack numRows
          else nonbasic in
        if above then
          if (cmp <? 0)%Z && strictlyBelowUpperBound (d_partialModel s) nonbasic
          then consider
          else if (0 <? cmp)%Z &&
                  strictlyAboveLowerBound (d_partialModel s) nonbasic
          then consider
          else selectSlack_loop above s x_i rest slack numRows
        else
          if (0 <? cmp)%Z && strictlyBelowUpperBound (d_partialModel s) nonbasic
          then consider
          else if (cmp <? 0)%Z &&
                  strictlyAboveLowerBound (d_partialModel s) nonbasic
          then consider
          else selectSlack_loop above s x_i rest slack numRows
  end.

Definition selectSlack (above : bool) (x_i : ArithVar) (s : Simplex)
  : Result ArithVar :=
  row_i <- Tableau.lookup (d_tableau s) x_i ;;
  Ok (selectSlack_loop above s x_i (ReducedRowVector.entries row_i)
        ARITHVAR_SENTINEL UINT32_MAX).

Definition selectSlackBelow : ArithVar -> Simplex -> Result ArithVar :=
  selectSlack false.
Definition selectSlackAbove : ArithVar -> Simplex -> Result ArithVar :=
  selectSlack true.

(** *** [generateConflictAbove], [generateConflictBelow] *)

(** The row scans of the two conflict generators, appending to the node
    builder [nb]. *)
Fixpoint generateConflictAbove_loop (m : ArithPartialModel.t)
    (conflictVar : ArithVar) (es : list Entry) (nb : list Node)
  : Result (list Node) :=
  match es with
  | [] => Ok nb
  | nbi :: rest =>
      let nonbasic := getArithVar nbi in
      if nonbasic =? conflictVar
      then generateConflictAbove_loop m conflictVar rest nb
      else
        let a_ij := snd nbi in
        _ <- Assert (negb (Rat.eqb a_ij 0%Qc)) ;;
        if Rat.ltb a_ij 0%Qc then
          let bound := getUpperConstraint m nonbasic in
          generateConflictAbove_loop m conflictVar rest (nb ++ [bound])
        else
          let bound := getLowerConstraint m nonbasic in
          generateConflictAbove_loop m conflictVar rest (nb ++ [bound])
  end.

Definition generateConflictAbove (conflictVar : ArithVar) (s : Simplex)
  : Result Node :=
  row_i <- Tableau.lookup (d_tableau s) conflictVar ;;
  let bound := getUpperConstraint (d_partialModel s) conflictVar in
  nb <- generateConflictAbove_loop (d_partialModel s) conflictVar
          (ReducedRowVector.entries row_i) [bound] ;;
  Ok (mkNode AND nb).

Fixpoint generateConflictBelow_loop (m : ArithPartialModel.t)
    (conflictVar : ArithVar) (es : list Entry) (nb : list Node)
  : Result (list Node) :=
  match es with
  | [] => Ok nb
  | nbi :: rest =>
      let nonbasic := getArithVar nbi in
      if nonbasic =? conflictVar
      then generateConflictBelow_loop m conflictVar rest nb
      else
        let a_ij := snd nbi in
        _ <- Assert (negb (Rat.eqb a_ij 0%Qc)) ;;
        if Rat.ltb a_ij 0%Qc then
          let bound := getLowerConstraint m nonbasic in
          generateConflictBelow_loop m conflictVar rest (nb ++ [bound])
        else
          let bound := getUpperConstraint m nonbasic in
          generateConflictBelow_loop m conflictVar rest (nb ++ [bound])
  end.

Definition generateConflictBelow (conflictVar : ArithVar) (s : Simplex)
  : Result Node :=
  row_i <- Tableau.lookup (d_tableau s) conflictVar ;;
  let bound := getLowerConstraint (d_partialModel s) conflictVar in
  nb <- generateConflictBelow_loop (d_partialModel s) conflictVar
          (ReducedRowVector.entries row_i) [bound] ;;
  Ok (mkNode AND nb).

(** *** [checkBasicForConflict] *)
Definition checkBasicForConflict (basic : ArithVar) (s : Simplex)
  : Result Node :=
  _ <- Assert (isBasic s basic) ;;
  let beta := getAssignment (d_partialModel s) basic in
  if belowLowerBound (d_partialModel s) basic beta true then
    x_j <- selectSlackBelow basic s ;;
    if x_j =? ARITHVAR_SENTINEL then generateConflictBelow basic s
    else Ok NullNode
  else if aboveUpperBound (d_partialModel s) basic beta true then
    x_j <- selectSlackAbove basic s ;;
    if x_j =? ARITHVAR_SENTINEL then generateConflictAbove basic s
    else Ok NullNode
  else Ok NullNode.

(** *** [pivotAndUpdate] *)

(** The loop of [pivotAndUpdate] over the basic variables. *)
Fixpoint pivotAndUpdate_loop (x_i x_j : ArithVar) (theta : DRat)
    (bs : list ArithVar) (s : Simplex) : Result Simplex :=
  match bs with
  | [] => Ok s
  | x_k :: bs' =>
      row_k <- Tableau.lookup (d_tableau s) x_k ;;
      s' <- (if negb (x_k =? x_i) && ReducedRowVector.has row_k x_j then
               a_kj <- ReducedRowVector.lookup row_k x_j ;;
               let nextAssignment :=
                 (getAssignment (d_partialModel s) x_k + theta * a_kj)%DR in
               let s := set_partialModel s
                          (setAssignment (d_partialModel s) x_k nextAssignment) in
               let s := bumpActivity s x_j in
               checkBasicVariable x_k s
             else Ok s) ;;
      pivotAndUpdate_loop x_i x_j theta bs' s'
  end.

(** The bookkeeping of wasteful pivots after the pivot counter. *)
Definition notePivot (s : Simplex) : Simplex :=
  let s := count Statistics.incPivots s in
  if d_foundAConflict s then
    let s := set_pivotsSinceConflict s
               ((d_pivotsSinceConflict s + 1) mod UINT32_MOD) in
    let s := if d_pivotsSinceConflict s =? 1
             then count Statistics.incChecksWithWastefulPivots s
             else s in
    count Statistics.incPivotsAfterConflict s
  else s.

(** The debug-output blocks of the source print and change nothing. *)
Definition pivotAndUpdate (x_i x_j : ArithVar) (v : DRat) (s : Simplex)
  : Result Simplex :=
  _ <- Assert (negb (x_i =? x_j)) ;;
  row_i <- Tableau.lookup (d_tableau s) x_i ;;
  a_ij <- ReducedRowVector.lookup row_i x_j ;;
  let betaX_i := getAssignment (d_partialModel s) x_i in
  let inv_aij := Rat.inverse a_ij in
  let theta := ((v - betaX_i) * inv_aij)%DR in
  let s := set_partialModel s (setAssignment (d_partialModel s) x_i v) in
  let tmp := (getAssignment (d_partialModel s) x_j + theta)%DR in
  let s := set_partialModel s (setAssignment (d_partialModel s) x_j tmp) in
  s <- pivotAndUpdate_loop x_i x_j theta (Tableau.basics (d_tableau s)) s ;;
  let s := notePivot s in
  T <- Tableau.pivot (d_tableau s) x_i x_j ;;
  let s := set_tableau s T in
  s <- checkBasicVariable x_j s ;;
  if negb (d_foundAConflict s) then
    let beta_j := getAssignment (d_partialModel s) x_j in
    if belowLowerBound (d_partialModel s) x_j beta_j true then
      r <- selectSlackBelow x_j s ;;
      Ok (if r =? ARITHVAR_SENTINEL then set_foundAConflict s true else s)
    else if aboveUpperBound (d_partialModel s) x_j beta_j true then
      r <- selectSlackAbove x_j s ;;
      Ok (if r =? ARITHVAR_SENTINEL then set_foundAConflict s true else s)
    else Ok s
  else Ok s.

(** *** [selectSmallestInconsistentVar] *)

(** One scan per queue: stale entries on top are popped, the first entry
    whose variable is basic and inconsistent stays on top and is
    returned.  The result is the variable and what is left of the queue. *)
Fixpoint selectSmallest_griggio (s : Simplex) (q : GriggioPQueue)
  : ArithVar * GriggioPQueue :=
  match q with
  | [] => (ARITHVAR_SENTINEL, [])
  | top :: rest =>
      let var := fst top in
      if isBasic s var && negb (assignmentIsConsistent (d_partialModel s) var)
      then (var, q)
      else selectSmallest_griggio s rest
  end.

Fixpoint selectSmallest_bland (s : Simplex) (q : BlandQueue)
  : ArithVar * BlandQueue :=
  match q with
  | [] => (ARITHVAR_SENTINEL, [])
  | var :: rest =>
      if isBasic s var && negb (assignmentIsConsistent (d_partialModel s) var)
      then (var, q)
      else selectSmallest_bland s rest
  end.

Definition selectSmallestInconsistentVar (s : Simplex) : ArithVar * Simplex :=
  if d_pivotStage s then
    let (var, q) := selectSmallest_griggio s (d_griggioRuleQueue s) in
    (var, set_griggioRuleQueue s q)
  else
    let (var, q) := selectSmallest_bland s (d_possiblyInconsistent s) in
    (var, set_possiblyInconsistent s q).

(** *** [betterConflict], [selectInitialConflict] *)

Definition betterConflict (x y : TNode) : Node :=
  if isNull x then y
  else if isNull y then x
  else if (getNumChildren x <=? getNumChildren y)%nat then x
  else y.

(** The first loop of [selectInitialConflict]: the queue is drained and
    the entries of basic, inconsistent variables are collected in [init]. *)
Fixpoint drainGriggio (s : Simplex) (q : GriggioPQueue) : list VarDRatPair :=
  match q with
  | [] => []
  | top :: rest =>
      let var := fst top in
      if isBasic s var && negb (assignmentIsConsistent (d_partialModel s) var)
      then top :: drainGriggio s rest
      else drainGriggio s rest
  end.

(** The second loop: every collected entry is pushed back and its
    variable is checked for a conflict.  [conflictChanges] is an [int]
    that is incremented at most once per entry. *)
Fixpoint selectInitialConflict_loop (init : list VarDRatPair)
    (bestConflict : Node) (conflictChanges : Z) (s : Simplex)
  : Result (Node * Z * Simplex) :=
  match init with
  | [] => Ok (bestConflict, conflictChanges, s)
  | i :: init' =>
      let x_i := fst i in
      let s := set_griggioRuleQueue s (griggio_push i (d_griggioRuleQueue s)) in
      possibleConflict <- checkBasicForConflict x_i s ;;
      if negb (isNull possibleConflict) then
        let better := betterConflict bestConflict possibleConflict in
        let conflictChanges :=
          if negb (Node_eqb better bestConflict)
          then (conflictChanges + 1)%Z else conflictChanges in
        let bestConflict := better in
        let s := count Statistics.incEarlyConflicts s in
        selectInitialConflict_loop init' bestConflict conflictChanges s
      else selectInitialConflict_loop init' bestConflict conflictChanges s
  end.

Definition selectInitialConflict (s : Simplex) : Result (Node * Simplex) :=
  let bestConflict := NullNode in
  let init := drainGriggio s (d_griggioRuleQueue s) in
  let s := set_griggioRuleQueue s [] in
  let conflictChanges := 0%Z in
  '(bestConflict, conflictChanges, s) <-
     selectInitialConflict_loop init bestConflict conflictChanges s ;;
  let s := if (1 <? conflictChanges)%Z
           then count Statistics.incEarlyConflictImprovements s
           else s in
  Ok (bestConflict, s).

(** *** [privateUpdateInconsistentVars] *)

(** How one pass through the body of the main loop ends. *)
Inductive BodyExit : Type :=
| Return (n : Node)
| Continue.

(** The body of the [while] loop, from the selection of [x_i] to the
    early-conflict check. *)
Definition privateUpdate_body (s : Simplex) : Result (BodyExit * Simplex) :=
  let (x_i, s) := selectSmallestInconsistentVar s in
  if x_i =? ARITHVAR_SENTINEL then Ok (Return NullNode, s)
  else
    let beta_i := getAssignment (d_partialModel s) x_i in
    r <- (if belowLowerBound (d_partialModel s) x_i beta_i true then
            l_i <- getLowerBound (d_partialModel s) x_i ;;
            x_j <- selectSlackBelow x_i s ;;
            if x_j =? ARITHVAR_SENTINEL then
              let s := count Statistics.incUpdateConflicts s in
              n <- generateConflictBelow x_i s ;;
              Ok (inl (n, s))
            else
              s <- pivotAndUpdate x_i x_j l_i s ;;
              Ok (inr (x_j, s))
          else if aboveUpperBound (d_partialModel s) x_i beta_i true then
            u_i <- getUpperBound (d_partialModel s) x_i ;;
            x_j <- selectSlackAbove x_i s ;;
            if x_j =? ARITHVAR_SENTINEL then
              let s := count Statistics.incUpdateConflicts s in
              n <- generateConflictAbove x_i s ;;
              Ok (inl (n, s))
            else
              s <- pivotAndUpdate x_i x_j u_i s ;;
              Ok (inr (x_j, s))
          else Ok (inr (ARITHVAR_SENTINEL, s))) ;;
    match r with
    | inl (n, s) => Ok (Return n, s)
    | inr (x_j, s) =>
        _ <- Assert (negb (x_j =? ARITHVAR_SENTINEL)) ;;
        earlyConflict <- checkBasicForConflict x_j s ;;
        if negb (isNull earlyConflict) then Ok (Return earlyConflict, s)
        else Ok (Continue, s)
    end.

(** How the [while] loop ends: by a [return] in its body, or because its
    condition failed with the iteration counter at [iter]. *)
Inductive LoopExit : Type :=
| Returned (n : Node)
| Exhausted (iter : N).

(** The [while] loop; [fuel] bounds the number of times its condition is
    evaluated, [iteratationNum] is the [uint32_t] iteration counter.  The
    paranoid [checkTableau] call at the top of the body is guarded by a
    debug flag that is off. *)
Fixpoint privateUpdate_loop (fuel : nat) (iteratationNum : N) (s : Simplex)
  : Fueled (LoopExit * Simplex) :=
  match fuel with
  | O => None
  | S fuel' =>
      if negb (d_pivotStage s) || (iteratationNum <=? d_numVariables s) then
        match privateUpdate_body s with
        | Fatal => Some Fatal
        | Ok (Return n, s) => Some (Ok (Returned n, s))
        | Ok (Continue, s) =>
            privateUpdate_loop fuel' ((iteratationNum + 1) mod UINT32_MOD) s
        end
      else Some (Ok (Exhausted iteratationNum, s))
  end.

(** What is left of the Griggio queue moves to the Bland queue. *)
Fixpoint migrateQueue (s : Simplex) (q : GriggioPQueue) (b : BlandQueue)
  : BlandQueue :=
  match q with
  | [] => b
  | top :: rest =>
      let var := fst top in
      if isBasic s var then migrateQueue s rest (bland_push var b)
      else migrateQueue s rest b
  end.

Definition queueEmpty {A : Type} (q : list A) : bool :=
  match q with [] => true | _ => false end.

(** The queue migration before the recursive call. *)
Definition enterBlandStage (s : Simplex) : Simplex :=
  let s := set_possiblyInconsistent
             (set_griggioRuleQueue s [])
             (migrateQueue s (d_griggioRuleQueue s)
                (d_possiblyInconsistent s)) in
  set_pivotStage s false.

Fixpoint privateUpdateInconsistentVars (fuel : nat) (s : Simplex)
  : Fueled (Node * Simplex) :=
  match fuel with
  | O => None
  | S fuel' =>
      if negb (d_pivotStage s || queueEmpty (d_griggioRuleQueue s))
      then Some Fatal
      else
        match privateUpdate_loop fuel' 0 s with
        | None => None
        | Some Fatal => Some Fatal
        | Some (Ok (Returned n, s)) => Some (Ok (n, s))
        | Some (Ok (Exhausted iteratationNum, s)) =>
            if d_pivotStage s && (d_numVariables s <=? iteratationNum) then
              privateUpdateInconsistentVars fuel' (enterBlandStage s)
            else Some Fatal
        end
  end.

(** *** [updateInconsistentVars] *)
(** The end of [updateInconsistentVars], from the two assertions on. *)
Definition finishCheck (possibleConflict : Node) (s : Simplex)
  : Result (Node * Simplex) :=
  _ <- Assert (negb (isNull possibleConflict) ||
               queueEmpty (d_griggioRuleQueue s)) ;;
  _ <- Assert (negb (isNull possibleConflict) ||
               queueEmpty (d_possiblyInconsistent s)) ;;
  let s := set_pivotStage s true in
  let s := set_griggioRuleQueue s [] in
  let s := set_possiblyInconsistent s [] in
  Ok (possibleConflict, s).

Definition updateInconsistentVars (fuel : nat) (s : Simplex)
  : Fueled (Node * Simplex) :=
  if queueEmpty (d_griggioRuleQueue s) then Some (Ok (NullNode, s))
  else
    let s := set_foundAConflict s false in
    let s := set_pivotsSinceConflict s 0 in
    match (if (1 <? length (d_griggioRuleQueue s))%nat
           then selectInitialConflict s
           else Ok (NullNode, s)) with
    | Fatal => Some Fatal
    | Ok (possibleConflict, s) =>
        if isNull possibleConflict then
          match privateUpdateInconsistentVars fuel s with
          | None => None
          | Some Fatal => Some Fatal
          | Some (Ok (possibleConflict, s)) =>
              Some (finishCheck possibleConflict s)
          end
        else Some (finishCheck possibleConflict s)
    end.

(** *** [computeRowValue], [checkTableau] *)

Fixpoint computeRowValue_loop (beta : ArithVar -> DRat) (basic : ArithVar)
    (es : list Entry) (sum : DRat) : DRat :=
  match es with
  | [] => sum
  | i :: rest =>
      let nonbasic := getArithVar i in
      if nonbasic =? basic then computeRowValue_loop beta basic rest sum
      else
        let coeff := getCoefficient i in
        let assignment := beta nonbasic in
        computeRowValue_loop beta basic rest (sum + assignment * coeff)%DR
  end.

Definition computeRowValue (x : ArithVar) (useSafe : bool) (s : Simplex)
  : Result DRat :=
  _ <- Assert (isBasic s x) ;;
  row <- Tableau.lookup (d_tableau s) x ;;
  Ok (computeRowValue_loop
        (fun y => getAssignmentSafe (d_partialModel s) y useSafe)
        (ReducedRowVector.basic row) (ReducedRowVector.entries row)
        DeltaRational.zero).

(** [checkTableau] asserts, for every basic variable, that the value of
    its row under the current assignment is its own assignment. *)
Fixpoint checkTableau_loop (s : Simplex) (bs : list ArithVar) : Result unit :=
  match bs with
  | [] => Ok tt
  | basic :: bs' =>
      row_k <- Tableau.lookup (d_tableau s) basic ;;
      let sum := computeRowValue_loop (getAssignment (d_partialModel s)) basic
                   (ReducedRowVector.entries row_k) DeltaRational.zero in
      let shouldBe := getAssignment (d_partialModel s) basic in
      _ <- Assert (DeltaRational.eqb sum shouldBe) ;;
      checkTableau_loop s bs'
  end.

Definition checkTableau (s : Simplex) : Result unit :=
  checkTableau_loop s (Tableau.basics (d_tableau s)).

(** * Properties *)

(** ** Tableau lookups *)

Lemma find_isBasic T x : Tableau.isBasic T x = true <-> exists r, Tableau.find T x = Some r.
Proof.
  unfold Tableau.isBasic, Tableau.find. induction T as [|r T IH]; simpl.
  - split; [ discriminate | intros [r H]; discriminate ].
  - destruct (ReducedRowVector.basic r =? x); simpl.
    + split; eauto.
    + exact IH.
Qed.

Lemma find_Some T x r :
  Tableau.find T x = Some r -> In r T /\ ReducedRowVector.basic r = x.
Proof.
  unfold Tableau.find. intros H. apply find_some in H.
  destruct H as [H1 H2]. apply N.eqb_eq in H2. auto.
Qed.

Lemma isBasic_In T x : Tableau.isBasic T x = true <-> In x (Tableau.basics T).
Proof.
  unfold Tableau.isBasic, Tableau.basics. rewrite existsb_exists, in_map_iff.
  split; intros [r [H1 H2]]; exists r.
  - apply N.eqb_eq in H2. auto.
  - split; [ exact H2 | now apply N.eqb_eq ].
Qed.

Lemma lookup_Ok T x r :
  Tableau.lookup T x = Ok r -> In r T /\ ReducedRowVector.basic r = x.
Proof.
  unfold Tableau.lookup. destruct (Tableau.find T x) eqn:E; try discriminate.
  intros H. injection H as <-. now apply find_Some.
Qed.

Lemma lookup_basic T x :
  Tableau.isBasic T x = true -> exists r, Tableau.lookup T x = Ok r.
Proof.
  intros H. apply find_isBasic in H. destruct H as [r H].
  exists r. unfold Tableau.lookup. now rewrite H.
Qed.

Lemma lookup_isBasic T x r : Tableau.lookup T x = Ok r -> Tableau.isBasic T x = true.
Proof.
  unfold Tableau.lookup. destruct (Tableau.find T x) eqn:E; try discriminate.
  intros _. apply find_isBasic. eauto.
Qed.

Lemma has_lookup r x :
  ReducedRowVector.has r x = true ->
  ReducedRowVector.lookup r x = Ok (ReducedRowVector.coeff r x).
Proof. unfold ReducedRowVector.lookup. now intros ->. Qed.

(** ** What the assignment updates leave alone *)

(** [frame s s']: [s'] differs from [s] at most in the assignment, the
    activity monitor and the two queues. *)
Definition frame (s s' : Simplex) : Prop :=
  d_tableau s' = d_tableau s /\
  d_numVariables s' = d_numVariables s /\
  d_pivotStage s' = d_pivotStage s /\
  d_foundAConflict s' = d_foundAConflict s /\
  d_pivotsSinceConflict s' = d_pivotsSinceConflict s /\
  d_statistics s' = d_statistics s /\
  d_out s' = d_out s /\
  d_lowerBound (d_partialModel s') = d_lowerBound (d_partialModel s) /\
  d_upperBound (d_partialModel s') = d_upperBound (d_partialModel s) /\
  d_lowerConstraint (d_partialModel s') = d_lowerConstraint (d_partialModel s) /\
  d_upperConstraint (d_partialModel s') = d_upperConstraint (d_partialModel s) /\
  d_safeAssignment (d_partialModel s') = d_safeAssignment (d_partialModel s).

Lemma frame_refl s : frame s s.
Proof. unfold frame. repeat split. Qed.

Lemma frame_trans s1 s2 s3 : frame s1 s2 -> frame s2 s3 -> frame s1 s3.
Proof.
  unfold frame. intros H1 H2.
  repeat match goal with H : _ /\ _ |- _ => destruct H end.
  repeat split; congruence.
Qed.

Lemma frame_isBasic s s' x : frame s s' -> isBasic s' x = isBasic s x.
Proof. unfold isBasic. intros [-> _]. reflexivity. Qed.

Ltac split_and := repeat match goal with |- _ /\ _ => split end.

Ltac inv_Ok :=
  repeat match goal with
  | H : Ok _ = Ok _ |- _ => injection H as H; subst
  | H : Fatal = Ok _ |- _ => discriminate H
  | H : bind ?r _ = Ok _ |- _ =>
      let a := fresh "a" in
      let E := fresh "E" in
      destruct r as [a|] eqn:E; simpl in H; [ | discriminate H ]
  end.

Lemma inconsistent_has_bound m x :
  assignmentIsConsistent m x = false ->
  belowLowerBound m x (getAssignment m x) true = false ->
  exists u, d_upperBound m x = Some u.
Proof.
  unfold assignmentIsConsistent, getAssignment. intros H1 H2.
  rewrite H2 in H1. simpl in H1. apply negb_false_iff in H1.
  unfold aboveUpperBound in H1.
  destruct (d_upperBound m x); [ eauto | discriminate ].
Qed.

Lemma below_has_bound m x v strict :
  belowLowerBound m x v strict = true -> exists l, d_lowerBound m x = Some l.
Proof.
  unfold belowLowerBound. destruct (d_lowerBound m x); [ eauto | discriminate ].
Qed.

Lemma above_has_bound m x v strict :
  aboveUpperBound m x v strict = true -> exists u, d_upperBound m x = Some u.
Proof.
  unfold aboveUpperBound. destruct (d_upperBound m x); [ eauto | discriminate ].
Qed.

(** [checkBasicVariable] only touches the queues, and cannot fail on a
    basic variable. *)
Lemma checkBasicVariable_total x s :
  isBasic s x = true ->
  exists gq bq,
    checkBasicVariable x s =
      Ok (set_possiblyInconsistent (set_griggioRuleQueue s gq) bq) /\
    (d_pivotStage s = true -> bq = d_possiblyInconsistent s) /\
    (d_pivotStage s = false -> gq = d_griggioRuleQueue s).
Proof.
  intros Hb. unfold checkBasicVariable. rewrite Hb. simpl.
  destruct (assignmentIsConsistent (d_partialModel s) x) eqn:Hc; simpl.
  - exists (d_griggioRuleQueue s), (d_possiblyInconsistent s).
    split; [ destruct s; reflexivity | split; reflexivity ].
  - destruct (d_pivotStage s) eqn:Hp.
    + destruct (belowLowerBound (d_partialModel s) x
                  (getAssignment (d_partialModel s) x) true) eqn:Hl.
      * destruct (below_has_bound _ _ _ _ Hl) as [l El].
        unfold getLowerBound. rewrite El. simpl.
        exists (griggio_push
                  (x, (l - getAssignment (d_partialModel s) x)%DR)
                  (d_griggioRuleQueue s)), (d_possiblyInconsistent s).
        split; [ reflexivity | split; [ reflexivity | discriminate ] ].
      * destruct (inconsistent_has_bound _ _ Hc Hl) as [u Eu].
        unfold getUpperBound. rewrite Eu. simpl.
        exists (griggio_push
                  (x, (getAssignment (d_partialModel s) x - u)%DR)
                  (d_griggioRuleQueue s)), (d_possiblyInconsistent s).
        split; [ reflexivity | split; [ reflexivity | discriminate ] ].
    + exists (d_griggioRuleQueue s),
        (bland_push x (d_possiblyInconsistent s)).
      split; [ destruct s; reflexivity | split; [ discriminate | reflexivity ] ].
Qed.

Lemma checkBasicVariable_Ok x s s' :
  checkBasicVariable x s = Ok s' ->
  isBasic s x = true /\
  exists gq bq, s' = set_possiblyInconsistent (set_griggioRuleQueue s gq) bq.
Proof.
  intros H. assert (Hb : isBasic s x = true).
  { unfold checkBasicVariable in H. destruct (isBasic s x); [ reflexivity | discriminate ]. }
  split; [ exact Hb | ].
  destruct (checkBasicVariable_total x s Hb) as (gq & bq & E & _).
  rewrite E in H. injection H as <-. eauto.
Qed.

Lemma checkBasicVariable_frame x s s' :
  checkBasicVariable x s = Ok s' ->
  frame s s' /\ d_assignment (d_partialModel s') = d_assignment (d_partialModel s).
Proof.
  intros H. apply checkBasicVariable_Ok in H.
  destruct H as (_ & gq & bq & ->). unfold frame. simpl. repeat split.
Qed.

Lemma frame_setAssignment s x v :
  frame s (set_partialModel s (setAssignment (d_partialModel s) x v)).
Proof. unfold frame. simpl. repeat split. Qed.

Lemma frame_bumpActivity s x : frame s (bumpActivity s x).
Proof. unfold frame. simpl. repeat split. Qed.

(** The loop of [update] runs to its end on the basic variables of the
    tableau. *)
Lemma update_loop_total x_i diff bs : forall s,
  (forall x, In x bs -> isBasic s x = true) ->
  exists s', update_loop x_i diff bs s = Ok s' /\ frame s s'.
Proof.
  induction bs as [|x_j bs IH]; intros s Hbs; simpl.
  - exists s. split; [ reflexivity | apply frame_refl ].
  - assert (Hj : isBasic s x_j = true) by (apply Hbs; now left).
    destruct (lookup_basic _ _ Hj) as [row_j Erow]. rewrite Erow. simpl.
    destruct (ReducedRowVector.has row_j x_i) eqn:Hhas.
    + rewrite (has_lookup _ _ Hhas). simpl.
      set (s1 := bumpActivity _ x_j).
      assert (F1 : frame s s1).
      { eapply frame_trans; [ apply frame_setAssignment | apply frame_bumpActivity ]. }
      assert (Hj1 : isBasic s1 x_j = true) by (now rewrite (frame_isBasic _ F1)).
      destruct (checkBasicVariable_total x_j s1 Hj1) as (gq & bq & E & _).
      rewrite E. simpl.
      set (s2 := set_possiblyInconsistent _ bq) in *.
      assert (F2 : frame s s2).
      { eapply frame_trans; [ exact F1 | ].
        apply checkBasicVariable_frame in E. apply E. }
      destruct (IH s2) as (s' & E' & F').
      { intros x Hx. rewrite (frame_isBasic _ F2). apply Hbs. now right. }
      exists s'. split; [ exact E' | exact (frame_trans F2 F') ].
    + simpl. destruct (IH s) as (s' & E' & F').
      { intros x Hx. apply Hbs. now right. }
      exists s'. auto.
Qed.

Lemma update_total x_i v s :
  isBasic s x_i = false ->
  exists s', update x_i v s = Ok s' /\
    d_tableau s' = d_tableau s /\
    d_out s' = d_out s /\
    d_pivotStage s' = d_pivotStage s /\
    d_lowerBound (d_partialModel s') = d_lowerBound (d_partialModel s) /\
    d_upperBound (d_partialModel s') = d_upperBound (d_partialModel s) /\
    d_lowerConstraint (d_partialModel s') = d_lowerConstraint (d_partialModel s) /\
    d_upperConstraint (d_partialModel s') = d_upperConstraint (d_partialModel s).
Proof.
  intros Hnb. unfold update. rewrite Hnb. simpl.
  set (s0 := count Statistics.incUpdates s).
  destruct (update_loop_total x_i
              (v - getAssignment (d_partialModel s) x_i)%DR
              (Tableau.basics (d_tableau s0)) s0) as (s1 & E & F).
  { intros x Hx. apply isBasic_In. exact Hx. }
  change (d_tableau s) with (d_tableau s0) at 1.
  rewrite E. simpl. eexists. split; [ reflexivity | ].
  unfold frame in F. simpl in *.
  repeat match goal with H : _ /\ _ |- _ => destruct H end.
  repeat split; assumption.
Qed.

(** ** The three assertion procedures never abort *)

Lemma AssertLower_total x c t s :
  exists b s', AssertLower x c t s = Ok (b, s').
Proof.
  unfold AssertLower.
  destruct (belowLowerBound _ x c false); [ eauto | ].
  destruct (aboveUpperBound _ x c true); [ eauto | ].
  cbv zeta.
  match goal with |- context [ isBasic ?s0 x ] => set (s1 := s0) end.
  destruct (isBasic s1 x) eqn:Hb; simpl.
  - destruct (checkBasicVariable_total x s1 Hb) as (gq & bq & E & _).
    rewrite E. simpl. eauto.
  - destruct (DeltaRational.ltb _ c); simpl; [ | eauto ].
    destruct (update_total x c s1 Hb) as (s' & E & _).
    rewrite E. simpl. eauto.
Qed.

Lemma AssertUpper_total x c t s :
  exists b s', AssertUpper x c t s = Ok (b, s').
Proof.
  unfold AssertUpper.
  destruct (aboveUpperBound _ x c false); [ eauto | ].
  destruct (belowLowerBound _ x c true); [ eauto | ].
  cbv zeta.
  match goal with |- context [ isBasic ?s0 x ] => set (s1 := s0) end.
  destruct (isBasic s1 x) eqn:Hb; simpl.
  - destruct (checkBasicVariable_total x s1 Hb) as (gq & bq & E & _).
    rewrite E. simpl. eauto.
  - destruct (DeltaRational.gtb _ c); simpl; [ | eauto ].
    destruct (update_total x c s1 Hb) as (s' & E & _).
    rewrite E. simpl. eauto.
Qed.

Lemma AssertEquality_total x c t s :
  exists b s', AssertEquality x c t s = Ok (b, s').
Proof.
  unfold AssertEquality.
  destruct (belowLowerBound _ x c false && aboveUpperBound _ x c false);
    [ eauto | ].
  destruct (aboveUpperBound _ x c true); [ eauto | ].
  destruct (belowLowerBound _ x c true); [ eauto | ].
  cbv zeta.
  match goal with |- context [ isBasic ?s0 x ] => set (s1 := s0) end.
  destruct (isBasic s1 x) eqn:Hb; simpl.
  - destruct (checkBasicVariable_total x s1 Hb) as (gq & bq & E & _).
    rewrite E. simpl. eauto.
  - destruct (negb (DeltaRational.eqb _ c)); simpl; [ | eauto ].
    destruct (update_total x c s1 Hb) as (s' & E & _).
    rewrite E. simpl. eauto.
Qed.

(** ** Example states *)

(** A fresh engine over a tableau: every assignment is zero, no bound is
    installed, the queues are empty and the engine is in its Griggio
    stage. *)
Definition freshModel : ArithPartialModel.t :=
  ArithPartialModel.mk
    (fun _ => DeltaRational.zero) (fun _ => DeltaRational.zero)
    (fun _ => None) (fun _ => None)
    (fun _ => NullNode) (fun _ => NullNode).

Definition freshSimplex (T : Tableau.t) (numVariables : N) : Simplex :=
  mkSimplex freshModel T (fun _ => 0) numVariables [] [] true false 0
    Statistics.init [].

Definition intRow (basic : ArithVar) (es : list (ArithVar * Z)) : Row :=
  ReducedRowVector.mk basic (map (fun e => (fst e, Rat.of_Z (snd e))) es).

Definition intBound (z : Z) : DRat := DeltaRational.of_rational (Rat.of_Z z).

(** The state reached from [s] by a call that cannot abort. *)
Definition after {A : Type} (r : Result (A * Simplex)) (s : Simplex) : Simplex :=
  match r with Ok (_, s') => s' | Fatal => s end.

(** ** Bounds are stored in order *)

(** [boundsOrdered m x]: the stored bounds of [x] do not cross. *)
Definition boundsOrdered (m : ArithPartialModel.t) (x : ArithVar) : Prop :=
  forall l u,
    d_lowerBound m x = Some l -> d_upperBound m x = Some u -> (l <= u)%DR.

Lemma belowLowerBound_weak m x v :
  belowLowerBound m x v false = true <->
  exists l, d_lowerBound m x = Some l /\ (v <= l)%DR.
Proof.
  unfold belowLowerBound. destruct (d_lowerBound m x) as [l|].
  - rewrite DRatFacts.leb_le. split.
    + intros H. eauto.
    + intros (l' & E & H). now injection E as ->.
  - split; [ discriminate | intros (l & E & _); discriminate ].
Qed.

Lemma belowLowerBound_strict m x v :
  belowLowerBound m x v true = true <->
  exists l, d_lowerBound m x = Some l /\ (v < l)%DR.
Proof.
  unfold belowLowerBound. destruct (d_lowerBound m x) as [l|].
  - rewrite DRatFacts.ltb_lt. split.
    + intros H. eauto.
    + intros (l' & E & H). now injection E as ->.
  - split; [ discriminate | intros (l & E & _); discriminate ].
Qed.

Lemma aboveUpperBound_weak m x v :
  aboveUpperBound m x v false = true <->
  exists u, d_upperBound m x = Some u /\ (u <= v)%DR.
Proof.
  unfold aboveUpperBound. destruct (d_upperBound m x) as [u|].
  - rewrite DRatFacts.geb_le. split.
    + intros H. eauto.
    + intros (u' & E & H). now injection E as ->.
  - split; [ discriminate | intros (u & E & _); discriminate ].
Qed.

Lemma aboveUpperBound_strict m x v :
  aboveUpperBound m x v true = true <->
  exists u, d_upperBound m x = Some u /\ (u < v)%DR.
Proof.
  unfold aboveUpperBound. destruct (d_upperBound m x) as [u|].
  - rewrite DRatFacts.gtb_lt. split.
    + intros H. eauto.
    + intros (u' & E & H). now injection E as ->.
  - split; [ discriminate | intros (u & E & _); discriminate ].
Qed.

(** ** C4: [AssertLower] and its conflict *)

(** C4.  On a state whose stored bounds of [x] do not cross,
    [AssertLower(x, c, t)] returns true exactly when [x] has an upper
    bound [u] with [c > u].  In that case the conflict sink receives the
    single node [AND(getUpperConstraint(x), t)] and the partial model is
    the one before the call: no bound, explanation or assignment changes. *)
Theorem AssertLower_conflict_iff (s : Simplex) (x : ArithVar) (c : DRat)
    (t : TNode) :
  boundsOrdered (d_partialModel s) x ->
  exists b s',
    AssertLower x c t s = Ok (b, s') /\
    (b = true <->
     exists u, d_upperBound (d_partialModel s) x = Some u /\ (u < c)%DR) /\
    (b = true ->
     d_out s' =
       d_out s ++ [mkNode AND [getUpperConstraint (d_partialModel s) x; t]] /\
     d_partialModel s' = d_partialModel s).
Proof.
  intros Hord.
  destruct (AssertLower_total x c t s) as (b & s' & E).
  exists b, s'. split; [ exact E | ].
  unfold AssertLower in E.
  destruct (belowLowerBound (d_partialModel s) x c false) eqn:Hlow.
  - injection E as <- <-. split; [ | discriminate ].
    split; [ discriminate | ].
    intros (u & Eu & Hu). exfalso.
    apply belowLowerBound_weak in Hlow. destruct Hlow as (l & El & Hl).
    pose proof (Hord l u El Eu) as Hlu.
    apply (proj1 (DRatFacts.le_not_lt c u)); [ | exact Hu ].
    eapply DRatFacts.le_trans; eauto.
  - destruct (aboveUpperBound (d_partialModel s) x c true) eqn:Hup.
    + injection E as <- <-. split.
      * split; [ intros _ | reflexivity ].
        now apply aboveUpperBound_strict.
      * intros _. split; reflexivity.
    + cbv zeta in E. inv_Ok. split; [ | discriminate ].
      split; [ discriminate | ].
      intros Hex. apply aboveUpperBound_strict in Hex. congruence.
Qed.

(** The engine after [x0 >= 0] and [x0 <= 1]. *)
Definition boundedState : Simplex :=
  let s := freshSimplex [] 1 in
  let s := after (AssertLower 0 (intBound 0) (atom 0) s) s in
  after (AssertUpper 0 (intBound 1) (atom 1) s) s.

(** The hypothesis of C4 holds in that state; there [AssertLower] with a
    constant above the upper bound is the conflicting call. *)
Lemma AssertLower_conflict_iff_witness :
  let s := boundedState in
  boundsOrdered (d_partialModel s) 0 /\
  exists b s',
    AssertLower 0 (intBound 2) (atom 2) s = Ok (b, s') /\
    (b = true <->
     exists u, d_upperBound (d_partialModel s) 0 = Some u /\
               (u < intBound 2)%DR) /\
    (b = true ->
     d_out s' =
       d_out s ++
       [mkNode AND [getUpperConstraint (d_partialModel s) 0; atom 2]] /\
     d_partialModel s' = d_partialModel s).
Proof.
  intros s.
  assert (H : boundsOrdered (d_partialModel s) 0).
  { intros l u Hl Hu. vm_compute in Hl, Hu.
    injection Hl as <-. injection Hu as <-.
    apply DRatFacts.leb_le. vm_compute. reflexivity. }
  split; [ exact H | ].
  apply (@AssertLower_conflict_iff s 0 (intBound 2) (atom 2) H).
Defined.

(** ** C10: [AssertEquality] and the two explanations *)

(** [redundantEquality m x c]: both [c <= l(x)] and [u(x) <= c] already
    hold, the case in which [AssertEquality] returns at once. *)
Definition redundantEquality (m : ArithPartialModel.t) (x : ArithVar)
    (c : DRat) : Prop :=
  (exists l, d_lowerBound m x = Some l /\ (c <= l)%DR) /\
  (exists u, d_upperBound m x = Some u /\ (u <= c)%DR).

Lemma redundantEquality_test m x c :
  belowLowerBound m x c false && aboveUpperBound m x c false = true <->
  redundantEquality m x c.
Proof.
  unfold redundantEquality.
  rewrite andb_true_iff, belowLowerBound_weak, aboveUpperBound_weak.
  reflexivity.
Qed.





(** ** C3: the shape of generated conflicts *)

(** The entries of a row other than the one of its basic variable, in
    iteration order. *)
Definition nonbasicEntries (x_i : ArithVar) (es : list Entry) : list Entry :=
  filter (fun e => negb (fst e =? x_i)) es.

(** Every coefficient next to a non-basic variable is nonzero. *)
Definition nonzeroCoefficients (x_i : ArithVar) (es : list Entry) : Prop :=
  forall e, In e es -> fst e <> x_i -> snd e <> 0%Qc.

(** The conjunct that [generateConflictBelow] reads off an entry, and the
    one that [generateConflictAbove] reads off it. *)
Definition conjunctBelow (m : ArithPartialModel.t) (e : Entry) (n : Node)
  : Prop :=
  ((snd e < 0)%Qc -> n = getLowerConstraint m (fst e)) /\
  ((0 < snd e)%Qc -> n = getUpperConstraint m (fst e)).

Definition conjunctAbove (m : ArithPartialModel.t) (e : Entry) (n : Node)
  : Prop :=
  ((0 < snd e)%Qc -> n = getLowerConstraint m (fst e)) /\
  ((snd e < 0)%Qc -> n = getUpperConstraint m (fst e)).

Lemma nonbasicEntries_cons x_i e es :
  nonbasicEntries x_i (e :: es) =
  if fst e =? x_i then nonbasicEntries x_i es else e :: nonbasicEntries x_i es.
Proof.
  unfold nonbasicEntries. cbn [filter].
  destruct (fst e =? x_i); reflexivity.
Qed.

Lemma nonzeroCoefficients_tail x_i e es :
  nonzeroCoefficients x_i (e :: es) -> nonzeroCoefficients x_i es.
Proof. intros H e' Hin. apply H. now right. Qed.

Lemma Rat_ltb_false_pos (a : Rational) :
  a <> 0%Qc -> Rat.ltb a 0%Qc = false -> ~ (a < 0)%Qc.
Proof.
  intros _ H Hlt. apply Rat.rat_ltb_lt in Hlt. congruence.
Qed.

Lemma Rat_lt_asym (a b : Rational) : (a < b)%Qc -> (b < a)%Qc -> False.
Proof.
  intros H1 H2. apply (Qclt_not_le _ _ H1). now apply Qclt_le_weak.
Qed.

Lemma generateConflictBelow_loop_spec m x_i es : forall nb,
  nonzeroCoefficients x_i es ->
  exists cs,
    generateConflictBelow_loop m x_i es nb = Ok (nb ++ cs) /\
    Forall2 (conjunctBelow m) (nonbasicEntries x_i es) cs.
Proof.
  induction es as [|e es IH]; intros nb Hnz; simpl.
  - exists []. rewrite app_nil_r. split; [ reflexivity | constructor ].
  - unfold getArithVar. pose proof (nonzeroCoefficients_tail Hnz) as Hnz'.
    destruct (fst e =? x_i) eqn:Ex; simpl.
    + apply IH. exact Hnz'.
    + assert (Ha : snd e <> 0%Qc).
      { apply Hnz; [ now left | now apply N.eqb_neq ]. }
      apply Rat.rat_eqb_neq in Ha. rewrite Ha. simpl.
      destruct (Rat.ltb (snd e) 0%Qc) eqn:Hlt;
        (match goal with
         | |- context [ generateConflictBelow_loop _ _ _ ?nb' ] =>
             destruct (IH nb' Hnz') as (cs & E & F)
         end;
         rewrite E, <- app_assoc; simpl; eexists; split; [ reflexivity | ];
         constructor; [ | exact F ]; split; intros Hs).
      * reflexivity.
      * exfalso. apply Rat.rat_ltb_lt in Hlt. exact (Rat_lt_asym Hlt Hs).
      * exfalso. apply Rat.rat_ltb_lt in Hs. congruence.
      * reflexivity.
Qed.

Lemma generateConflictAbove_loop_spec m x_i es : forall nb,
  nonzeroCoefficients x_i es ->
  exists cs,
    generateConflictAbove_loop m x_i es nb = Ok (nb ++ cs) /\
    Forall2 (conjunctAbove m) (nonbasicEntries x_i es) cs.
Proof.
  induction es as [|e es IH]; intros nb Hnz; simpl.
  - exists []. rewrite app_nil_r. split; [ reflexivity | constructor ].
  - unfold getArithVar. pose proof (nonzeroCoefficients_tail Hnz) as Hnz'.
    destruct (fst e =? x_i) eqn:Ex; simpl.
    + apply IH. exact Hnz'.
    + assert (Ha : snd e <> 0%Qc).
      { apply Hnz; [ now left | now apply N.eqb_neq ]. }
      apply Rat.rat_eqb_neq in Ha. rewrite Ha. simpl.
      destruct (Rat.ltb (snd e) 0%Qc) eqn:Hlt;
        (match goal with
         | |- context [ generateConflictAbove_loop _ _ _ ?nb' ] =>
             destruct (IH nb' Hnz') as (cs & E & F)
         end;
         rewrite E, <- app_assoc; simpl; eexists; split; [ reflexivity | ];
         constructor; [ | exact F ]; split; intros Hs).
      * exfalso. apply Rat.rat_ltb_lt in Hlt. exact (Rat_lt_asym Hlt Hs).
      * reflexivity.
      * reflexivity.
      * exfalso. apply Rat.rat_ltb_lt in Hs. congruence.
Qed.

(** C3.  For a basic variable [x_i] whose row has nonzero coefficients,
    [generateConflictBelow(x_i)] is the [AND] of [getLowerConstraint(x_i)]
    followed, for each non-basic [x_j] of the row in iteration order, by
    [getLowerConstraint(x_j)] if [a_ij < 0] and [getUpperConstraint(x_j)]
    if [a_ij > 0]; [generateConflictAbove(x_i)] is the [AND] of
    [getUpperConstraint(x_i)] followed by [getLowerConstraint(x_j)] if
    [a_ij > 0] and [getUpperConstraint(x_j)] if [a_ij < 0]. *)
Theorem generateConflict_structure (s : Simplex) (x_i : ArithVar) (row_i : Row) :
  Tableau.lookup (d_tableau s) x_i = Ok row_i ->
  nonzeroCoefficients x_i (ReducedRowVector.entries row_i) ->
  (exists cs,
     generateConflictBelow x_i s =
       Ok (mkNode AND (getLowerConstraint (d_partialModel s) x_i :: cs)) /\
     Forall2 (conjunctBelow (d_partialModel s))
       (nonbasicEntries x_i (ReducedRowVector.entries row_i)) cs) /\
  (exists cs,
     generateConflictAbove x_i s =
       Ok (mkNode AND (getUpperConstraint (d_partialModel s) x_i :: cs)) /\
     Forall2 (conjunctAbove (d_partialModel s))
       (nonbasicEntries x_i (ReducedRowVector.entries row_i)) cs).
Proof.
  intros Hrow Hnz. split.
  - unfold generateConflictBelow. rewrite Hrow. simpl.
    destruct (generateConflictBelow_loop_spec (d_partialModel s)
                [getLowerConstraint (d_partialModel s) x_i] Hnz)
      as (cs & E & F).
    rewrite E. simpl. eauto.
  - unfold generateConflictAbove. rewrite Hrow. simpl.
    destruct (generateConflictAbove_loop_spec (d_partialModel s)
                [getUpperConstraint (d_partialModel s) x_i] Hnz)
      as (cs & E & F).
    rewrite E. simpl. eauto.
Qed.

Definition nonzeroCoefficientsb (x_i : ArithVar) (es : list Entry) : bool :=
  forallb (fun e => (fst e =? x_i) || negb (Rat.eqb (snd e) 0%Qc)) es.

Lemma nonzeroCoefficientsb_ok x_i es :
  nonzeroCoefficientsb x_i es = true -> nonzeroCoefficients x_i es.
Proof.
  unfold nonzeroCoefficientsb, nonzeroCoefficients. rewrite forallb_forall.
  intros H e Hin Hne. specialize (H e Hin).
  apply N.eqb_neq in Hne. rewrite Hne in H. simpl in H.
  apply negb_true_iff in H. now apply Rat.rat_eqb_neq.
Qed.

(** The tableau of the single row [x2 = x0 + x1]. *)
Definition sumTableau : Tableau.t := [intRow 2 [(0, 1%Z); (1, 1%Z); (2, (-1)%Z)]].

(** The engine after [x0 >= 1], [x1 >= 1] and [x2 <= 1] on that tableau. *)
Definition sumConflictState : Simplex :=
  let s := freshSimplex sumTableau 3 in
  let s := after (AssertLower 0 (intBound 1) (atom 10) s) s in
  let s := after (AssertLower 1 (intBound 1) (atom 11) s) s in
  after (AssertUpper 2 (intBound 1) (atom 12) s) s.

(** C3 on the row [x2 = x0 + x1] of that state. *)
Lemma generateConflict_structure_witness :
  let s := sumConflictState in
  let row := intRow 2 [(0, 1%Z); (1, 1%Z); (2, (-1)%Z)] in
  (exists cs,
     generateConflictBelow 2 s =
       Ok (mkNode AND (getLowerConstraint (d_partialModel s) 2 :: cs)) /\
     Forall2 (conjunctBelow (d_partialModel s))
       (nonbasicEntries 2 (ReducedRowVector.entries row)) cs) /\
  (exists cs,
     generateConflictAbove 2 s =
       Ok (mkNode AND (getUpperConstraint (d_partialModel s) 2 :: cs)) /\
     Forall2 (conjunctAbove (d_partialModel s))
       (nonbasicEntries 2 (ReducedRowVector.entries row)) cs).
Proof.
  intros s row.
  apply (@generateConflict_structure s 2 row).
  - vm_compute. reflexivity.
  - apply nonzeroCoefficientsb_ok. vm_compute. reflexivity.
Defined.

(** On that state the conflict above [x2] is the one of the first
    scenario: the upper bound of [x2] and the lower bounds of [x0], [x1]. *)
Example generateConflictAbove_sum :
  generateConflictAbove 2 sumConflictState
    = Ok (mkNode AND [atom 12; atom 10; atom 11]).
Proof. vm_compute. reflexivity. Qed.

(** ** C9: [selectSmallestInconsistentVar] *)

(** [live s x]: [x] is basic and its assignment breaks one of its bounds.
    A queue entry whose variable is not live is stale. *)
Definition live (s : Simplex) (x : ArithVar) : bool :=
  isBasic s x && negb (assignmentIsConsistent (d_partialModel s) x).

Section QueueScan.
Variable A : Type.
Variable key : A -> ArithVar.
Variable s : Simplex.

(** The common shape of the two scans. *)
Fixpoint scanQueue (q : list A) : ArithVar * list A :=
  match q with
  | [] => (ARITHVAR_SENTINEL, [])
  | top :: rest => if live s (key top) then (key top, q) else scanQueue rest
  end.

Lemma scanQueue_split q :
  exists popped,
    q = popped ++ snd (scanQueue q) /\
    Forall (fun e => live s (key e) = false) popped.
Proof.
  induction q as [|top rest IH]; simpl.
  - exists []. split; [ reflexivity | constructor ].
  - destruct (live s (key top)) eqn:E; simpl.
    + exists []. split; [ reflexivity | constructor ].
    + destruct IH as (popped & H1 & H2).
      exists (top :: popped). split.
      * simpl. now rewrite <- H1.
      * now constructor.
Qed.

Lemma scanQueue_result q :
  (fst (scanQueue q) = ARITHVAR_SENTINEL /\ snd (scanQueue q) = [] /\
   Forall (fun e => live s (key e) = false) q) \/
  (exists top rest,
     snd (scanQueue q) = top :: rest /\ key top = fst (scanQueue q) /\
     live s (key top) = true).
Proof.
  induction q as [|top rest IH]; simpl.
  - left. repeat split. constructor.
  - destruct (live s (key top)) eqn:E; simpl.
    + right. exists top, rest. auto.
    + destruct IH as [(H1 & H2 & H3) | H].
      * left. repeat split; auto.
      * right. exact H.
Qed.

Lemma scanQueue_sentinel q :
  live s ARITHVAR_SENTINEL = false ->
  (fst (scanQueue q) = ARITHVAR_SENTINEL <->
   Forall (fun e => live s (key e) = false) q).
Proof.
  intros Hs. destruct (scanQueue_result q) as [(H1 & H2 & H3) | H].
  - tauto.
  - destruct H as (top & rest & H1 & H2 & H3). split.
    + intros E. rewrite H2, E in H3. congruence.
    + intros HF. exfalso.
      destruct (scanQueue_split q) as (popped & Hq & _).
      rewrite H1 in Hq. rewrite Forall_forall in HF.
      assert (Hin : In top q).
      { rewrite Hq. apply in_or_app. right. now left. }
      specialize (HF top Hin). congruence.
Qed.
End QueueScan.

Lemma selectSmallest_griggio_scan s q :
  selectSmallest_griggio s q = scanQueue fst s q.
Proof.
  induction q as [|top rest IH]; simpl; [ reflexivity | ].
  unfold live. rewrite IH. reflexivity.
Qed.

Lemma selectSmallest_bland_scan s q :
  selectSmallest_bland s q = scanQueue (fun x => x) s q.
Proof.
  induction q as [|top rest IH]; simpl; [ reflexivity | ].
  unfold live. rewrite IH. reflexivity.
Qed.

(** The variables waiting in the active queue. *)
Definition activeQueue (s : Simplex) : list ArithVar :=
  if d_pivotStage s then map fst (d_griggioRuleQueue s)
  else d_possiblyInconsistent s.

(** C9.  On a state in which the sentinel is not a basic variable,
    [selectSmallestInconsistentVar] returns the sentinel or a variable
    that is basic and inconsistent.  It changes nothing but the active
    queue, from whose top it pops stale entries only; a returned variable
    is the top of what is left, and the sentinel is returned exactly when
    no entry of the active queue is basic and inconsistent (and then the
    active queue is left empty). *)
Theorem selectSmallestInconsistentVar_spec (s : Simplex) :
  isBasic s ARITHVAR_SENTINEL = false ->
  let var := fst (selectSmallestInconsistentVar s) in
  let s' := snd (selectSmallestInconsistentVar s) in
  (var = ARITHVAR_SENTINEL \/
   (isBasic s var = true /\
    assignmentIsConsistent (d_partialModel s) var = false)) /\
  (exists gq bq,
     s' = set_possiblyInconsistent (set_griggioRuleQueue s gq) bq /\
     (d_pivotStage s = true -> bq = d_possiblyInconsistent s) /\
     (d_pivotStage s = false -> gq = d_griggioRuleQueue s)) /\
  (exists popped,
     activeQueue s = popped ++ activeQueue s' /\
     Forall (fun x => live s x = false) popped) /\
  (var <> ARITHVAR_SENTINEL -> exists rest, activeQueue s' = var :: rest) /\
  (var = ARITHVAR_SENTINEL <->
   Forall (fun x => live s x = false) (activeQueue s)) /\
  (var = ARITHVAR_SENTINEL -> activeQueue s' = []).
Proof.
  intros Hsent var s'.
  assert (Hlive : live s ARITHVAR_SENTINEL = false).
  { unfold live. now rewrite Hsent. }
  subst var s'. unfold selectSmallestInconsistentVar, activeQueue.
  destruct (d_pivotStage s) eqn:Hp.
  - rewrite selectSmallest_griggio_scan.
    pose proof (scanQueue_result fst s (d_griggioRuleQueue s)) as Hres.
    pose proof (scanQueue_split fst s (d_griggioRuleQueue s)) as Hsplit.
    pose proof (scanQueue_sentinel fst s (d_griggioRuleQueue s) Hlive) as Hiff.
    destruct (scanQueue fst s (d_griggioRuleQueue s)) as [var q] eqn:Escan.
    simpl in *. rewrite Hp.
    split; [ | split; [ | split; [ | split; [ | split ] ] ] ].
    + destruct Hres as [(H1 & _) | (top & rest & H1 & H2 & H3)]; [ now left | ].
      right. rewrite <- H2. unfold live in H3.
      apply andb_true_iff in H3. destruct H3 as [H3 H4].
      apply negb_true_iff in H4. auto.
    + exists q, (d_possiblyInconsistent s).
      split; [ destruct s; reflexivity | split; [ reflexivity | discriminate ] ].
    + destruct Hsplit as (popped & H1 & H2).
      exists (map fst popped). split.
      * rewrite H1 at 1. apply map_app.
      * rewrite Forall_map. exact H2.
    + intros Hne.
      destruct Hres as [(H1 & _) | (top & rest & H1 & H2 & H3)]; [ congruence | ].
      exists (map fst rest). rewrite H1. simpl. now rewrite H2.
    + rewrite Hiff. now rewrite Forall_map.
    + intros E.
      destruct Hres as [(_ & H1 & _) | (top & rest & H1 & H2 & H3)].
      * now rewrite H1.
      * rewrite H2, E in H3. congruence.
  - rewrite selectSmallest_bland_scan.
    pose proof (scanQueue_result (fun x => x) s (d_possiblyInconsistent s)) as Hres.
    pose proof (scanQueue_split (fun x => x) s (d_possiblyInconsistent s)) as Hsplit.
    pose proof (scanQueue_sentinel (fun x => x) s (d_possiblyInconsistent s) Hlive) as Hiff.
    destruct (scanQueue (fun x => x) s (d_possiblyInconsistent s)) as [var q] eqn:Escan.
    simpl in *. rewrite Hp.
    split; [ | split; [ | split; [ | split; [ | split ] ] ] ].
    + destruct Hres as [(H1 & _) | (top & rest & H1 & H2 & H3)]; [ now left | ].
      right. rewrite <- H2. unfold live in H3.
      apply andb_true_iff in H3. destruct H3 as [H3 H4].
      apply negb_true_iff in H4. auto.
    + exists (d_griggioRuleQueue s), q.
      split; [ destruct s; reflexivity | split; [ discriminate | reflexivity ] ].
    + exact Hsplit.
    + intros Hne.
      destruct Hres as [(H1 & _) | (top & rest & H1 & H2 & H3)]; [ congruence | ].
      exists rest. rewrite H1. now rewrite H2.
    + exact Hiff.
    + intros E.
      destruct Hres as [(_ & H1 & _) | (top & rest & H1 & H2 & H3)].
      * exact H1.
      * rewrite H2, E in H3. congruence.
Qed.

(** C9 on the state of the first scenario, whose Griggio queue holds the
    violated basic variable [x2]. *)
Lemma selectSmallestInconsistentVar_spec_witness :
  let s := sumConflictState in
  let var := fst (selectSmallestInconsistentVar s) in
  let s' := snd (selectSmallestInconsistentVar s) in
  (var = ARITHVAR_SENTINEL \/
   (isBasic s var = true /\
    assignmentIsConsistent (d_partialModel s) var = false)) /\
  (exists gq bq,
     s' = set_possiblyInconsistent (set_griggioRuleQueue s gq) bq /\
     (d_pivotStage s = true -> bq = d_possiblyInconsistent s) /\
     (d_pivotStage s = false -> gq = d_griggioRuleQueue s)) /\
  (exists popped,
     activeQueue s = popped ++ activeQueue s' /\
     Forall (fun x => live s x = false) popped) /\
  (var <> ARITHVAR_SENTINEL -> exists rest, activeQueue s' = var :: rest) /\
  (var = ARITHVAR_SENTINEL <->
   Forall (fun x => live s x = false) (activeQueue s)) /\
  (var = ARITHVAR_SENTINEL -> activeQueue s' = []).
Proof.
  intros s. apply (@selectSmallestInconsistentVar_spec s).
  vm_compute. reflexivity.
Defined.

Example selectSmallestInconsistentVar_sum :
  fst (selectSmallestInconsistentVar sumConflictState) = 2.
Proof. vm_compute. reflexivity. Qed.

(** ** C5: slack selection *)

(** The bound margins of the specification, an absent bound being
    infinite. *)
Definition belowUpper (m : ArithPartialModel.t) (x : ArithVar) : Prop :=
  forall u, d_upperBound m x = Some u -> (d_assignment m x < u)%DR.

Definition aboveLower (m : ArithPartialModel.t) (x : ArithVar) : Prop :=
  forall l, d_lowerBound m x = Some l -> (l < d_assignment m x)%DR.

(** [validSlack above s x_i (x_j, a_ij)]: the entry is a slack for the
    violated basic variable [x_i], above its upper bound or below its
    lower bound. *)
Definition validSlack (above : bool) (s : Simplex) (x_i : ArithVar)
    (e : Entry) : Prop :=
  fst e <> x_i /\
  if above then
    ((snd e < 0)%Qc /\ belowUpper (d_partialModel s) (fst e)) \/
    ((0 < snd e)%Qc /\ aboveLower (d_partialModel s) (fst e))
  else
    ((0 < snd e)%Qc /\ belowUpper (d_partialModel s) (fst e)) \/
    ((snd e < 0)%Qc /\ aboveLower (d_partialModel s) (fst e)).

(** The test that the loop of [selectSlack] performs on an entry. *)
Definition slackCandidate (above : bool) (s : Simplex) (x_i : ArithVar)
    (e : Entry) : bool :=
  negb (fst e =? x_i) &&
  let cmp := Rat.cmp (snd e) 0%Qc in
  if above then
    ((cmp <? 0)%Z && strictlyBelowUpperBound (d_partialModel s) (fst e)) ||
    ((0 <? cmp)%Z && strictlyAboveLowerBound (d_partialModel s) (fst e))
  else
    ((0 <? cmp)%Z && strictlyBelowUpperBound (d_partialModel s) (fst e)) ||
    ((cmp <? 0)%Z && strictlyAboveLowerBound (d_partialModel s) (fst e)).

Lemma strictlyBelowUpperBound_iff m x :
  strictlyBelowUpperBound m x = true <-> belowUpper m x.
Proof.
  unfold strictlyBelowUpperBound, belowUpper.
  destruct (d_upperBound m x) as [u|].
  - rewrite DRatFacts.ltb_lt. split.
    + intros H u' E. now injection E as <-.
    + intros H. now apply H.
  - split; [ intros _ u E; discriminate | reflexivity ].
Qed.

Lemma strictlyAboveLowerBound_iff m x :
  strictlyAboveLowerBound m x = true <-> aboveLower m x.
Proof.
  unfold strictlyAboveLowerBound, aboveLower.
  destruct (d_lowerBound m x) as [l|].
  - rewrite DRatFacts.gtb_lt. split.
    + intros H l' E. now injection E as <-.
    + intros H. now apply H.
  - split; [ intros _ l E; discriminate | reflexivity ].
Qed.

Lemma cmp_ltb_neg (a : Rational) :
  (Rat.cmp a 0%Qc <? 0)%Z = true <-> (a < 0)%Qc.
Proof. rewrite Z.ltb_lt. apply Rat.cmp_neg. Qed.

Lemma cmp_ltb_pos (a : Rational) :
  (0 <? Rat.cmp a 0%Qc)%Z = true <-> (0 < a)%Qc.
Proof. rewrite Z.ltb_lt, <- Rat.cmp_pos. lia. Qed.

Lemma slackCandidate_iff above s x_i e :
  slackCandidate above s x_i e = true <-> validSlack above s x_i e.
Proof.
  unfold slackCandidate, validSlack. cbv zeta.
  rewrite andb_true_iff, negb_true_iff, N.eqb_neq.
  destruct above;
    rewrite orb_true_iff, !andb_true_iff, cmp_ltb_neg, cmp_ltb_pos,
      strictlyBelowUpperBound_iff, strictlyAboveLowerBound_iff;
    reflexivity.
Qed.

Lemma slackCandidate_false above s x_i e :
  slackCandidate above s x_i e = false <-> ~ validSlack above s x_i e.
Proof.
  rewrite <- slackCandidate_iff.
  destruct (slackCandidate above s x_i e); split; congruence.
Qed.

(** One step of the loop, with the test of the entry factored out. *)
Lemma selectSlack_loop_cons above s x_i e rest slack numRows :
  selectSlack_loop above s x_i (e :: rest) slack numRows =
  if slackCandidate above s x_i e then
    if d_pivotStage s then
      if Tableau.getRowCount (d_tableau s) (fst e) <? numRows then
        selectSlack_loop above s x_i rest (fst e)
          (Tableau.getRowCount (d_tableau s) (fst e))
      else selectSlack_loop above s x_i rest slack numRows
    else fst e
  else selectSlack_loop above s x_i rest slack numRows.
Proof.
  unfold slackCandidate. cbn [selectSlack_loop]. unfold getArithVar.
  destruct (fst e =? x_i); [ reflexivity | ]. cbn [negb andb]. cbv zeta.
  destruct above;
    destruct (Rat.cmp (snd e) 0%Qc <? 0)%Z;
    destruct (0 <? Rat.cmp (snd e) 0%Qc)%Z;
    destruct (strictlyBelowUpperBound (d_partialModel s) (fst e));
    destruct (strictlyAboveLowerBound (d_partialModel s) (fst e));
    reflexivity.
Qed.

Section SlackLoop.
Variable above : bool.
Variable s : Simplex.
Variable x_i : ArithVar.

Let valid := validSlack above s x_i.
Let rowCount := fun e : Entry => Tableau.getRowCount (d_tableau s) (fst e).

(** Bland stage: the first candidate of the row, if any. *)
Lemma selectSlack_loop_bland es : forall slack numRows,
  d_pivotStage s = false ->
  (selectSlack_loop above s x_i es slack numRows = slack /\
   forall e, In e es -> ~ valid e) \/
  (exists pre e post,
     es = pre ++ e :: post /\
     selectSlack_loop above s x_i es slack numRows = fst e /\
     valid e /\ forall e', In e' pre -> ~ valid e').
Proof.
  induction es as [|e rest IH]; intros slack numRows Hp.
  - left. split; [ reflexivity | intros e [] ].
  - rewrite selectSlack_loop_cons, Hp.
    destruct (slackCandidate above s x_i e) eqn:Ec.
    + right. exists [], e, rest.
      split_and;
        [ reflexivity | reflexivity | now apply slackCandidate_iff
        | intros e' [] ].
    + apply slackCandidate_false in Ec.
      destruct (IH slack numRows Hp) as [[H1 H2] | (pre & e0 & post & H1 & H2 & H3 & H4)].
      * left. split; [ exact H1 | ].
        intros e' [<- | Hin]; [ exact Ec | now apply H2 ].
      * right. exists (e :: pre), e0, post. split_and; auto.
        -- simpl. now rewrite H1.
        -- intros e' [<- | Hin]; [ exact Ec | now apply H4 ].
Qed.

(** Griggio stage: the first candidate among those of least row count,
    provided it beats the count [numRows] held so far. *)
Lemma selectSlack_loop_griggio es : forall slack numRows,
  d_pivotStage s = true ->
  (selectSlack_loop above s x_i es slack numRows = slack /\
   forall e, In e es -> valid e -> numRows <= rowCount e) \/
  (exists pre e post,
     es = pre ++ e :: post /\
     selectSlack_loop above s x_i es slack numRows = fst e /\
     valid e /\ rowCount e < numRows /\
     (forall e', In e' pre -> valid e' -> rowCount e < rowCount e') /\
     (forall e', In e' post -> valid e' -> rowCount e <= rowCount e')).
Proof.
  induction es as [|e rest IH]; intros slack numRows Hp.
  - left. split; [ reflexivity | intros e [] ].
  - rewrite selectSlack_loop_cons, Hp.
    destruct (slackCandidate above s x_i e) eqn:Ec.
    + apply slackCandidate_iff in Ec. fold (rowCount e).
      destruct (rowCount e <? numRows) eqn:Elt.
      * apply N.ltb_lt in Elt.
        destruct (IH (fst e) (rowCount e) Hp)
          as [[H1 H2] | (pre & e0 & post & H1 & H2 & H3 & H4 & H5 & H6)].
        -- right. exists [], e, rest. split_and; auto.
           intros e' [].
        -- right. exists (e :: pre), e0, post. split_and; auto.
           ++ simpl. now rewrite H1.
           ++ lia.
           ++ intros e' [<- | Hin] Hv; [ exact H4 | now apply H5 ].
      * apply N.ltb_ge in Elt.
        destruct (IH slack numRows Hp)
          as [[H1 H2] | (pre & e0 & post & H1 & H2 & H3 & H4 & H5 & H6)].
        -- left. split; [ exact H1 | ].
           intros e' [<- | Hin] Hv; [ exact Elt | now apply H2 ].
        -- right. exists (e :: pre), e0, post. split_and; auto.
           ++ simpl. now rewrite H1.
           ++ intros e' [<- | Hin] Hv; [ lia | now apply H5 ].
    + apply slackCandidate_false in Ec.
      destruct (IH slack numRows Hp)
        as [[H1 H2] | (pre & e0 & post & H1 & H2 & H3 & H4 & H5 & H6)].
      * left. split; [ exact H1 | ].
        intros e' [<- | Hin] Hv; [ contradiction | now apply H2 ].
      * right. exists (e :: pre), e0, post. split_and; auto.
        -- simpl. now rewrite H1.
        -- intros e' [<- | Hin] Hv; [ contradiction | now apply H5 ].
Qed.
End SlackLoop.

(** C5.  Let [x_i] be basic with row [row_i], let the sentinel not occur
    in the row, let every other variable of the row be non-basic, and let
    the tableau have fewer than [2^32 - 1] rows.  Then [selectSlackAbove]
    ([above = true]) and [selectSlackBelow] ([above = false]) return the
    sentinel exactly when no entry of the row is a valid slack; any other
    result is a non-basic variable [x_j <> x_i] of the row that is a valid
    slack, in the Bland stage the first valid one in iteration order, in
    the Griggio stage one of least row count among the valid ones (the
    first such). *)
Theorem selectSlack_spec (above : bool) (s : Simplex) (x_i : ArithVar)
    (row_i : Row) :
  Tableau.lookup (d_tableau s) x_i = Ok row_i ->
  ~ In ARITHVAR_SENTINEL (map fst (ReducedRowVector.entries row_i)) ->
  (forall e, In e (ReducedRowVector.entries row_i) -> fst e <> x_i ->
             isBasic s (fst e) = false) ->
  N.of_nat (length (d_tableau s)) < UINT32_MAX ->
  exists x_j,
    selectSlack above x_i s = Ok x_j /\
    (x_j = ARITHVAR_SENTINEL <->
     forall e, In e (ReducedRowVector.entries row_i) ->
               ~ validSlack above s x_i e) /\
    (x_j <> ARITHVAR_SENTINEL ->
     exists pre a_ij post,
       ReducedRowVector.entries row_i = pre ++ (x_j, a_ij) :: post /\
       validSlack above s x_i (x_j, a_ij) /\
       x_j <> x_i /\ isBasic s x_j = false /\
       (d_pivotStage s = false ->
        forall e, In e pre -> ~ validSlack above s x_i e) /\
       (d_pivotStage s = true ->
        (forall e, In e pre -> validSlack above s x_i e ->
           Tableau.getRowCount (d_tableau s) x_j
             < Tableau.getRowCount (d_tableau s) (fst e)) /\
        (forall e, In e post -> validSlack above s x_i e ->
           Tableau.getRowCount (d_tableau s) x_j
             <= Tableau.getRowCount (d_tableau s) (fst e)))).
Proof.
  intros Hrow Hsent Hnb Hsize.
  unfold selectSlack. rewrite Hrow. simpl.
  eexists. split; [ reflexivity | ].
  set (es := ReducedRowVector.entries row_i) in *.
  assert (Hcount : forall e : Entry,
             Tableau.getRowCount (d_tableau s) (fst e) < UINT32_MAX).
  { intros e. unfold Tableau.getRowCount.
    pose proof (filter_length_le (fun r => ReducedRowVector.has r (fst e)) (d_tableau s)).
    lia. }
  assert (Hkey : forall pre (e : Entry) post,
             es = pre ++ e :: post -> fst e <> ARITHVAR_SENTINEL).
  { intros pre e post E Heq. apply Hsent. rewrite E, map_app. simpl.
    apply in_or_app. right. left. exact Heq. }
  destruct (d_pivotStage s) eqn:Hp.
  - destruct (selectSlack_loop_griggio above s x_i es ARITHVAR_SENTINEL UINT32_MAX Hp)
      as [[H1 H2] | (pre & e & post & H1 & H2 & H3 & H4 & H5 & H6)].
    + rewrite H1. split.
      * split; [ | reflexivity ]. intros _ e Hin Hv.
        specialize (H2 e Hin Hv). specialize (Hcount e). lia.
      * intros Hne. congruence.
    + rewrite H2. pose proof (Hkey _ _ _ H1) as Hne. split.
      * split; [ congruence | ]. intros Hall. exfalso.
        apply (Hall e); [ | exact H3 ].
        rewrite H1. apply in_or_app. right. now left.
      * intros _. exists pre, (snd e), post.
        rewrite <- surjective_pairing.
        assert (Hin : In e es).
        { rewrite H1. apply in_or_app. right. now left. }
        split_and;
          [ exact H1 | exact H3 | apply H3
          | apply Hnb; [ exact Hin | apply H3 ]
          | discriminate
          | intros _; split; [ exact H5 | exact H6 ] ].
  - destruct (selectSlack_loop_bland above s x_i es ARITHVAR_SENTINEL UINT32_MAX Hp)
      as [[H1 H2] | (pre & e & post & H1 & H2 & H3 & H4)].
    + rewrite H1. split.
      * split; [ intros _; exact H2 | reflexivity ].
      * intros Hne. congruence.
    + rewrite H2. pose proof (Hkey _ _ _ H1) as Hne. split.
      * split; [ congruence | ]. intros Hall. exfalso.
        apply (Hall e); [ | exact H3 ].
        rewrite H1. apply in_or_app. right. now left.
      * intros _. exists pre, (snd e), post.
        rewrite <- surjective_pairing.
        assert (Hin : In e es).
        { rewrite H1. apply in_or_app. right. now left. }
        split_and;
          [ exact H1 | exact H3 | apply H3
          | apply Hnb; [ exact Hin | apply H3 ]
          | intros _; exact H4
          | discriminate ].
Qed.

(** C5 on the state of the first scenario: above its bound, [x2] has no
    slack, since [x0] and [x1] sit on their lower bounds. *)
Lemma selectSlack_spec_witness :
  let s := sumConflictState in
  let row := intRow 2 [(0, 1%Z); (1, 1%Z); (2, (-1)%Z)] in
  exists x_j,
    selectSlack true 2 s = Ok x_j /\
    (x_j = ARITHVAR_SENTINEL <->
     forall e, In e (ReducedRowVector.entries row) ->
               ~ validSlack true s 2 e) /\
    (x_j <> ARITHVAR_SENTINEL ->
     exists pre a_ij post,
       ReducedRowVector.entries row = pre ++ (x_j, a_ij) :: post /\
       validSlack true s 2 (x_j, a_ij) /\
       x_j <> 2 /\ isBasic s x_j = false /\
       (d_pivotStage s = false ->
        forall e, In e pre -> ~ validSlack true s 2 e) /\
       (d_pivotStage s = true ->
        (forall e, In e pre -> validSlack true s 2 e ->
           Tableau.getRowCount (d_tableau s) x_j
             < Tableau.getRowCount (d_tableau s) (fst e)) /\
        (forall e, In e post -> validSlack true s 2 e ->
           Tableau.getRowCount (d_tableau s) x_j
             <= Tableau.getRowCount (d_tableau s) (fst e)))).
Proof.
  intros s row.
  apply (@selectSlack_spec true s 2 row).
  - vm_compute. reflexivity.
  - vm_compute. intros [H | [H | [H | []]]]; discriminate H.
  - intros e [<- | [<- | [<- | []]]] Hne;
      first [ vm_compute; reflexivity | exfalso; apply Hne; reflexivity ].
  - vm_compute. reflexivity.
Defined.

Example selectSlackAbove_sum_none :
  selectSlackAbove 2 sumConflictState = Ok ARITHVAR_SENTINEL.
Proof. vm_compute. reflexivity. Qed.

(** Below its bound the same variable has the slacks [x0] and [x1], of
    equal row count; the first one is selected. *)
Example selectSlackBelow_sum_first :
  selectSlackBelow 2 sumConflictState = Ok 0.
Proof. vm_compute. reflexivity. Qed.

(** ** Equality of term handles *)

Lemma Kind_eqb_eq a b : Kind_eqb a b = true <-> a = b.
Proof.
  destruct a as [|m], b as [|n]; simpl; split; try congruence.
  - intros H. apply N.eqb_eq in H. congruence.
  - intros H. injection H as ->. apply N.eqb_refl.
Qed.

Fixpoint Node_size (n : Node) : nat :=
  match n with
  | NullNode => 1
  | mkNode _ cs => S (fold_right (fun c acc => Node_size c + acc)%nat 0%nat cs)
  end.

Lemma Node_eqb_eq_sized k : forall x y,
  (Node_size x <= k)%nat -> (Node_eqb x y = true <-> x = y).
Proof.
  induction k as [|k IH]; intros x y Hk.
  - destruct x; simpl in Hk; lia.
  - destruct x as [|kx cs], y as [|ky cs']; simpl;
      try (split; congruence).
    rewrite andb_true_iff, Kind_eqb_eq.
    simpl in Hk. apply le_S_n in Hk.
    assert (Hcs : forall l',
      (fix all2 (l l' : list Node) {struct l} : bool :=
         match l, l' with
         | [], [] => true
         | a :: l, b :: l' => Node_eqb a b && all2 l l'
         | _, _ => false
         end) cs l' = true <-> cs = l').
    { clear cs'. induction cs as [|c cs IHcs]; intros [|c' l']; simpl;
        try (split; congruence).
      simpl in Hk. rewrite andb_true_iff, (IH c c'), IHcs by lia.
      split; [ intros [-> ->]; reflexivity | intros H; injection H; auto ]. }
    rewrite Hcs. split; [ intros [-> ->]; reflexivity | intros H; injection H; auto ].
Qed.

Lemma Node_eqb_eq x y : Node_eqb x y = true <-> x = y.
Proof. apply (Node_eqb_eq_sized (k := Node_size x)). lia. Qed.

Lemma Node_eqb_refl x : Node_eqb x x = true.
Proof. now apply Node_eqb_eq. Qed.

(** ** What the read-only procedures read *)

(** Slack selection, conflict generation and the conflict check read the
    tableau, the partial model and the stage flag, nothing else. *)
Definition sameView (s1 s2 : Simplex) : Prop :=
  d_tableau s1 = d_tableau s2 /\
  d_partialModel s1 = d_partialModel s2 /\
  d_pivotStage s1 = d_pivotStage s2.

Lemma sameView_refl s : sameView s s.
Proof. unfold sameView. auto. Qed.

Lemma sameView_sym s1 s2 : sameView s1 s2 -> sameView s2 s1.
Proof. unfold sameView. intros (-> & -> & ->). auto. Qed.

Lemma sameView_trans s1 s2 s3 : sameView s1 s2 -> sameView s2 s3 -> sameView s1 s3.
Proof. unfold sameView. intros (-> & -> & ->) (-> & -> & ->). auto. Qed.

Lemma selectSlack_loop_view above s1 s2 x_i es : forall slack numRows,
  sameView s1 s2 ->
  selectSlack_loop above s1 x_i es slack numRows =
  selectSlack_loop above s2 x_i es slack numRows.
Proof.
  intros slack numRows (HT & HM & HP). revert slack numRows.
  induction es as [|e rest IH]; intros slack numRows; [ reflexivity | ].
  rewrite !selectSlack_loop_cons. unfold slackCandidate.
  rewrite HT, HM, HP, !IH. reflexivity.
Qed.

Lemma selectSlack_view above x_i s1 s2 :
  sameView s1 s2 -> selectSlack above x_i s1 = selectSlack above x_i s2.
Proof.
  intros H. unfold selectSlack. destruct H as (HT & HM & HP) eqn:E.
  rewrite HT. destruct (Tableau.lookup (d_tableau s2) x_i); simpl; [ | reflexivity ].
  f_equal. apply selectSlack_loop_view. unfold sameView. auto.
Qed.

Lemma generateConflictBelow_view x_i s1 s2 :
  sameView s1 s2 -> generateConflictBelow x_i s1 = generateConflictBelow x_i s2.
Proof.
  intros (HT & HM & HP). unfold generateConflictBelow. now rewrite HT, HM.
Qed.

Lemma generateConflictAbove_view x_i s1 s2 :
  sameView s1 s2 -> generateConflictAbove x_i s1 = generateConflictAbove x_i s2.
Proof.
  intros (HT & HM & HP). unfold generateConflictAbove. now rewrite HT, HM.
Qed.

Lemma checkBasicForConflict_view x s1 s2 :
  sameView s1 s2 -> checkBasicForConflict x s1 = checkBasicForConflict x s2.
Proof.
  intros H. unfold checkBasicForConflict, selectSlackBelow, selectSlackAbove.
  rewrite (selectSlack_view false x H), (selectSlack_view true x H),
    (generateConflictBelow_view x H), (generateConflictAbove_view x H).
  destruct H as (HT & HM & HP). unfold isBasic. now rewrite HT, HM.
Qed.

(** ** Rows with nonzero coefficients *)

Definition rowsNonzero (T : Tableau.t) : Prop :=
  forall r, In r T ->
    nonzeroCoefficients (ReducedRowVector.basic r) (ReducedRowVector.entries r).

Lemma selectSlack_total above x s :
  isBasic s x = true -> exists x_j, selectSlack above x s = Ok x_j.
Proof.
  intros Hb. unfold selectSlack.
  destruct (lookup_basic _ _ Hb) as [r ->]. simpl. eauto.
Qed.

Lemma generateConflictBelow_total x s :
  isBasic s x = true -> rowsNonzero (d_tableau s) ->
  exists cs, generateConflictBelow x s = Ok (mkNode AND cs) /\ cs <> [].
Proof.
  intros Hb Hnz. destruct (lookup_basic _ _ Hb) as [r Er].
  destruct (lookup_Ok _ _ Er) as [Hin Hbasic].
  assert (Hr : nonzeroCoefficients x (ReducedRowVector.entries r)).
  { rewrite <- Hbasic. now apply Hnz. }
  destruct (generateConflictBelow_loop_spec (d_partialModel s)
              [getLowerConstraint (d_partialModel s) x] Hr) as (cs & E & _).
  unfold generateConflictBelow. rewrite Er. simpl. rewrite E. simpl.
  eexists. split; [ reflexivity | discriminate ].
Qed.

Lemma generateConflictAbove_total x s :
  isBasic s x = true -> rowsNonzero (d_tableau s) ->
  exists cs, generateConflictAbove x s = Ok (mkNode AND cs) /\ cs <> [].
Proof.
  intros Hb Hnz. destruct (lookup_basic _ _ Hb) as [r Er].
  destruct (lookup_Ok _ _ Er) as [Hin Hbasic].
  assert (Hr : nonzeroCoefficients x (ReducedRowVector.entries r)).
  { rewrite <- Hbasic. now apply Hnz. }
  destruct (generateConflictAbove_loop_spec (d_partialModel s)
              [getUpperConstraint (d_partialModel s) x] Hr) as (cs & E & _).
  unfold generateConflictAbove. rewrite Er. simpl. rewrite E. simpl.
  eexists. split; [ reflexivity | discriminate ].
Qed.

Lemma checkBasicForConflict_total x s :
  isBasic s x = true -> rowsNonzero (d_tableau s) ->
  exists n, checkBasicForConflict x s = Ok n.
Proof.
  intros Hb Hnz. unfold checkBasicForConflict. rewrite Hb. simpl.
  destruct (belowLowerBound _ x _ true).
  - unfold selectSlackBelow.
    destruct (selectSlack_total false x s Hb) as [x_j ->]. simpl.
    destruct (x_j =? ARITHVAR_SENTINEL); [ | eauto ].
    destruct (generateConflictBelow_total x s Hb Hnz) as (cs & -> & _). eauto.
  - destruct (aboveUpperBound _ x _ true); [ | eauto ].
    unfold selectSlackAbove.
    destruct (selectSlack_total true x s Hb) as [x_j ->]. simpl.
    destruct (x_j =? ARITHVAR_SENTINEL); [ | eauto ].
    destruct (generateConflictAbove_total x s Hb Hnz) as (cs & -> & _). eauto.
Qed.

(** ** C7: the initial conflict *)

(** The clauses among the results of the conflict checks. *)
Definition clausesOf (results : list Node) : list Node :=
  filter (fun n => negb (isNull n)) results.

(** [replaces best c]: the clause [c] takes the place of the chosen
    [best], because nothing was chosen yet or [c] has fewer conjuncts. *)
Definition replaces (best c : Node) : bool :=
  isNull best || (getNumChildren c <? getNumChildren best)%nat.

(** How often the choice changes while the clauses [cs] are met in
    order, starting from [best]: the [conflictChanges] of the source,
    which counts the first choice too. *)
Fixpoint replacements (best : Node) (cs : list Node) : Z :=
  match cs with
  | [] => 0%Z
  | c :: cs' =>
      ((if replaces best c then 1 else 0) +
       replacements (betterConflict best c) cs')%Z
  end.

(** How often a clause that was already chosen gives way to a later
    clause [c]: the first choice, made when nothing was chosen, replaces
    no clause. *)
Fixpoint clauseReplacements (best : Node) (cs : list Node) : Z :=
  match cs with
  | [] => 0%Z
  | c :: cs' =>
      ((if negb (isNull best)
           && (getNumChildren c <? getNumChildren best)%nat
        then 1 else 0) +
       clauseReplacements (betterConflict best c) cs')%Z
  end.

(** [fewest best cs]: [best] is the first clause of [cs] with the least
    number of conjuncts. *)
Definition fewest (best : Node) (cs : list Node) : Prop :=
  exists pre post,
    cs = pre ++ best :: post /\
    (forall c, In c pre -> (getNumChildren best < getNumChildren c)%nat) /\
    (forall c, In c post -> (getNumChildren best <= getNumChildren c)%nat).

(** The statistics after [found] more early conflicts and [improved] more
    improvements. *)
Definition addEarly (st : Statistics.t) (found improved : Z) : Statistics.t :=
  let (a, b, c, d, e, f, g, h, i, j, k) := st in
  Statistics.mk a b c d e f g (h + found) (i + improved) j k.

Lemma betterConflict_nonnull best c :
  isNull c = false ->
  betterConflict best c = if replaces best c then c else best.
Proof.
  intros Hc. unfold betterConflict, replaces. rewrite Hc.
  destruct (isNull best); [ reflexivity | ]. simpl.
  destruct (getNumChildren best <=? getNumChildren c)%nat eqn:E.
  - apply Nat.leb_le in E.
    assert (H : (getNumChildren c <? getNumChildren best)%nat = false)
      by (apply Nat.ltb_ge; lia).
    now rewrite H.
  - apply Nat.leb_gt in E.
    assert (H : (getNumChildren c <? getNumChildren best)%nat = true)
      by (apply Nat.ltb_lt; lia).
    now rewrite H.
Qed.

(** The chosen clause changes exactly when the new clause replaces it. *)
Lemma betterConflict_changes best c :
  isNull c = false ->
  negb (Node_eqb (betterConflict best c) best) = replaces best c.
Proof.
  intros Hc. rewrite (betterConflict_nonnull best c Hc).
  destruct (replaces best c) eqn:E.
  - apply negb_true_iff. destruct (Node_eqb c best) eqn:En; [ | reflexivity ].
    apply Node_eqb_eq in En. subst c. unfold replaces in E.
    rewrite Hc, Nat.ltb_irrefl in E. discriminate.
  - now rewrite Node_eqb_refl.
Qed.

Lemma betterConflict_fold_nonnull cs : forall best,
  isNull best = false ->
  Forall (fun c => isNull c = false) cs ->
  isNull (fold_left betterConflict cs best) = false.
Proof.
  induction cs as [|c cs IH]; intros best Hb Hcs; simpl; [ exact Hb | ].
  inversion Hcs as [|? ? Hc Hcs']; subst. apply IH; [ | exact Hcs' ].
  rewrite (betterConflict_nonnull best c Hc). now destruct (replaces best c).
Qed.

(** Folding [betterConflict] from a clause [best] keeps it unless a
    strictly smaller clause follows, and then selects the first smallest. *)
Lemma betterConflict_fold_from cs : forall best,
  isNull best = false ->
  Forall (fun c => isNull c = false) cs ->
  let r := fold_left betterConflict cs best in
  (r = best /\
   forall c, In c cs -> (getNumChildren best <= getNumChildren c)%nat) \/
  ((getNumChildren r < getNumChildren best)%nat /\ fewest r cs).
Proof.
  induction cs as [|c cs IH]; intros best Hb Hcs; simpl.
  - left. split; [ reflexivity | intros c [] ].
  - inversion Hcs as [|? ? Hc Hcs']; subst.
    rewrite (betterConflict_nonnull best c Hc).
    unfold replaces. rewrite Hb. simpl.
    destruct (getNumChildren c <? getNumChildren best)%nat eqn:E.
    + apply Nat.ltb_lt in E. right.
      destruct (IH c Hc Hcs') as [[H1 H2] | [H1 (pre & post & H2 & H3 & H4)]].
      * rewrite H1. split; [ exact E | ].
        exists [], cs. split_and; [ reflexivity | intros c' [] | exact H2 ].
      * split; [ lia | ].
        exists (c :: pre), post. split_and.
        -- simpl. f_equal. exact H2.
        -- intros c' [<- | Hin]; [ exact H1 | now apply H3 ].
        -- exact H4.
    + apply Nat.ltb_ge in E.
      destruct (IH best Hb Hcs') as [[H1 H2] | [H1 (pre & post & H2 & H3 & H4)]].
      * left. split; [ exact H1 | ].
        intros c' [<- | Hin]; [ exact E | now apply H2 ].
      * right. split; [ exact H1 | ].
        exists (c :: pre), post. split_and.
        -- simpl. f_equal. exact H2.
        -- intros c' [<- | Hin]; [ lia | now apply H3 ].
        -- exact H4.
Qed.

(** From nothing chosen, the fold selects the first clause with the
    fewest conjuncts, or stays null when there is no clause. *)
Lemma betterConflict_fold_null cs :
  Forall (fun c => isNull c = false) cs ->
  match cs with
  | [] => fold_left betterConflict cs NullNode = NullNode
  | _ :: _ => fewest (fold_left betterConflict cs NullNode) cs
  end.
Proof.
  destruct cs as [|c cs]; intros Hcs; [ reflexivity | ].
  inversion Hcs as [|? ? Hc Hcs']; subst. simpl.
  change (betterConflict NullNode c) with c.
  destruct (betterConflict_fold_from c Hc Hcs')
    as [[H1 H2] | [H1 (pre & post & H2 & H3 & H4)]].
  - rewrite H1. exists [], cs.
    split_and; [ reflexivity | intros c' [] | exact H2 ].
  - exists (c :: pre), post. split_and.
    + simpl. f_equal. exact H2.
    + intros c' [<- | Hin]; [ exact H1 | now apply H3 ].
    + exact H4.
Qed.

Lemma clausesOf_cons n results :
  clausesOf (n :: results) =
  if isNull n then clausesOf results else n :: clausesOf results.
Proof. unfold clausesOf. cbn [filter]. now destruct (isNull n). Qed.

Lemma clausesOf_nonnull results :
  Forall (fun c => isNull c = false) (clausesOf results).
Proof.
  unfold clausesOf. apply Forall_forall. intros c Hin.
  apply filter_In in Hin. destruct Hin as [_ H]. now apply negb_true_iff.
Qed.

(** The changes that the source counts are the first choice and the
    replacements of a chosen clause. *)
Lemma replacements_clauseReplacements cs : forall best,
  Forall (fun c => isNull c = false) cs ->
  replacements best cs =
  ((if isNull best then match cs with [] => 0 | _ :: _ => 1 end else 0)
   + clauseReplacements best cs)%Z.
Proof.
  induction cs as [|c cs IH]; intros best Hcs.
  - simpl. destruct (isNull best); reflexivity.
  - inversion Hcs as [|c0 cs0 Hc Hcs']; subst.
    cbn [replacements clauseReplacements].
    rewrite (betterConflict_nonnull best c Hc). unfold replaces.
    destruct (isNull best) eqn:Eb; cbn [orb negb andb].
    + rewrite (IH c Hcs'), Hc. lia.
    + destruct (getNumChildren c <? getNumChildren best)%nat.
      * rewrite (IH c Hcs'), Hc. lia.
      * rewrite (IH best Hcs'), Eb. lia.
Qed.

Lemma improved_iff results :
  (2 <=? replacements NullNode (clausesOf results))%Z = true <->
  (1 <= clauseReplacements NullNode (clausesOf results))%Z.
Proof.
  rewrite (replacements_clauseReplacements NullNode (clausesOf_nonnull results)).
  rewrite Z.leb_le. simpl.
  destruct (clausesOf results); [ simpl | ]; lia.
Qed.

Lemma addEarly_zero st : addEarly st 0 0 = st.
Proof. destruct st. simpl. now rewrite !Z.add_0_r. Qed.

Lemma addEarly_inc st n :
  addEarly (Statistics.incEarlyConflicts st) n 0 = addEarly st (1 + n) 0.
Proof.
  destruct st. unfold addEarly, Statistics.incEarlyConflicts.
  f_equal; lia.
Qed.

Lemma addEarly_improved st n :
  Statistics.incEarlyConflictImprovements (addEarly st n 0) = addEarly st n 1.
Proof.
  destruct st. unfold addEarly, Statistics.incEarlyConflictImprovements.
  f_equal; lia.
Qed.

(** The queue after the entries of [init] have been pushed back. *)
Definition pushAll (init : list VarDRatPair) (q : GriggioPQueue) : GriggioPQueue :=
  fold_left (fun q i => griggio_push i q) init q.

Lemma selectInitialConflict_loop_spec s init : forall s0 best changes,
  sameView s0 s ->
  (forall e, In e init -> isBasic s (fst e) = true) ->
  rowsNonzero (d_tableau s) ->
  exists results,
    Forall2 (fun e n => checkBasicForConflict (fst e) s = Ok n) init results /\
    selectInitialConflict_loop init best changes s0 =
      Ok (fold_left betterConflict (clausesOf results) best,
          (changes + replacements best (clausesOf results))%Z,
          set_statistics
            (set_griggioRuleQueue s0 (pushAll init (d_griggioRuleQueue s0)))
            (addEarly (d_statistics s0)
               (Z.of_nat (length (clausesOf results))) 0)).
Proof.
  induction init as [|i init IH]; intros s0 best changes Hview Hbasic Hnz.
  - exists []. split; [ constructor | ]. simpl.
    rewrite addEarly_zero, Z.add_0_r. destruct s0; reflexivity.
  - cbn [selectInitialConflict_loop]. cbv zeta.
    set (s1 := set_griggioRuleQueue s0 _).
    assert (Hv1 : sameView s1 s).
    { destruct Hview as (A & B & C). unfold sameView. simpl. auto. }
    assert (Hb : isBasic s (fst i) = true) by (apply Hbasic; now left).
    destruct (checkBasicForConflict_total (fst i) s Hb Hnz) as [n En].
    rewrite (checkBasicForConflict_view (fst i) Hv1), En. simpl.
    destruct (isNull n) eqn:Hn; simpl.
    + destruct (IH s1 best changes Hv1) as (results & HF & E).
      { intros e He. apply Hbasic. now right. }
      { exact Hnz. }
      exists (n :: results). split; [ now constructor | ].
      rewrite E, clausesOf_cons, Hn. reflexivity.
    + set (s2 := count Statistics.incEarlyConflicts s1).
      assert (Hv2 : sameView s2 s).
      { destruct Hv1 as (A & B & C). unfold sameView. simpl. auto. }
      match goal with
      | |- context [ selectInitialConflict_loop init ?b ?c s2 ] =>
          destruct (IH s2 b c Hv2) as (results & HF & E)
      end.
      { intros e He. apply Hbasic. now right. }
      { exact Hnz. }
      exists (n :: results). split; [ now constructor | ].
      rewrite E, clausesOf_cons, Hn.
      rewrite (betterConflict_changes best n Hn).
      cbn [fold_left replacements length].
      f_equal. f_equal; [ f_equal | ].
      * destruct (replaces best n); lia.
      * subst s2 s1. unfold count, set_statistics, set_griggioRuleQueue.
        cbn [d_partialModel d_tableau d_activityMonitor d_numVariables
             d_griggioRuleQueue d_possiblyInconsistent d_pivotStage
             d_foundAConflict d_pivotsSinceConflict d_statistics d_out].
        f_equal. rewrite addEarly_inc. f_equal. lia.
Qed.

Lemma drainGriggio_filter s q :
  drainGriggio s q = filter (fun e => live s (fst e)) q.
Proof.
  induction q as [|top rest IH]; simpl; [ reflexivity | ].
  unfold live at 1. rewrite IH. reflexivity.
Qed.

(** C7, amended.  On a tableau whose rows have nonzero coefficients, let
    [init] be the entries of the Griggio queue whose variable is basic
    and inconsistent, and [clauses] the non-null results of
    [checkBasicForConflict] on them, in queue order.
    [selectInitialConflict] returns null when there is no clause, and
    otherwise the first clause with the fewest conjuncts.  It changes the
    Griggio queue (the entries of [init] are pushed back) and two
    counters: [earlyConflicts] grows by the number of clauses, and
    [earlyConflictImprovements] grows by one exactly when the choice
    changed at least twice, the first choice included: that is, when a
    clause already chosen was replaced at least once. *)
Theorem selectInitialConflict_spec (s : Simplex) :
  rowsNonzero (d_tableau s) ->
  let init := filter (fun e => live s (fst e)) (d_griggioRuleQueue s) in
  exists results best s',
    Forall2 (fun e n => checkBasicForConflict (fst e) s = Ok n) init results /\
    selectInitialConflict s = Ok (best, s') /\
    best = fold_left betterConflict (clausesOf results) NullNode /\
    (clausesOf results = [] -> best = NullNode) /\
    (clausesOf results <> [] -> fewest best (clausesOf results)) /\
    s' = set_statistics
           (set_griggioRuleQueue s (pushAll init []))
           (addEarly (d_statistics s)
              (Z.of_nat (length (clausesOf results)))
              (if (2 <=? replacements NullNode (clausesOf results))%Z
               then 1 else 0)) /\
    Statistics.d_statEarlyConflicts (d_statistics s') =
      (Statistics.d_statEarlyConflicts (d_statistics s)
       + Z.of_nat (length (clausesOf results)))%Z /\
    Statistics.d_statEarlyConflictImprovements (d_statistics s') =
      (Statistics.d_statEarlyConflictImprovements (d_statistics s)
       + if (2 <=? replacements NullNode (clausesOf results))%Z
         then 1 else 0)%Z /\
    ((2 <=? replacements NullNode (clausesOf results))%Z = true <->
     (1 <= clauseReplacements NullNode (clausesOf results))%Z).
Proof.
  intros Hnz init.
  set (s0 := set_griggioRuleQueue s []).
  assert (Hv : sameView s0 s) by (unfold sameView; simpl; auto).
  assert (Hb : forall e, In e init -> isBasic s (fst e) = true).
  { intros e He. apply filter_In in He. destruct He as [_ He].
    unfold live in He. apply andb_true_iff in He. apply He. }
  destruct (selectInitialConflict_loop_spec (s := s) init NullNode 0%Z Hv Hb Hnz)
    as (results & HF & E).
  assert (Hs' :
    (if (1 <? 0 + replacements NullNode (clausesOf results))%Z
     then count Statistics.incEarlyConflictImprovements
            (set_statistics
               (set_griggioRuleQueue s0 (pushAll init (d_griggioRuleQueue s0)))
               (addEarly (d_statistics s0)
                  (Z.of_nat (length (clausesOf results))) 0))
     else set_statistics
            (set_griggioRuleQueue s0 (pushAll init (d_griggioRuleQueue s0)))
            (addEarly (d_statistics s0)
               (Z.of_nat (length (clausesOf results))) 0)) =
    set_statistics
      (set_griggioRuleQueue s (pushAll init []))
      (addEarly (d_statistics s)
         (Z.of_nat (length (clausesOf results)))
         (if (2 <=? replacements NullNode (clausesOf results))%Z
          then 1 else 0))).
  { rewrite Z.add_0_l.
    destruct (1 <? replacements NullNode (clausesOf results))%Z eqn:E1.
    - apply Z.ltb_lt in E1.
      assert (E2 : (2 <=? replacements NullNode (clausesOf results))%Z = true)
        by (apply Z.leb_le; lia).
      rewrite E2. unfold count, s0. simpl. now rewrite addEarly_improved.
    - apply Z.ltb_ge in E1.
      assert (E2 : (2 <=? replacements NullNode (clausesOf results))%Z = false)
        by (apply Z.leb_gt; lia).
      rewrite E2. reflexivity. }
  exists results, (fold_left betterConflict (clausesOf results) NullNode).
  eexists.
  split; [ exact HF | ].
  split.
  { unfold selectInitialConflict. cbv zeta.
    rewrite drainGriggio_filter. fold init. fold s0. rewrite E.
    cbn [bind]. rewrite Hs'. reflexivity. }
  split; [ reflexivity | ].
  split.
  { intros ->. reflexivity. }
  split.
  { intros Hne. pose proof (betterConflict_fold_null (clausesOf_nonnull results)) as H.
    destruct (clausesOf results); [ congruence | exact H ]. }
  split; [ reflexivity | ].
  split; [ | split; [ | apply improved_iff ] ];
    simpl; destruct (d_statistics s); reflexivity.
Qed.

Definition rowsNonzerob (T : Tableau.t) : bool :=
  forallb (fun r => nonzeroCoefficientsb (ReducedRowVector.basic r)
                      (ReducedRowVector.entries r)) T.

Lemma rowsNonzerob_ok T : rowsNonzerob T = true -> rowsNonzero T.
Proof.
  unfold rowsNonzerob, rowsNonzero. rewrite forallb_forall.
  intros H r Hin. apply nonzeroCoefficientsb_ok. now apply H.
Qed.

(** The tableau [x3 = x0 + x1 + x2], [x4 = x0]. *)
Definition twoRowTableau : Tableau.t :=
  [intRow 3 [(0, 1%Z); (1, 1%Z); (2, 1%Z); (3, (-1)%Z)];
   intRow 4 [(0, 1%Z); (4, (-1)%Z)]].

(** The engine after [x0 >= 1], [x1 >= 1], [x2 >= 1], [x3 <= 0] and
    [x4 <= 0]: both basic variables are above their bounds without a
    slack, [x3] by more. *)
Definition twoConflictsState : Simplex :=
  let s := freshSimplex twoRowTableau 5 in
  let s := after (AssertLower 0 (intBound 1) (atom 10) s) s in
  let s := after (AssertLower 1 (intBound 1) (atom 11) s) s in
  let s := after (AssertLower 2 (intBound 1) (atom 12) s) s in
  let s := after (AssertUpper 3 (intBound 0) (atom 13) s) s in
  after (AssertUpper 4 (intBound 0) (atom 14) s) s.

(** C7 on that state. *)
Lemma selectInitialConflict_spec_witness :
  let s := twoConflictsState in
  let init := filter (fun e => live s (fst e)) (d_griggioRuleQueue s) in
  exists results best s',
    Forall2 (fun e n => checkBasicForConflict (fst e) s = Ok n) init results /\
    selectInitialConflict s = Ok (best, s') /\
    best = fold_left betterConflict (clausesOf results) NullNode /\
    (clausesOf results = [] -> best = NullNode) /\
    (clausesOf results <> [] -> fewest best (clausesOf results)) /\
    s' = set_statistics
           (set_griggioRuleQueue s (pushAll init []))
           (addEarly (d_statistics s)
              (Z.of_nat (length (clausesOf results)))
              (if (2 <=? replacements NullNode (clausesOf results))%Z
               then 1 else 0)) /\
    Statistics.d_statEarlyConflicts (d_statistics s') =
      (Statistics.d_statEarlyConflicts (d_statistics s)
       + Z.of_nat (length (clausesOf results)))%Z /\
    Statistics.d_statEarlyConflictImprovements (d_statistics s') =
      (Statistics.d_statEarlyConflictImprovements (d_statistics s)
       + if (2 <=? replacements NullNode (clausesOf results))%Z
         then 1 else 0)%Z /\
    ((2 <=? replacements NullNode (clausesOf results))%Z = true <->
     (1 <= clauseReplacements NullNode (clausesOf results))%Z).
Proof.
  intros s. apply (@selectInitialConflict_spec s).
  apply rowsNonzerob_ok. vm_compute. reflexivity.
Defined.

(** There the clause of [x3] (four conjuncts) is found first and then
    replaced by the clause of [x4] (two conjuncts): two clauses, two
    changes of the choice, one improvement. *)
Example selectInitialConflict_two :
  match selectInitialConflict twoConflictsState with
  | Ok (best, s') =>
      best = mkNode AND [atom 14; atom 10] /\
      Statistics.d_statEarlyConflicts (d_statistics s') = 2%Z /\
      Statistics.d_statEarlyConflictImprovements (d_statistics s') = 1%Z /\
      map fst (d_griggioRuleQueue s') = [3; 4]
  | Fatal => False
  end.
Proof. vm_compute. repeat split. Qed.

(** The results of [checkBasicForConflict] on the entries [init], a null
    node standing for a check that aborts. *)
Definition checkResults (s : Simplex) (init : list VarDRatPair) : list Node :=
  map (fun e => match checkBasicForConflict (fst e) s with
                | Ok n => n
                | Fatal => NullNode
                end) init.

Lemma checkResults_Forall2 s init :
  rowsNonzero (d_tableau s) ->
  (forall e, In e init -> isBasic s (fst e) = true) ->
  Forall2 (fun e n => checkBasicForConflict (fst e) s = Ok n)
    init (checkResults s init).
Proof.
  intros Hnz. induction init as [|e init IH]; intros Hb; simpl; constructor.
  - destruct (@checkBasicForConflict_total (fst e) s (Hb e (or_introl eq_refl)) Hnz)
      as [n ->]. reflexivity.
  - apply IH. intros e' He'. apply Hb. now right.
Qed.

(** C7, as stated, fails.  On [twoConflictsState] two clauses are found:
    the clause of [x3], with four conjuncts, is chosen first and is then
    replaced by the clause of [x4], with two.  The chosen clause is
    replaced once, not twice, and [earlyConflictImprovements] grows all
    the same. *)
Lemma selectInitialConflict_improvements_counterexample :
  let s := twoConflictsState in
  let init := filter (fun e => live s (fst e)) (d_griggioRuleQueue s) in
  map fst init = [3; 4] /\
  map getNumChildren (clausesOf (checkResults s init)) = [4%nat; 2%nat] /\
  clauseReplacements NullNode (clausesOf (checkResults s init)) = 1%Z /\
  (exists s',
     selectInitialConflict s = Ok (mkNode AND [atom 14; atom 10], s') /\
     Statistics.d_statEarlyConflictImprovements (d_statistics s') =
       (Statistics.d_statEarlyConflictImprovements (d_statistics s) + 1)%Z) /\
  ~ (forall s results best s',
       rowsNonzero (d_tableau s) ->
       Forall2 (fun e n => checkBasicForConflict (fst e) s = Ok n)
         (filter (fun e => live s (fst e)) (d_griggioRuleQueue s)) results ->
       selectInitialConflict s = Ok (best, s') ->
       Statistics.d_statEarlyConflictImprovements (d_statistics s') =
         (Statistics.d_statEarlyConflictImprovements (d_statistics s)
          + if (2 <=? clauseReplacements NullNode (clausesOf results))%Z
            then 1 else 0)%Z).
Proof.
  intros s init.
  assert (Hrun : exists s',
     selectInitialConflict s = Ok (mkNode AND [atom 14; atom 10], s') /\
     Statistics.d_statEarlyConflictImprovements (d_statistics s') =
       (Statistics.d_statEarlyConflictImprovements (d_statistics s) + 1)%Z).
  { eexists. split; [ vm_compute; reflexivity | vm_compute; reflexivity ]. }
  assert (Hrep : clauseReplacements NullNode (clausesOf (checkResults s init))
                 = 1%Z) by (vm_compute; reflexivity).
  split; [ vm_compute; reflexivity | ].
  split; [ vm_compute; reflexivity | ].
  split; [ exact Hrep | ].
  split; [ exact Hrun | ].
  intros H. destruct Hrun as (s' & E & Hst).
  assert (Hnz : rowsNonzero (d_tableau s))
    by (apply rowsNonzerob_ok; vm_compute; reflexivity).
  assert (HF : Forall2 (fun e n => checkBasicForConflict (fst e) s = Ok n)
                 init (checkResults s init)).
  { apply checkResults_Forall2; [ exact Hnz | ].
    intros e He. apply filter_In in He. destruct He as [_ He].
    unfold live in He. apply andb_true_iff in He. apply He. }
  specialize (H s (checkResults s init) _ s' Hnz HF E).
  rewrite Hst, Hrep in H. simpl in H. lia.
Qed.

(** ** C8: a satisfied state is left alone *)

(** [satisfied s]: every basic variable is within its bounds. *)
Definition satisfied (s : Simplex) : Prop :=
  forall x, isBasic s x = true ->
            assignmentIsConsistent (d_partialModel s) x = true.

Definition satisfiedb (s : Simplex) : bool :=
  forallb (assignmentIsConsistent (d_partialModel s))
    (Tableau.basics (d_tableau s)).

Lemma satisfiedb_ok s : satisfiedb s = true -> satisfied s.
Proof.
  unfold satisfiedb, satisfied. rewrite forallb_forall.
  intros H x Hx. apply H. now apply isBasic_In.
Qed.

Lemma satisfied_not_live s x : satisfied s -> live s x = false.
Proof.
  intros H. unfold live. destruct (isBasic s x) eqn:E; [ | reflexivity ].
  now rewrite (H x E).
Qed.

Lemma scanQueue_all_stale A (key : A -> ArithVar) s q :
  (forall x, live s x = false) -> scanQueue key s q = (ARITHVAR_SENTINEL, []).
Proof.
  intros H. induction q as [|top rest IH]; simpl; [ reflexivity | ].
  now rewrite H.
Qed.

Lemma drainGriggio_all_stale s q :
  (forall x, live s x = false) -> drainGriggio s q = [].
Proof.
  intros H. rewrite drainGriggio_filter.
  induction q as [|top rest IH]; simpl; [ reflexivity | ].
  now rewrite H.
Qed.

(** The idle state of the engine between two checks: Griggio stage, and
    nothing waiting in the Bland queue. *)
Definition idle (s : Simplex) : Prop :=
  d_pivotStage s = true /\ d_possiblyInconsistent s = [].

(** C8.  When the Griggio queue is empty, [updateInconsistentVars]
    returns null and leaves the whole state as it is.  When the queue is
    not empty but the idle engine is satisfied (every basic variable is
    within its bounds, so that all queue entries are stale), it returns
    null as well.  In both cases no pivot happens: the tableau, the
    assignment and every statistics counter, [pivots] among them, are the
    ones before the call. *)
Theorem updateInconsistentVars_satisfied (s : Simplex) (fuel : nat) :
  d_griggioRuleQueue s = [] \/ (satisfied s /\ idle s /\ (2 <= fuel)%nat) ->
  exists s',
    updateInconsistentVars fuel s = Some (Ok (NullNode, s')) /\
    d_tableau s' = d_tableau s /\
    d_partialModel s' = d_partialModel s /\
    d_statistics s' = d_statistics s /\
    Statistics.d_statPivots (d_statistics s') =
      Statistics.d_statPivots (d_statistics s) /\
    (d_griggioRuleQueue s = [] -> s' = s).
Proof.
  intros H. unfold updateInconsistentVars.
  destruct (d_griggioRuleQueue s) as [|top rest] eqn:Eq.
  - simpl. exists s. split_and; auto.
  - destruct H as [H | (Hsat & (Hstage & Hbland) & Hfuel)]; [ discriminate | ].
    cbn [queueEmpty]. cbv zeta.
    set (s1 := set_pivotsSinceConflict (set_foundAConflict s false) 0).
    assert (Hlive1 : forall x, live s1 x = false).
    { intros x. exact (satisfied_not_live x Hsat). }
    set (queue1 := d_griggioRuleQueue s1).
    assert (Hinit :
      (if (1 <? length queue1)%nat then selectInitialConflict s1
       else Ok (NullNode, s1)) =
      Ok (NullNode,
          if (1 <? length queue1)%nat then set_griggioRuleQueue s1 []
          else s1)).
    { destruct (1 <? length queue1)%nat; [ | reflexivity ].
      unfold selectInitialConflict. cbv zeta.
      rewrite drainGriggio_all_stale by exact Hlive1. simpl.
      destruct s; reflexivity. }
    rewrite Hinit. cbn [isNull].
    set (s2 := if (1 <? length queue1)%nat then set_griggioRuleQueue s1 []
               else s1).
    assert (Hlive2 : forall x, live s2 x = false).
    { intros x. subst s2. destruct (1 <? length queue1)%nat; apply Hlive1. }
    assert (Hstage2 : d_pivotStage s2 = true).
    { subst s2. destruct (1 <? length queue1)%nat; exact Hstage. }
    destruct fuel as [|[|fuel]]; try lia.
    cbn [privateUpdateInconsistentVars privateUpdate_loop].
    rewrite Hstage2. cbn [orb negb].
    unfold privateUpdate_body, selectSmallestInconsistentVar.
    rewrite Hstage2, selectSmallest_griggio_scan.
    rewrite scanQueue_all_stale by exact Hlive2.
    cbn [N.eqb ARITHVAR_SENTINEL UINT32_MAX Pos.eqb].
    replace (0 <=? d_numVariables s2) with true
      by (symmetry; apply N.leb_le; lia).
    unfold finishCheck. cbn [isNull negb orb queueEmpty Assert bind].
    assert (Hbland2 : d_possiblyInconsistent s2 = []).
    { subst s2. destruct (1 <? length queue1)%nat; exact Hbland. }
    cbn [d_possiblyInconsistent d_griggioRuleQueue set_griggioRuleQueue].
    rewrite Hbland2. cbn [queueEmpty Assert bind].
    eexists. split; [ reflexivity | ].
    subst s2 s1. destruct (1 <? length queue1)%nat; simpl;
      split_and; try reflexivity; discriminate.
Qed.

(** On [x2 = x0 + x1]: the bound [x2 <= -1] puts [x2] on the Griggio
    queue, and the bound [x0 <= -1] then moves [x0], and with it [x2],
    to [-1].  The queue entry of [x2] is stale. *)
Definition staleQueueState : Simplex :=
  let s := freshSimplex sumTableau 3 in
  let s := after (AssertUpper 2 (intBound (-1)) (atom 12) s) s in
  after (AssertUpper 0 (intBound (-1)) (atom 10) s) s.

Example staleQueueState_queue :
  map fst (d_griggioRuleQueue staleQueueState) = [2].
Proof. vm_compute. reflexivity. Qed.

(** C8 on that state. *)
Lemma updateInconsistentVars_satisfied_witness :
  let s := staleQueueState in
  exists s',
    updateInconsistentVars 2 s = Some (Ok (NullNode, s')) /\
    d_tableau s' = d_tableau s /\
    d_partialModel s' = d_partialModel s /\
    d_statistics s' = d_statistics s /\
    Statistics.d_statPivots (d_statistics s') =
      Statistics.d_statPivots (d_statistics s) /\
    (d_griggioRuleQueue s = [] -> s' = s).
Proof.
  intros s. apply (@updateInconsistentVars_satisfied s 2).
  right. split; [ | split; [ split | ] ].
  - apply satisfiedb_ok. vm_compute. reflexivity.
  - vm_compute. reflexivity.
  - vm_compute. reflexivity.
  - lia.
Defined.

(** ** The assignment after the two update loops *)

(** The assignment that the loop of [update] computes from [beta]. *)
Fixpoint updateAssign (T : Tableau.t) (x_i : ArithVar) (diff : DRat)
    (bs : list ArithVar) (beta : ArithVar -> DRat) : ArithVar -> DRat :=
  match bs with
  | [] => beta
  | x_j :: bs' =>
      match Tableau.find T x_j with
      | Some row_j =>
          if ReducedRowVector.has row_j x_i then
            updateAssign T x_i diff bs'
              (upd beta x_j
                 (beta x_j + diff * ReducedRowVector.coeff row_j x_i)%DR)
          else updateAssign T x_i diff bs' beta
      | None => beta
      end
  end.

(** The assignment that the loop of [pivotAndUpdate] computes. *)
Fixpoint pivotAssign (T : Tableau.t) (x_i x_j : ArithVar) (theta : DRat)
    (bs : list ArithVar) (beta : ArithVar -> DRat) : ArithVar -> DRat :=
  match bs with
  | [] => beta
  | x_k :: bs' =>
      match Tableau.find T x_k with
      | Some row_k =>
          if negb (x_k =? x_i) && ReducedRowVector.has row_k x_j then
            pivotAssign T x_i x_j theta bs'
              (upd beta x_k
                 (beta x_k + theta * ReducedRowVector.coeff row_k x_j)%DR)
          else pivotAssign T x_i x_j theta bs' beta
      | None => beta
      end
  end.

Lemma lookup_find T x r : Tableau.lookup T x = Ok r <-> Tableau.find T x = Some r.
Proof.
  unfold Tableau.lookup. destruct (Tableau.find T x); split; congruence.
Qed.

Lemma row_lookup_Ok r x a :
  ReducedRowVector.lookup r x = Ok a ->
  ReducedRowVector.has r x = true /\ a = ReducedRowVector.coeff r x.
Proof.
  unfold ReducedRowVector.lookup.
  destruct (ReducedRowVector.has r x); [ | discriminate ].
  intros H. injection H as <-. auto.
Qed.

Lemma update_loop_Ok x_i diff bs : forall s s',
  update_loop x_i diff bs s = Ok s' ->
  frame s s' /\
  d_assignment (d_partialModel s') =
    updateAssign (d_tableau s) x_i diff bs (d_assignment (d_partialModel s)).
Proof.
  induction bs as [|x_j bs IH]; intros s s' H; simpl in H.
  - injection H as <-. split; [ apply frame_refl | reflexivity ].
  - destruct (Tableau.lookup (d_tableau s) x_j) as [row_j|] eqn:Erow;
      simpl in H; [ | discriminate ].
    apply lookup_find in Erow. simpl. rewrite Erow.
    destruct (ReducedRowVector.has row_j x_i) eqn:Hhas.
    + rewrite (has_lookup _ _ Hhas) in H. simpl in H.
      match type of H with
      | bind (checkBasicVariable x_j ?s1') _ = _ => set (s1 := s1') in H
      end.
      destruct (checkBasicVariable x_j s1) as [s2|] eqn:E2; simpl in H;
        [ | discriminate ].
      apply checkBasicVariable_frame in E2. destruct E2 as [F2 A2].
      apply IH in H. destruct H as [F A].
      assert (F1 : frame s s1).
      { eapply frame_trans; [ apply frame_setAssignment | apply frame_bumpActivity ]. }
      split.
      * exact (frame_trans (frame_trans F1 F2) F).
      * rewrite A, A2. destruct F2 as [-> _]. reflexivity.
    + simpl in H. apply IH in H. exact H.
Qed.

Lemma pivotAndUpdate_loop_Ok x_i x_j theta bs : forall s s',
  pivotAndUpdate_loop x_i x_j theta bs s = Ok s' ->
  frame s s' /\
  d_assignment (d_partialModel s') =
    pivotAssign (d_tableau s) x_i x_j theta bs (d_assignment (d_partialModel s)).
Proof.
  induction bs as [|x_k bs IH]; intros s s' H; simpl in H.
  - injection H as <-. split; [ apply frame_refl | reflexivity ].
  - destruct (Tableau.lookup (d_tableau s) x_k) as [row_k|] eqn:Erow;
      simpl in H; [ | discriminate ].
    apply lookup_find in Erow. simpl. rewrite Erow.
    destruct (negb (x_k =? x_i) && ReducedRowVector.has row_k x_j) eqn:Hc.
    + apply andb_true_iff in Hc. destruct Hc as [_ Hhas].
      rewrite (has_lookup _ _ Hhas) in H. simpl in H.
      match type of H with
      | bind (checkBasicVariable x_k ?s1') _ = _ => set (s1 := s1') in H
      end.
      destruct (checkBasicVariable x_k s1) as [s2|] eqn:E2; simpl in H;
        [ | discriminate ].
      apply checkBasicVariable_frame in E2. destruct E2 as [F2 A2].
      apply IH in H. destruct H as [F A].
      assert (F1 : frame s s1).
      { eapply frame_trans; [ apply frame_setAssignment | apply frame_bumpActivity ]. }
      split.
      * exact (frame_trans (frame_trans F1 F2) F).
      * rewrite A, A2. destruct F2 as [-> _]. reflexivity.
    + simpl in H. apply IH in H. exact H.
Qed.

(** ** The effect of [pivotAndUpdate] *)

Lemma notePivot_effect s :
  d_partialModel (notePivot s) = d_partialModel s /\
  d_tableau (notePivot s) = d_tableau s /\
  d_numVariables (notePivot s) = d_numVariables s /\
  d_pivotStage (notePivot s) = d_pivotStage s /\
  d_foundAConflict (notePivot s) = d_foundAConflict s /\
  d_griggioRuleQueue (notePivot s) = d_griggioRuleQueue s /\
  d_possiblyInconsistent (notePivot s) = d_possiblyInconsistent s /\
  d_out (notePivot s) = d_out s /\
  Statistics.d_statPivots (d_statistics (notePivot s)) =
    (Statistics.d_statPivots (d_statistics s) + 1)%Z.
Proof.
  unfold notePivot. cbv zeta. unfold count. simpl.
  destruct (d_foundAConflict s) eqn:Ef; simpl.
  - destruct ((d_pivotsSinceConflict s + 1) mod UINT32_MOD =? 1); simpl;
      rewrite Ef; destruct (d_statistics s); simpl; repeat split.
  - rewrite Ef. destruct (d_statistics s); simpl. repeat split.
Qed.

(** The assignment written by [pivotAndUpdate] before its loop. *)
Definition pivotStart (beta : ArithVar -> DRat) (x_i x_j : ArithVar)
    (v theta : DRat) : ArithVar -> DRat :=
  upd (upd beta x_i v) x_j (upd beta x_i v x_j + theta)%DR.

(** [theta = (v - beta(x_i)) / a_ij] *)
Definition pivotTheta (beta : ArithVar -> DRat) (x_i : ArithVar) (v : DRat)
    (a_ij : Rational) : DRat :=
  ((v - beta x_i) * Rat.inverse a_ij)%DR.

Lemma pivotAndUpdate_Ok x_i x_j v s s' :
  pivotAndUpdate x_i x_j v s = Ok s' ->
  exists row_i T',
    x_i <> x_j /\
    Tableau.lookup (d_tableau s) x_i = Ok row_i /\
    ReducedRowVector.has row_i x_j = true /\
    Tableau.pivot (d_tableau s) x_i x_j = Ok T' /\
    d_tableau s' = T' /\
    d_assignment (d_partialModel s') =
      (let beta := d_assignment (d_partialModel s) in
       let theta := pivotTheta beta x_i v (ReducedRowVector.coeff row_i x_j) in
       pivotAssign (d_tableau s) x_i x_j theta (Tableau.basics (d_tableau s))
         (pivotStart beta x_i x_j v theta)) /\
    d_lowerBound (d_partialModel s') = d_lowerBound (d_partialModel s) /\
    d_upperBound (d_partialModel s') = d_upperBound (d_partialModel s) /\
    d_lowerConstraint (d_partialModel s') = d_lowerConstraint (d_partialModel s) /\
    d_upperConstraint (d_partialModel s') = d_upperConstraint (d_partialModel s) /\
    d_pivotStage s' = d_pivotStage s /\
    d_numVariables s' = d_numVariables s /\
    d_out s' = d_out s /\
    Statistics.d_statPivots (d_statistics s') =
      (Statistics.d_statPivots (d_statistics s) + 1)%Z.
Proof.
  unfold pivotAndUpdate. intros H.
  destruct (negb (x_i =? x_j)) eqn:Hne; simpl in H; [ | discriminate ].
  apply negb_true_iff, N.eqb_neq in Hne.
  destruct (Tableau.lookup (d_tableau s) x_i) as [row_i|] eqn:Erow;
    simpl in H; [ | discriminate ].
  destruct (ReducedRowVector.lookup row_i x_j) as [a_ij|] eqn:Ea;
    simpl in H; [ | discriminate ].
  apply row_lookup_Ok in Ea. destruct Ea as [Hhas ->].
  cbv zeta in H.
  match type of H with
  | bind (pivotAndUpdate_loop _ _ ?th _ ?s2') _ = _ =>
      set (theta := th) in H; set (s2 := s2') in H
  end.
  match type of H with
  | bind ?l _ = _ => destruct l as [s3|] eqn:E3
  end; simpl in H; [ | discriminate ].
  apply pivotAndUpdate_loop_Ok in E3. destruct E3 as [F3 A3].
  pose proof (notePivot_effect s3) as N4.
  set (s4 := notePivot s3) in *.
  destruct N4 as (N1 & N2 & N3 & N4 & N5 & N6 & N7 & N8 & N9).
  destruct (Tableau.pivot (d_tableau s4) x_i x_j) as [T'|] eqn:ET;
    simpl in H; [ | discriminate ].
  set (s5 := set_tableau s4 T') in H.
  destruct (checkBasicVariable x_j s5) as [s6|] eqn:E6; simpl in H;
    [ | discriminate ].
  apply checkBasicVariable_Ok in E6. destruct E6 as (_ & gq & bq & ->).
  unfold frame in F3.
  destruct F3 as (F1 & F2 & F3 & F4 & F5 & F6 & F7 & F8 & F9 & F10 & F11 & F12).
  assert (Hs' : d_tableau s' = T' /\
                d_partialModel s' = d_partialModel s3 /\
                d_pivotStage s' = d_pivotStage s3 /\
                d_numVariables s' = d_numVariables s3 /\
                d_out s' = d_out s3 /\
                d_statistics s' = d_statistics s4).
  { revert H. cbn [d_foundAConflict set_possiblyInconsistent
                   set_griggioRuleQueue set_tableau s5].
    destruct (negb (d_foundAConflict s4)).
    - cbn [d_partialModel set_possiblyInconsistent set_griggioRuleQueue
           set_tableau getAssignment].
      destruct (belowLowerBound _ x_j _ true).
      + destruct (selectSlackBelow x_j _); simpl; [ | discriminate ].
        destruct (_ =? ARITHVAR_SENTINEL); intros H; injection H as <-;
          simpl; rewrite ?N1, ?N2, ?N3, ?N4, ?N8; repeat split; auto.
      + destruct (aboveUpperBound _ x_j _ true).
        * destruct (selectSlackAbove x_j _); simpl; [ | discriminate ].
          destruct (_ =? ARITHVAR_SENTINEL); intros H; injection H as <-;
            simpl; rewrite ?N1, ?N2, ?N3, ?N4, ?N8; repeat split; auto.
        * intros H; injection H as <-;
            simpl; rewrite ?N1, ?N2, ?N3, ?N4, ?N8; repeat split; auto.
    - intros H; injection H as <-;
        simpl; rewrite ?N1, ?N2, ?N3, ?N4, ?N8; repeat split; auto. }
  destruct Hs' as (S1 & S2 & S3 & S4 & S5 & S6).
  exists row_i, T'.
  rewrite N2, F1 in ET.
  rewrite S1, S2, S3, S4, S5, S6, A3, F8, F9, F10, F11, F3, F2, F7, N9, F6.
  subst s2. simpl. split_and; try reflexivity; auto.
Qed.

(** ** One pass through the body of the main loop *)

(** A pass ends in one of three ways: nothing is left to repair; the
    selected variable has no slack and its conflict is returned; or a
    slack is found and one [pivotAndUpdate] is performed. *)
Lemma privateUpdate_body_Ok s e s1 :
  privateUpdate_body s = Ok (e, s1) ->
  let x_i := fst (selectSmallestInconsistentVar s) in
  let s0 := snd (selectSmallestInconsistentVar s) in
  (x_i = ARITHVAR_SENTINEL /\ e = Return NullNode /\ s1 = s0) \/
  (x_i <> ARITHVAR_SENTINEL /\
   s1 = count Statistics.incUpdateConflicts s0 /\ exists n, e = Return n) \/
  (x_i <> ARITHVAR_SENTINEL /\
   exists above x_j v,
     selectSlack above x_i s0 = Ok x_j /\
     x_j <> ARITHVAR_SENTINEL /\
     pivotAndUpdate x_i x_j v s0 = Ok s1 /\
     (if above
      then getUpperBound (d_partialModel s0) x_i = Ok v /\
           aboveUpperBound (d_partialModel s0) x_i
             (getAssignment (d_partialModel s0) x_i) true = true
      else getLowerBound (d_partialModel s0) x_i = Ok v /\
           belowLowerBound (d_partialModel s0) x_i
             (getAssignment (d_partialModel s0) x_i) true = true)).
Proof.
  unfold privateUpdate_body.
  destruct (selectSmallestInconsistentVar s) as [x_i s0]. simpl.
  destruct (x_i =? ARITHVAR_SENTINEL) eqn:Ex.
  - apply N.eqb_eq in Ex. intros H. injection H as <- <-. left. auto.
  - apply N.eqb_neq in Ex. intros H. right.
    destruct (belowLowerBound (d_partialModel s0) x_i
                (getAssignment (d_partialModel s0) x_i) true) eqn:Hlow.
    + destruct (getLowerBound (d_partialModel s0) x_i) as [l_i|] eqn:El;
        simpl in H; [ | discriminate ].
      unfold selectSlackBelow in H.
      destruct (selectSlack false x_i s0) as [x_j|] eqn:Ej;
        simpl in H; [ | discriminate ].
      destruct (x_j =? ARITHVAR_SENTINEL) eqn:Exj.
      * destruct (generateConflictBelow x_i _) as [n|]; simpl in H;
          [ | discriminate ].
        injection H as <- <-. left. eauto.
      * destruct (pivotAndUpdate x_i x_j l_i s0) as [s2|] eqn:Ep;
          simpl in H; [ | discriminate ].
        rewrite Exj in H. simpl in H.
        destruct (checkBasicForConflict x_j s2) as [c|]; simpl in H;
          [ | discriminate ].
        assert (s1 = s2).
        { destruct (negb (isNull c)); injection H as _ <-; reflexivity. }
        subst s2. right. split; [ exact Ex | ].
        exists false, x_j, l_i. apply N.eqb_neq in Exj. auto.
    + destruct (aboveUpperBound (d_partialModel s0) x_i
                  (getAssignment (d_partialModel s0) x_i) true) eqn:Hup.
      * destruct (getUpperBound (d_partialModel s0) x_i) as [u_i|] eqn:Eu;
          simpl in H; [ | discriminate ].
        unfold selectSlackAbove in H.
        destruct (selectSlack true x_i s0) as [x_j|] eqn:Ej;
          simpl in H; [ | discriminate ].
        destruct (x_j =? ARITHVAR_SENTINEL) eqn:Exj.
        -- destruct (generateConflictAbove x_i _) as [n|]; simpl in H;
             [ | discriminate ].
           injection H as <- <-. left. eauto.
        -- destruct (pivotAndUpdate x_i x_j u_i s0) as [s2|] eqn:Ep;
             simpl in H; [ | discriminate ].
           rewrite Exj in H. simpl in H.
           destruct (checkBasicForConflict x_j s2) as [c|]; simpl in H;
             [ | discriminate ].
           assert (s1 = s2).
           { destruct (negb (isNull c)); injection H as _ <-; reflexivity. }
           subst s2. right. split; [ exact Ex | ].
           exists true, x_j, u_i. apply N.eqb_neq in Exj. auto.
      * simpl in H. discriminate.
Qed.

Lemma selectSmallestInconsistentVar_frame s :
  let s0 := snd (selectSmallestInconsistentVar s) in
  d_partialModel s0 = d_partialModel s /\
  d_tableau s0 = d_tableau s /\
  d_pivotStage s0 = d_pivotStage s /\
  d_numVariables s0 = d_numVariables s /\
  d_statistics s0 = d_statistics s /\
  d_out s0 = d_out s.
Proof.
  unfold selectSmallestInconsistentVar.
  destruct (d_pivotStage s) eqn:Hp.
  - destruct (selectSmallest_griggio s (d_griggioRuleQueue s)). simpl.
    split_and; auto.
  - destruct (selectSmallest_bland s (d_possiblyInconsistent s)). simpl.
    split_and; auto.
Qed.

(** A pass keeps the stage and the number of variables, and performs at
    most one pivot. *)
Lemma privateUpdate_body_pivots s e s1 :
  privateUpdate_body s = Ok (e, s1) ->
  d_pivotStage s1 = d_pivotStage s /\
  d_numVariables s1 = d_numVariables s /\
  (Statistics.d_statPivots (d_statistics s1) =
     Statistics.d_statPivots (d_statistics s) \/
   Statistics.d_statPivots (d_statistics s1) =
     (Statistics.d_statPivots (d_statistics s) + 1)%Z).
Proof.
  intros H. apply privateUpdate_body_Ok in H.
  destruct (selectSmallestInconsistentVar_frame s) as (F1 & F2 & F3 & F4 & F5 & F6).
  cbv zeta in H.
  destruct H as [(_ & _ & ->) | [(_ & -> & _) | (_ & above & x_j & v & _ & _ & Hp & _)]].
  - rewrite F3, F4, F5. auto.
  - unfold count. simpl. rewrite F3, F4, F5.
    destruct (d_statistics s). simpl. auto.
  - apply pivotAndUpdate_Ok in Hp.
    destruct Hp as (row_i & T' & _ & _ & _ & _ & _ & _ & _ & _ & _ & _ & P1 & P2 & _ & P3).
    rewrite P1, P2, P3, F3, F4, F5. auto.
Qed.

(** ** C6: the iteration budget of the Griggio stage *)

Lemma privateUpdate_loop_budget k : forall iter s,
  d_pivotStage s = true ->
  d_numVariables s < UINT32_MAX ->
  iter <= d_numVariables s + 1 ->
  (N.to_nat (d_numVariables s + 2 - iter) <= k)%nat ->
  exists r, privateUpdate_loop k iter s = Some r.
Proof.
  induction k as [|k IH]; intros iter s Hp Hn Hiter Hk.
  - lia.
  - cbn [privateUpdate_loop]. rewrite Hp. cbn [negb orb].
    destruct (iter <=? d_numVariables s) eqn:Ec; [ | eauto ].
    apply N.leb_le in Ec.
    destruct (privateUpdate_body s) as [[[n|] s1]|] eqn:Eb; eauto.
    destruct (privateUpdate_body_pivots _ Eb) as (B1 & B2 & _).
    assert (Hmod : (iter + 1) mod UINT32_MOD = iter + 1).
    { apply N.mod_small. unfold UINT32_MOD, UINT32_MAX in *. lia. }
    rewrite Hmod. apply IH; rewrite ?B1, ?B2; try assumption; lia.
Qed.

Lemma privateUpdate_loop_pivots k : forall iter s e s',
  d_pivotStage s = true ->
  d_numVariables s < UINT32_MAX ->
  iter <= d_numVariables s + 1 ->
  privateUpdate_loop k iter s = Some (Ok (e, s')) ->
  d_pivotStage s' = true /\
  d_numVariables s' = d_numVariables s /\
  (Statistics.d_statPivots (d_statistics s)
     <= Statistics.d_statPivots (d_statistics s')
     <= Statistics.d_statPivots (d_statistics s)
        + Z.of_N (d_numVariables s + 1 - iter))%Z /\
  (forall it, e = Exhausted it -> it = d_numVariables s + 1).
Proof.
  induction k as [|k IH]; intros iter s e s' Hp Hn Hiter H.
  - discriminate.
  - cbn [privateUpdate_loop] in H. rewrite Hp in H. cbn [negb orb] in H.
    destruct (iter <=? d_numVariables s) eqn:Ec.
    + apply N.leb_le in Ec.
      destruct (privateUpdate_body s) as [[[n|] s1]|] eqn:Eb;
        [ | | discriminate ].
      * injection H as <- <-.
        destruct (privateUpdate_body_pivots _ Eb) as (B1 & B2 & B3).
        rewrite B1, B2. split_and; auto; try lia. discriminate.
      * destruct (privateUpdate_body_pivots _ Eb) as (B1 & B2 & B3).
        assert (Hmod : (iter + 1) mod UINT32_MOD = iter + 1).
        { apply N.mod_small. unfold UINT32_MOD, UINT32_MAX in *. lia. }
        rewrite Hmod in H. apply IH in H; rewrite ?B1, ?B2; try assumption;
          try lia.
        rewrite B2 in H. destruct H as (H1 & H2 & H3 & H4).
        split_and; auto; lia.
    + apply N.leb_gt in Ec. injection H as <- <-.
      split_and; auto; try lia. intros it E. injection E as <-. lia.
Qed.

(** The Bland queue holds what is pushed on it. *)
Lemma pq_push_In A (before : A -> A -> bool) x y q :
  In y (pq_push before x q) <-> y = x \/ In y q.
Proof.
  induction q as [|z q IH]; simpl.
  - split; [ intros [<- | []]; now left | intros [-> | []]; now left ].
  - destruct (before x z); simpl.
    + split; [ intros [<- | H]; auto | intros [-> | H]; auto ].
    + rewrite IH. split.
      * intros [<- | [-> | H]]; auto.
      * intros [-> | [<- | H]]; auto.
Qed.

(** After the migration the Bland queue holds its old entries and the
    basic variables of the Griggio queue. *)
Lemma migrateQueue_In s q : forall b y,
  In y (migrateQueue s q b) <->
  In y b \/ (isBasic s y = true /\ In y (map fst q)).
Proof.
  induction q as [|top rest IH]; intros b y; simpl.
  - split; [ auto | intros [H | [_ []]]; exact H ].
  - destruct (isBasic s (fst top)) eqn:Eb; rewrite IH.
    + unfold bland_push. rewrite pq_push_In. split.
      * intros [[-> | H] | [H1 H2]]; auto.
      * intros [H | [H1 [<- | H2]]]; auto.
    + split.
      * intros [H | [H1 H2]]; auto.
      * intros [H | [H1 [<- | H2]]]; auto. congruence.
Qed.

(** C6, amended.  Let the engine be in its Griggio stage with fewer than
    [2^32 - 1] variables.  The loop of [privateUpdateInconsistentVars]
    executes its body at most [numVariables + 1] times: [numVariables + 2]
    evaluations of the loop condition always bring it to an end.  A pass
    through the body performs at most one pivot, so the stage performs at
    most [numVariables + 1] pivots.  When the loop ends because the budget
    is exhausted, the iteration counter is [numVariables + 1], every basic
    variable of the Griggio queue is moved to the Bland queue, the Griggio
    queue is emptied, [pivotStage] becomes false and the procedure calls
    itself on that state. *)
Theorem griggio_budget (s : Simplex) :
  d_pivotStage s = true ->
  d_numVariables s < UINT32_MAX ->
  (forall fuel, (N.to_nat (d_numVariables s) + 2 <= fuel)%nat ->
     exists r, privateUpdate_loop fuel 0 s = Some r) /\
  (forall s0 e s1, privateUpdate_body s0 = Ok (e, s1) ->
     Statistics.d_statPivots (d_statistics s1) =
       Statistics.d_statPivots (d_statistics s0) \/
     Statistics.d_statPivots (d_statistics s1) =
       (Statistics.d_statPivots (d_statistics s0) + 1)%Z) /\
  (forall fuel e s',
     privateUpdate_loop fuel 0 s = Some (Ok (e, s')) ->
     (Statistics.d_statPivots (d_statistics s')
        <= Statistics.d_statPivots (d_statistics s)
           + Z.of_N (d_numVariables s + 1))%Z) /\
  (forall fuel it s1,
     privateUpdate_loop fuel 0 s = Some (Ok (Exhausted it, s1)) ->
     it = d_numVariables s + 1 /\
     privateUpdateInconsistentVars (S fuel) s =
       privateUpdateInconsistentVars fuel (enterBlandStage s1) /\
     d_pivotStage (enterBlandStage s1) = false /\
     d_griggioRuleQueue (enterBlandStage s1) = [] /\
     d_tableau (enterBlandStage s1) = d_tableau s1 /\
     d_partialModel (enterBlandStage s1) = d_partialModel s1 /\
     forall y,
       In y (d_possiblyInconsistent (enterBlandStage s1)) <->
       In y (d_possiblyInconsistent s1) \/
       (isBasic s1 y = true /\ In y (map fst (d_griggioRuleQueue s1)))).
Proof.
  intros Hp Hn. split_and.
  - intros fuel Hfuel. apply privateUpdate_loop_budget; try assumption; lia.
  - intros s0 e s1 H. apply (privateUpdate_body_pivots _ H).
  - intros fuel e s' H.
    apply privateUpdate_loop_pivots in H; [ | assumption | assumption | lia ].
    destruct H as (_ & _ & H & _). rewrite N.sub_0_r in H. lia.
  - intros fuel it s1 H.
    pose proof H as H'.
    apply privateUpdate_loop_pivots in H'; [ | assumption | assumption | lia ].
    destruct H' as (H1 & H2 & _ & H4).
    specialize (H4 it eq_refl). split; [ exact H4 | ].
    split.
    + cbn [privateUpdateInconsistentVars]. rewrite Hp. cbn [orb negb].
      rewrite H, H1. cbn [andb].
      assert (E : (d_numVariables s1 <=? it) = true).
      { apply N.leb_le. lia. }
      now rewrite E.
    + unfold enterBlandStage. cbv zeta. simpl. split_and; auto.
      intros y. apply migrateQueue_In.
Qed.

(** The tableau [x3 = -2 x0 - 2 x1 + x2], [x4 = -x0 + x1] over five
    variables. *)
Definition budgetTableau : Tableau.t :=
  [intRow 3 [(0, (-2)%Z); (1, (-2)%Z); (2, 1%Z); (3, (-1)%Z)];
   intRow 4 [(0, (-1)%Z); (1, 1%Z); (4, (-1)%Z)]].

(** Ten bounds asserted on a fresh engine over that tableau; none of the
    calls reports a conflict. *)
Definition budgetAsserted : Simplex :=
  let s := freshSimplex budgetTableau 5 in
  let s := after (AssertLower 2 (intBound (-3)) (atom 20) s) s in
  let s := after (AssertUpper 3 (intBound (-1)) (atom 31) s) s in
  let s := after (AssertUpper 2 (intBound (-1)) (atom 21) s) s in
  let s := after (AssertLower 0 (intBound (-2)) (atom 0) s) s in
  let s := after (AssertUpper 1 (intBound (-1)) (atom 11) s) s in
  let s := after (AssertUpper 4 (intBound (-3)) (atom 41) s) s in
  let s := after (AssertLower 3 (intBound (-2)) (atom 30) s) s in
  let s := after (AssertUpper 0 (intBound 1) (atom 1) s) s in
  let s := after (AssertLower 1 (intBound (-3)) (atom 10) s) s in
  after (AssertLower 4 (intBound (-3)) (atom 40) s) s.

(** The state in which [updateInconsistentVars] then calls
    [privateUpdateInconsistentVars]: the flags are reset and
    [selectInitialConflict] has found no clause. *)
Definition budgetState : Simplex :=
  let s := set_pivotsSinceConflict (set_foundAConflict budgetAsserted false) 0 in
  after (selectInitialConflict s) s.

Example budgetState_no_initial_conflict :
  d_out budgetAsserted = [] /\
  exists s',
    selectInitialConflict
      (set_pivotsSinceConflict (set_foundAConflict budgetAsserted false) 0)
    = Ok (NullNode, s').
Proof. split; [ reflexivity | eexists; vm_compute; reflexivity ]. Qed.

(** C6, as stated, fails.  With five variables the Griggio stage runs six
    passes of its loop from [budgetState]: six evaluations of the loop
    condition do not end the loop, the seventh finds the counter at six,
    and by then six pivots have been performed. *)
Lemma griggio_budget_counterexample :
  d_pivotStage budgetState = true /\
  d_numVariables budgetState = 5 /\
  privateUpdate_loop 6 0 budgetState = None /\
  (exists s',
     privateUpdate_loop 7 0 budgetState = Some (Ok (Exhausted 6, s')) /\
     Statistics.d_statPivots (d_statistics s') =
       (Statistics.d_statPivots (d_statistics budgetState) + 6)%Z) /\
  ~ (forall s fuel e s',
       d_pivotStage s = true ->
       privateUpdate_loop fuel 0 s = Some (Ok (e, s')) ->
       (Statistics.d_statPivots (d_statistics s')
          <= Statistics.d_statPivots (d_statistics s)
             + Z.of_N (d_numVariables s))%Z).
Proof.
  assert (H7 : exists s',
     privateUpdate_loop 7 0 budgetState = Some (Ok (Exhausted 6, s')) /\
     Statistics.d_statPivots (d_statistics s') =
       (Statistics.d_statPivots (d_statistics budgetState) + 6)%Z).
  { eexists. split; [ vm_compute; reflexivity | vm_compute; reflexivity ]. }
  split; [ vm_compute; reflexivity | ].
  split; [ vm_compute; reflexivity | ].
  split; [ vm_compute; reflexivity | ].
  split; [ exact H7 | ].
  intros H. destruct H7 as (s' & E & Hp).
  assert (Hs : d_pivotStage budgetState = true) by (vm_compute; reflexivity).
  specialize (H budgetState 7%nat _ s' Hs E).
  rewrite Hp in H.
  assert (Hn : d_numVariables budgetState = 5) by (vm_compute; reflexivity).
  rewrite Hn in H. lia.
Qed.

(** The amended C6 on the same state. *)
Lemma griggio_budget_witness :
  let s := budgetState in
  (forall fuel, (N.to_nat (d_numVariables s) + 2 <= fuel)%nat ->
     exists r, privateUpdate_loop fuel 0 s = Some r) /\
  (forall s0 e s1, privateUpdate_body s0 = Ok (e, s1) ->
     Statistics.d_statPivots (d_statistics s1) =
       Statistics.d_statPivots (d_statistics s0) \/
     Statistics.d_statPivots (d_statistics s1) =
       (Statistics.d_statPivots (d_statistics s0) + 1)%Z) /\
  (forall fuel e s',
     privateUpdate_loop fuel 0 s = Some (Ok (e, s')) ->
     (Statistics.d_statPivots (d_statistics s')
        <= Statistics.d_statPivots (d_statistics s)
           + Z.of_N (d_numVariables s + 1))%Z) /\
  (forall fuel it s1,
     privateUpdate_loop fuel 0 s = Some (Ok (Exhausted it, s1)) ->
     it = d_numVariables s + 1 /\
     privateUpdateInconsistentVars (S fuel) s =
       privateUpdateInconsistentVars fuel (enterBlandStage s1) /\
     d_pivotStage (enterBlandStage s1) = false /\
     d_griggioRuleQueue (enterBlandStage s1) = [] /\
     d_tableau (enterBlandStage s1) = d_tableau s1 /\
     d_partialModel (enterBlandStage s1) = d_partialModel s1 /\
     forall y,
       In y (d_possiblyInconsistent (enterBlandStage s1)) <->
       In y (d_possiblyInconsistent s1) \/
       (isBasic s1 y = true /\ In y (map fst (d_griggioRuleQueue s1)))).
Proof.
  intros s. apply (@griggio_budget s).
  - vm_compute. reflexivity.
  - vm_compute. reflexivity.
Defined.

(** The whole check on the asserted state ends with a model after those
    six pivots of the Griggio stage. *)
Example budget_check_pivots :
  match updateInconsistentVars 20 budgetAsserted with
  | Some (Ok (n, s')) =>
      n = NullNode /\ Statistics.d_statPivots (d_statistics s') = 6%Z
  | _ => False
  end.
Proof. vm_compute. split; reflexivity. Qed.

(** ** The algebra of sparse rows *)

Ltac drat_ring :=
  apply DRatFacts.eq_intro;
  simpl DeltaRational.c; simpl DeltaRational.k;
  unfold Rat.inverse; ring.

(** The value of a whole row under an assignment, the entry of the basic
    variable included. *)
Fixpoint evalRow (beta : ArithVar -> DRat) (es : list Entry) : DRat :=
  match es with
  | [] => DeltaRational.zero
  | e :: es' => (beta (fst e) * snd e + evalRow beta es')%DR
  end.

Definition keys (es : list Entry) : list ArithVar := map fst es.

Definition sortedKeys (es : list Entry) : Prop :=
  StronglySorted N.lt (keys es).

Definition nonzeroEntries (es : list Entry) : Prop :=
  Forall (fun e => snd e <> 0%Qc) es.

Lemma addRows_nil_l q s :
  ReducedRowVector.addRows q [] s = ReducedRowVector.scale q s.
Proof. reflexivity. Qed.

Lemma addRows_nil_r q r : ReducedRowVector.addRows q r [] = r.
Proof. destruct r as [|[x a] r']; reflexivity. Qed.

Lemma addRows_cons q x a r' y b s' :
  ReducedRowVector.addRows q ((x, a) :: r') ((y, b) :: s') =
  match N.compare x y with
  | Lt => (x, a) :: ReducedRowVector.addRows q r' ((y, b) :: s')
  | Eq => if Rat.eqb (a + b * q)%Qc 0%Qc
          then ReducedRowVector.addRows q r' s'
          else (x, (a + b * q)%Qc) :: ReducedRowVector.addRows q r' s'
  | Gt => (y, (b * q)%Qc) :: ReducedRowVector.addRows q ((x, a) :: r') s'
  end.
Proof. reflexivity. Qed.

(** Induction along the merge of two rows. *)
Lemma addRows_ind (P : list Entry -> list Entry -> Prop) :
  (forall s, P [] s) ->
  (forall r, P r []) ->
  (forall x a r' y b s',
     (N.compare x y = Lt -> P r' ((y, b) :: s')) ->
     (N.compare x y = Eq -> P r' s') ->
     (N.compare x y = Gt -> P ((x, a) :: r') s') ->
     P ((x, a) :: r') ((y, b) :: s')) ->
  forall r s, P r s.
Proof.
  intros Hnil_l Hnil_r Hcons.
  induction r as [|[x a] r' IHr]; [ exact Hnil_l | ].
  induction s as [|[y b] s' IHs]; [ apply Hnil_r | ].
  apply Hcons; intros _; [ apply IHr | apply IHr | exact IHs ].
Qed.

Ltac addRows_induction r s :=
  revert r s;
  match goal with
  | |- forall r s, @?P r s => apply (addRows_ind P)
  end.

Lemma evalRow_scale beta q es :
  evalRow beta (ReducedRowVector.scale q es) = (evalRow beta es * q)%DR.
Proof.
  induction es as [|e es IH]; simpl.
  - drat_ring.
  - rewrite IH. drat_ring.
Qed.

Lemma evalRow_addRows beta q r s :
  evalRow beta (ReducedRowVector.addRows q r s) =
  (evalRow beta r + evalRow beta s * q)%DR.
Proof.
  addRows_induction r s.
  - intros s. rewrite addRows_nil_l, evalRow_scale. simpl. drat_ring.
  - intros r. rewrite addRows_nil_r. simpl. drat_ring.
  - intros x a r' y b s' HLt HEq HGt. rewrite addRows_cons.
    destruct (N.compare x y) eqn:E.
    + apply N.compare_eq in E. subst y. specialize (HEq eq_refl).
      destruct (Rat.eqb (a + b * q)%Qc 0%Qc) eqn:Ez.
      * apply Rat.rat_eqb_eq in Ez. rewrite HEq. cbn [evalRow fst snd].
        apply DRatFacts.eq_intro; simpl.
        -- transitivity
             (DeltaRational.c (beta x) * (a + b * q)
              + (DeltaRational.c (evalRow beta r')
                 + DeltaRational.c (evalRow beta s') * q))%Qc;
             [ rewrite Ez | ]; ring.
        -- transitivity
             (DeltaRational.k (beta x) * (a + b * q)
              + (DeltaRational.k (evalRow beta r')
                 + DeltaRational.k (evalRow beta s') * q))%Qc;
             [ rewrite Ez | ]; ring.
      * cbn [evalRow fst snd]. rewrite HEq. drat_ring.
    + cbn [evalRow fst snd]. rewrite (HLt eq_refl). cbn [evalRow fst snd].
      drat_ring.
    + cbn [evalRow fst snd]. rewrite (HGt eq_refl). cbn [evalRow fst snd].
      drat_ring.
Qed.

Lemma keys_scale q es : keys (ReducedRowVector.scale q es) = keys es.
Proof.
  unfold keys, ReducedRowVector.scale. rewrite map_map. reflexivity.
Qed.

Lemma coeffIn_scale q es x :
  ReducedRowVector.coeffIn (ReducedRowVector.scale q es) x =
  (ReducedRowVector.coeffIn es x * q)%Qc.
Proof.
  induction es as [|[y a] es IH]; simpl.
  - ring.
  - destruct (y =? x); [ reflexivity | exact IH ].
Qed.

Lemma coeffIn_absent es x :
  ~ In x (keys es) -> ReducedRowVector.coeffIn es x = 0%Qc.
Proof.
  induction es as [|[y a] es IH]; simpl; intros H; [ reflexivity | ].
  destruct (y =? x) eqn:E.
  - apply N.eqb_eq in E. exfalso. apply H. now left.
  - apply IH. intros Hin. apply H. now right.
Qed.

Lemma coeffIn_nonzero_In es x :
  ReducedRowVector.coeffIn es x <> 0%Qc ->
  In (x, ReducedRowVector.coeffIn es x) es.
Proof.
  induction es as [|[y a] es IH]; simpl; intros H; [ congruence | ].
  destruct (y =? x) eqn:E.
  - apply N.eqb_eq in E. subst. now left.
  - right. now apply IH.
Qed.

Lemma sortedKeys_tail e es : sortedKeys (e :: es) -> sortedKeys es.
Proof. unfold sortedKeys. simpl. intros H. now inversion H. Qed.

Lemma sortedKeys_head e es :
  sortedKeys (e :: es) -> forall y, In y (keys es) -> fst e < y.
Proof.
  unfold sortedKeys. simpl. intros H y Hy. inversion H as [|? ? _ HF]; subst.
  rewrite Forall_forall in HF. now apply HF.
Qed.

Lemma sortedKeys_cons e es :
  sortedKeys es -> (forall y, In y (keys es) -> fst e < y) ->
  sortedKeys (e :: es).
Proof.
  unfold sortedKeys. simpl. intros H1 H2. constructor; [ exact H1 | ].
  now apply Forall_forall.
Qed.

Lemma coeffIn_In es x a :
  sortedKeys es -> In (x, a) es -> ReducedRowVector.coeffIn es x = a.
Proof.
  induction es as [|[y b] es IH]; simpl; intros Hs Hin; [ contradiction | ].
  destruct Hin as [E | Hin].
  - injection E as -> ->. now rewrite N.eqb_refl.
  - destruct (y =? x) eqn:E.
    + apply N.eqb_eq in E. subst y. exfalso.
      pose proof (sortedKeys_head Hs x) as H. simpl in H.
      assert (x < x); [ | lia ].
      apply H. unfold keys. change x with (fst (x, a)). now apply in_map.
    + apply IH; [ exact (sortedKeys_tail Hs) | exact Hin ].
Qed.

Lemma has_In r x :
  ReducedRowVector.has r x = true <-> In x (keys (ReducedRowVector.entries r)).
Proof.
  unfold ReducedRowVector.has, keys. rewrite existsb_exists, in_map_iff.
  split; intros (e & H1 & H2); exists e.
  - apply N.eqb_eq in H2. auto.
  - split; [ exact H2 | now apply N.eqb_eq ].
Qed.

Lemma In_keys_coeff es x :
  nonzeroEntries es -> sortedKeys es ->
  (In x (keys es) <-> ReducedRowVector.coeffIn es x <> 0%Qc).
Proof.
  intros Hnz Hs. split.
  - intros Hin. unfold keys in Hin. apply in_map_iff in Hin.
    destruct Hin as ([y a] & E & Hin). simpl in E. subst y.
    rewrite (@coeffIn_In es x a Hs Hin).
    unfold nonzeroEntries in Hnz. rewrite Forall_forall in Hnz.
    exact (Hnz _ Hin).
  - intros H. apply coeffIn_nonzero_In in H.
    unfold keys. change x with (fst (x, ReducedRowVector.coeffIn es x)).
    now apply in_map.
Qed.

Lemma sortedKeys_scale q es :
  sortedKeys es -> sortedKeys (ReducedRowVector.scale q es).
Proof. unfold sortedKeys. now rewrite keys_scale. Qed.

Lemma nonzeroEntries_scale q es :
  q <> 0%Qc -> nonzeroEntries es -> nonzeroEntries (ReducedRowVector.scale q es).
Proof.
  intros Hq. unfold nonzeroEntries, ReducedRowVector.scale.
  rewrite Forall_map. apply Forall_impl. intros e He. simpl.
  intros H. apply Qcmult_integral in H. tauto.
Qed.

Lemma keys_addRows q r s : forall x,
  In x (keys (ReducedRowVector.addRows q r s)) ->
  In x (keys r) \/ In x (keys s).
Proof.
  addRows_induction r s.
  - intros s x. rewrite addRows_nil_l, keys_scale. auto.
  - intros r x. rewrite addRows_nil_r. auto.
  - intros x a r' y b s' HLt HEq HGt z. rewrite addRows_cons.
    destruct (N.compare x y) eqn:E.
    + apply N.compare_eq in E. subst y. specialize (HEq eq_refl).
      destruct (Rat.eqb (a + b * q)%Qc 0%Qc).
      * intros H. apply HEq in H. simpl. tauto.
      * simpl. intros [H | H]; [ auto | ]. apply HEq in H. tauto.
    + simpl. intros [H | H]; [ auto | ].
      apply (HLt eq_refl) in H. simpl in H. tauto.
    + simpl. intros [H | H]; [ auto | ].
      apply (HGt eq_refl) in H. simpl in H. tauto.
Qed.

Lemma sortedKeys_addRows q r s :
  sortedKeys r -> sortedKeys s ->
  sortedKeys (ReducedRowVector.addRows q r s).
Proof.
  addRows_induction r s.
  - intros s _ Hs. rewrite addRows_nil_l. now apply sortedKeys_scale.
  - intros r Hr _. now rewrite addRows_nil_r.
  - intros x a r' y b s' HLt HEq HGt Hr Hs. rewrite addRows_cons.
    pose proof (sortedKeys_tail Hr) as Hr'.
    pose proof (sortedKeys_tail Hs) as Hs'.
    pose proof (sortedKeys_head Hr) as Hxr.
    pose proof (sortedKeys_head Hs) as Hys.
    simpl in Hxr, Hys.
    destruct (N.compare x y) eqn:E.
    + apply N.compare_eq in E. subst y. specialize (HEq eq_refl Hr' Hs').
      destruct (Rat.eqb (a + b * q)%Qc 0%Qc); [ exact HEq | ].
      apply sortedKeys_cons; [ exact HEq | ].
      cbn [fst]. intros z Hz. apply keys_addRows in Hz.
      destruct Hz as [Hz | Hz]; [ exact (Hxr z Hz) | exact (Hys z Hz) ].
    + change (x < y) in E.
      apply sortedKeys_cons; [ exact (HLt eq_refl Hr' Hs) | ].
      cbn [fst]. intros z Hz. apply keys_addRows in Hz.
      destruct Hz as [Hz | [<- | Hz]];
        [ exact (Hxr z Hz) | exact E | specialize (Hys z Hz); lia ].
    + apply N.compare_gt_iff in E.
      apply sortedKeys_cons; [ exact (HGt eq_refl Hr Hs') | ].
      cbn [fst]. intros z Hz. apply keys_addRows in Hz.
      destruct Hz as [[<- | Hz] | Hz];
        [ exact E | specialize (Hxr z Hz); lia | exact (Hys z Hz) ].
Qed.

Lemma nonzeroEntries_addRows q r s :
  q <> 0%Qc -> nonzeroEntries r -> nonzeroEntries s ->
  nonzeroEntries (ReducedRowVector.addRows q r s).
Proof.
  intros Hq. addRows_induction r s.
  - intros s _ Hs. rewrite addRows_nil_l. now apply nonzeroEntries_scale.
  - intros r Hr _. now rewrite addRows_nil_r.
  - intros x a r' y b s' HLt HEq HGt Hr Hs. rewrite addRows_cons.
    unfold nonzeroEntries in *.
    inversion Hr as [|? ? Ha Hr']; subst.
    inversion Hs as [|? ? Hb Hs']; subst. simpl in Ha, Hb.
    destruct (N.compare x y) eqn:E.
    + destruct (Rat.eqb (a + b * q)%Qc 0%Qc) eqn:Ez; [ now apply HEq | ].
      constructor; [ | now apply HEq ].
      simpl. now apply Rat.rat_eqb_neq.
    + constructor; [ exact Ha | now apply HLt ].
    + constructor; [ | now apply HGt ].
      simpl. intros H. apply Qcmult_integral in H. tauto.
Qed.

Lemma coeffIn_below es x :
  (forall y, In y (keys es) -> x < y) -> ReducedRowVector.coeffIn es x = 0%Qc.
Proof.
  intros H. apply coeffIn_absent. intros Hin. specialize (H x Hin). lia.
Qed.

Lemma coeffIn_addRows q r s :
  sortedKeys r -> sortedKeys s ->
  forall z,
    ReducedRowVector.coeffIn (ReducedRowVector.addRows q r s) z =
    (ReducedRowVector.coeffIn r z + ReducedRowVector.coeffIn s z * q)%Qc.
Proof.
  addRows_induction r s.
  - intros s _ Hs z. rewrite addRows_nil_l, coeffIn_scale. simpl. ring.
  - intros r Hr _ z. rewrite addRows_nil_r. simpl. ring.
  - intros x a r' y b s' HLt HEq HGt Hr Hs z. rewrite addRows_cons.
    pose proof (sortedKeys_tail Hr) as Hr'.
    pose proof (sortedKeys_tail Hs) as Hs'.
    pose proof (sortedKeys_head Hr) as Hxr.
    pose proof (sortedKeys_head Hs) as Hys.
    simpl in Hxr, Hys.
    destruct (N.compare x y) eqn:E.
    + apply N.compare_eq in E. subst y. specialize (HEq eq_refl Hr' Hs').
      destruct (Rat.eqb (a + b * q)%Qc 0%Qc) eqn:Ez.
      * apply Rat.rat_eqb_eq in Ez. rewrite HEq. simpl.
        destruct (x =? z) eqn:Exz; [ | reflexivity ].
        apply N.eqb_eq in Exz. subst z.
        rewrite (@coeffIn_below r' x Hxr), (@coeffIn_below s' x Hys), Ez. ring.
      * simpl. destruct (x =? z); [ reflexivity | apply HEq ].
    + change (x < y) in E. specialize (HLt eq_refl Hr' Hs).
      cbn [ReducedRowVector.coeffIn].
      destruct (x =? z) eqn:Exz.
      * apply N.eqb_eq in Exz. subst z.
        assert (Hyx : (y =? x) = false) by (apply N.eqb_neq; lia).
        rewrite Hyx, (@coeffIn_below s' x); [ ring | ].
        intros w Hw. specialize (Hys w Hw). lia.
      * rewrite HLt. reflexivity.
    + apply N.compare_gt_iff in E. specialize (HGt eq_refl Hr Hs').
      cbn [ReducedRowVector.coeffIn].
      destruct (y =? z) eqn:Eyz.
      * apply N.eqb_eq in Eyz. subst z.
        assert (Hxy : (x =? y) = false) by (apply N.eqb_neq; lia).
        rewrite Hxy, (@coeffIn_below r' y); [ ring | ].
        intros w Hw. specialize (Hxr w Hw). lia.
      * rewrite HGt. reflexivity.
Qed.

(** ** Rows and the assignment *)

(** [computeRowValue] sums the entries of the non-basic variables. *)
Lemma computeRowValue_loop_evalRow beta b es : forall sum,
  computeRowValue_loop beta b es sum =
  (sum + evalRow beta (nonbasicEntries b es))%DR.
Proof.
  induction es as [|e es IH]; intros sum.
  - simpl. drat_ring.
  - cbn [computeRowValue_loop]. unfold getArithVar, getCoefficient.
    rewrite nonbasicEntries_cons.
    destruct (fst e =? b); [ apply IH | ].
    rewrite IH. cbn [evalRow]. drat_ring.
Qed.

(** The entry of [b] apart, a row is its non-basic part. *)
Lemma evalRow_split beta b es :
  sortedKeys es ->
  evalRow beta es =
  (evalRow beta (nonbasicEntries b es)
   + beta b * ReducedRowVector.coeffIn es b)%DR.
Proof.
  induction es as [|[y a] es IH]; intros Hs.
  - simpl. drat_ring.
  - rewrite nonbasicEntries_cons. cbn [fst ReducedRowVector.coeffIn evalRow snd].
    pose proof (sortedKeys_tail Hs) as Hs'.
    destruct (y =? b) eqn:E.
    + apply N.eqb_eq in E. subst y.
      assert (Habs : ReducedRowVector.coeffIn es b = 0%Qc).
      { apply coeffIn_below. exact (sortedKeys_head Hs). }
      rewrite (IH Hs'), Habs. drat_ring.
    + cbn [evalRow fst snd]. rewrite (IH Hs'). drat_ring.
Qed.

(** Two assignments that agree on a row except at [p] and [q]. *)
Lemma evalRow_change beta beta' p q es :
  sortedKeys es -> p <> q ->
  (forall y, In y (keys es) -> y <> p -> y <> q -> beta' y = beta y) ->
  evalRow beta' es =
  (evalRow beta es
   + (beta' p - beta p) * ReducedRowVector.coeffIn es p
   + (beta' q - beta q) * ReducedRowVector.coeffIn es q)%DR.
Proof.
  intros Hs Hpq. induction es as [|[y a] es IH]; intros Hagree.
  - simpl. drat_ring.
  - cbn [evalRow fst snd ReducedRowVector.coeffIn].
    pose proof (sortedKeys_tail Hs) as Hs'.
    assert (Hagree' : forall z, In z (keys es) -> z <> p -> z <> q ->
                                beta' z = beta z).
    { intros z Hz. apply Hagree. now right. }
    rewrite (IH Hs' Hagree').
    pose proof (sortedKeys_head Hs) as Hhead. cbn [fst] in Hhead.
    destruct (y =? p) eqn:Ep; destruct (y =? q) eqn:Eq.
    + apply N.eqb_eq in Ep, Eq. congruence.
    + apply N.eqb_eq in Ep. subst y.
      rewrite (@coeffIn_below es p Hhead). drat_ring.
    + apply N.eqb_eq in Eq. subst y.
      rewrite (@coeffIn_below es q Hhead). drat_ring.
    + apply N.eqb_neq in Ep, Eq.
      rewrite (Hagree y); [ drat_ring | now left | exact Ep | exact Eq ].
Qed.

(** *** Well-formed tableaux *)

(** A row is well formed in a tableau when its entries are sorted by
    variable and nonzero, the coefficient of its basic variable is [-1],
    and every other variable of the row is non-basic. *)
Definition wfRow (T : Tableau.t) (r : Row) : Prop :=
  sortedKeys (ReducedRowVector.entries r) /\
  nonzeroEntries (ReducedRowVector.entries r) /\
  ReducedRowVector.coeff r (ReducedRowVector.basic r) = (- (1))%Qc /\
  (forall x, In x (keys (ReducedRowVector.entries r)) ->
             x <> ReducedRowVector.basic r -> Tableau.isBasic T x = false).

(** A tableau is well formed when no variable owns two rows and every
    row is well formed. *)
Definition wfTableau (T : Tableau.t) : Prop :=
  NoDup (Tableau.basics T) /\ Forall (wfRow T) T.

(** The equation of a row, as [checkTableau] tests it. *)
Definition rowHolds (beta : ArithVar -> DRat) (r : Row) : Prop :=
  computeRowValue_loop beta (ReducedRowVector.basic r)
    (ReducedRowVector.entries r) DeltaRational.zero
  = beta (ReducedRowVector.basic r).

Definition tableauHolds (beta : ArithVar -> DRat) (T : Tableau.t) : Prop :=
  Forall (rowHolds beta) T.

Lemma DRat_sub_zero (a b : DRat) :
  (a + b * (- (1))%Qc)%DR = DeltaRational.zero <-> a = b.
Proof.
  split.
  - intros H. apply DRatFacts.eq_intro.
    + apply (f_equal DeltaRational.c) in H. simpl in H.
      transitivity (DeltaRational.c a + DeltaRational.c b * - (1)
                    + DeltaRational.c b)%Qc; [ ring | rewrite H; ring ].
    + apply (f_equal DeltaRational.k) in H. simpl in H.
      transitivity (DeltaRational.k a + DeltaRational.k b * - (1)
                    + DeltaRational.k b)%Qc; [ ring | rewrite H; ring ].
  - intros ->. drat_ring.
Qed.

Lemma rowHolds_iff T beta r :
  wfRow T r ->
  (rowHolds beta r <-> evalRow beta (ReducedRowVector.entries r) = DeltaRational.zero).
Proof.
  intros (Hs & _ & Hb & _). unfold rowHolds.
  rewrite computeRowValue_loop_evalRow, DRatFacts.add_zero_l.
  rewrite (evalRow_split beta (ReducedRowVector.basic r) Hs).
  unfold ReducedRowVector.coeff in Hb. rewrite Hb.
  symmetry. apply DRat_sub_zero.
Qed.

(** ** The pivot of the tableau *)

(** The row map that [Tableau.pivot] applies. *)
Definition pivotRow (x_i x_j : ArithVar) (row_s : Row) (r : Row) : Row :=
  if ReducedRowVector.basic r =? x_i then row_s
  else if ReducedRowVector.has r x_j
       then ReducedRowVector.substitute r row_s
       else r.

Lemma pivot_Ok T x_i x_j T' :
  Tableau.pivot T x_i x_j = Ok T' ->
  exists row_i,
    Tableau.isBasic T x_i = true /\
    Tableau.isBasic T x_j = false /\
    Tableau.lookup T x_i = Ok row_i /\
    ReducedRowVector.has row_i x_j = true /\
    ReducedRowVector.coeff row_i x_j <> 0%Qc /\
    T' = map (pivotRow x_i x_j (ReducedRowVector.pivot row_i x_j)) T.
Proof.
  unfold Tableau.pivot. intros H.
  destruct (Tableau.isBasic T x_i) eqn:Ei; simpl in H; [ | discriminate ].
  destruct (Tableau.isBasic T x_j) eqn:Ej; simpl in H; [ discriminate | ].
  destruct (Tableau.lookup T x_i) as [row_i|] eqn:Er; simpl in H;
    [ | discriminate ].
  destruct (ReducedRowVector.lookup row_i x_j) as [a|] eqn:Ea; simpl in H;
    [ | discriminate ].
  apply row_lookup_Ok in Ea. destruct Ea as [Hhas ->].
  destruct (Rat.eqb (ReducedRowVector.coeff row_i x_j) 0%Qc) eqn:Ez;
    simpl in H; [ discriminate | ].
  apply Rat.rat_eqb_neq in Ez. injection H as <-.
  exists row_i. split_and; auto.
Qed.

Lemma pivot_total T x_i x_j row_i :
  Tableau.isBasic T x_j = false ->
  Tableau.lookup T x_i = Ok row_i ->
  ReducedRowVector.has row_i x_j = true ->
  ReducedRowVector.coeff row_i x_j <> 0%Qc ->
  Tableau.pivot T x_i x_j =
    Ok (map (pivotRow x_i x_j (ReducedRowVector.pivot row_i x_j)) T).
Proof.
  intros Hj Hr Hhas Hz. unfold Tableau.pivot.
  rewrite (lookup_isBasic _ _ Hr), Hj, Hr. simpl.
  rewrite (has_lookup _ _ Hhas). simpl.
  apply Rat.rat_eqb_neq in Hz. rewrite Hz. reflexivity.
Qed.

Lemma basic_unique T r r' :
  NoDup (Tableau.basics T) -> In r T -> In r' T ->
  ReducedRowVector.basic r = ReducedRowVector.basic r' -> r = r'.
Proof.
  unfold Tableau.basics. induction T as [|r0 T0 IH]; [ contradiction | ].
  simpl. intros Hnd Hin Hin' Hb.
  apply NoDup_cons_iff in Hnd. destruct Hnd as [Hnotin Hnd].
  destruct Hin as [E | Hin], Hin' as [E' | Hin'].
  - congruence.
  - exfalso. apply Hnotin. rewrite E, Hb. now apply in_map.
  - exfalso. apply Hnotin. rewrite E', <- Hb. now apply in_map.
  - now apply IH.
Qed.

Section Pivot.
Variable T : Tableau.t.
Variables x_i x_j : ArithVar.
Variable row_i : Row.

Hypothesis HwfT : wfTableau T.
Hypothesis Hrow : Tableau.lookup T x_i = Ok row_i.
Hypothesis Hnonbasic : Tableau.isBasic T x_j = false.
Hypothesis Hhas : ReducedRowVector.has row_i x_j = true.

Let a_ij := ReducedRowVector.coeff row_i x_j.
Let row_s := ReducedRowVector.pivot row_i x_j.
Let T' := map (pivotRow x_i x_j row_s) T.

Lemma pivot_row_in : In row_i T /\ ReducedRowVector.basic row_i = x_i.
Proof. now apply lookup_Ok. Qed.

Lemma pivot_row_wf : wfRow T row_i.
Proof.
  destruct HwfT as [_ HF]. rewrite Forall_forall in HF.
  apply HF. apply pivot_row_in.
Qed.

Lemma pivot_distinct : x_i <> x_j.
Proof.
  intros E. rewrite <- E in Hnonbasic.
  rewrite (lookup_isBasic _ _ Hrow) in Hnonbasic. discriminate.
Qed.

Lemma pivot_coeff_nonzero : a_ij <> 0%Qc.
Proof.
  destruct pivot_row_wf as (Hs & Hnz & _).
  apply (In_keys_coeff x_j Hnz Hs). now apply has_In.
Qed.

Lemma pivot_basic_unique r :
  In r T -> ReducedRowVector.basic r = x_i -> r = row_i.
Proof.
  intros Hin Hb. destruct HwfT as [Hnd _]. destruct pivot_row_in as [Hin' Hb'].
  apply (@basic_unique T r row_i Hnd Hin Hin'). congruence.
Qed.

Lemma pivotRow_basic r :
  In r T ->
  ReducedRowVector.basic (pivotRow x_i x_j row_s r) =
  if ReducedRowVector.basic r =? x_i then x_j else ReducedRowVector.basic r.
Proof.
  intros _. unfold pivotRow.
  destruct (ReducedRowVector.basic r =? x_i); [ reflexivity | ].
  destruct (ReducedRowVector.has r x_j); reflexivity.
Qed.

Lemma pivot_basics :
  Tableau.basics T' =
  map (fun b => if b =? x_i then x_j else b) (Tableau.basics T).
Proof.
  unfold T', Tableau.basics. rewrite !map_map. apply map_ext_in.
  intros r Hr. now apply pivotRow_basic.
Qed.

Lemma pivot_isBasic x :
  Tableau.isBasic T' x = true <->
  x = x_j \/ (Tableau.isBasic T x = true /\ x <> x_i).
Proof.
  rewrite !isBasic_In, pivot_basics, in_map_iff. split.
  - intros (b & E & Hb). destruct (b =? x_i) eqn:Eb.
    + left. now symmetry.
    + right. subst b. apply N.eqb_neq in Eb. auto.
  - intros [-> | [Hx Hne]].
    + exists x_i. rewrite N.eqb_refl. split; [ reflexivity | ].
      apply isBasic_In. exact (lookup_isBasic _ _ Hrow).
    + exists x. apply N.eqb_neq in Hne. rewrite Hne. auto.
Qed.

Lemma pivot_isBasic_false x :
  x <> x_j -> (Tableau.isBasic T x = false \/ x = x_i) ->
  Tableau.isBasic T' x = false.
Proof.
  intros Hne H. destruct (Tableau.isBasic T' x) eqn:E; [ | reflexivity ].
  apply pivot_isBasic in E. destruct E as [-> | [E1 E2]].
  - congruence.
  - destruct H; congruence.
Qed.

Lemma pivot_NoDup : NoDup (Tableau.basics T').
Proof.
  rewrite pivot_basics. destruct HwfT as [Hnd _].
  apply NoDup_map_NoDup_ForallPairs; [ | exact Hnd ].
  intros a b Ha Hb. apply isBasic_In in Ha, Hb.
  destruct (a =? x_i) eqn:Ea, (b =? x_i) eqn:Eb;
    try apply N.eqb_eq in Ea; try apply N.eqb_eq in Eb; intros E.
  - congruence.
  - subst b. congruence.
  - subst a. congruence.
  - exact E.
Qed.

(** The coefficients of the solved row. *)
Lemma pivot_solved_coeff z :
  ReducedRowVector.coeff row_s z =
  (ReducedRowVector.coeff row_i z * - Rat.inverse a_ij)%Qc.
Proof.
  unfold row_s, ReducedRowVector.pivot, ReducedRowVector.coeff. simpl.
  apply coeffIn_scale.
Qed.

Lemma pivot_scale_nonzero : (- Rat.inverse a_ij)%Qc <> 0%Qc.
Proof.
  pose proof pivot_coeff_nonzero as Ha. unfold Rat.inverse.
  intros H. apply Ha.
  assert (E : (/ a_ij)%Qc = 0%Qc).
  { transitivity (- - / a_ij)%Qc; [ ring | rewrite H; ring ]. }
  transitivity (a_ij * (a_ij * / a_ij))%Qc.
  - rewrite Qcmult_inv_r by exact Ha. ring.
  - rewrite E. ring.
Qed.

Lemma pivot_solved_wf : wfRow T' row_s.
Proof.
  destruct pivot_row_wf as (Hs & Hnz & Hb & Hnb).
  destruct pivot_row_in as [_ Hbi].
  unfold wfRow. split_and.
  - unfold row_s, ReducedRowVector.pivot. simpl. now apply sortedKeys_scale.
  - unfold row_s, ReducedRowVector.pivot. simpl.
    apply nonzeroEntries_scale; [ apply pivot_scale_nonzero | exact Hnz ].
  - change (ReducedRowVector.basic row_s) with x_j.
    rewrite pivot_solved_coeff. fold a_ij. unfold Rat.inverse.
    field. apply pivot_coeff_nonzero.
  - change (ReducedRowVector.basic row_s) with x_j.
    unfold row_s, ReducedRowVector.pivot. simpl. rewrite keys_scale.
    intros x Hx Hne. apply pivot_isBasic_false; [ exact Hne | ].
    destruct (N.eq_dec x x_i) as [-> | Hxi]; [ now right | left ].
    apply Hnb; [ exact Hx | congruence ].
Qed.

(** A row other than the one of [x_i] does not mention [x_i], and its
    basic variable is not in the row of [x_i]. *)
Lemma pivot_other_row r :
  In r T -> ReducedRowVector.basic r <> x_i ->
  wfRow T r /\
  ReducedRowVector.coeff row_i (ReducedRowVector.basic r) = 0%Qc /\
  ReducedRowVector.basic r <> x_j.
Proof.
  intros Hin Hne. destruct HwfT as [_ HF]. rewrite Forall_forall in HF.
  split; [ now apply HF | ].
  assert (Hb : Tableau.isBasic T (ReducedRowVector.basic r) = true).
  { apply isBasic_In. unfold Tableau.basics. now apply in_map. }
  split.
  - destruct pivot_row_wf as (Hs & Hnz & _ & Hnb).
    destruct pivot_row_in as [_ Hbi].
    unfold ReducedRowVector.coeff. apply coeffIn_absent. intros Hk.
    rewrite (Hnb _ Hk) in Hb; [ discriminate | congruence ].
  - intros E. rewrite E in Hb. congruence.
Qed.

Lemma pivot_substituted_coeff r z :
  In r T -> ReducedRowVector.basic r <> x_i ->
  ReducedRowVector.coeff (ReducedRowVector.substitute r row_s) z =
  (ReducedRowVector.coeff r z
   + ReducedRowVector.coeff row_s z * ReducedRowVector.coeff r x_j)%Qc.
Proof.
  intros Hin Hne. destruct (pivot_other_row r Hin Hne) as ((Hs & _) & _).
  destruct pivot_solved_wf as (Hss & _).
  unfold ReducedRowVector.substitute, ReducedRowVector.coeff. simpl.
  now apply coeffIn_addRows.
Qed.

Lemma pivot_substituted_wf r :
  In r T -> ReducedRowVector.basic r <> x_i ->
  ReducedRowVector.has r x_j = true ->
  wfRow T' (ReducedRowVector.substitute r row_s).
Proof.
  intros Hin Hne Hj.
  destruct (pivot_other_row r Hin Hne) as ((Hs & Hnz & Hb & Hnb) & Hbi & Hbj).
  destruct pivot_solved_wf as (Hss & Hsnz & Hsb & Hsnb).
  destruct pivot_row_wf as (His & Hinz & Hib & Hinb).
  assert (Hq : ReducedRowVector.coeff r x_j <> 0%Qc).
  { apply (In_keys_coeff x_j Hnz Hs). now apply has_In. }
  assert (Hsorted : sortedKeys
            (ReducedRowVector.entries (ReducedRowVector.substitute r row_s))).
  { simpl. now apply sortedKeys_addRows. }
  assert (Hnonzero : nonzeroEntries
            (ReducedRowVector.entries (ReducedRowVector.substitute r row_s))).
  { simpl. now apply nonzeroEntries_addRows. }
  unfold wfRow. split_and; [ exact Hsorted | exact Hnonzero | | ].
  - change (ReducedRowVector.basic (ReducedRowVector.substitute r row_s))
      with (ReducedRowVector.basic r).
    rewrite (pivot_substituted_coeff r _ Hin Hne), pivot_solved_coeff, Hb, Hbi.
    ring.
  - change (ReducedRowVector.basic (ReducedRowVector.substitute r row_s))
      with (ReducedRowVector.basic r).
    intros x Hx Hxb.
    assert (Hxj : x <> x_j).
    { intros ->. apply (In_keys_coeff x_j Hnonzero Hsorted) in Hx. apply Hx.
      change (ReducedRowVector.coeffIn
                (ReducedRowVector.entries (ReducedRowVector.substitute r row_s)) x_j)
        with (ReducedRowVector.coeff (ReducedRowVector.substitute r row_s) x_j).
      rewrite (pivot_substituted_coeff r _ Hin Hne).
      change x_j with (ReducedRowVector.basic row_s) at 2.
      rewrite Hsb. ring. }
    apply pivot_isBasic_false; [ exact Hxj | ].
    simpl in Hx. apply keys_addRows in Hx. destruct Hx as [Hx | Hx].
    + left. now apply Hnb.
    + unfold row_s, ReducedRowVector.pivot in Hx. simpl in Hx.
      rewrite keys_scale in Hx.
      destruct (N.eq_dec x x_i) as [-> | Hxi]; [ now right | left ].
      destruct pivot_row_in as [_ Hbri].
      apply Hinb; [ exact Hx | congruence ].
Qed.

Lemma pivot_untouched_wf r :
  In r T -> ReducedRowVector.basic r <> x_i ->
  ReducedRowVector.has r x_j = false ->
  wfRow T' r.
Proof.
  intros Hin Hne Hj.
  destruct (pivot_other_row r Hin Hne) as ((Hs & Hnz & Hb & Hnb) & Hbi & Hbj).
  unfold wfRow. split_and; auto.
  intros x Hx Hxb. apply pivot_isBasic_false.
  - intros ->. apply has_In in Hx. congruence.
  - left. now apply Hnb.
Qed.

Lemma pivotRow_wf r : In r T -> wfRow T' (pivotRow x_i x_j row_s r).
Proof.
  intros Hin. unfold pivotRow.
  destruct (ReducedRowVector.basic r =? x_i) eqn:E.
  - apply pivot_solved_wf.
  - apply N.eqb_neq in E.
    destruct (ReducedRowVector.has r x_j) eqn:Hj.
    + now apply pivot_substituted_wf.
    + now apply pivot_untouched_wf.
Qed.

(** The pivot keeps the tableau well formed. *)
Lemma pivot_wf : wfTableau T'.
Proof.
  split; [ apply pivot_NoDup | ].
  unfold T'. rewrite Forall_map. apply Forall_forall.
  intros r Hr. now apply pivotRow_wf.
Qed.

(** The pivot keeps every assignment that satisfies the rows. *)
Lemma pivot_holds beta : tableauHolds beta T -> tableauHolds beta T'.
Proof.
  unfold tableauHolds. intros H. rewrite Forall_forall in H.
  assert (Hi : evalRow beta (ReducedRowVector.entries row_i) = DeltaRational.zero).
  { apply (rowHolds_iff beta pivot_row_wf). apply H. apply pivot_row_in. }
  assert (Hs : evalRow beta (ReducedRowVector.entries row_s) = DeltaRational.zero).
  { unfold row_s, ReducedRowVector.pivot. simpl.
    rewrite evalRow_scale, Hi. drat_ring. }
  unfold T'. rewrite Forall_map. apply Forall_forall. intros r Hr.
  apply (rowHolds_iff beta (pivotRow_wf r Hr)).
  unfold pivotRow. destruct (ReducedRowVector.basic r =? x_i) eqn:E;
    [ exact Hs | ].
  apply N.eqb_neq in E.
  assert (Hr0 : evalRow beta (ReducedRowVector.entries r) = DeltaRational.zero).
  { destruct (pivot_other_row r Hr E) as (Hwf & _).
    apply (rowHolds_iff beta Hwf). now apply H. }
  destruct (ReducedRowVector.has r x_j); [ | exact Hr0 ].
  unfold ReducedRowVector.substitute. cbn [ReducedRowVector.entries].
  rewrite evalRow_addRows, Hr0, Hs. drat_ring.
Qed.
End Pivot.

(** ** The assignments of the two loops, variable by variable *)

Lemma find_row_of_basic T r :
  NoDup (Tableau.basics T) -> In r T ->
  Tableau.find T (ReducedRowVector.basic r) = Some r.
Proof.
  intros Hnd Hin.
  assert (Hb : Tableau.isBasic T (ReducedRowVector.basic r) = true).
  { apply isBasic_In. unfold Tableau.basics. now apply in_map. }
  apply find_isBasic in Hb. destruct Hb as [r' Hr']. rewrite Hr'. f_equal.
  destruct (find_Some _ _ Hr') as [Hin' Hb'].
  apply (@basic_unique T r' r Hnd Hin' Hin Hb').
Qed.

Lemma updateAssign_spec T x_i diff bs : forall beta,
  NoDup bs ->
  (forall x, In x bs -> Tableau.isBasic T x = true) ->
  forall y,
    (~ In y bs -> updateAssign T x_i diff bs beta y = beta y) /\
    (forall row, In y bs -> Tableau.find T y = Some row ->
       updateAssign T x_i diff bs beta y =
       if ReducedRowVector.has row x_i
       then (beta y + diff * ReducedRowVector.coeff row x_i)%DR
       else beta y).
Proof.
  induction bs as [|x bs IH]; intros beta Hnd Hbs y.
  - simpl. split; [ reflexivity | intros row [] ].
  - apply NoDup_cons_iff in Hnd. destruct Hnd as [Hx Hnd].
    assert (Hbs' : forall z, In z bs -> Tableau.isBasic T z = true).
    { intros z Hz. apply Hbs. now right. }
    assert (Hfx : Tableau.isBasic T x = true) by (apply Hbs; now left).
    apply find_isBasic in Hfx. destruct Hfx as [row_x Hfx].
    cbn [updateAssign]. rewrite Hfx.
    destruct (ReducedRowVector.has row_x x_i) eqn:Hhas.
    + destruct (IH (upd beta x
                     (beta x + diff * ReducedRowVector.coeff row_x x_i)%DR)
                  Hnd Hbs' y) as [H1 H2].
      split.
      * intros Hy. rewrite H1 by (intros Hin; apply Hy; now right).
        apply upd_other. intros ->. apply Hy. now left.
      * intros row [<- | Hy] Hrow.
        -- rewrite (H1 Hx), upd_same.
           assert (row = row_x) by congruence. subst row.
           now rewrite Hhas.
        -- rewrite (H2 row Hy Hrow).
           assert (Hne : y <> x) by (intros ->; contradiction).
           now rewrite (upd_other _ _ Hne).
    + destruct (IH beta Hnd Hbs' y) as [H1 H2]. split.
      * intros Hy. apply H1. intros Hin. apply Hy. now right.
      * intros row [<- | Hy] Hrow.
        -- rewrite (H1 Hx). assert (row = row_x) by congruence. subst row.
           now rewrite Hhas.
        -- now apply H2.
Qed.

Lemma pivotAssign_spec T x_i x_j theta bs : forall beta,
  NoDup bs ->
  (forall x, In x bs -> Tableau.isBasic T x = true) ->
  forall y,
    (~ In y bs -> pivotAssign T x_i x_j theta bs beta y = beta y) /\
    (forall row, In y bs -> Tableau.find T y = Some row ->
       pivotAssign T x_i x_j theta bs beta y =
       if negb (y =? x_i) && ReducedRowVector.has row x_j
       then (beta y + theta * ReducedRowVector.coeff row x_j)%DR
       else beta y).
Proof.
  induction bs as [|x bs IH]; intros beta Hnd Hbs y.
  - simpl. split; [ reflexivity | intros row [] ].
  - apply NoDup_cons_iff in Hnd. destruct Hnd as [Hx Hnd].
    assert (Hbs' : forall z, In z bs -> Tableau.isBasic T z = true).
    { intros z Hz. apply Hbs. now right. }
    assert (Hfx : Tableau.isBasic T x = true) by (apply Hbs; now left).
    apply find_isBasic in Hfx. destruct Hfx as [row_x Hfx].
    cbn [pivotAssign]. rewrite Hfx.
    destruct (negb (x =? x_i) && ReducedRowVector.has row_x x_j) eqn:Hc.
    + destruct (IH (upd beta x
                     (beta x + theta * ReducedRowVector.coeff row_x x_j)%DR)
                  Hnd Hbs' y) as [H1 H2].
      split.
      * intros Hy. rewrite H1 by (intros Hin; apply Hy; now right).
        apply upd_other. intros ->. apply Hy. now left.
      * intros row [<- | Hy] Hrow.
        -- rewrite (H1 Hx), upd_same.
           assert (row = row_x) by congruence. subst row.
           now rewrite Hc.
        -- rewrite (H2 row Hy Hrow).
           assert (Hne : y <> x) by (intros ->; contradiction).
           now rewrite (upd_other _ _ Hne).
    + destruct (IH beta Hnd Hbs' y) as [H1 H2]. split.
      * intros Hy. apply H1. intros Hin. apply Hy. now right.
      * intros row [<- | Hy] Hrow.
        -- rewrite (H1 Hx). assert (row = row_x) by congruence. subst row.
           now rewrite Hc.
        -- now apply H2.
Qed.

(** ** C1 and C2: the tableau stays sound *)

Lemma wfTableau_row T r : wfTableau T -> In r T -> wfRow T r.
Proof. intros [_ HF] Hin. rewrite Forall_forall in HF. now apply HF. Qed.

Lemma row_basic_isBasic T r :
  In r T -> Tableau.isBasic T (ReducedRowVector.basic r) = true.
Proof. intros Hin. apply isBasic_In. unfold Tableau.basics. now apply in_map. Qed.

Lemma not_basic_not_In T x :
  Tableau.isBasic T x = false -> ~ In x (Tableau.basics T).
Proof. intros H Hin. apply isBasic_In in Hin. congruence. Qed.

(** The assignment written by [update] satisfies every row again. *)
Lemma update_step_holds T beta x_i v :
  wfTableau T -> tableauHolds beta T ->
  Tableau.isBasic T x_i = false ->
  tableauHolds
    (upd (updateAssign T x_i (v - beta x_i)%DR (Tableau.basics T) beta) x_i v)
    T.
Proof.
  intros Hwf Hholds Hnb. unfold tableauHolds in *.
  rewrite Forall_forall in *. intros r Hr.
  set (beta' := upd _ x_i v).
  pose proof (@wfTableau_row T r Hwf Hr) as Hwr.
  destruct Hwr as (Hs & Hnz & Hb & Hrnb) eqn:Ewr. clear Ewr.
  set (b := ReducedRowVector.basic r) in *.
  assert (Hbb : Tableau.isBasic T b = true) by now apply row_basic_isBasic.
  assert (Hbi : b <> x_i) by congruence.
  destruct Hwf as [Hnd HF].
  assert (Hall : forall x, In x (Tableau.basics T) -> Tableau.isBasic T x = true).
  { intros x. apply isBasic_In. }
  pose proof (updateAssign_spec T x_i (v - beta x_i)%DR beta Hnd Hall) as Hspec.
  assert (Hbeta_b : beta' b =
            if ReducedRowVector.has r x_i
            then (beta b + (v - beta x_i) * ReducedRowVector.coeff r x_i)%DR
            else beta b).
  { unfold beta'. rewrite (upd_other _ _ Hbi).
    apply (proj2 (Hspec b)).
    - now apply isBasic_In.
    - now apply find_row_of_basic. }
  assert (Hbeta_i : beta' x_i = v) by apply upd_same.
  assert (Hagree : forall y, In y (keys (ReducedRowVector.entries r)) ->
                             y <> b -> y <> x_i -> beta' y = beta y).
  { intros y Hy Hyb Hyi. unfold beta'. rewrite (upd_other _ _ Hyi).
    apply (proj1 (Hspec y)). apply not_basic_not_In. now apply Hrnb. }
  assert (H0 : evalRow beta (ReducedRowVector.entries r) = DeltaRational.zero).
  { apply (rowHolds_iff beta (@wfTableau_row T r (conj Hnd HF) Hr)). now apply Hholds. }
  apply (rowHolds_iff beta' (@wfTableau_row T r (conj Hnd HF) Hr)).
  rewrite (evalRow_change beta beta' Hs Hbi Hagree), H0, Hbeta_b, Hbeta_i.
  fold (ReducedRowVector.coeff r b). fold (ReducedRowVector.coeff r x_i).
  rewrite Hb.
  destruct (ReducedRowVector.has r x_i) eqn:Hhas.
  - drat_ring.
  - assert (Hz : ReducedRowVector.coeff r x_i = 0%Qc).
    { apply coeffIn_absent. intros Hin. apply has_In in Hin. congruence. }
    rewrite Hz. drat_ring.
Qed.

(** So does the assignment written by [pivotAndUpdate] before it pivots. *)
Lemma pivot_step_holds T beta x_i x_j v row_i :
  wfTableau T -> tableauHolds beta T ->
  Tableau.lookup T x_i = Ok row_i ->
  Tableau.isBasic T x_j = false ->
  ReducedRowVector.has row_i x_j = true ->
  let theta := pivotTheta beta x_i v (ReducedRowVector.coeff row_i x_j) in
  tableauHolds
    (pivotAssign T x_i x_j theta (Tableau.basics T)
       (pivotStart beta x_i x_j v theta))
    T.
Proof.
  intros Hwf Hholds Hrow Hnb Hhas theta. unfold tableauHolds in *.
  rewrite Forall_forall in *. intros r Hr.
  set (start := pivotStart beta x_i x_j v theta).
  set (beta' := pivotAssign T x_i x_j theta (Tableau.basics T) start).
  pose proof (@pivot_distinct T x_i x_j row_i Hrow Hnb) as Hij.
  pose proof (@pivot_coeff_nonzero T x_i x_j row_i Hwf Hrow Hhas) as Ha.
  destruct (@wfTableau_row T r Hwf Hr) as (Hs & Hnz & Hb & Hrnb) eqn:Ewr. clear Ewr.
  set (b := ReducedRowVector.basic r) in *.
  assert (Hbb : Tableau.isBasic T b = true) by now apply row_basic_isBasic.
  assert (Hbj : b <> x_j) by congruence.
  pose proof Hwf as [Hnd HF].
  assert (Hall : forall x, In x (Tableau.basics T) -> Tableau.isBasic T x = true).
  { intros x. apply isBasic_In. }
  pose proof (pivotAssign_spec T x_i x_j theta start Hnd Hall) as Hspec.
  assert (Hstart_i : start x_i = v).
  { unfold start, pivotStart. rewrite (upd_other _ _ Hij). apply upd_same. }
  assert (Hstart_j : start x_j = (beta x_j + theta)%DR).
  { unfold start, pivotStart. rewrite upd_same.
    assert (Hji : x_j <> x_i) by congruence.
    now rewrite (upd_other _ _ Hji). }
  assert (Hstart : forall y, y <> x_i -> y <> x_j -> start y = beta y).
  { intros y Hyi Hyj. unfold start, pivotStart.
    now rewrite (upd_other _ _ Hyj), (upd_other _ _ Hyi). }
  assert (Hbeta_j : beta' x_j = (beta x_j + theta)%DR).
  { unfold beta'. rewrite (proj1 (Hspec x_j)); [ exact Hstart_j | ].
    now apply not_basic_not_In. }
  assert (Hbeta_b : beta' b =
            if negb (b =? x_i) && ReducedRowVector.has r x_j
            then (start b + theta * ReducedRowVector.coeff r x_j)%DR
            else start b).
  { unfold beta'. apply (proj2 (Hspec b)).
    - now apply isBasic_In.
    - now apply find_row_of_basic. }
  assert (Hagree : forall y, In y (keys (ReducedRowVector.entries r)) ->
                             y <> b -> y <> x_j -> beta' y = beta y).
  { intros y Hy Hyb Hyj. unfold beta'.
    assert (Hynb : Tableau.isBasic T y = false) by now apply Hrnb.
    rewrite (proj1 (Hspec y)) by now apply not_basic_not_In.
    apply Hstart; [ | exact Hyj ].
    intros ->. rewrite (lookup_isBasic _ _ Hrow) in Hynb. discriminate. }
  assert (H0 : evalRow beta (ReducedRowVector.entries r) = DeltaRational.zero).
  { apply (rowHolds_iff beta (@wfTableau_row T r Hwf Hr)). now apply Hholds. }
  apply (rowHolds_iff beta' (@wfTableau_row T r Hwf Hr)).
  rewrite (evalRow_change beta beta' Hs Hbj Hagree), H0, Hbeta_b, Hbeta_j.
  fold (ReducedRowVector.coeff r b). fold (ReducedRowVector.coeff r x_j).
  rewrite Hb.
  destruct (b =? x_i) eqn:Ebi.
  - apply N.eqb_eq in Ebi. cbn [negb andb]. rewrite Ebi, Hstart_i.
    assert (r = row_i).
    { apply (@pivot_basic_unique T x_i row_i Hwf Hrow r Hr). exact Ebi. }
    subst r. unfold theta, pivotTheta.
    apply DRatFacts.eq_intro; simpl DeltaRational.c; simpl DeltaRational.k;
      unfold Rat.inverse; field; exact Ha.
  - apply N.eqb_neq in Ebi. cbn [negb andb].
    rewrite (Hstart b Ebi Hbj).
    destruct (ReducedRowVector.has r x_j) eqn:Hrj.
    + drat_ring.
    + assert (Hz : ReducedRowVector.coeff r x_j = 0%Qc).
      { apply coeffIn_absent. intros Hin. apply has_In in Hin. congruence. }
      rewrite Hz. drat_ring.
Qed.

(** [tableauSound s]: the tableau is well formed and the assignment
    satisfies the equation of every row. *)
Definition tableauSound (s : Simplex) : Prop :=
  wfTableau (d_tableau s) /\
  tableauHolds (d_assignment (d_partialModel s)) (d_tableau s).

(** Soundness reads the tableau and the assignment only. *)
Lemma tableauSound_ext s s' :
  d_tableau s' = d_tableau s ->
  d_assignment (d_partialModel s') = d_assignment (d_partialModel s) ->
  tableauSound s -> tableauSound s'.
Proof. unfold tableauSound. intros -> ->. auto. Qed.

Lemma update_Ok x_i v s s' :
  update x_i v s = Ok s' ->
  isBasic s x_i = false /\
  d_tableau s' = d_tableau s /\
  d_assignment (d_partialModel s') =
    upd (updateAssign (d_tableau s) x_i
           (v - d_assignment (d_partialModel s) x_i)%DR
           (Tableau.basics (d_tableau s)) (d_assignment (d_partialModel s)))
        x_i v.
Proof.
  unfold update. intros H.
  destruct (isBasic s x_i) eqn:Hb; simpl in H; [ discriminate | ].
  match type of H with
  | bind ?l _ = _ => destruct l as [s1|] eqn:E1
  end; simpl in H; [ | discriminate ].
  injection H as <-. apply update_loop_Ok in E1. destruct E1 as [F A].
  simpl in F, A. split; [ reflexivity | ].
  destruct F as (F1 & _). simpl. rewrite F1, A. auto.
Qed.

Lemma update_sound x_i v s s' :
  tableauSound s -> update x_i v s = Ok s' -> tableauSound s'.
Proof.
  intros [Hwf Hholds] H. apply update_Ok in H. destruct H as (Hnb & HT & HA).
  unfold tableauSound. rewrite HT, HA. split; [ exact Hwf | ].
  now apply update_step_holds.
Qed.

Lemma pivotAndUpdate_sound x_i x_j v s s' :
  tableauSound s -> pivotAndUpdate x_i x_j v s = Ok s' -> tableauSound s'.
Proof.
  intros [Hwf Hholds] H. apply pivotAndUpdate_Ok in H.
  destruct H as (row_i & T' & Hij & Hrow & Hhas & Hpivot & HT & HA & _).
  apply pivot_Ok in Hpivot.
  destruct Hpivot as (row_i' & _ & Hnb & Hrow' & _ & _ & ET').
  assert (row_i' = row_i) by congruence. subst row_i'.
  unfold tableauSound. rewrite HT, HA, ET'. cbv zeta. split.
  - exact (@pivot_wf (d_tableau s) x_i x_j row_i Hwf Hrow Hnb Hhas).
  - apply (@pivot_holds (d_tableau s) x_i x_j row_i Hwf Hrow Hnb Hhas).
    exact (@pivot_step_holds (d_tableau s) (d_assignment (d_partialModel s))
             x_i x_j v row_i Hwf Hholds Hrow Hnb Hhas).
Qed.

(** *** [checkTableau] decides the row equations *)

Lemma checkTableau_loop_Ok s bs :
  NoDup (Tableau.basics (d_tableau s)) ->
  (forall r, In r (d_tableau s) -> In (ReducedRowVector.basic r) bs ->
             rowHolds (d_assignment (d_partialModel s)) r) ->
  (forall x, In x bs -> isBasic s x = true) ->
  checkTableau_loop s bs = Ok tt.
Proof.
  intros Hnd. induction bs as [|b bs IH]; intros Hholds Hbs; [ reflexivity | ].
  cbn [checkTableau_loop].
  assert (Hb : isBasic s b = true) by (apply Hbs; now left).
  destruct (lookup_basic _ _ Hb) as [r Er]. rewrite Er. simpl.
  destruct (lookup_Ok _ _ Er) as [Hin Hrb].
  assert (Hr : rowHolds (d_assignment (d_partialModel s)) r).
  { apply Hholds; [ exact Hin | rewrite Hrb; now left ]. }
  unfold rowHolds in Hr. rewrite Hrb in Hr.
  change (getAssignment (d_partialModel s))
    with (d_assignment (d_partialModel s)).
  rewrite Hr.
  assert (E : DeltaRational.eqb (d_assignment (d_partialModel s) b)
                (d_assignment (d_partialModel s) b) = true)
    by now apply DRatFacts.eqb_eq.
  rewrite E. simpl. apply IH.
  - intros r' Hr' Hb'. apply Hholds; [ exact Hr' | now right ].
  - intros x Hx. apply Hbs. now right.
Qed.

Lemma checkTableau_loop_holds s bs :
  NoDup (Tableau.basics (d_tableau s)) ->
  checkTableau_loop s bs = Ok tt ->
  forall r, In r (d_tableau s) -> In (ReducedRowVector.basic r) bs ->
            rowHolds (d_assignment (d_partialModel s)) r.
Proof.
  intros Hnd. induction bs as [|b bs IH]; intros H r Hr Hb; [ contradiction | ].
  cbn [checkTableau_loop] in H.
  change (getAssignment (d_partialModel s))
    with (d_assignment (d_partialModel s)) in H.
  destruct (Tableau.lookup (d_tableau s) b) as [r0|] eqn:Er; simpl in H;
    [ | discriminate ].
  destruct (DeltaRational.eqb _ _) eqn:E; simpl in H; [ | discriminate ].
  destruct Hb as [Hb | Hb]; [ | now apply IH ].
  destruct (lookup_Ok _ _ Er) as [Hin Hrb].
  assert (r0 = r).
  { apply (@basic_unique (d_tableau s) r0 r Hnd Hin Hr). congruence. }
  subst r0. apply DRatFacts.eqb_eq in E. unfold rowHolds.
  rewrite Hb in E. exact E.
Qed.

Lemma checkTableau_iff s :
  wfTableau (d_tableau s) ->
  (checkTableau s = Ok tt <->
   tableauHolds (d_assignment (d_partialModel s)) (d_tableau s)).
Proof.
  intros [Hnd _]. unfold checkTableau, tableauHolds. rewrite Forall_forall.
  split.
  - intros H r Hr. apply (@checkTableau_loop_holds s _ Hnd H r Hr).
    unfold Tableau.basics. now apply in_map.
  - intros H. apply checkTableau_loop_Ok; [ exact Hnd | | ].
    + intros r Hr _. now apply H.
    + intros x Hx. now apply isBasic_In.
Qed.

(** *** C2: the postcondition of [pivotAndUpdate] *)

Lemma pivotAndUpdate_loop_total x_i x_j theta bs : forall s,
  (forall x, In x bs -> isBasic s x = true) ->
  exists s', pivotAndUpdate_loop x_i x_j theta bs s = Ok s'.
Proof.
  induction bs as [|x_k bs IH]; intros s Hbs; simpl; [ eauto | ].
  assert (Hk : isBasic s x_k = true) by (apply Hbs; now left).
  destruct (lookup_basic _ _ Hk) as [row_k Erow]. rewrite Erow. simpl.
  destruct (negb (x_k =? x_i) && ReducedRowVector.has row_k x_j) eqn:Hc.
  - apply andb_true_iff in Hc. destruct Hc as [_ Hhas].
    rewrite (has_lookup _ _ Hhas). simpl.
    set (s1 := bumpActivity _ x_j).
    assert (F1 : frame s s1).
    { eapply frame_trans; [ apply frame_setAssignment | apply frame_bumpActivity ]. }
    assert (Hk1 : isBasic s1 x_k = true) by (now rewrite (frame_isBasic _ F1)).
    destruct (checkBasicVariable_total x_k s1 Hk1) as (gq & bq & E & _).
    rewrite E. simpl. apply IH.
    intros x Hx. apply checkBasicVariable_frame in E. destruct E as [F2 _].
    rewrite (frame_isBasic _ (frame_trans F1 F2)). apply Hbs. now right.
  - simpl. apply IH. intros x Hx. apply Hbs. now right.
Qed.

Lemma pivotAndUpdate_total x_i x_j v s row_i :
  Tableau.lookup (d_tableau s) x_i = Ok row_i ->
  isBasic s x_j = false ->
  ReducedRowVector.has row_i x_j = true ->
  ReducedRowVector.coeff row_i x_j <> 0%Qc ->
  exists s', pivotAndUpdate x_i x_j v s = Ok s'.
Proof.
  intros Hrow Hnb Hhas Hz.
  pose proof (@pivot_distinct (d_tableau s) x_i x_j row_i Hrow Hnb) as Hij.
  unfold pivotAndUpdate.
  apply N.eqb_neq in Hij. rewrite Hij. simpl. rewrite Hrow. simpl.
  rewrite (has_lookup _ _ Hhas). simpl.
  match goal with
  | |- context [ pivotAndUpdate_loop x_i x_j ?th ?bs ?s2' ] =>
      destruct (@pivotAndUpdate_loop_total x_i x_j th bs s2') as [s3 E3]
  end.
  { intros x Hx. apply isBasic_In. exact Hx. }
  rewrite E3. simpl.
  apply pivotAndUpdate_loop_Ok in E3. destruct E3 as [F3 _].
  destruct (notePivot_effect s3) as (N1 & N2 & _).
  assert (HT : d_tableau (notePivot s3) = d_tableau s).
  { rewrite N2. destruct F3 as [-> _]. reflexivity. }
  rewrite HT, (@pivot_total (d_tableau s) x_i x_j row_i Hnb Hrow Hhas Hz). simpl.
  set (T' := map _ (d_tableau s)).
  set (s5 := set_tableau (notePivot s3) T').
  assert (Hj5 : isBasic s5 x_j = true).
  { unfold isBasic, s5, T'. simpl.
    apply (@pivot_isBasic (d_tableau s) x_i x_j row_i Hrow x_j). now left. }
  destruct (checkBasicVariable_total x_j s5 Hj5) as (gq & bq & E6 & _).
  rewrite E6. simpl.
  set (s6 := set_possiblyInconsistent _ bq).
  assert (Hj6 : isBasic s6 x_j = true) by exact Hj5.
  destruct (negb (d_foundAConflict _)); [ | eauto ].
  destruct (belowLowerBound _ x_j _ true).
  - unfold selectSlackBelow.
    destruct (selectSlack_total false x_j s6 Hj6) as [r ->]. simpl. eauto.
  - destruct (aboveUpperBound _ x_j _ true); [ | eauto ].
    unfold selectSlackAbove.
    destruct (selectSlack_total true x_j s6 Hj6) as [r ->]. simpl. eauto.
Qed.

(** C2.  Let [x_i] be basic with row [row_i], [x_j] non-basic with a
    nonzero coefficient [a_ij] in that row, and let no variable own two
    rows.  Then [pivotAndUpdate(x_i, x_j, v)] ends normally and, with
    [theta = (v - beta(x_i)) / a_ij] taken before the call: the new value
    of [x_i] is [v]; that of [x_j] is [beta(x_j) + theta]; that of every
    other basic [x_k] whose row mentions [x_j] is
    [beta(x_k) + theta * a_kj]; every other variable keeps its value; and
    the new tableau is [Tableau.pivot(x_i, x_j)] of the old one, in which
    [x_j] is basic and [x_i] is not. *)
Theorem pivotAndUpdate_postcondition (s : Simplex) (x_i x_j : ArithVar)
    (v : DRat) (row_i : Row) :
  NoDup (Tableau.basics (d_tableau s)) ->
  Tableau.lookup (d_tableau s) x_i = Ok row_i ->
  isBasic s x_j = false ->
  ReducedRowVector.has row_i x_j = true ->
  ReducedRowVector.coeff row_i x_j <> 0%Qc ->
  let beta := d_assignment (d_partialModel s) in
  let a_ij := ReducedRowVector.coeff row_i x_j in
  let theta := ((v - beta x_i) * Rat.inverse a_ij)%DR in
  exists s',
    pivotAndUpdate x_i x_j v s = Ok s' /\
    d_assignment (d_partialModel s') x_i = v /\
    d_assignment (d_partialModel s') x_j = (beta x_j + theta)%DR /\
    (forall x_k row_k,
       x_k <> x_i ->
       Tableau.lookup (d_tableau s) x_k = Ok row_k ->
       ReducedRowVector.has row_k x_j = true ->
       d_assignment (d_partialModel s') x_k =
         (beta x_k + theta * ReducedRowVector.coeff row_k x_j)%DR) /\
    (forall y,
       y <> x_i -> y <> x_j ->
       (forall row_k, Tableau.lookup (d_tableau s) y = Ok row_k ->
                      ReducedRowVector.has row_k x_j = false) ->
       d_assignment (d_partialModel s') y = beta y) /\
    Tableau.pivot (d_tableau s) x_i x_j = Ok (d_tableau s') /\
    isBasic s' x_j = true /\
    isBasic s' x_i = false.
Proof.
  intros Hnd Hrow Hnb Hhas Hz beta a_ij theta.
  destruct (@pivotAndUpdate_total x_i x_j v s row_i Hrow Hnb Hhas Hz) as [s' E].
  exists s'. split; [ exact E | ].
  apply pivotAndUpdate_Ok in E.
  destruct E as (row_i' & T' & Hij & Hrow' & _ & Hpivot & HT & HA & _).
  assert (row_i' = row_i) by congruence. subst row_i'.
  cbv zeta in HA. fold beta in HA.
  change (pivotTheta beta x_i v (ReducedRowVector.coeff row_i x_j))
    with theta in HA.
  set (start := pivotStart beta x_i x_j v theta) in HA.
  assert (Hall : forall x, In x (Tableau.basics (d_tableau s)) ->
                           Tableau.isBasic (d_tableau s) x = true).
  { intros x. apply isBasic_In. }
  pose proof (pivotAssign_spec (d_tableau s) x_i x_j theta start Hnd Hall)
    as Hspec.
  assert (Hstart_i : start x_i = v).
  { unfold start, pivotStart. rewrite (upd_other _ _ Hij). apply upd_same. }
  assert (Hstart_j : start x_j = (beta x_j + theta)%DR).
  { unfold start, pivotStart. rewrite upd_same.
    assert (Hji : x_j <> x_i) by congruence.
    now rewrite (upd_other _ _ Hji). }
  assert (Hstart : forall y, y <> x_i -> y <> x_j -> start y = beta y).
  { intros y Hyi Hyj. unfold start, pivotStart.
    now rewrite (upd_other _ _ Hyj), (upd_other _ _ Hyi). }
  rewrite HA. split_and.
  - rewrite (proj2 (Hspec x_i) row_i).
    + rewrite N.eqb_refl. exact Hstart_i.
    + apply isBasic_In. exact (lookup_isBasic _ _ Hrow).
    + now apply lookup_find.
  - rewrite (proj1 (Hspec x_j)); [ exact Hstart_j | ].
    now apply not_basic_not_In.
  - intros x_k row_k Hki Hrk Hkj.
    rewrite (proj2 (Hspec x_k) row_k).
    + apply N.eqb_neq in Hki. rewrite Hki, Hkj. cbn [negb andb].
      apply N.eqb_neq in Hki. rewrite Hstart; [ reflexivity | exact Hki | ].
      intros ->. unfold isBasic in Hnb.
      rewrite (lookup_isBasic _ _ Hrk) in Hnb. discriminate.
    + apply isBasic_In. exact (lookup_isBasic _ _ Hrk).
    + now apply lookup_find.
  - intros y Hyi Hyj Hrows.
    destruct (Tableau.isBasic (d_tableau s) y) eqn:Hy.
    + destruct (lookup_basic _ _ Hy) as [row_y Ey].
      rewrite (proj2 (Hspec y) row_y).
      * rewrite (Hrows row_y Ey), andb_false_r. now apply Hstart.
      * now apply isBasic_In.
      * now apply lookup_find.
    + rewrite (proj1 (Hspec y)); [ now apply Hstart | ].
      now apply not_basic_not_In.
  - rewrite HT. exact Hpivot.
  - unfold isBasic. rewrite HT. apply pivot_Ok in Hpivot.
    destruct Hpivot as (row_i' & _ & _ & Hrow'' & _ & _ & ->).
    assert (row_i' = row_i) by congruence. subst row_i'.
    apply (@pivot_isBasic (d_tableau s) x_i x_j row_i Hrow x_j). now left.
  - unfold isBasic. rewrite HT. apply pivot_Ok in Hpivot.
    destruct Hpivot as (row_i' & _ & _ & Hrow'' & _ & _ & ->).
    assert (row_i' = row_i) by congruence. subst row_i'.
    destruct (Tableau.isBasic _ x_i) eqn:Ei; [ | reflexivity ].
    apply (@pivot_isBasic (d_tableau s) x_i x_j row_i Hrow x_i) in Ei.
    destruct Ei as [Ei | [_ Ei]]; congruence.
Qed.

(** A state of the first scenario's tableau, about to be pivoted. *)
Lemma pivotAndUpdate_postcondition_witness :
  let s := sumConflictState in
  let row_i := intRow 2 [(0, 1%Z); (1, 1%Z); (2, (-1)%Z)] in
  let v := intBound 1 in
  let beta := d_assignment (d_partialModel s) in
  let a_ij := ReducedRowVector.coeff row_i 0 in
  let theta := ((v - beta 2) * Rat.inverse a_ij)%DR in
  exists s',
    pivotAndUpdate 2 0 v s = Ok s' /\
    d_assignment (d_partialModel s') 2 = v /\
    d_assignment (d_partialModel s') 0 = (beta 0 + theta)%DR /\
    (forall x_k row_k,
       x_k <> 2 ->
       Tableau.lookup (d_tableau s) x_k = Ok row_k ->
       ReducedRowVector.has row_k 0 = true ->
       d_assignment (d_partialModel s') x_k =
         (beta x_k + theta * ReducedRowVector.coeff row_k 0)%DR) /\
    (forall y,
       y <> 2 -> y <> 0 ->
       (forall row_k, Tableau.lookup (d_tableau s) y = Ok row_k ->
                      ReducedRowVector.has row_k 0 = false) ->
       d_assignment (d_partialModel s') y = beta y) /\
    Tableau.pivot (d_tableau s) 2 0 = Ok (d_tableau s') /\
    isBasic s' 0 = true /\
    isBasic s' 2 = false.
Proof.
  intros s row_i v.
  apply (@pivotAndUpdate_postcondition s 2 0 v row_i).
  - vm_compute. constructor; [ intros [] | constructor ].
  - vm_compute. reflexivity.
  - vm_compute. reflexivity.
  - vm_compute. reflexivity.
  - apply Rat.rat_eqb_neq. vm_compute. reflexivity.
Defined.

(** There [theta = -1]: [x2] moves from 2 to 1, [x0] from 1 to 0, and
    the row [x2 = x0 + x1] becomes [x0 = -x1 + x2]. *)
Example pivotAndUpdate_sum :
  match pivotAndUpdate 2 0 (intBound 1) sumConflictState with
  | Ok s' =>
      DeltaRational.eqb (d_assignment (d_partialModel s') 0) (intBound 0)
        = true /\
      DeltaRational.eqb (d_assignment (d_partialModel s') 1) (intBound 1)
        = true /\
      DeltaRational.eqb (d_assignment (d_partialModel s') 2) (intBound 1)
        = true /\
      Tableau.basics (d_tableau s') = [0] /\
      map (fun r => map (fun e => (fst e, this (snd e)))
                      (ReducedRowVector.entries r)) (d_tableau s')
        = [[(0, (-1)%Q); (1, (-1)%Q); (2, 1%Q)]] /\
      Statistics.d_statPivots (d_statistics s') = 1%Z
  | Fatal => False
  end.
Proof. vm_compute. repeat split. Qed.

(** *** C1: soundness along every run *)

Lemma wfTableau_rowsNonzero T : wfTableau T -> rowsNonzero T.
Proof.
  intros Hwf r Hr e He _.
  destruct (@wfTableau_row T r Hwf Hr) as (_ & Hnz & _).
  unfold nonzeroEntries in Hnz. rewrite Forall_forall in Hnz. now apply Hnz.
Qed.

Lemma checkBasicVariable_sound x s s' :
  tableauSound s -> checkBasicVariable x s = Ok s' -> tableauSound s'.
Proof.
  intros Hs H. apply checkBasicVariable_frame in H. destruct H as [F A].
  apply (@tableauSound_ext s s'); [ apply F | exact A | exact Hs ].
Qed.

(** The shared tail of the three assertion procedures. *)
Lemma assert_tail_sound (cond : bool) x c s s' :
  tableauSound s ->
  (if negb (isBasic s x) then if cond then update x c s else Ok s
   else checkBasicVariable x s) = Ok s' ->
  tableauSound s'.
Proof.
  intros Hs H. destruct (negb (isBasic s x)).
  - destruct cond.
    + eapply update_sound; [ exact Hs | exact H ].
    + injection H as <-. exact Hs.
  - eapply checkBasicVariable_sound; [ exact Hs | exact H ].
Qed.

Lemma AssertLower_sound x c t s b s' :
  tableauSound s -> AssertLower x c t s = Ok (b, s') -> tableauSound s'.
Proof.
  intros Hs H. unfold AssertLower in H.
  destruct (belowLowerBound _ x c false); [ injection H as _ <-; exact Hs | ].
  destruct (aboveUpperBound _ x c true); [ injection H as _ <-; exact Hs | ].
  cbv zeta in H.
  match type of H with
  | bind ?l _ = _ => destruct l as [s1|] eqn:E1
  end; simpl in H; [ | discriminate ].
  injection H as _ <-.
  eapply assert_tail_sound; [ | exact E1 ]. exact Hs.
Qed.

Lemma AssertUpper_sound x c t s b s' :
  tableauSound s -> AssertUpper x c t s = Ok (b, s') -> tableauSound s'.
Proof.
  intros Hs H. unfold AssertUpper in H.
  destruct (aboveUpperBound _ x c false); [ injection H as _ <-; exact Hs | ].
  destruct (belowLowerBound _ x c true); [ injection H as _ <-; exact Hs | ].
  cbv zeta in H.
  match type of H with
  | bind ?l _ = _ => destruct l as [s1|] eqn:E1
  end; simpl in H; [ | discriminate ].
  injection H as _ <-.
  eapply assert_tail_sound; [ | exact E1 ]. exact Hs.
Qed.

Lemma AssertEquality_sound x c t s b s' :
  tableauSound s -> AssertEquality x c t s = Ok (b, s') -> tableauSound s'.
Proof.
  intros Hs H. unfold AssertEquality in H.
  destruct (belowLowerBound _ x c false && aboveUpperBound _ x c false);
    [ injection H as _ <-; exact Hs | ].
  destruct (aboveUpperBound _ x c true); [ injection H as _ <-; exact Hs | ].
  destruct (belowLowerBound _ x c true); [ injection H as _ <-; exact Hs | ].
  cbv zeta in H.
  match type of H with
  | bind ?l _ = _ => destruct l as [s1|] eqn:E1
  end; simpl in H; [ | discriminate ].
  injection H as _ <-.
  eapply assert_tail_sound; [ | exact E1 ]. exact Hs.
Qed.

Lemma selectInitialConflict_loop_view init : forall best changes s0 b c s1,
  selectInitialConflict_loop init best changes s0 = Ok (b, c, s1) ->
  sameView s1 s0.
Proof.
  induction init as [|i init IH]; intros best changes s0 b c s1 H.
  - injection H as _ _ <-. apply sameView_refl.
  - cbn [selectInitialConflict_loop] in H. cbv zeta in H.
    destruct (checkBasicForConflict _ _) as [n|]; simpl in H; [ | discriminate ].
    destruct (negb (isNull n)); apply IH in H;
      (eapply sameView_trans; [ exact H | ]); unfold sameView; simpl; auto.
Qed.

Lemma selectInitialConflict_sound s n s' :
  tableauSound s -> selectInitialConflict s = Ok (n, s') -> tableauSound s'.
Proof.
  intros Hs H. unfold selectInitialConflict in H. cbv zeta in H.
  match type of H with
  | bind ?l _ = _ => destruct l as [[[b c] s1]|] eqn:E
  end; simpl in H; [ | discriminate ].
  apply selectInitialConflict_loop_view in E. destruct E as (A & B & _).
  simpl in A, B.
  assert (Hs1 : tableauSound s1).
  { apply (@tableauSound_ext s _); [ exact A | now rewrite B | exact Hs ]. }
  destruct (1 <? c)%Z; injection H as _ <-; [ | exact Hs1 ].
  apply (@tableauSound_ext s1 _); [ reflexivity | reflexivity | exact Hs1 ].
Qed.

Lemma privateUpdate_body_sound s e s1 :
  tableauSound s -> privateUpdate_body s = Ok (e, s1) -> tableauSound s1.
Proof.
  intros Hs H. apply privateUpdate_body_Ok in H. cbv zeta in H.
  destruct (selectSmallestInconsistentVar_frame s) as (F1 & F2 & _).
  assert (Hs0 : tableauSound (snd (selectSmallestInconsistentVar s))).
  { apply (@tableauSound_ext s _); [ exact F2 | now rewrite F1 | exact Hs ]. }
  destruct H as [(_ & _ & ->) | [(_ & -> & _) | (_ & above & x_j & v & _ & _ & Hp & _)]].
  - exact Hs0.
  - exact Hs0.
  - eapply pivotAndUpdate_sound; [ exact Hs0 | exact Hp ].
Qed.

Lemma privateUpdate_loop_sound fuel : forall iter s e s',
  tableauSound s ->
  privateUpdate_loop fuel iter s = Some (Ok (e, s')) ->
  tableauSound s'.
Proof.
  induction fuel as [|fuel IH]; intros iter s e s' Hs H; [ discriminate | ].
  cbn [privateUpdate_loop] in H.
  destruct (negb (d_pivotStage s) || (iter <=? d_numVariables s)).
  - destruct (privateUpdate_body s) as [[[n|] s1]|] eqn:Eb; [ | | discriminate ].
    + injection H as _ <-. eapply privateUpdate_body_sound; [ exact Hs | exact Eb ].
    + eapply IH; [ | exact H ]. eapply privateUpdate_body_sound; [ exact Hs | exact Eb ].
  - injection H as _ <-. exact Hs.
Qed.

Lemma privateUpdateInconsistentVars_sound fuel : forall s n s',
  tableauSound s ->
  privateUpdateInconsistentVars fuel s = Some (Ok (n, s')) ->
  tableauSound s'.
Proof.
  induction fuel as [|fuel IH]; intros s n s' Hs H; [ discriminate | ].
  cbn [privateUpdateInconsistentVars] in H.
  destruct (negb (d_pivotStage s || queueEmpty (d_griggioRuleQueue s)));
    [ discriminate | ].
  destruct (privateUpdate_loop fuel 0 s) as [[[[m|it] s1]|]|] eqn:El;
    try discriminate.
  - injection H as _ <-. eapply privateUpdate_loop_sound; [ exact Hs | exact El ].
  - destruct (d_pivotStage s1 && (d_numVariables s1 <=? it)); [ | discriminate ].
    eapply IH; [ | exact H ].
    apply (@tableauSound_ext s1 _); [ reflexivity | reflexivity | ].
    eapply privateUpdate_loop_sound; [ exact Hs | exact El ].
Qed.

Lemma finishCheck_sound n s n' s' :
  tableauSound s -> finishCheck n s = Ok (n', s') -> tableauSound s'.
Proof.
  intros Hs H. unfold finishCheck in H.
  destruct (Assert _); simpl in H; [ | discriminate ].
  destruct (Assert _); simpl in H; [ | discriminate ].
  injection H as _ <-.
  apply (@tableauSound_ext s _); [ reflexivity | reflexivity | exact Hs ].
Qed.

Lemma updateInconsistentVars_sound fuel s n s' :
  tableauSound s ->
  updateInconsistentVars fuel s = Some (Ok (n, s')) ->
  tableauSound s'.
Proof.
  intros Hs H. unfold updateInconsistentVars in H.
  destruct (queueEmpty (d_griggioRuleQueue s)).
  { injection H as _ <-. exact Hs. }
  cbv zeta in H.
  set (s1 := set_pivotsSinceConflict (set_foundAConflict s false) 0) in H.
  assert (Hs1 : tableauSound s1).
  { apply (@tableauSound_ext s _); [ reflexivity | reflexivity | exact Hs ]. }
  assert (Hinit : forall m s2,
            (if (1 <? length (d_griggioRuleQueue s1))%nat
             then selectInitialConflict s1 else Ok (NullNode, s1)) = Ok (m, s2) ->
            tableauSound s2).
  { intros m s2 E. destruct (1 <? length (d_griggioRuleQueue s1))%nat.
    - eapply selectInitialConflict_sound; [ exact Hs1 | exact E ].
    - injection E as _ <-. exact Hs1. }
  destruct (if (1 <? length (d_griggioRuleQueue s1))%nat
            then selectInitialConflict s1 else Ok (NullNode, s1))
    as [[m s2]|] eqn:E2; [ | discriminate ].
  pose proof (Hinit m s2 eq_refl) as Hs2.
  destruct (isNull m).
  - destruct (privateUpdateInconsistentVars fuel s2) as [[[m3 s3]|]|] eqn:E3;
      try discriminate.
    injection H as H.
    eapply finishCheck_sound; [ | exact H ].
    eapply privateUpdateInconsistentVars_sound; [ exact Hs2 | exact E3 ].
  - injection H as H. eapply finishCheck_sound; [ exact Hs2 | exact H ].
Qed.

(** ** Deciding well-formedness *)

Fixpoint sortedKeysb (xs : list ArithVar) : bool :=
  match xs with
  | [] => true
  | x :: rest => forallb (fun y => x <? y) rest && sortedKeysb rest
  end.

Fixpoint nodupb (xs : list ArithVar) : bool :=
  match xs with
  | [] => true
  | x :: rest => negb (existsb (N.eqb x) rest) && nodupb rest
  end.

Definition wfRowb (T : Tableau.t) (r : Row) : bool :=
  sortedKeysb (keys (ReducedRowVector.entries r)) &&
  forallb (fun e => negb (Rat.eqb (snd e) 0%Qc)) (ReducedRowVector.entries r) &&
  Rat.eqb (ReducedRowVector.coeff r (ReducedRowVector.basic r)) (- (1))%Qc &&
  forallb (fun x => (x =? ReducedRowVector.basic r) || negb (Tableau.isBasic T x))
    (keys (ReducedRowVector.entries r)).

Definition wfTableaub (T : Tableau.t) : bool :=
  nodupb (Tableau.basics T) && forallb (wfRowb T) T.

Lemma sortedKeysb_ok xs : sortedKeysb xs = true -> StronglySorted N.lt xs.
Proof.
  induction xs as [|x xs IH]; simpl; intros H; constructor.
  - apply IH. apply andb_true_iff in H. apply H.
  - apply andb_true_iff in H. destruct H as [H _].
    rewrite forallb_forall in H. apply Forall_forall.
    intros y Hy. apply N.ltb_lt. now apply H.
Qed.

Lemma nodupb_ok xs : nodupb xs = true -> NoDup xs.
Proof.
  induction xs as [|x xs IH]; simpl; intros H; constructor.
  - apply andb_true_iff in H. destruct H as [H _].
    apply negb_true_iff in H. intros Hin.
    assert (E : existsb (N.eqb x) xs = true).
    { apply existsb_exists. exists x. split; [ exact Hin | apply N.eqb_refl ]. }
    congruence.
  - apply IH. apply andb_true_iff in H. apply H.
Qed.

Lemma wfRowb_ok T r : wfRowb T r = true -> wfRow T r.
Proof.
  unfold wfRowb, wfRow. rewrite !andb_true_iff.
  intros [[[H1 H2] H3] H4]. split_and.
  - now apply sortedKeysb_ok.
  - unfold nonzeroEntries. apply Forall_forall. intros e He.
    rewrite forallb_forall in H2. specialize (H2 e He).
    apply negb_true_iff in H2. now apply Rat.rat_eqb_neq.
  - now apply Rat.rat_eqb_eq.
  - intros x Hx Hne. rewrite forallb_forall in H4. specialize (H4 x Hx).
    apply orb_true_iff in H4. destruct H4 as [H4 | H4].
    + apply N.eqb_eq in H4. contradiction.
    + now apply negb_true_iff.
Qed.

Lemma wfTableaub_ok T : wfTableaub T = true -> wfTableau T.
Proof.
  unfold wfTableaub, wfTableau. rewrite andb_true_iff. intros [H1 H2]. split.
  - now apply nodupb_ok.
  - apply Forall_forall. intros r Hr. apply wfRowb_ok.
    rewrite forallb_forall in H2. now apply H2.
Qed.

(** ** The engine before any assertion *)

Lemma evalRow_zero es : evalRow (fun _ => DeltaRational.zero) es = DeltaRational.zero.
Proof.
  induction es as [|e es IH]; [ reflexivity | ].
  cbn [evalRow]. rewrite IH. drat_ring.
Qed.

(** Every variable starts at zero, which satisfies every row. *)
Lemma freshSimplex_sound T n : wfTableau T -> tableauSound (freshSimplex T n).
Proof.
  intros Hwf. split; [ exact Hwf | ].
  unfold tableauHolds. apply Forall_forall. intros r _.
  unfold rowHolds. simpl. rewrite computeRowValue_loop_evalRow, evalRow_zero.
  drat_ring.
Qed.

(** ** Runs of the engine *)

(** The calls that the theory solver makes on the engine. *)
Inductive Call : Type :=
| CallAssertLower (x_i : ArithVar) (c_i : DRat) (original : TNode)
| CallAssertUpper (x_i : ArithVar) (c_i : DRat) (original : TNode)
| CallAssertEquality (x_i : ArithVar) (c_i : DRat) (original : TNode)
| CallUpdateInconsistentVars.

(** One call; the returned flag or clause goes to the caller and is not
    part of the engine's state. *)
Definition runCall (fuel : nat) (call : Call) (s : Simplex) : Fueled Simplex :=
  match call with
  | CallAssertLower x c t =>
      Some ('(_, s') <- AssertLower x c t s ;; Ok s')
  | CallAssertUpper x c t =>
      Some ('(_, s') <- AssertUpper x c t s ;; Ok s')
  | CallAssertEquality x c t =>
      Some ('(_, s') <- AssertEquality x c t s ;; Ok s')
  | CallUpdateInconsistentVars =>
      match updateInconsistentVars fuel s with
      | Some r => Some ('(_, s') <- r ;; Ok s')
      | None => None
      end
  end.

Fixpoint runCalls (fuel : nat) (calls : list Call) (s : Simplex) : Fueled Simplex :=
  match calls with
  | [] => Some (Ok s)
  | call :: rest =>
      match runCall fuel call s with
      | Some (Ok s') => runCalls fuel rest s'
      | Some Fatal => Some Fatal
      | None => None
      end
  end.

(** The equation of every basic variable: its value is the sum, over the
    non-basic variables of its row, of coefficient times value. *)
Definition rowEquations (s : Simplex) : Prop :=
  forall x_b row,
    Tableau.lookup (d_tableau s) x_b = Ok row ->
    d_assignment (d_partialModel s) x_b =
    evalRow (d_assignment (d_partialModel s))
      (nonbasicEntries x_b (ReducedRowVector.entries row)).

Lemma tableauSound_rowEquations s : tableauSound s -> rowEquations s.
Proof.
  intros [_ Hh] x_b row Hrow.
  destruct (lookup_Ok _ _ Hrow) as [Hin Hb].
  unfold tableauHolds in Hh. rewrite Forall_forall in Hh.
  specialize (Hh row Hin). unfold rowHolds in Hh.
  rewrite computeRowValue_loop_evalRow, DRatFacts.add_zero_l, Hb in Hh.
  symmetry. exact Hh.
Qed.

Lemma tableauSound_checkTableau s : tableauSound s -> checkTableau s = Ok tt.
Proof. intros [Hwf Hh]. now apply checkTableau_iff. Qed.

Lemma runCall_sound fuel call s s' :
  tableauSound s -> runCall fuel call s = Some (Ok s') -> tableauSound s'.
Proof.
  intros Hs H. destruct call as [x c t | x c t | x c t | ]; cbn [runCall] in H.
  - destruct (AssertLower x c t s) as [[b s1]|] eqn:E; simpl in H;
      [ | discriminate ].
    injection H as <-. eapply AssertLower_sound; [ exact Hs | exact E ].
  - destruct (AssertUpper x c t s) as [[b s1]|] eqn:E; simpl in H;
      [ | discriminate ].
    injection H as <-. eapply AssertUpper_sound; [ exact Hs | exact E ].
  - destruct (AssertEquality x c t s) as [[b s1]|] eqn:E; simpl in H;
      [ | discriminate ].
    injection H as <-. eapply AssertEquality_sound; [ exact Hs | exact E ].
  - destruct (updateInconsistentVars fuel s) as [[[n s1]|]|] eqn:E; simpl in H;
      try discriminate.
    injection H as <-. eapply updateInconsistentVars_sound; [ exact Hs | exact E ].
Qed.

Lemma runCalls_sound fuel calls : forall s s',
  tableauSound s -> runCalls fuel calls s = Some (Ok s') -> tableauSound s'.
Proof.
  induction calls as [|call rest IH]; intros s s' Hs H.
  - injection H as <-. exact Hs.
  - cbn [runCalls] in H.
    destruct (runCall fuel call s) as [[s1|]|] eqn:E; try discriminate.
    eapply IH; [ | exact H ]. eapply runCall_sound; [ exact Hs | exact E ].
Qed.

(** C1.  Tableau soundness.  Start from an engine whose tableau is well
    formed and whose assignment satisfies every row.  After any sequence
    of calls to [AssertLower], [AssertUpper], [AssertEquality] and
    [updateInconsistentVars] that returns, every basic variable [x_b]
    has [beta(x_b)] equal to the sum over the non-basic variables [x_j]
    of its row of [a_bj * beta(x_j)], in exact [DeltaRational]
    arithmetic: [checkTableau] passes and the tableau is still well
    formed.  In particular a call of [update] or of [pivotAndUpdate]
    that returns from such a state keeps the equation of every row. *)
Theorem tableau_soundness (fuel : nat) (calls : list Call) (s s' : Simplex) :
  tableauSound s ->
  runCalls fuel calls s = Some (Ok s') ->
  rowEquations s' /\
  checkTableau s' = Ok tt /\
  wfTableau (d_tableau s') /\
  (forall x_i v s2,
     update x_i v s' = Ok s2 ->
     rowEquations s2 /\ checkTableau s2 = Ok tt) /\
  (forall x_i x_j v s2,
     pivotAndUpdate x_i x_j v s' = Ok s2 ->
     rowEquations s2 /\ checkTableau s2 = Ok tt).
Proof.
  intros Hs Hrun.
  assert (Hs' : tableauSound s').
  { eapply runCalls_sound; [ exact Hs | exact Hrun ]. }
  split_and.
  - now apply tableauSound_rowEquations.
  - now apply tableauSound_checkTableau.
  - apply Hs'.
  - intros x_i v s2 H.
    assert (Hs2 : tableauSound s2).
    { eapply update_sound; [ exact Hs' | exact H ]. }
    split; [ now apply tableauSound_rowEquations
           | now apply tableauSound_checkTableau ].
  - intros x_i x_j v s2 H.
    assert (Hs2 : tableauSound s2).
    { eapply pivotAndUpdate_sound; [ exact Hs' | exact H ]. }
    split; [ now apply tableauSound_rowEquations
           | now apply tableauSound_checkTableau ].
Qed.

(** The ten assertions of [budgetAsserted], then the check. *)
Definition budgetCalls : list Call :=
  [ CallAssertLower 2 (intBound (-3)) (atom 20);
    CallAssertUpper 3 (intBound (-1)) (atom 31);
    CallAssertUpper 2 (intBound (-1)) (atom 21);
    CallAssertLower 0 (intBound (-2)) (atom 0);
    CallAssertUpper 1 (intBound (-1)) (atom 11);
    CallAssertUpper 4 (intBound (-3)) (atom 41);
    CallAssertLower 3 (intBound (-2)) (atom 30);
    CallAssertUpper 0 (intBound 1) (atom 1);
    CallAssertLower 1 (intBound (-3)) (atom 10);
    CallAssertLower 4 (intBound (-3)) (atom 40);
    CallUpdateInconsistentVars ].

Example budgetCalls_run :
  match runCalls 20 budgetCalls (freshSimplex budgetTableau 5) with
  | Some (Ok s') =>
      Statistics.d_statPivots (d_statistics s') = 6%Z /\
      Tableau.basics (d_tableau s') = [1; 3] /\
      forallb (fun p => DeltaRational.eqb (d_assignment (d_partialModel s') (fst p))
                          (intBound (snd p)))
        [(0, 1%Z); (1, (-2)%Z); (2, (-3)%Z); (3, (-1)%Z); (4, (-3)%Z)] = true
  | _ => False
  end.
Proof. vm_compute. split_and; reflexivity. Qed.

(** C1 on that run: six pivots, after which both rows still hold. *)
Lemma tableau_soundness_witness :
  match runCalls 20 budgetCalls (freshSimplex budgetTableau 5) with
  | Some (Ok s') =>
      rowEquations s' /\
      checkTableau s' = Ok tt /\
      wfTableau (d_tableau s') /\
      (forall x_i v s2,
         update x_i v s' = Ok s2 ->
         rowEquations s2 /\ checkTableau s2 = Ok tt) /\
      (forall x_i x_j v s2,
         pivotAndUpdate x_i x_j v s' = Ok s2 ->
         rowEquations s2 /\ checkTableau s2 = Ok tt)
  | _ => False
  end.
Proof.
  destruct (runCalls 20 budgetCalls (freshSimplex budgetTableau 5))
    as [[s'|]|] eqn:E.
  - apply (@tableau_soundness 20 budgetCalls (freshSimplex budgetTableau 5) s').
    + apply freshSimplex_sound. apply wfTableaub_ok. vm_compute. reflexivity.
    + exact E.
  - vm_compute in E. discriminate.
  - vm_compute in E. discriminate.
Defined.

(** * More of the engine *)

(** ** Order and arithmetic of delta-rationals *)

Ltac qc_to_Q :=
  unfold Qcminus in *;
  unfold Qclt, Qcle, Qcplus, Qcmult, Qcopp, Q2Qc in *;
  cbn [this] in *; rewrite ?Qred_correct in *.

Lemma Qc_add_lt_le (x y z w : Rational) :
  (x < y -> z <= w -> x + z < y + w)%Qc.
Proof. intros H1 H2. qc_to_Q. lra. Qed.

Lemma Qc_add_le_lt (x y z w : Rational) :
  (x <= y -> z < w -> x + z < y + w)%Qc.
Proof. intros H1 H2. qc_to_Q. lra. Qed.

Lemma Qc_mul_lt_pos (x y q : Rational) : (0 < q -> x < y -> x * q < y * q)%Qc.
Proof. intros H1 H2. qc_to_Q. nra. Qed.

Lemma Qc_mul_le_pos (x y q : Rational) : (0 < q -> x <= y -> x * q <= y * q)%Qc.
Proof. intros H1 H2. qc_to_Q. nra. Qed.

Lemma Qc_mul_lt_neg (x y q : Rational) : (q < 0 -> x < y -> y * q < x * q)%Qc.
Proof. intros H1 H2. qc_to_Q. nra. Qed.

Lemma Qc_mul_le_neg (x y q : Rational) : (q < 0 -> x <= y -> y * q <= x * q)%Qc.
Proof. intros H1 H2. qc_to_Q. nra. Qed.

Lemma drat_lt_irrefl (a : DRat) : ~ (a < a)%DR.
Proof. apply DRatFacts.le_not_lt. apply DRatFacts.le_refl. Qed.

Lemma drat_lt_le_trans (a b d : DRat) : (a < b)%DR -> (b <= d)%DR -> (a < d)%DR.
Proof.
  rewrite DRatFacts.le_iff, !DRatFacts.lt_iff.
  intros [H1 | [H1 H1']] [H2 | [H2 H2']].
  - left. eapply Qclt_trans; eauto.
  - left. now rewrite <- H2.
  - left. now rewrite H1.
  - right. split; [ congruence | eapply Qclt_le_trans; eauto ].
Qed.

Lemma drat_le_total (a b : DRat) : (a <= b)%DR \/ (b < a)%DR.
Proof.
  unfold DeltaRational.le, DeltaRational.lt.
  rewrite (DRatFacts.compare_antisym a b).
  destruct (DeltaRational.compare a b); simpl; auto; left; discriminate.
Qed.

Lemma drat_add_le_mono (a b d e : DRat) :
  (a <= b)%DR -> (d <= e)%DR -> (a + d <= b + e)%DR.
Proof.
  rewrite !DRatFacts.le_iff. simpl.
  intros [H1 | [H1 H1']] [H2 | [H2 H2']].
  - left. apply Qc_add_lt_le; [ exact H1 | now apply Qclt_le_weak ].
  - left. rewrite H2. apply Qc_add_lt_le; [ exact H1 | apply Qcle_refl ].
  - left. rewrite H1. apply Qc_add_le_lt; [ apply Qcle_refl | exact H2 ].
  - right. split; [ congruence | now apply Qcplus_le_compat ].
Qed.

Lemma drat_mul_le_pos (a b : DRat) (q : Rational) :
  (0 < q)%Qc -> (a <= b)%DR -> (a * q <= b * q)%DR.
Proof.
  intros Hq. rewrite !DRatFacts.le_iff. simpl. intros [H | [H H']].
  - left. now apply Qc_mul_lt_pos.
  - right. split; [ congruence | now apply Qc_mul_le_pos ].
Qed.

Lemma drat_mul_le_neg (a b : DRat) (q : Rational) :
  (q < 0)%Qc -> (a <= b)%DR -> (b * q <= a * q)%DR.
Proof.
  intros Hq. rewrite !DRatFacts.le_iff. simpl. intros [H | [H H']].
  - left. now apply Qc_mul_lt_neg.
  - right. split; [ congruence | now apply Qc_mul_le_neg ].
Qed.

(** ** Conflicts of [AssertUpper] and [AssertEquality] *)

(** X1.  On a state whose stored bounds of [x] do not cross,
    [AssertUpper(x, c, t)] returns true exactly when [x] has a lower bound
    [l] with [c < l].  In that case the conflict sink receives the single
    node [AND(getLowerConstraint(x), t)], the counter
    [AssertUpperConflicts] grows by one, and the partial model and the
    tableau are the ones before the call. *)
Theorem AssertUpper_conflict_iff (s : Simplex) (x : ArithVar) (c : DRat)
    (t : TNode) :
  boundsOrdered (d_partialModel s) x ->
  exists b s',
    AssertUpper x c t s = Ok (b, s') /\
    (b = true <->
     exists l, d_lowerBound (d_partialModel s) x = Some l /\ (c < l)%DR) /\
    (b = true ->
     d_out s' =
       d_out s ++ [mkNode AND [getLowerConstraint (d_partialModel s) x; t]] /\
     Statistics.d_statAssertUpperConflicts (d_statistics s') =
       (Statistics.d_statAssertUpperConflicts (d_statistics s) + 1)%Z /\
     d_partialModel s' = d_partialModel s /\
     d_tableau s' = d_tableau s).
Proof.
  intros Hord.
  destruct (AssertUpper_total x c t s) as (b & s' & E).
  exists b, s'. split; [ exact E | ].
  unfold AssertUpper in E.
  destruct (aboveUpperBound (d_partialModel s) x c false) eqn:Hup.
  - injection E as <- <-. split; [ | discriminate ].
    split; [ discriminate | ].
    intros (l & El & Hl). exfalso.
    apply aboveUpperBound_weak in Hup. destruct Hup as (u & Eu & Hu).
    pose proof (Hord l u El Eu) as Hlu.
    apply (proj1 (DRatFacts.le_not_lt l c)); [ | exact Hl ].
    eapply DRatFacts.le_trans; eauto.
  - destruct (belowLowerBound (d_partialModel s) x c true) eqn:Hlow.
    + injection E as <- <-. split.
      * split; [ intros _ | reflexivity ].
        now apply belowLowerBound_strict.
      * intros _. split_and; try reflexivity.
        simpl. destruct (d_statistics s). reflexivity.
    + cbv zeta in E. inv_Ok. split; [ | discriminate ].
      split; [ discriminate | ].
      intros Hex. apply belowLowerBound_strict in Hex. congruence.
Qed.

Lemma AssertUpper_conflict_iff_witness :
  let s := boundedState in
  boundsOrdered (d_partialModel s) 0 /\
  exists b s',
    AssertUpper 0 (intBound (-1)) (atom 2) s = Ok (b, s') /\
    (b = true <->
     exists l, d_lowerBound (d_partialModel s) 0 = Some l /\
               (intBound (-1) < l)%DR) /\
    (b = true ->
     d_out s' =
       d_out s ++
       [mkNode AND [getLowerConstraint (d_partialModel s) 0; atom 2]] /\
     Statistics.d_statAssertUpperConflicts (d_statistics s') =
       (Statistics.d_statAssertUpperConflicts (d_statistics s) + 1)%Z /\
     d_partialModel s' = d_partialModel s /\
     d_tableau s' = d_tableau s).
Proof.
  intros s.
  assert (H : boundsOrdered (d_partialModel s) 0).
  { intros l u Hl Hu. vm_compute in Hl, Hu.
    injection Hl as <-. injection Hu as <-.
    apply DRatFacts.leb_le. vm_compute. reflexivity. }
  split; [ exact H | ].
  apply (@AssertUpper_conflict_iff s 0 (intBound (-1)) (atom 2) H).
Defined.

Example AssertUpper_conflict_run :
  match AssertUpper 0 (intBound (-1)) (atom 2) boundedState with
  | Ok (b, s') => b = true /\ d_out s' = [mkNode AND [atom 0; atom 2]]
  | Fatal => False
  end.
Proof. vm_compute. split; reflexivity. Qed.

(** X2.  On a state whose stored bounds of [x] do not cross,
    [AssertEquality(x, c, t)] returns true exactly when [c] lies above the
    upper bound of [x] or below its lower bound.  The conflict sink then
    receives one node, [AND(getUpperConstraint(x), t)] when [c] is above
    the upper bound and [AND(getLowerConstraint(x), t)] otherwise; the
    partial model and the tableau are unchanged, and so is every
    statistics counter: an equality conflict is counted by neither
    conflict counter. *)
Theorem AssertEquality_conflict_iff (s : Simplex) (x : ArithVar) (c : DRat)
    (t : TNode) :
  boundsOrdered (d_partialModel s) x ->
  exists b s',
    AssertEquality x c t s = Ok (b, s') /\
    (b = true <->
     (exists u, d_upperBound (d_partialModel s) x = Some u /\ (u < c)%DR) \/
     (exists l, d_lowerBound (d_partialModel s) x = Some l /\ (c < l)%DR)) /\
    (b = true ->
     d_out s' =
       d_out s ++
       [mkNode AND
          [if aboveUpperBound (d_partialModel s) x c true
           then getUpperConstraint (d_partialModel s) x
           else getLowerConstraint (d_partialModel s) x; t]] /\
     d_statistics s' = d_statistics s /\
     d_partialModel s' = d_partialModel s /\
     d_tableau s' = d_tableau s).
Proof.
  intros Hord.
  destruct (AssertEquality_total x c t s) as (b & s' & E).
  exists b, s'. split; [ exact E | ].
  unfold AssertEquality in E.
  destruct (belowLowerBound (d_partialModel s) x c false &&
            aboveUpperBound (d_partialModel s) x c false) eqn:Hred.
  - injection E as <- <-. split; [ | discriminate ].
    split; [ discriminate | ].
    apply redundantEquality_test in Hred.
    destruct Hred as [(l & El & Hl) (u & Eu & Hu)].
    pose proof (Hord l u El Eu) as Hlu.
    intros [(u' & Eu' & Hu') | (l' & El' & Hl')]; exfalso.
    + assert (u' = u) by congruence. subst u'.
      apply (proj1 (DRatFacts.le_not_lt c u)); [ | exact Hu' ].
      eapply DRatFacts.le_trans; eauto.
    + assert (l' = l) by congruence. subst l'.
      apply (proj1 (DRatFacts.le_not_lt l c)); [ | exact Hl' ].
      eapply DRatFacts.le_trans; eauto.
  - destruct (aboveUpperBound (d_partialModel s) x c true) eqn:Hup.
    + injection E as <- <-. split.
      * split; [ intros _ | reflexivity ].
        left. now apply aboveUpperBound_strict.
      * intros _. split_and; reflexivity.
    + destruct (belowLowerBound (d_partialModel s) x c true) eqn:Hlow.
      * injection E as <- <-. split.
        -- split; [ intros _ | reflexivity ].
           right. now apply belowLowerBound_strict.
        -- intros _. split_and; reflexivity.
      * cbv zeta in E. inv_Ok. split; [ | discriminate ].
        split; [ discriminate | ].
        intros [Hex | Hex].
        -- apply aboveUpperBound_strict in Hex. congruence.
        -- apply belowLowerBound_strict in Hex. congruence.
Qed.

Lemma AssertEquality_conflict_iff_witness :
  let s := boundedState in
  boundsOrdered (d_partialModel s) 0 /\
  exists b s',
    AssertEquality 0 (intBound 2) (atom 3) s = Ok (b, s') /\
    (b = true <->
     (exists u, d_upperBound (d_partialModel s) 0 = Some u /\
                (u < intBound 2)%DR) \/
     (exists l, d_lowerBound (d_partialModel s) 0 = Some l /\
                (intBound 2 < l)%DR)) /\
    (b = true ->
     d_out s' =
       d_out s ++
       [mkNode AND
          [if aboveUpperBound (d_partialModel s) 0 (intBound 2) true
           then getUpperConstraint (d_partialModel s) 0
           else getLowerConstraint (d_partialModel s) 0; atom 3]] /\
     d_statistics s' = d_statistics s /\
     d_partialModel s' = d_partialModel s /\
     d_tableau s' = d_tableau s).
Proof.
  intros s.
  assert (H : boundsOrdered (d_partialModel s) 0).
  { intros l u Hl Hu. vm_compute in Hl, Hu.
    injection Hl as <-. injection Hu as <-.
    apply DRatFacts.leb_le. vm_compute. reflexivity. }
  split; [ exact H | ].
  apply (@AssertEquality_conflict_iff s 0 (intBound 2) (atom 3) H).
Defined.

Example AssertEquality_conflict_run :
  match AssertEquality 0 (intBound 2) (atom 3) boundedState with
  | Ok (b, s') => b = true /\ d_out s' = [mkNode AND [atom 1; atom 3]]
  | Fatal => False
  end.
Proof. vm_compute. split; reflexivity. Qed.

(** ** Bounds, consistency and the queues *)

(** [withinBounds m beta x]: the value [beta x] respects the bounds that
    [m] stores for [x]. *)
Definition withinBounds (m : ArithPartialModel.t) (beta : ArithVar -> DRat)
    (x : ArithVar) : Prop :=
  (forall l, d_lowerBound m x = Some l -> (l <= beta x)%DR) /\
  (forall u, d_upperBound m x = Some u -> (beta x <= u)%DR).

Lemma assignmentIsConsistent_iff m x :
  assignmentIsConsistent m x = true <-> withinBounds m (d_assignment m) x.
Proof.
  unfold assignmentIsConsistent, withinBounds, belowLowerBound, aboveUpperBound.
  rewrite andb_true_iff, !negb_true_iff.
  destruct (d_lowerBound m x) as [l|], (d_upperBound m x) as [u|].
  - split.
    + intros [H1 H2]. split; intros b E; injection E as <-;
        apply DRatFacts.le_not_lt; intros H;
        [ apply DRatFacts.ltb_lt in H | apply DRatFacts.gtb_lt in H ];
        congruence.
    + intros [H1 H2]. split.
      * destruct (DeltaRational.ltb (d_assignment m x) l) eqn:E; [ | reflexivity ].
        apply DRatFacts.ltb_lt in E.
        exfalso. exact (proj1 (DRatFacts.le_not_lt _ _) (H1 l eq_refl) E).
      * destruct (DeltaRational.gtb (d_assignment m x) u) eqn:E; [ | reflexivity ].
        apply DRatFacts.gtb_lt in E.
        exfalso. exact (proj1 (DRatFacts.le_not_lt _ _) (H2 u eq_refl) E).
  - split.
    + intros [H1 _]. split; intros b E; [ injection E as <- | discriminate ].
      apply DRatFacts.le_not_lt. intros H. apply DRatFacts.ltb_lt in H.
      congruence.
    + intros [H1 _]. split; [ | reflexivity ].
      destruct (DeltaRational.ltb (d_assignment m x) l) eqn:E; [ | reflexivity ].
      apply DRatFacts.ltb_lt in E.
      exfalso. exact (proj1 (DRatFacts.le_not_lt _ _) (H1 l eq_refl) E).
  - split.
    + intros [_ H2]. split; intros b E; [ discriminate | injection E as <- ].
      apply DRatFacts.le_not_lt. intros H. apply DRatFacts.gtb_lt in H.
      congruence.
    + intros [_ H2]. split; [ reflexivity | ].
      destruct (DeltaRational.gtb (d_assignment m x) u) eqn:E; [ | reflexivity ].
      apply DRatFacts.gtb_lt in E.
      exfalso. exact (proj1 (DRatFacts.le_not_lt _ _) (H2 u eq_refl) E).
  - split; [ intros _; split; intros b E; discriminate | auto ].
Qed.

Lemma assignmentIsConsistent_ext m m' x :
  d_assignment m' x = d_assignment m x ->
  d_lowerBound m' x = d_lowerBound m x ->
  d_upperBound m' x = d_upperBound m x ->
  assignmentIsConsistent m' x = assignmentIsConsistent m x.
Proof.
  intros A L U. unfold assignmentIsConsistent, belowLowerBound, aboveUpperBound.
  now rewrite A, L, U.
Qed.

(** Every stored pair of bounds is in order. *)
Definition allBoundsOrdered (m : ArithPartialModel.t) : Prop :=
  forall x, boundsOrdered m x.

(** Every non-basic variable is within its bounds. *)
Definition nonbasicWithinBounds (s : Simplex) : Prop :=
  forall x, isBasic s x = false ->
            assignmentIsConsistent (d_partialModel s) x = true.

(** [covers s y]: if [y] is basic and breaks a bound, it waits in the
    active queue. *)
Definition covers (s : Simplex) (y : ArithVar) : Prop :=
  live s y = true -> In y (activeQueue s).

Definition queueComplete (s : Simplex) : Prop := forall y, covers s y.

Lemma griggio_push_keys e q y :
  In y (map fst (griggio_push e q)) <-> y = fst e \/ In y (map fst q).
Proof.
  unfold griggio_push. rewrite !in_map_iff. split.
  - intros (p & <- & Hp). apply pq_push_In in Hp. destruct Hp as [-> | Hp].
    + now left.
    + right. eauto.
  - intros [-> | (p & <- & Hp)].
    + exists e. split; [ reflexivity | apply pq_push_In; now left ].
    + exists p. split; [ reflexivity | apply pq_push_In; now right ].
Qed.

Lemma bland_push_keys x q y : In y (bland_push x q) <-> y = x \/ In y q.
Proof. unfold bland_push. apply pq_push_In. Qed.

(** What [checkBasicVariable] does to the active queue. *)
Lemma checkBasicVariable_queue x s s' :
  checkBasicVariable x s = Ok s' ->
  d_partialModel s' = d_partialModel s /\
  d_tableau s' = d_tableau s /\
  d_pivotStage s' = d_pivotStage s /\
  (forall y, In y (activeQueue s) -> In y (activeQueue s')) /\
  (assignmentIsConsistent (d_partialModel s) x = false ->
   In x (activeQueue s')).
Proof.
  intros H. unfold checkBasicVariable in H.
  destruct (isBasic s x); simpl in H; [ | discriminate ].
  destruct (assignmentIsConsistent (d_partialModel s) x) eqn:Hc; simpl in H.
  - injection H as <-. split_and; auto. discriminate.
  - destruct (d_pivotStage s) eqn:Hp.
    + match type of H with
      | bind ?d _ = _ => destruct d as [diff|]
      end; simpl in H; [ | discriminate ].
      injection H as <-. unfold activeQueue. simpl. rewrite Hp.
      split_and; auto.
      * intros y Hy. apply griggio_push_keys. now right.
      * intros _. apply griggio_push_keys. now left.
    + injection H as <-. unfold activeQueue. simpl. rewrite Hp.
      split_and; auto.
      * intros y Hy. apply bland_push_keys. now right.
      * intros _. apply bland_push_keys. now left.
Qed.

(** A basic variable that is reassigned and then checked is covered; the
    others stay covered. *)
Lemma assign_check_covers s x v z s' :
  checkBasicVariable x
    (bumpActivity
       (set_partialModel s (setAssignment (d_partialModel s) x v)) z) = Ok s' ->
  forall y, covers s y -> covers s' y.
Proof.
  intros H y Hy.
  apply checkBasicVariable_queue in H.
  destruct H as (HM & HT & HP & Hq & Hx).
  cbn [bumpActivity set_activityMonitor set_partialModel d_partialModel
       d_tableau d_pivotStage] in HM, HT, HP, Hx.
  unfold covers, live, isBasic in *. rewrite HM, HT.
  destruct (y =? x) eqn:E.
  - apply N.eqb_eq in E. subst y. intros Hl.
    apply andb_true_iff in Hl. destruct Hl as [_ Hl].
    apply negb_true_iff in Hl. now apply Hx.
  - apply N.eqb_neq in E. intros Hl. apply Hq.
    unfold activeQueue in *. simpl. apply Hy.
    rewrite <- Hl. f_equal. f_equal.
    apply assignmentIsConsistent_ext; simpl; try reflexivity.
    symmetry. now apply upd_other.
Qed.

Lemma update_loop_covers x_i diff bs : forall s s',
  update_loop x_i diff bs s = Ok s' ->
  forall y, covers s y -> covers s' y.
Proof.
  induction bs as [|x_j bs IH]; intros s s' H y Hy; simpl in H.
  - injection H as <-. exact Hy.
  - destruct (Tableau.lookup (d_tableau s) x_j) as [row_j|]; simpl in H;
      [ | discriminate ].
    destruct (ReducedRowVector.has row_j x_i).
    + destruct (ReducedRowVector.lookup row_j x_i) as [a|]; simpl in H;
        [ | discriminate ].
      match type of H with
      | bind ?c _ = _ => destruct c as [s1|] eqn:E1
      end; simpl in H; [ | discriminate ].
      eapply IH; [ exact H | ].
      eapply assign_check_covers; [ exact E1 | exact Hy ].
    + simpl in H. eapply IH; [ exact H | exact Hy ].
Qed.

Lemma pivotAndUpdate_loop_covers x_i x_j theta bs : forall s s',
  pivotAndUpdate_loop x_i x_j theta bs s = Ok s' ->
  forall y, covers s y -> covers s' y.
Proof.
  induction bs as [|x_k bs IH]; intros s s' H y Hy; simpl in H.
  - injection H as <-. exact Hy.
  - destruct (Tableau.lookup (d_tableau s) x_k) as [row_k|]; simpl in H;
      [ | discriminate ].
    destruct (negb (x_k =? x_i) && ReducedRowVector.has row_k x_j).
    + destruct (ReducedRowVector.lookup row_k x_j) as [a|]; simpl in H;
        [ | discriminate ].
      match type of H with
      | bind ?c _ = _ => destruct c as [s1|] eqn:E1
      end; simpl in H; [ | discriminate ].
      eapply IH; [ exact H | ].
      eapply assign_check_covers; [ exact E1 | exact Hy ].
    + simpl in H. eapply IH; [ exact H | exact Hy ].
Qed.

Lemma update_covers x_i v s s' :
  update x_i v s = Ok s' ->
  forall y, covers s y -> covers s' y.
Proof.
  intros H y Hy. pose proof H as H0. apply update_Ok in H0.
  destruct H0 as (Hnb & HT & _).
  unfold update in H. rewrite Hnb in H. simpl in H.
  match type of H with
  | bind ?l _ = _ => destruct l as [s1|] eqn:E1
  end; simpl in H; [ | discriminate ].
  injection H as <-.
  pose proof E1 as F1. apply update_loop_Ok in F1. destruct F1 as [F1 _].
  assert (C1 : covers s1 y).
  { eapply update_loop_covers; [ exact E1 | ]. exact Hy. }
  unfold covers, live, isBasic in *.
  cbn [set_partialModel d_partialModel d_tableau] in *.
  destruct (y =? x_i) eqn:E.
  - apply N.eqb_eq in E. subst y. destruct F1 as [-> _].
    cbn [count set_statistics d_tableau]. rewrite Hnb. discriminate.
  - apply N.eqb_neq in E. intros Hl.
    unfold activeQueue in *. simpl in *. apply C1.
    rewrite <- Hl. f_equal. f_equal.
    apply assignmentIsConsistent_ext; simpl; try reflexivity.
    symmetry. now apply upd_other.
Qed.

(** After [pivotAndUpdate] the active queue again holds every basic
    variable that breaks a bound. *)
Lemma pivotAndUpdate_queueComplete x_i x_j v s s' :
  wfTableau (d_tableau s) ->
  pivotAndUpdate x_i x_j v s = Ok s' ->
  queueComplete s -> queueComplete s'.
Proof.
  intros Hwf H Hq. unfold pivotAndUpdate in H.
  destruct (negb (x_i =? x_j)) eqn:Hne; simpl in H; [ | discriminate ].
  apply negb_true_iff, N.eqb_neq in Hne.
  destruct (Tableau.lookup (d_tableau s) x_i) as [row_i|] eqn:Erow;
    simpl in H; [ | discriminate ].
  destruct (ReducedRowVector.lookup row_i x_j) as [a_ij|] eqn:Ea;
    simpl in H; [ | discriminate ].
  apply row_lookup_Ok in Ea. destruct Ea as [Hhas ->].
  cbv zeta in H.
  match type of H with
  | bind (pivotAndUpdate_loop _ _ ?th _ ?s2') _ = _ =>
      set (theta := th) in H; set (s2 := s2') in H
  end.
  match type of H with
  | bind ?l _ = _ => destruct l as [s3|] eqn:E3
  end; simpl in H; [ | discriminate ].
  pose proof E3 as F3. apply pivotAndUpdate_loop_Ok in F3.
  destruct F3 as [F3 _].
  pose proof (notePivot_effect s3) as N4.
  set (s4 := notePivot s3) in *.
  destruct N4 as (N1 & N2 & N3 & N4 & N5 & N6 & N7 & N8 & N9).
  destruct (Tableau.pivot (d_tableau s4) x_i x_j) as [T'|] eqn:ET;
    simpl in H; [ | discriminate ].
  set (s5 := set_tableau s4 T') in H.
  destruct (checkBasicVariable x_j s5) as [s6|] eqn:E6; simpl in H;
    [ | discriminate ].
  apply checkBasicVariable_queue in E6.
  destruct E6 as (M6 & T6 & P6 & Q6 & X6).
  assert (Hs' : d_tableau s' = d_tableau s6 /\
                d_partialModel s' = d_partialModel s6 /\
                activeQueue s' = activeQueue s6).
  { revert H. destruct (negb (d_foundAConflict s6)).
    - destruct (belowLowerBound _ x_j _ true).
      + destruct (selectSlackBelow x_j s6); simpl; [ | discriminate ].
        destruct (_ =? ARITHVAR_SENTINEL); intros H; injection H as <-;
          repeat split.
      + destruct (aboveUpperBound _ x_j _ true).
        * destruct (selectSlackAbove x_j s6); simpl; [ | discriminate ].
          destruct (_ =? ARITHVAR_SENTINEL); intros H; injection H as <-;
            repeat split.
        * intros H; injection H as <-; repeat split.
    - intros H; injection H as <-; repeat split. }
  destruct Hs' as (S1 & S2 & S3).
  assert (HT3 : d_tableau s3 = d_tableau s) by (destruct F3 as [-> _]; reflexivity).
  rewrite N2, HT3 in ET. apply pivot_Ok in ET.
  destruct ET as (row_i' & _ & Hnb & Hrow' & _ & _ & ET').
  assert (row_i' = row_i) by congruence. subst row_i'.
  intros y Hl. unfold live, isBasic in Hl.
  rewrite S1, S2, T6, M6 in Hl. rewrite S3.
  apply andb_true_iff in Hl. destruct Hl as [Hb Hc].
  apply negb_true_iff in Hc.
  change (d_tableau s5) with T' in Hb.
  change (d_partialModel s5) with (d_partialModel s4) in Hc, X6.
  rewrite ET' in Hb.
  apply (@pivot_isBasic (d_tableau s) x_i x_j row_i Erow y) in Hb.
  destruct (y =? x_j) eqn:Ey.
  - apply N.eqb_eq in Ey. subst y. now apply X6.
  - apply N.eqb_neq in Ey. destruct Hb as [Hb | [Hb Hi]]; [ contradiction | ].
    apply Q6.
    assert (C2 : covers s2 y).
    { unfold covers, live, isBasic. subst s2.
      cbn [set_partialModel d_partialModel d_tableau].
      intros Hl. unfold activeQueue. simpl. apply (Hq y).
      unfold live, isBasic. rewrite <- Hl. f_equal. f_equal.
      apply assignmentIsConsistent_ext; simpl; try reflexivity.
      rewrite !upd_other by assumption. reflexivity. }
    assert (C3 : covers s3 y).
    { eapply pivotAndUpdate_loop_covers; [ exact E3 | exact C2 ]. }
    assert (A5 : activeQueue s5 = activeQueue s3).
    { unfold activeQueue, s5. simpl. now rewrite N4, N6, N7. }
    rewrite A5. apply C3. unfold live, isBasic.
    rewrite HT3, Hb, <- N1, Hc. reflexivity.
Qed.

(** ** Non-basic variables stay within their bounds *)

Lemma withinBounds_consistent m x :
  withinBounds m (d_assignment m) x -> assignmentIsConsistent m x = true.
Proof. apply assignmentIsConsistent_iff. Qed.

Lemma update_bounds x_i v s s' :
  update x_i v s = Ok s' ->
  d_lowerBound (d_partialModel s') = d_lowerBound (d_partialModel s) /\
  d_upperBound (d_partialModel s') = d_upperBound (d_partialModel s).
Proof.
  intros H. pose proof H as H0. apply update_Ok in H0.
  destruct H0 as (Hnb & _).
  destruct (update_total x_i v s Hnb) as (s2 & E2 & _ & _ & _ & L & U & _).
  rewrite E2 in H. injection H as <-. auto.
Qed.

(** [update] moves the non-basic [x_i] to [v] and no other non-basic
    variable. *)
Lemma update_nonbasic x_i v s s' :
  tableauSound s ->
  update x_i v s = Ok s' ->
  (forall l, d_lowerBound (d_partialModel s) x_i = Some l -> (l <= v)%DR) ->
  (forall u, d_upperBound (d_partialModel s) x_i = Some u -> (v <= u)%DR) ->
  (forall y, y <> x_i -> isBasic s y = false ->
             assignmentIsConsistent (d_partialModel s) y = true) ->
  nonbasicWithinBounds s'.
Proof.
  intros [[Hnd _] _] H Hl Hu Hothers.
  destruct (update_bounds _ _ _ H) as [L U].
  apply update_Ok in H. destruct H as (Hnb & HT & HA).
  intros y Hy. unfold isBasic in Hy. rewrite HT in Hy.
  destruct (N.eq_dec y x_i) as [-> | Hne].
  - apply withinBounds_consistent. unfold withinBounds.
    rewrite HA, L, U, upd_same. auto.
  - rewrite <- (Hothers y Hne Hy).
    apply assignmentIsConsistent_ext; [ | now rewrite L | now rewrite U ].
    rewrite HA, upd_other by exact Hne.
    apply updateAssign_spec.
    + exact Hnd.
    + intros x Hx. now apply isBasic_In.
    + now apply not_basic_not_In.
Qed.

(** [pivotAndUpdate] leaves [x_i] non-basic at [v]; the other non-basic
    variables keep their values. *)
Lemma pivotAndUpdate_nonbasic x_i x_j v s s' :
  tableauSound s ->
  pivotAndUpdate x_i x_j v s = Ok s' ->
  (forall l, d_lowerBound (d_partialModel s) x_i = Some l -> (l <= v)%DR) ->
  (forall u, d_upperBound (d_partialModel s) x_i = Some u -> (v <= u)%DR) ->
  nonbasicWithinBounds s -> nonbasicWithinBounds s'.
Proof.
  intros [[Hnd Hrows] _] H Hl Hu Hnbw.
  apply pivotAndUpdate_Ok in H.
  destruct H as (row_i & T' & Hij & Hrow & Hhas & Hpivot & HT & HA & L & U & _).
  apply pivot_Ok in Hpivot.
  destruct Hpivot as (row_i' & Hbi & Hnb & Hrow' & _ & _ & ET').
  assert (row_i' = row_i) by congruence. subst row_i'.
  assert (Hbs : forall x, In x (Tableau.basics (d_tableau s)) ->
                          Tableau.isBasic (d_tableau s) x = true).
  { intros x Hx. now apply isBasic_In. }
  intros y Hy. unfold isBasic in Hy. rewrite HT, ET' in Hy.
  assert (Hyj : y <> x_j).
  { intros ->.
    assert (Tableau.isBasic
              (map (pivotRow x_i x_j (ReducedRowVector.pivot row_i x_j))
                   (d_tableau s)) x_j = true)
      by (apply (@pivot_isBasic (d_tableau s) x_i x_j row_i Hrow x_j);
          now left).
    congruence. }
  destruct (N.eq_dec y x_i) as [-> | Hne].
  - apply withinBounds_consistent. unfold withinBounds.
    rewrite L, U, HA. cbv zeta.
    assert (E : pivotAssign (d_tableau s) x_i x_j
                  (pivotTheta (d_assignment (d_partialModel s)) x_i v
                     (ReducedRowVector.coeff row_i x_j))
                  (Tableau.basics (d_tableau s))
                  (pivotStart (d_assignment (d_partialModel s)) x_i x_j v
                     (pivotTheta (d_assignment (d_partialModel s)) x_i v
                        (ReducedRowVector.coeff row_i x_j))) x_i = v).
    { destruct (@pivotAssign_spec (d_tableau s) x_i x_j
                  (pivotTheta (d_assignment (d_partialModel s)) x_i v
                     (ReducedRowVector.coeff row_i x_j))
                  (Tableau.basics (d_tableau s))
                  (pivotStart (d_assignment (d_partialModel s)) x_i x_j v
                     (pivotTheta (d_assignment (d_partialModel s)) x_i v
                        (ReducedRowVector.coeff row_i x_j)))
                  Hnd Hbs x_i) as [_ Hin].
      rewrite (Hin row_i).
      - rewrite N.eqb_refl. simpl. unfold pivotStart.
        rewrite upd_other by exact Hij. apply upd_same.
      - now apply isBasic_In.
      - now apply lookup_find. }
    rewrite E. auto.
  - assert (Hyb : Tableau.isBasic (d_tableau s) y = false).
    { destruct (Tableau.isBasic (d_tableau s) y) eqn:Eb; [ | reflexivity ].
      assert (Tableau.isBasic
                (map (pivotRow x_i x_j (ReducedRowVector.pivot row_i x_j))
                     (d_tableau s)) y = true)
        by (apply (@pivot_isBasic (d_tableau s) x_i x_j row_i Hrow y);
            right; now split).
      congruence. }
    rewrite <- (Hnbw y Hyb).
    apply assignmentIsConsistent_ext; [ | now rewrite L | now rewrite U ].
    rewrite HA. cbv zeta.
    destruct (@pivotAssign_spec (d_tableau s) x_i x_j
                (pivotTheta (d_assignment (d_partialModel s)) x_i v
                   (ReducedRowVector.coeff row_i x_j))
                (Tableau.basics (d_tableau s))
                (pivotStart (d_assignment (d_partialModel s)) x_i x_j v
                   (pivotTheta (d_assignment (d_partialModel s)) x_i v
                      (ReducedRowVector.coeff row_i x_j)))
                Hnd Hbs y) as [Hout _].
    rewrite Hout by now apply not_basic_not_In.
    unfold pivotStart. now rewrite !upd_other.
Qed.

(** ** One pass of the main loop, case by case *)

Lemma generateConflictBelow_nonnull x s n :
  generateConflictBelow x s = Ok n -> isNull n = false.
Proof.
  unfold generateConflictBelow. intros H. inv_Ok. reflexivity.
Qed.

Lemma generateConflictAbove_nonnull x s n :
  generateConflictAbove x s = Ok n -> isNull n = false.
Proof.
  unfold generateConflictAbove. intros H. inv_Ok. reflexivity.
Qed.

(** The violated bound that a pass repairs. *)
Definition violates (above : bool) (s : Simplex) (x : ArithVar) (v : DRat)
  : Prop :=
  if above
  then d_upperBound (d_partialModel s) x = Some v /\
       (v < d_assignment (d_partialModel s) x)%DR
  else d_lowerBound (d_partialModel s) x = Some v /\
       (d_assignment (d_partialModel s) x < v)%DR.

Definition generateConflict (above : bool) : ArithVar -> Simplex -> Result Node :=
  if above then generateConflictAbove else generateConflictBelow.

Lemma privateUpdate_body_cases s e s1 :
  privateUpdate_body s = Ok (e, s1) ->
  let x_i := fst (selectSmallestInconsistentVar s) in
  let s0 := snd (selectSmallestInconsistentVar s) in
  (x_i = ARITHVAR_SENTINEL /\ e = Return NullNode /\ s1 = s0) \/
  (x_i <> ARITHVAR_SENTINEL /\
   exists above v n,
     violates above s0 x_i v /\
     selectSlack above x_i s0 = Ok ARITHVAR_SENTINEL /\
     generateConflict above x_i s1 = Ok n /\
     e = Return n /\
     s1 = count Statistics.incUpdateConflicts s0) \/
  (x_i <> ARITHVAR_SENTINEL /\
   exists above x_j v c,
     violates above s0 x_i v /\
     selectSlack above x_i s0 = Ok x_j /\
     x_j <> ARITHVAR_SENTINEL /\
     pivotAndUpdate x_i x_j v s0 = Ok s1 /\
     checkBasicForConflict x_j s1 = Ok c /\
     e = if isNull c then Continue else Return c).
Proof.
  unfold privateUpdate_body.
  destruct (selectSmallestInconsistentVar s) as [x_i s0]. simpl.
  destruct (x_i =? ARITHVAR_SENTINEL) eqn:Ex.
  - apply N.eqb_eq in Ex. intros H. injection H as <- <-. left. auto.
  - apply N.eqb_neq in Ex. intros H. right.
    destruct (belowLowerBound (d_partialModel s0) x_i
                (getAssignment (d_partialModel s0) x_i) true) eqn:Hlow.
    + apply belowLowerBound_strict in Hlow. destruct Hlow as (l & El & Hl).
      unfold getLowerBound in H. rewrite El in H. simpl in H.
      unfold selectSlackBelow in H.
      destruct (selectSlack false x_i s0) as [x_j|] eqn:Ej;
        simpl in H; [ | discriminate ].
      destruct (x_j =? ARITHVAR_SENTINEL) eqn:Exj.
      * destruct (generateConflictBelow x_i _) as [n|] eqn:En; simpl in H;
          [ | discriminate ].
        injection H as <- <-. left. split; [ exact Ex | ].
        apply N.eqb_eq in Exj. subst x_j.
        exists false, l, n. unfold violates, generateConflict. auto.
      * destruct (pivotAndUpdate x_i x_j l s0) as [s2|] eqn:Ep;
          simpl in H; [ | discriminate ].
        rewrite Exj in H. simpl in H.
        destruct (checkBasicForConflict x_j s2) as [c|] eqn:Ec; simpl in H;
          [ | discriminate ].
        right. split; [ exact Ex | ].
        apply N.eqb_neq in Exj.
        exists false, x_j, l, c. unfold violates.
        destruct (isNull c); simpl in H; injection H as <- <-; auto 10.
    + destruct (aboveUpperBound (d_partialModel s0) x_i
                  (getAssignment (d_partialModel s0) x_i) true) eqn:Hup.
      * apply aboveUpperBound_strict in Hup. destruct Hup as (u & Eu & Hu).
        unfold getUpperBound in H. rewrite Eu in H. simpl in H.
        unfold selectSlackAbove in H.
        destruct (selectSlack true x_i s0) as [x_j|] eqn:Ej;
          simpl in H; [ | discriminate ].
        destruct (x_j =? ARITHVAR_SENTINEL) eqn:Exj.
        -- destruct (generateConflictAbove x_i _) as [n|] eqn:En; simpl in H;
             [ | discriminate ].
           injection H as <- <-. left. split; [ exact Ex | ].
           apply N.eqb_eq in Exj. subst x_j.
           exists true, u, n. unfold violates, generateConflict. auto.
        -- destruct (pivotAndUpdate x_i x_j u s0) as [s2|] eqn:Ep;
             simpl in H; [ | discriminate ].
           rewrite Exj in H. simpl in H.
           destruct (checkBasicForConflict x_j s2) as [c|] eqn:Ec; simpl in H;
             [ | discriminate ].
           right. split; [ exact Ex | ].
           apply N.eqb_neq in Exj.
           exists true, x_j, u, c. unfold violates.
           destruct (isNull c); simpl in H; injection H as <- <-; auto 10.
      * simpl in H. discriminate.
Qed.

(** A pass that returns null found the active queue without a basic
    variable that breaks a bound. *)
Lemma privateUpdate_body_null s n s1 :
  privateUpdate_body s = Ok (Return n, s1) ->
  isNull n = true ->
  fst (selectSmallestInconsistentVar s) = ARITHVAR_SENTINEL /\
  s1 = snd (selectSmallestInconsistentVar s).
Proof.
  intros H Hn. apply privateUpdate_body_cases in H. cbv zeta in H.
  destruct H as [(E & _ & ->) | [(_ & above & v & n' & _ & _ & G & E & _)
                                | (_ & above & x_j & v & c & _ & _ & _ & _ & _ & E)]].
  - auto.
  - injection E as ->. exfalso.
    destruct above; unfold generateConflict in G;
      [ apply generateConflictAbove_nonnull in G
      | apply generateConflictBelow_nonnull in G ]; congruence.
  - exfalso. destruct (isNull c) eqn:Ec; [ discriminate | ].
    injection E as ->. congruence.
Qed.

(** ** What a check leaves alone *)

(** [checkFrame s s']: the bounds, their explanations, the conflict sink
    and the number of variables are the same in [s] and [s']. *)
Definition checkFrame (s s' : Simplex) : Prop :=
  d_lowerBound (d_partialModel s') = d_lowerBound (d_partialModel s) /\
  d_upperBound (d_partialModel s') = d_upperBound (d_partialModel s) /\
  d_lowerConstraint (d_partialModel s') = d_lowerConstraint (d_partialModel s) /\
  d_upperConstraint (d_partialModel s') = d_upperConstraint (d_partialModel s) /\
  d_out s' = d_out s /\
  d_numVariables s' = d_numVariables s.

Lemma checkFrame_refl s : checkFrame s s.
Proof. unfold checkFrame. auto 10. Qed.

Lemma checkFrame_trans s1 s2 s3 :
  checkFrame s1 s2 -> checkFrame s2 s3 -> checkFrame s1 s3.
Proof.
  unfold checkFrame. intros H1 H2.
  repeat match goal with H : _ /\ _ |- _ => destruct H end.
  split_and; congruence.
Qed.

Lemma checkFrame_same s s' :
  d_partialModel s' = d_partialModel s -> d_out s' = d_out s ->
  d_numVariables s' = d_numVariables s -> checkFrame s s'.
Proof. unfold checkFrame. intros -> -> ->. auto 10. Qed.

Lemma privateUpdate_body_frame s e s1 :
  privateUpdate_body s = Ok (e, s1) -> checkFrame s s1.
Proof.
  intros H. apply privateUpdate_body_Ok in H. cbv zeta in H.
  destruct (selectSmallestInconsistentVar_frame s) as (M & _ & _ & Nv & _ & O).
  assert (F0 : checkFrame s (snd (selectSmallestInconsistentVar s))).
  { now apply checkFrame_same. }
  destruct H as [(_ & _ & ->) | [(_ & -> & _) | (_ & above & x_j & v & _ & _ & Hp & _)]].
  - exact F0.
  - eapply checkFrame_trans; [ exact F0 | ]. now apply checkFrame_same.
  - eapply checkFrame_trans; [ exact F0 | ].
    apply pivotAndUpdate_Ok in Hp.
    destruct Hp as (row_i & T' & _ & _ & _ & _ & _ & _ & L & U & LC & UC & _ & Nv' & O' & _).
    unfold checkFrame. auto 10.
Qed.

Lemma privateUpdate_loop_frame fuel : forall iter s e s',
  privateUpdate_loop fuel iter s = Some (Ok (e, s')) -> checkFrame s s'.
Proof.
  induction fuel as [|fuel IH]; intros iter s e s' H; [ discriminate | ].
  cbn [privateUpdate_loop] in H.
  destruct (negb (d_pivotStage s) || (iter <=? d_numVariables s)).
  - destruct (privateUpdate_body s) as [[[n|] s1]|] eqn:Eb; [ | | discriminate ].
    + injection H as _ <-. eapply privateUpdate_body_frame; exact Eb.
    + eapply checkFrame_trans; [ eapply privateUpdate_body_frame; exact Eb | ].
      eapply IH; exact H.
  - injection H as _ <-. apply checkFrame_refl.
Qed.

Lemma privateUpdateInconsistentVars_frame fuel : forall s n s',
  privateUpdateInconsistentVars fuel s = Some (Ok (n, s')) -> checkFrame s s'.
Proof.
  induction fuel as [|fuel IH]; intros s n s' H; [ discriminate | ].
  cbn [privateUpdateInconsistentVars] in H.
  destruct (negb (d_pivotStage s || queueEmpty (d_griggioRuleQueue s)));
    [ discriminate | ].
  destruct (privateUpdate_loop fuel 0 s) as [[[[m|it] s1]|]|] eqn:El;
    try discriminate.
  - injection H as _ <-. eapply privateUpdate_loop_frame; exact El.
  - destruct (d_pivotStage s1 && (d_numVariables s1 <=? it)); [ | discriminate ].
    eapply checkFrame_trans; [ eapply privateUpdate_loop_frame; exact El | ].
    eapply checkFrame_trans; [ | eapply IH; exact H ].
    now apply checkFrame_same.
Qed.

(** What [selectInitialConflict] keeps, and the keys of the queue it
    rebuilds. *)
Lemma selectInitialConflict_loop_keeps init : forall best changes s0 b c s1,
  selectInitialConflict_loop init best changes s0 = Ok (b, c, s1) ->
  d_partialModel s1 = d_partialModel s0 /\
  d_tableau s1 = d_tableau s0 /\
  d_pivotStage s1 = d_pivotStage s0 /\
  d_out s1 = d_out s0 /\
  d_numVariables s1 = d_numVariables s0 /\
  d_possiblyInconsistent s1 = d_possiblyInconsistent s0 /\
  (forall y, In y (map fst (d_griggioRuleQueue s1)) <->
             In y (map fst init) \/ In y (map fst (d_griggioRuleQueue s0))).
Proof.
  induction init as [|i init IH]; intros best changes s0 b c s1 H.
  - injection H as _ _ <-. split_and; auto. intros y. simpl. tauto.
  - cbn [selectInitialConflict_loop] in H. cbv zeta in H.
    destruct (checkBasicForConflict _ _) as [n|]; simpl in H; [ | discriminate ].
    destruct (negb (isNull n)); apply IH in H;
      destruct H as (A1 & A2 & A3 & A4 & A5 & A6 & A7);
      cbn [count set_statistics set_griggioRuleQueue d_partialModel d_tableau
           d_pivotStage d_out d_numVariables d_possiblyInconsistent
           d_griggioRuleQueue] in *;
      split_and; auto;
      intros y; rewrite A7, griggio_push_keys; simpl;
      intuition (subst; auto).
Qed.

Lemma selectInitialConflict_keeps s n s' :
  selectInitialConflict s = Ok (n, s') ->
  d_partialModel s' = d_partialModel s /\
  d_tableau s' = d_tableau s /\
  d_pivotStage s' = d_pivotStage s /\
  d_out s' = d_out s /\
  d_numVariables s' = d_numVariables s /\
  d_possiblyInconsistent s' = d_possiblyInconsistent s /\
  (forall y, In y (map fst (d_griggioRuleQueue s')) <->
             In y (map fst (filter (fun e => live s (fst e))
                              (d_griggioRuleQueue s)))).
Proof.
  intros H. unfold selectInitialConflict in H. cbv zeta in H.
  match type of H with
  | bind ?l _ = _ => destruct l as [[[b c] s1]|] eqn:E
  end; simpl in H; [ | discriminate ].
  apply selectInitialConflict_loop_keeps in E.
  destruct E as (A1 & A2 & A3 & A4 & A5 & A6 & A7).
  rewrite drainGriggio_filter in A7. simpl in *.
  assert (Hq : forall y, In y (map fst (d_griggioRuleQueue s1)) <->
             In y (map fst (filter (fun e => live s (fst e))
                              (d_griggioRuleQueue s)))).
  { intros y. rewrite A7. tauto. }
  destruct (1 <? c)%Z; injection H as _ <-; simpl; split_and; auto.
Qed.

Lemma finishCheck_Ok n s n' s' :
  finishCheck n s = Ok (n', s') ->
  n' = n /\
  s' = set_possiblyInconsistent
         (set_griggioRuleQueue (set_pivotStage s true) []) [].
Proof.
  unfold finishCheck. intros H.
  destruct (Assert _); simpl in H; [ | discriminate ].
  destruct (Assert _); simpl in H; [ | discriminate ].
  injection H as <- <-. auto.
Qed.

(** How [updateInconsistentVars] ends: at once on an empty queue, or
    through [finishCheck] on the state reached by [selectInitialConflict]
    and, if that found nothing, [privateUpdateInconsistentVars]. *)
Lemma updateInconsistentVars_cases fuel s n s' :
  updateInconsistentVars fuel s = Some (Ok (n, s')) ->
  (d_griggioRuleQueue s = [] /\ n = NullNode /\ s' = s) \/
  (d_griggioRuleQueue s <> [] /\
   let s1 := set_pivotsSinceConflict (set_foundAConflict s false) 0 in
   exists m s2,
     (if (1 <? length (d_griggioRuleQueue s1))%nat
      then selectInitialConflict s1 else Ok (NullNode, s1)) = Ok (m, s2) /\
     ((isNull m = false /\ finishCheck m s2 = Ok (n, s')) \/
      (isNull m = true /\
       exists s3 m3,
         privateUpdateInconsistentVars fuel s2 = Some (Ok (m3, s3)) /\
         finishCheck m3 s3 = Ok (n, s')))).
Proof.
  intros H. unfold updateInconsistentVars in H.
  destruct (d_griggioRuleQueue s) as [|top rest] eqn:Eq.
  - left. simpl in H. injection H as <- <-. auto.
  - right. split; [ discriminate | ]. rewrite <- Eq in H.
    assert (Hne : queueEmpty (d_griggioRuleQueue s) = false)
      by (rewrite Eq; reflexivity).
    rewrite Hne in H. cbv zeta in *.
    match type of H with
    | match ?c with _ => _ end = _ => destruct c as [[m s2]|] eqn:E2
    end; [ | discriminate ].
    exists m, s2. split; [ reflexivity | ].
    destruct (isNull m) eqn:Em.
    + right. split; [ reflexivity | ].
      destruct (privateUpdateInconsistentVars fuel s2) as [[[m3 s3]|]|] eqn:E3;
        try discriminate.
      injection H as H. eauto.
    + left. injection H as H. auto.
Qed.

Lemma updateInconsistentVars_frame fuel s n s' :
  updateInconsistentVars fuel s = Some (Ok (n, s')) -> checkFrame s s'.
Proof.
  intros H. apply updateInconsistentVars_cases in H.
  destruct H as [(_ & _ & ->) | (_ & H)]; [ apply checkFrame_refl | ].
  cbv zeta in H. destruct H as (m & s2 & E2 & H).
  assert (F2 : checkFrame s s2).
  { destruct (1 <? length _)%nat.
    - apply selectInitialConflict_keeps in E2.
      destruct E2 as (A1 & _ & _ & A4 & A5 & _). now apply checkFrame_same.
    - injection E2 as _ <-. now apply checkFrame_same. }
  destruct H as [(_ & Hf) | (_ & s3 & m3 & E3 & Hf)];
    apply finishCheck_Ok in Hf; destruct Hf as [_ ->].
  - eapply checkFrame_trans; [ exact F2 | ]. now apply checkFrame_same.
  - apply privateUpdateInconsistentVars_frame in E3.
    eapply checkFrame_trans; [ exact F2 | ].
    eapply checkFrame_trans; [ exact E3 | ]. now apply checkFrame_same.
Qed.

(** ** The invariant of the assignment *)

(** [coreInv s]: the tableau is sound, stored bounds are in order, and
    every non-basic variable is within its bounds. *)
Definition coreInv (s : Simplex) : Prop :=
  tableauSound s /\
  allBoundsOrdered (d_partialModel s) /\
  nonbasicWithinBounds s.

Lemma allBoundsOrdered_frame s s' :
  checkFrame s s' ->
  allBoundsOrdered (d_partialModel s) -> allBoundsOrdered (d_partialModel s').
Proof.
  intros (L & U & _) H x l u. rewrite L, U. apply H.
Qed.

Lemma nonbasicWithinBounds_same s s' :
  d_partialModel s' = d_partialModel s -> d_tableau s' = d_tableau s ->
  nonbasicWithinBounds s -> nonbasicWithinBounds s'.
Proof.
  intros M T H x. unfold isBasic. rewrite M, T. apply H.
Qed.

Lemma coreInv_same s s' :
  d_partialModel s' = d_partialModel s -> d_tableau s' = d_tableau s ->
  coreInv s -> coreInv s'.
Proof.
  intros M T (H1 & H2 & H3). unfold coreInv. split_and.
  - apply (@tableauSound_ext s s'); [ exact T | now rewrite M | exact H1 ].
  - rewrite M. exact H2.
  - now apply (@nonbasicWithinBounds_same s s').
Qed.

(** The bound that a pass moves [x_i] to is within the bounds of [x_i]. *)
Lemma violates_within above s x v :
  boundsOrdered (d_partialModel s) x ->
  violates above s x v ->
  (forall l, d_lowerBound (d_partialModel s) x = Some l -> (l <= v)%DR) /\
  (forall u, d_upperBound (d_partialModel s) x = Some u -> (v <= u)%DR).
Proof.
  intros Hord Hv. destruct above; destruct Hv as [E _]; split.
  - intros l El. now apply Hord.
  - intros u Eu. assert (u = v) by congruence. subst. apply DRatFacts.le_refl.
  - intros l El. assert (l = v) by congruence. subst. apply DRatFacts.le_refl.
  - intros u Eu. now apply Hord.
Qed.

Lemma privateUpdate_body_core s e s1 :
  coreInv s -> privateUpdate_body s = Ok (e, s1) -> coreInv s1.
Proof.
  intros Hc H.
  destruct (selectSmallestInconsistentVar_frame s) as (M & T & _).
  assert (H0 : coreInv (snd (selectSmallestInconsistentVar s))).
  { now apply (@coreInv_same s). }
  apply privateUpdate_body_cases in H. cbv zeta in H.
  destruct H as [(_ & _ & ->) | [(_ & above & v & n' & _ & _ & _ & _ & ->)
                                | (_ & above & x_j & v & c & Hv & _ & _ & Hp & _)]].
  - exact H0.
  - eapply coreInv_same; [ | | exact H0 ]; reflexivity.
  - destruct H0 as (H1 & H2 & H3).
    destruct (@violates_within above _ _ v (H2 _) Hv) as [Hl Hu].
    unfold coreInv. split_and.
    + eapply pivotAndUpdate_sound; [ exact H1 | exact Hp ].
    + pose proof Hp as Hp'. apply pivotAndUpdate_Ok in Hp'.
      destruct Hp' as (row_i & T' & _ & _ & _ & _ & _ & _ & L & U & _).
      intros x l u. rewrite L, U. apply H2.
    + eapply pivotAndUpdate_nonbasic; eauto.
Qed.

Lemma privateUpdate_loop_core fuel : forall iter s e s',
  coreInv s ->
  privateUpdate_loop fuel iter s = Some (Ok (e, s')) -> coreInv s'.
Proof.
  induction fuel as [|fuel IH]; intros iter s e s' Hs H; [ discriminate | ].
  cbn [privateUpdate_loop] in H.
  destruct (negb (d_pivotStage s) || (iter <=? d_numVariables s)).
  - destruct (privateUpdate_body s) as [[[n|] s1]|] eqn:Eb; [ | | discriminate ].
    + injection H as _ <-. eapply privateUpdate_body_core; [ exact Hs | exact Eb ].
    + eapply IH; [ | exact H ].
      eapply privateUpdate_body_core; [ exact Hs | exact Eb ].
  - injection H as _ <-. exact Hs.
Qed.

Lemma privateUpdateInconsistentVars_core fuel : forall s n s',
  coreInv s ->
  privateUpdateInconsistentVars fuel s = Some (Ok (n, s')) -> coreInv s'.
Proof.
  induction fuel as [|fuel IH]; intros s n s' Hs H; [ discriminate | ].
  cbn [privateUpdateInconsistentVars] in H.
  destruct (negb (d_pivotStage s || queueEmpty (d_griggioRuleQueue s)));
    [ discriminate | ].
  destruct (privateUpdate_loop fuel 0 s) as [[[[m|it] s1]|]|] eqn:El;
    try discriminate.
  - injection H as _ <-. eapply privateUpdate_loop_core; [ exact Hs | exact El ].
  - destruct (d_pivotStage s1 && (d_numVariables s1 <=? it)); [ | discriminate ].
    eapply IH; [ | exact H ].
    apply (@coreInv_same s1); [ reflexivity | reflexivity | ].
    eapply privateUpdate_loop_core; [ exact Hs | exact El ].
Qed.

Lemma updateInconsistentVars_core fuel s n s' :
  coreInv s ->
  updateInconsistentVars fuel s = Some (Ok (n, s')) -> coreInv s'.
Proof.
  intros Hs H. apply updateInconsistentVars_cases in H.
  destruct H as [(_ & _ & ->) | (_ & H)]; [ exact Hs | ].
  cbv zeta in H. destruct H as (m & s2 & E2 & H).
  assert (H2 : coreInv s2).
  { destruct (1 <? length _)%nat.
    - apply selectInitialConflict_keeps in E2.
      destruct E2 as (A1 & A2 & _).
      apply (@coreInv_same s); auto.
    - injection E2 as _ <-. apply (@coreInv_same s); auto. }
  destruct H as [(_ & Hf) | (_ & s3 & m3 & E3 & Hf)];
    apply finishCheck_Ok in Hf; destruct Hf as [_ ->].
  - apply (@coreInv_same s2); auto.
  - apply (@coreInv_same s3); auto.
    eapply privateUpdateInconsistentVars_core; [ exact H2 | exact E3 ].
Qed.

(** ** The three assertions keep the invariant *)

(** [boundsInstalled x s s1]: [s1] is [s] with new bounds for [x]; the
    tableau, the assignment, the queues and the bounds of the other
    variables are those of [s]. *)
Definition boundsInstalled (x : ArithVar) (s s1 : Simplex) : Prop :=
  d_tableau s1 = d_tableau s /\
  d_pivotStage s1 = d_pivotStage s /\
  d_griggioRuleQueue s1 = d_griggioRuleQueue s /\
  d_possiblyInconsistent s1 = d_possiblyInconsistent s /\
  d_assignment (d_partialModel s1) = d_assignment (d_partialModel s) /\
  (forall y, y <> x ->
     d_lowerBound (d_partialModel s1) y = d_lowerBound (d_partialModel s) y /\
     d_upperBound (d_partialModel s1) y = d_upperBound (d_partialModel s) y).

(** The end of an assertion: [update] the non-basic [x] when [cond]
    holds, [checkBasicVariable] the basic [x]. *)
Definition assertTail (cond : bool) (x : ArithVar) (c : DRat) (s : Simplex)
  : Result Simplex :=
  if negb (isBasic s x) then if cond then update x c s else Ok s
  else checkBasicVariable x s.

Lemma assertTail_core cond x c s s1 s' :
  coreInv s ->
  boundsInstalled x s s1 ->
  boundsOrdered (d_partialModel s1) x ->
  (isBasic s x = false -> cond = true ->
   (forall l, d_lowerBound (d_partialModel s1) x = Some l -> (l <= c)%DR) /\
   (forall u, d_upperBound (d_partialModel s1) x = Some u -> (c <= u)%DR)) ->
  (isBasic s x = false -> cond = false ->
   assignmentIsConsistent (d_partialModel s1) x = true) ->
  assertTail cond x c s1 = Ok s' ->
  coreInv s'.
Proof.
  intros (Hs & Ho & Hn) (BT & BP & BG & BB & BA & Bo) Hx Ht Hf H.
  assert (Hs1 : tableauSound s1).
  { apply (@tableauSound_ext s s1); auto. }
  assert (Ho1 : allBoundsOrdered (d_partialModel s1)).
  { intros y. destruct (N.eq_dec y x) as [-> | Hne]; [ exact Hx | ].
    intros l u. destruct (Bo y Hne) as [-> ->]. apply Ho. }
  assert (Hn1 : forall y, y <> x -> isBasic s1 y = false ->
                  assignmentIsConsistent (d_partialModel s1) y = true).
  { intros y Hne Hy. unfold isBasic in Hy. rewrite BT in Hy.
    rewrite <- (Hn y Hy). destruct (Bo y Hne) as [L U].
    apply assignmentIsConsistent_ext; auto. now rewrite BA. }
  assert (Eb : isBasic s1 x = isBasic s x) by (unfold isBasic; now rewrite BT).
  unfold assertTail in H. rewrite Eb in H.
  destruct (isBasic s x) eqn:Hb; simpl in H.
  - apply checkBasicVariable_queue in H. destruct H as (M & T & _).
    apply (@coreInv_same s1); auto. unfold coreInv. split_and; auto.
    intros y Hy. apply Hn1; [ | exact Hy ]. intros ->. congruence.
  - destruct cond.
    + destruct (Ht eq_refl eq_refl) as [Hl Hu].
      unfold coreInv. split_and.
      * eapply update_sound; [ exact Hs1 | exact H ].
      * destruct (update_bounds _ _ _ H) as [L U].
        intros y l u. rewrite L, U. apply Ho1.
      * eapply update_nonbasic; eauto.
    + injection H as <-. unfold coreInv. split_and; auto.
      intros y Hy. destruct (N.eq_dec y x) as [-> | Hne]; auto.
Qed.

Lemma assertTail_queue cond x c s s1 s' :
  queueComplete s ->
  boundsInstalled x s s1 ->
  assertTail cond x c s1 = Ok s' ->
  queueComplete s' /\ d_tableau s' = d_tableau s /\
  d_pivotStage s' = d_pivotStage s.
Proof.
  intros Hq (BT & BP & BG & BB & BA & Bo) H.
  assert (Hc1 : forall y, y <> x -> covers s1 y).
  { intros y Hne Hl. unfold activeQueue. rewrite BP, BG, BB. apply (Hq y).
    unfold live, isBasic in *. rewrite BT in Hl. rewrite <- Hl.
    f_equal. f_equal. destruct (Bo y Hne) as [L U].
    symmetry. apply assignmentIsConsistent_ext; auto. now rewrite BA. }
  unfold assertTail in H.
  destruct (isBasic s1 x) eqn:Hb; simpl in H.
  - apply checkBasicVariable_queue in H.
    destruct H as (M & T & P & Q & X).
    split_and; [ | congruence | congruence ].
    intros y Hl. unfold live, isBasic in Hl. rewrite M, T in Hl.
    apply andb_true_iff in Hl. destruct Hl as [Hyb Hyc].
    apply negb_true_iff in Hyc.
    destruct (N.eq_dec y x) as [-> | Hne]; [ now apply X | ].
    apply Q. apply (Hc1 y Hne). unfold live, isBasic.
    now rewrite Hyb, Hyc.
  - assert (Hq1 : queueComplete s1).
    { intros y. destruct (N.eq_dec y x) as [-> | Hne]; [ | now apply Hc1 ].
      intros Hl. unfold live in Hl. rewrite Hb in Hl. discriminate. }
    destruct cond.
    + split_and.
      * intros y. eapply update_covers; [ exact H | apply Hq1 ].
      * apply update_Ok in H. destruct H as (_ & -> & _). exact BT.
      * destruct (update_total x c s1 Hb) as (s2 & E2 & _ & _ & P & _).
        rewrite E2 in H. injection H as <-. congruence.
    + injection H as <-. auto.
Qed.

Lemma not_lt_le (a b : DRat) :
  DeltaRational.gtb a b = false -> (a <= b)%DR.
Proof.
  intros H. apply DRatFacts.le_not_lt. intros Hlt.
  apply DRatFacts.gtb_lt in Hlt. congruence.
Qed.

Lemma not_ltb_le (a b : DRat) :
  DeltaRational.ltb a b = false -> (b <= a)%DR.
Proof.
  intros H. apply DRatFacts.le_not_lt. intros Hlt.
  apply DRatFacts.ltb_lt in Hlt. congruence.
Qed.

Lemma aboveUpperBound_false m x c u :
  aboveUpperBound m x c true = false ->
  d_upperBound m x = Some u -> (c <= u)%DR.
Proof.
  unfold aboveUpperBound. intros H E. rewrite E in H. now apply not_lt_le.
Qed.

Lemma belowLowerBound_false m x c l :
  belowLowerBound m x c true = false ->
  d_lowerBound m x = Some l -> (l <= c)%DR.
Proof.
  unfold belowLowerBound. intros H E. rewrite E in H. now apply not_ltb_le.
Qed.

Lemma assertTail_keeps cond x c s1 s' :
  assertTail cond x c s1 = Ok s' ->
  d_tableau s' = d_tableau s1 /\ d_pivotStage s' = d_pivotStage s1.
Proof.
  unfold assertTail. intros H.
  destruct (isBasic s1 x) eqn:Hb; simpl in H.
  - apply checkBasicVariable_queue in H. tauto.
  - destruct cond.
    + destruct (update_total x c s1 Hb) as (s2 & E2 & T & _ & P & _).
      rewrite E2 in H. injection H as <-. auto.
    + injection H as <-. auto.
Qed.

Lemma AssertLower_inv x c t s b s' :
  AssertLower x c t s = Ok (b, s') ->
  (coreInv s -> coreInv s') /\
  (queueComplete s -> queueComplete s') /\
  d_tableau s' = d_tableau s /\
  d_pivotStage s' = d_pivotStage s.
Proof.
  intros H. unfold AssertLower in H.
  destruct (belowLowerBound _ x c false); [ injection H as _ <-; auto | ].
  destruct (aboveUpperBound _ x c true) eqn:Hup.
  { injection H as _ <-. split_and; auto. }
  cbv zeta in H.
  match type of H with
  | context [ isBasic ?s0 x ] => set (s1 := s0) in H
  end.
  match type of H with
  | bind ?l _ = _ =>
      change l with
        (assertTail
           (DeltaRational.ltb (getAssignment (d_partialModel s1) x) c) x c s1)
        in H
  end.
  destruct (assertTail _ x c s1) as [s2|] eqn:E; simpl in H; [ | discriminate ].
  injection H as _ <-.
  assert (HB : boundsInstalled x s s1).
  { unfold boundsInstalled, s1. simpl. split_and; try reflexivity.
    intros y Hne. now rewrite upd_other. }
  assert (L1 : d_lowerBound (d_partialModel s1) x = Some c)
    by (unfold s1; simpl; apply upd_same).
  assert (U1 : d_upperBound (d_partialModel s1) x = d_upperBound (d_partialModel s) x)
    by reflexivity.
  split_and.
  - intros Hc. eapply assertTail_core; [ exact Hc | exact HB | | | | exact E ].
    + intros l u El Eu. rewrite L1 in El. injection El as <-.
      rewrite U1 in Eu. eapply aboveUpperBound_false; eauto.
    + intros _ _. split.
      * intros l El. rewrite L1 in El. injection El as <-. apply DRatFacts.le_refl.
      * intros u Eu. rewrite U1 in Eu. eapply aboveUpperBound_false; eauto.
    + intros Hnb Hcond. apply withinBounds_consistent. split.
      * intros l El. rewrite L1 in El. injection El as <-.
        now apply not_ltb_le.
      * intros u Eu. rewrite U1 in Eu.
        destruct Hc as (_ & _ & Hn).
        apply (proj1 (assignmentIsConsistent_iff _ _) (Hn x Hnb)). exact Eu.
  - intros Hq. eapply assertTail_queue; eauto.
  - apply assertTail_keeps in E. destruct E as [-> _]. apply HB.
  - apply assertTail_keeps in E. destruct E as [_ ->]. apply HB.
Qed.

Lemma AssertUpper_inv x c t s b s' :
  AssertUpper x c t s = Ok (b, s') ->
  (coreInv s -> coreInv s') /\
  (queueComplete s -> queueComplete s') /\
  d_tableau s' = d_tableau s /\
  d_pivotStage s' = d_pivotStage s.
Proof.
  intros H. unfold AssertUpper in H.
  destruct (aboveUpperBound _ x c false); [ injection H as _ <-; auto | ].
  destruct (belowLowerBound _ x c true) eqn:Hlow.
  { injection H as _ <-. split_and; auto. }
  cbv zeta in H.
  match type of H with
  | context [ isBasic ?s0 x ] => set (s1 := s0) in H
  end.
  match type of H with
  | bind ?l _ = _ =>
      change l with
        (assertTail
           (DeltaRational.gtb (getAssignment (d_partialModel s1) x) c) x c s1)
        in H
  end.
  destruct (assertTail _ x c s1) as [s2|] eqn:E; simpl in H; [ | discriminate ].
  injection H as _ <-.
  assert (HB : boundsInstalled x s s1).
  { unfold boundsInstalled, s1. simpl. split_and; try reflexivity.
    intros y Hne. now rewrite upd_other. }
  assert (U1 : d_upperBound (d_partialModel s1) x = Some c)
    by (unfold s1; simpl; apply upd_same).
  assert (L1 : d_lowerBound (d_partialModel s1) x = d_lowerBound (d_partialModel s) x)
    by reflexivity.
  split_and.
  - intros Hc. eapply assertTail_core; [ exact Hc | exact HB | | | | exact E ].
    + intros l u El Eu. rewrite U1 in Eu. injection Eu as <-.
      rewrite L1 in El. eapply belowLowerBound_false; eauto.
    + intros _ _. split.
      * intros l El. rewrite L1 in El. eapply belowLowerBound_false; eauto.
      * intros u Eu. rewrite U1 in Eu. injection Eu as <-. apply DRatFacts.le_refl.
    + intros Hnb Hcond. apply withinBounds_consistent. split.
      * intros l El. rewrite L1 in El.
        destruct Hc as (_ & _ & Hn).
        apply (proj1 (assignmentIsConsistent_iff _ _) (Hn x Hnb)). exact El.
      * intros u Eu. rewrite U1 in Eu. injection Eu as <-.
        now apply not_lt_le.
  - intros Hq. eapply assertTail_queue; eauto.
  - apply assertTail_keeps in E. destruct E as [-> _]. apply HB.
  - apply assertTail_keeps in E. destruct E as [_ ->]. apply HB.
Qed.

Lemma AssertEquality_inv x c t s b s' :
  AssertEquality x c t s = Ok (b, s') ->
  (coreInv s -> coreInv s') /\
  (queueComplete s -> queueComplete s') /\
  d_tableau s' = d_tableau s /\
  d_pivotStage s' = d_pivotStage s.
Proof.
  intros H. unfold AssertEquality in H.
  destruct (belowLowerBound _ x c false && aboveUpperBound _ x c false);
    [ injection H as _ <-; auto | ].
  destruct (aboveUpperBound _ x c true).
  { injection H as _ <-. split_and; auto. }
  destruct (belowLowerBound _ x c true).
  { injection H as _ <-. split_and; auto. }
  cbv zeta in H.
  match type of H with
  | context [ isBasic ?s0 x ] => set (s1 := s0) in H
  end.
  match type of H with
  | bind ?l _ = _ =>
      change l with
        (assertTail
           (negb (DeltaRational.eqb (getAssignment (d_partialModel s1) x) c))
           x c s1)
        in H
  end.
  destruct (assertTail _ x c s1) as [s2|] eqn:E; simpl in H; [ | discriminate ].
  injection H as _ <-.
  assert (HB : boundsInstalled x s s1).
  { unfold boundsInstalled, s1. simpl. split_and; try reflexivity.
    intros y Hne. now rewrite !upd_other. }
  assert (U1 : d_upperBound (d_partialModel s1) x = Some c)
    by (unfold s1; simpl; apply upd_same).
  assert (L1 : d_lowerBound (d_partialModel s1) x = Some c)
    by (unfold s1; simpl; apply upd_same).
  split_and.
  - intros Hc. eapply assertTail_core; [ exact Hc | exact HB | | | | exact E ].
    + intros l u El Eu. rewrite U1 in Eu. injection Eu as <-.
      rewrite L1 in El. injection El as <-. apply DRatFacts.le_refl.
    + intros _ _. split.
      * intros l El. rewrite L1 in El. injection El as <-. apply DRatFacts.le_refl.
      * intros u Eu. rewrite U1 in Eu. injection Eu as <-. apply DRatFacts.le_refl.
    + intros Hnb Hcond. apply negb_false_iff, DRatFacts.eqb_eq in Hcond.
      apply withinBounds_consistent. split.
      * intros l El. rewrite L1 in El. injection El as <-.
        unfold getAssignment in Hcond. rewrite Hcond. apply DRatFacts.le_refl.
      * intros u Eu. rewrite U1 in Eu. injection Eu as <-.
        unfold getAssignment in Hcond. rewrite Hcond. apply DRatFacts.le_refl.
  - intros Hq. eapply assertTail_queue; eauto.
  - apply assertTail_keeps in E. destruct E as [-> _]. apply HB.
  - apply assertTail_keeps in E. destruct E as [_ ->]. apply HB.
Qed.

(** ** The invariant of the queues *)

(** [engineInv s]: the invariant of the assignment holds, every basic
    variable that breaks a bound waits in the active queue, and the
    sentinel is not a basic variable. *)
Definition engineInv (s : Simplex) : Prop :=
  coreInv s /\ queueComplete s /\ isBasic s ARITHVAR_SENTINEL = false.

Lemma selectSmallestInconsistentVar_queue s :
  queueComplete s -> queueComplete (snd (selectSmallestInconsistentVar s)).
Proof.
  intros Hq y Hl. specialize (Hq y).
  unfold selectSmallestInconsistentVar in *. unfold covers, activeQueue in Hq.
  destruct (d_pivotStage s) eqn:Hp.
  - rewrite selectSmallest_griggio_scan in *.
    destruct (scanQueue_split fst s (d_griggioRuleQueue s)) as (popped & E & HF).
    destruct (scanQueue fst s (d_griggioRuleQueue s)) as [v q']. simpl in *.
    unfold activeQueue. simpl. rewrite Hp.
    specialize (Hq Hl). rewrite E, map_app in Hq.
    apply in_app_or in Hq. destruct Hq as [Hq | Hq]; [ | exact Hq ].
    apply in_map_iff in Hq. destruct Hq as (e & <- & He).
    rewrite Forall_forall in HF. specialize (HF e He).
    unfold live, isBasic in *. simpl in Hl. congruence.
  - rewrite selectSmallest_bland_scan in *.
    destruct (scanQueue_split (fun x => x) s (d_possiblyInconsistent s))
      as (popped & E & HF).
    destruct (scanQueue (fun x => x) s (d_possiblyInconsistent s)) as [v q'].
    simpl in *. unfold activeQueue. simpl. rewrite Hp.
    specialize (Hq Hl). rewrite E in Hq.
    apply in_app_or in Hq. destruct Hq as [Hq | Hq]; [ | exact Hq ].
    rewrite Forall_forall in HF. specialize (HF y Hq).
    unfold live, isBasic in *. simpl in Hl. congruence.
Qed.

(** When the scan of a complete queue finds nothing, every basic variable
    is within its bounds. *)
Lemma selectSmallestInconsistentVar_none s :
  queueComplete s -> isBasic s ARITHVAR_SENTINEL = false ->
  fst (selectSmallestInconsistentVar s) = ARITHVAR_SENTINEL ->
  satisfied s.
Proof.
  intros Hq Hs H x Hx.
  destruct (assignmentIsConsistent (d_partialModel s) x) eqn:Hc; [ reflexivity | ].
  exfalso.
  assert (Hl : live s x = true) by (unfold live; now rewrite Hx, Hc).
  assert (Hsl : live s ARITHVAR_SENTINEL = false)
    by (unfold live; now rewrite Hs).
  specialize (Hq x Hl). unfold activeQueue in Hq.
  unfold selectSmallestInconsistentVar in H.
  destruct (d_pivotStage s).
  - rewrite selectSmallest_griggio_scan in H.
    destruct (scanQueue fst s (d_griggioRuleQueue s)) as [v q'] eqn:Es.
    simpl in H. subst v.
    assert (E : fst (scanQueue fst s (d_griggioRuleQueue s)) = ARITHVAR_SENTINEL)
      by now rewrite Es.
    apply (@scanQueue_sentinel _ fst s (d_griggioRuleQueue s) Hsl) in E.
    apply in_map_iff in Hq. destruct Hq as (e & <- & He).
    rewrite Forall_forall in E. specialize (E e He). congruence.
  - rewrite selectSmallest_bland_scan in H.
    destruct (scanQueue (fun x => x) s (d_possiblyInconsistent s)) as [v q'] eqn:Es.
    simpl in H. subst v.
    assert (E : fst (scanQueue (fun x => x) s (d_possiblyInconsistent s))
                = ARITHVAR_SENTINEL) by now rewrite Es.
    apply (@scanQueue_sentinel _ (fun x => x) s (d_possiblyInconsistent s) Hsl) in E.
    rewrite Forall_forall in E. specialize (E x Hq). simpl in E. congruence.
Qed.

Lemma engineInv_same s s' :
  d_partialModel s' = d_partialModel s -> d_tableau s' = d_tableau s ->
  activeQueue s' = activeQueue s ->
  engineInv s -> engineInv s'.
Proof.
  intros M T Q (Hc & Hq & Hs). unfold engineInv. split_and.
  - now apply (@coreInv_same s).
  - intros y Hl. rewrite Q. apply (Hq y).
    unfold live, isBasic in *. now rewrite <- M, <- T.
  - unfold isBasic in *. now rewrite T.
Qed.

Lemma privateUpdate_body_engine s e s1 :
  engineInv s -> privateUpdate_body s = Ok (e, s1) -> engineInv s1.
Proof.
  intros (Hc & Hq & Hs) H.
  assert (Hc1 : coreInv s1) by (eapply privateUpdate_body_core; eauto).
  destruct (selectSmallestInconsistentVar_frame s) as (M & T & _).
  pose proof (selectSmallestInconsistentVar_queue Hq) as Hq0.
  assert (Hc0 : coreInv (snd (selectSmallestInconsistentVar s)))
    by now apply (@coreInv_same s).
  assert (Hs0 : isBasic (snd (selectSmallestInconsistentVar s))
                  ARITHVAR_SENTINEL = false)
    by (unfold isBasic in *; now rewrite T).
  apply privateUpdate_body_cases in H. cbv zeta in H.
  destruct H as [(_ & _ & ->) | [(_ & above & v & n' & _ & _ & _ & _ & ->)
                                | (_ & above & x_j & v & c & _ & _ & Hj & Hp & _)]].
  - unfold engineInv. auto.
  - unfold engineInv. split_and; auto.
  - unfold engineInv. split_and; [ exact Hc1 | | ].
    + eapply pivotAndUpdate_queueComplete; [ | exact Hp | exact Hq0 ].
      apply Hc0.
    + apply pivotAndUpdate_Ok in Hp.
      destruct Hp as (row_i & T' & _ & Hrow & _ & Hpivot & HT & _).
      apply pivot_Ok in Hpivot.
      destruct Hpivot as (row_i' & _ & _ & Hrow' & _ & _ & ET').
      assert (row_i' = row_i) by congruence. subst row_i'.
      unfold isBasic. rewrite HT, ET'.
      apply (@pivot_isBasic_false _ _ x_j _ Hrow).
      * intros E. apply Hj. now symmetry.
      * left. exact Hs0.
Qed.

Lemma privateUpdate_loop_engine fuel : forall iter s e s',
  engineInv s ->
  privateUpdate_loop fuel iter s = Some (Ok (e, s')) ->
  engineInv s' /\
  (forall n, e = Returned n -> isNull n = true -> satisfied s').
Proof.
  induction fuel as [|fuel IH]; intros iter s e s' Hs H; [ discriminate | ].
  cbn [privateUpdate_loop] in H.
  destruct (negb (d_pivotStage s) || (iter <=? d_numVariables s)).
  - destruct (privateUpdate_body s) as [[[n|] s1]|] eqn:Eb; [ | | discriminate ].
    + injection H as <- <-. split.
      * eapply privateUpdate_body_engine; [ exact Hs | exact Eb ].
      * intros n' E Hn. injection E as <-.
        destruct (privateUpdate_body_null _ Eb Hn) as [Hsent ->].
        destruct Hs as (_ & Hq & Hsb).
        destruct (selectSmallestInconsistentVar_frame s) as (M & T & _).
        pose proof (selectSmallestInconsistentVar_none Hq Hsb Hsent) as Hsat.
        intros x Hx. unfold isBasic in Hx. rewrite T in Hx. rewrite M.
        now apply Hsat.
    + eapply IH; [ | exact H ].
      eapply privateUpdate_body_engine; [ exact Hs | exact Eb ].
  - injection H as <- <-. split; [ exact Hs | discriminate ].
Qed.

Lemma enterBlandStage_engine s :
  d_pivotStage s = true -> engineInv s -> engineInv (enterBlandStage s).
Proof.
  intros Hp (Hc & Hq & Hs). unfold engineInv. split_and.
  - apply (@coreInv_same s); auto.
  - intros y Hl. unfold activeQueue, enterBlandStage. simpl.
    apply migrateQueue_In. right.
    assert (Hl' : live s y = true) by exact Hl.
    split.
    + unfold live in Hl'. apply andb_true_iff in Hl'. apply Hl'.
    + specialize (Hq y Hl'). unfold activeQueue in Hq. now rewrite Hp in Hq.
  - exact Hs.
Qed.

Lemma privateUpdateInconsistentVars_engine fuel : forall s n s',
  engineInv s ->
  privateUpdateInconsistentVars fuel s = Some (Ok (n, s')) ->
  engineInv s' /\ (isNull n = true -> satisfied s').
Proof.
  induction fuel as [|fuel IH]; intros s n s' Hs H; [ discriminate | ].
  cbn [privateUpdateInconsistentVars] in H.
  destruct (negb (d_pivotStage s || queueEmpty (d_griggioRuleQueue s)));
    [ discriminate | ].
  destruct (privateUpdate_loop fuel 0 s) as [[[[m|it] s1]|]|] eqn:El;
    try discriminate.
  - injection H as <- <-.
    destruct (privateUpdate_loop_engine _ _ Hs El) as [H1 H2].
    split; [ exact H1 | ]. intros Hn. now apply (H2 m).
  - destruct (d_pivotStage s1 && (d_numVariables s1 <=? it)) eqn:Ec;
      [ | discriminate ].
    apply andb_true_iff in Ec. destruct Ec as [Hp1 _].
    destruct (privateUpdate_loop_engine _ _ Hs El) as [H1 _].
    eapply IH; [ | exact H ]. now apply enterBlandStage_engine.
Qed.

(** ** A check that returns null has found a model *)

(** [ready s]: the invariant holds and the engine is in the Griggio
    stage, as it is between two calls. *)
Definition ready (s : Simplex) : Prop :=
  engineInv s /\ d_pivotStage s = true.

Lemma satisfied_same s s' :
  d_partialModel s' = d_partialModel s -> d_tableau s' = d_tableau s ->
  satisfied s -> satisfied s'.
Proof.
  intros M T H x. unfold isBasic. rewrite M, T. apply H.
Qed.

Lemma satisfied_queueComplete s : satisfied s -> queueComplete s.
Proof.
  intros H y Hl. unfold live in Hl. apply andb_true_iff in Hl.
  destruct Hl as [Hb Hc]. rewrite (H y Hb) in Hc. discriminate.
Qed.

Lemma updateInconsistentVars_null fuel s n s' :
  ready s ->
  updateInconsistentVars fuel s = Some (Ok (n, s')) ->
  isNull n = true ->
  satisfied s' /\ ready s'.
Proof.
  intros [He Hp] H Hn. apply updateInconsistentVars_cases in H.
  destruct H as [(Eq & _ & ->) | (_ & H)].
  - split; [ | split; assumption ].
    destruct He as (_ & Hq & _). intros x Hx.
    destruct (assignmentIsConsistent (d_partialModel s) x) eqn:Hc; [ reflexivity | ].
    assert (Hl : live s x = true) by (unfold live; now rewrite Hx, Hc).
    specialize (Hq x Hl). unfold activeQueue in Hq. rewrite Hp, Eq in Hq.
    destruct Hq.
  - cbv zeta in H. destruct H as (m & s2 & E2 & H).
    set (s1 := set_pivotsSinceConflict (set_foundAConflict s false) 0) in *.
    assert (He1 : engineInv s1) by (apply (@engineInv_same s); auto).
    assert (H2 : engineInv s2).
    { destruct (1 <? length _)%nat.
      - apply selectInitialConflict_keeps in E2.
        destruct E2 as (A1 & A2 & A3 & _ & _ & _ & A7).
        destruct He1 as (Hc1 & Hq1 & Hs1). unfold engineInv. split_and.
        + now apply (@coreInv_same s1).
        + intros y Hl.
          assert (Hl1 : live s1 y = true).
          { unfold live, isBasic in *. now rewrite <- A1, <- A2. }
          specialize (Hq1 y Hl1). unfold activeQueue in *.
          rewrite A3. change (d_pivotStage s1) with (d_pivotStage s) in *.
          rewrite Hp in *. apply A7.
          apply in_map_iff in Hq1. destruct Hq1 as (e & <- & He').
          apply in_map_iff. exists e. split; [ reflexivity | ].
          apply filter_In. split; assumption.
        + unfold isBasic in *. now rewrite A2.
      - injection E2 as _ <-. exact He1. }
    destruct H as [(Hm & Hf) | (_ & s3 & m3 & E3 & Hf)];
      apply finishCheck_Ok in Hf; destruct Hf as [-> ->].
    + congruence.
    + destruct (privateUpdateInconsistentVars_engine _ H2 E3) as [(Hc3 & _ & Hs3) Hsat].
      specialize (Hsat Hn).
      assert (Hsat' : satisfied
                (set_possiblyInconsistent
                   (set_griggioRuleQueue (set_pivotStage s3 true) []) []))
        by (apply (@satisfied_same s3); auto).
      split; [ exact Hsat' | ].
      split; [ | reflexivity ].
      unfold engineInv. split_and.
      * apply (@coreInv_same s3); auto.
      * now apply satisfied_queueComplete.
      * exact Hs3.
Qed.

(** X3.  Let the engine be ready: its tableau is sound, stored bounds are
    in order, non-basic variables are within their bounds, every basic
    variable that breaks a bound waits in the Griggio queue, and the
    sentinel is not basic.  If [updateInconsistentVars] then returns the
    null node, the assignment it leaves is a model: every variable is
    within its bounds, every row equation holds, and the bounds are the
    ones asserted before the call.  The engine is ready again. *)
Theorem updateInconsistentVars_null_model (fuel : nat) (s s' : Simplex)
    (n : Node) :
  ready s ->
  updateInconsistentVars fuel s = Some (Ok (n, s')) ->
  isNull n = true ->
  (forall x, withinBounds (d_partialModel s')
               (d_assignment (d_partialModel s')) x) /\
  rowEquations s' /\
  checkFrame s s' /\
  ready s'.
Proof.
  intros Hr H Hn.
  destruct (@updateInconsistentVars_null fuel s n s' Hr H Hn) as [Hsat Hr'].
  split_and.
  - intros x. apply assignmentIsConsistent_iff.
    destruct (isBasic s' x) eqn:Hb.
    + now apply Hsat.
    + destruct Hr' as [((_ & _ & Hnb) & _) _]. now apply Hnb.
  - apply tableauSound_rowEquations. apply Hr'.
  - eapply updateInconsistentVars_frame; exact H.
  - exact Hr'.
Qed.

Lemma freshSimplex_ready T n :
  wfTableau T -> Tableau.isBasic T ARITHVAR_SENTINEL = false ->
  ready (freshSimplex T n).
Proof.
  intros Hwf Hs.
  assert (Hc : forall x, assignmentIsConsistent
                           (d_partialModel (freshSimplex T n)) x = true)
    by reflexivity.
  unfold ready, engineInv, coreInv. split_and.
  - now apply freshSimplex_sound.
  - intros x l u E. discriminate.
  - intros x _. apply Hc.
  - apply satisfied_queueComplete. intros x _. apply Hc.
  - exact Hs.
  - reflexivity.
Qed.

Lemma ready_AssertLower x c t s b s' :
  ready s -> AssertLower x c t s = Ok (b, s') -> ready s'.
Proof.
  intros [(Hc & Hq & Hs) Hp] H. apply AssertLower_inv in H.
  destruct H as (H1 & H2 & T & P).
  unfold ready, engineInv, isBasic in *. rewrite T, P. auto.
Qed.

Lemma ready_AssertUpper x c t s b s' :
  ready s -> AssertUpper x c t s = Ok (b, s') -> ready s'.
Proof.
  intros [(Hc & Hq & Hs) Hp] H. apply AssertUpper_inv in H.
  destruct H as (H1 & H2 & T & P).
  unfold ready, engineInv, isBasic in *. rewrite T, P. auto.
Qed.

Lemma ready_AssertEquality x c t s b s' :
  ready s -> AssertEquality x c t s = Ok (b, s') -> ready s'.
Proof.
  intros [(Hc & Hq & Hs) Hp] H. apply AssertEquality_inv in H.
  destruct H as (H1 & H2 & T & P).
  unfold ready, engineInv, isBasic in *. rewrite T, P. auto.
Qed.

Lemma ready_after_AssertLower x c t s :
  ready s -> ready (after (AssertLower x c t s) s).
Proof.
  intros H. destruct (AssertLower_total x c t s) as (b & s' & E).
  rewrite E. simpl. eapply ready_AssertLower; eauto.
Qed.

Lemma ready_after_AssertUpper x c t s :
  ready s -> ready (after (AssertUpper x c t s) s).
Proof.
  intros H. destruct (AssertUpper_total x c t s) as (b & s' & E).
  rewrite E. simpl. eapply ready_AssertUpper; eauto.
Qed.

Lemma ready_let (a : Simplex) (f : Simplex -> Simplex) :
  ready a -> (forall s0, ready s0 -> ready (f s0)) ->
  ready (let s := a in f s).
Proof. intros Ha Hf. cbv zeta. now apply Hf. Qed.

Ltac ready_step :=
  lazymatch goal with
  | |- ready (let s := ?a in @?f s) =>
      refine (@ready_let a f _ _); [ | intros ? ? ]
  end.

Ltac ready_assert :=
  first [ now apply ready_after_AssertLower
        | now apply ready_after_AssertUpper ].

Lemma budgetAsserted_ready : ready budgetAsserted.
Proof.
  cbv delta [budgetAsserted].
  ready_step.
  - apply freshSimplex_ready.
    + apply wfTableaub_ok. vm_compute. reflexivity.
    + vm_compute. reflexivity.
  - repeat (cbv beta; ready_step; [ ready_assert | ]).
    cbv beta. ready_assert.
Qed.

(** X3 on the ten assertions of [budgetAsserted]: the check pivots six
    times and ends with a model. *)
Lemma updateInconsistentVars_null_model_witness :
  match updateInconsistentVars 20 budgetAsserted with
  | Some (Ok (n, s')) =>
      isNull n = true /\
      (forall x, withinBounds (d_partialModel s')
                   (d_assignment (d_partialModel s')) x) /\
      rowEquations s' /\
      checkFrame budgetAsserted s' /\
      ready s'
  | _ => False
  end.
Proof.
  pose proof budget_check_pivots as Hrun.
  destruct (updateInconsistentVars 20 budgetAsserted) as [[[n s']|]|] eqn:E;
    try contradiction.
  destruct Hrun as [-> _]. split; [ reflexivity | ].
  apply (@updateInconsistentVars_null_model 20 budgetAsserted s' NullNode).
  - exact budgetAsserted_ready.
  - exact E.
  - reflexivity.
Defined.

(** ** A reported conflict is genuine *)

(** [feasible s beta]: the assignment [beta] satisfies every row of the
    tableau and every stored bound. *)
Definition feasible (s : Simplex) (beta : ArithVar -> DRat) : Prop :=
  tableauHolds beta (d_tableau s) /\
  forall y, withinBounds (d_partialModel s) beta y.

(** The tableau has fewer than [2^32 - 1] rows and no row mentions the
    sentinel. *)
Definition tableauInRange (T : Tableau.t) : Prop :=
  N.of_nat (length T) < UINT32_MAX /\
  forall r, In r T -> ~ In ARITHVAR_SENTINEL (keys (ReducedRowVector.entries r)).

Lemma evalRow_le beta1 beta2 es :
  (forall e, In e es ->
     (beta1 (fst e) * snd e <= beta2 (fst e) * snd e)%DR) ->
  (evalRow beta1 es <= evalRow beta2 es)%DR.
Proof.
  induction es as [|e es IH]; intros H.
  - apply DRatFacts.le_refl.
  - cbn [evalRow]. apply drat_add_le_mono.
    + apply H. now left.
    + apply IH. intros e' He'. apply H. now right.
Qed.

Lemma strictlyBelowUpperBound_false m beta' y :
  strictlyBelowUpperBound m y = false ->
  withinBounds m beta' y ->
  (beta' y <= d_assignment m y)%DR.
Proof.
  unfold strictlyBelowUpperBound. intros H [_ Hu].
  destruct (d_upperBound m y) as [u|]; [ | discriminate ].
  apply not_ltb_le in H.
  eapply DRatFacts.le_trans; [ apply (Hu u eq_refl) | exact H ].
Qed.

Lemma strictlyAboveLowerBound_false m beta' y :
  strictlyAboveLowerBound m y = false ->
  withinBounds m beta' y ->
  (d_assignment m y <= beta' y)%DR.
Proof.
  unfold strictlyAboveLowerBound. intros H [Hl _].
  destruct (d_lowerBound m y) as [l|]; [ | discriminate ].
  apply not_lt_le in H.
  eapply DRatFacts.le_trans; [ exact H | apply (Hl l eq_refl) ].
Qed.

Lemma Rat_sign (a : Rational) : a <> 0%Qc -> (a < 0)%Qc \/ (0 < a)%Qc.
Proof.
  intros Ha. destruct (Qc_dec a 0%Qc) as [[H | H] | H]; auto. contradiction.
Qed.

(** Without a slack below, no entry of the row can raise [x_i]. *)
Lemma noSlack_term_below s x_i e beta' :
  slackCandidate false s x_i e = false ->
  fst e <> x_i -> snd e <> 0%Qc ->
  withinBounds (d_partialModel s) beta' (fst e) ->
  (beta' (fst e) * snd e <= d_assignment (d_partialModel s) (fst e) * snd e)%DR.
Proof.
  unfold slackCandidate. intros H Hne Ha Hw.
  apply N.eqb_neq in Hne. rewrite Hne in H. cbn [negb andb] in H. cbv zeta in H.
  apply orb_false_iff in H. destruct H as [H1 H2].
  destruct (Rat_sign Ha) as [Hneg | Hpos].
  - apply cmp_ltb_neg in Hneg. rewrite Hneg in H2. simpl in H2.
    apply cmp_ltb_neg in Hneg. apply drat_mul_le_neg; [ exact Hneg | ].
    now apply strictlyAboveLowerBound_false.
  - apply cmp_ltb_pos in Hpos. rewrite Hpos in H1. simpl in H1.
    apply cmp_ltb_pos in Hpos. apply drat_mul_le_pos; [ exact Hpos | ].
    now apply strictlyBelowUpperBound_false.
Qed.

(** Without a slack above, no entry of the row can lower [x_i]. *)
Lemma noSlack_term_above s x_i e beta' :
  slackCandidate true s x_i e = false ->
  fst e <> x_i -> snd e <> 0%Qc ->
  withinBounds (d_partialModel s) beta' (fst e) ->
  (d_assignment (d_partialModel s) (fst e) * snd e <= beta' (fst e) * snd e)%DR.
Proof.
  unfold slackCandidate. intros H Hne Ha Hw.
  apply N.eqb_neq in Hne. rewrite Hne in H. cbn [negb andb] in H. cbv zeta in H.
  apply orb_false_iff in H. destruct H as [H1 H2].
  destruct (Rat_sign Ha) as [Hneg | Hpos].
  - apply cmp_ltb_neg in Hneg. rewrite Hneg in H1. simpl in H1.
    apply cmp_ltb_neg in Hneg. apply drat_mul_le_neg; [ exact Hneg | ].
    now apply strictlyBelowUpperBound_false.
  - apply cmp_ltb_pos in Hpos. rewrite Hpos in H2. simpl in H2.
    apply cmp_ltb_pos in Hpos. apply drat_mul_le_pos; [ exact Hpos | ].
    now apply strictlyAboveLowerBound_false.
Qed.

Lemma rowHolds_evalRow beta r :
  rowHolds beta r ->
  beta (ReducedRowVector.basic r) =
  evalRow beta (nonbasicEntries (ReducedRowVector.basic r)
                  (ReducedRowVector.entries r)).
Proof.
  unfold rowHolds. rewrite computeRowValue_loop_evalRow, DRatFacts.add_zero_l.
  intros H. now symmetry.
Qed.

Lemma nonbasicEntries_In x e es :
  In e (nonbasicEntries x es) <-> In e es /\ fst e <> x.
Proof.
  unfold nonbasicEntries. rewrite filter_In, negb_true_iff, N.eqb_neq.
  reflexivity.
Qed.

(** A violated row without a slack cannot be satisfied within the
    bounds. *)
Lemma row_infeasible above s x v row beta' :
  tableauSound s ->
  Tableau.lookup (d_tableau s) x = Ok row ->
  violates above s x v ->
  (forall e, In e (ReducedRowVector.entries row) ->
             slackCandidate above s x e = false) ->
  feasible s beta' -> False.
Proof.
  intros [Hwf Hholds] Hrow Hv Hno [Hrows' Hw].
  destruct (lookup_Ok _ _ Hrow) as [Hin Hb].
  destruct (@wfTableau_row _ row Hwf Hin) as (_ & Hnz & _).
  unfold tableauHolds in *. rewrite Forall_forall in Hholds, Hrows'.
  pose proof (rowHolds_evalRow (Hholds row Hin)) as E.
  pose proof (rowHolds_evalRow (Hrows' row Hin)) as E'.
  rewrite Hb in E, E'.
  unfold nonzeroEntries in Hnz. rewrite Forall_forall in Hnz.
  destruct above; destruct Hv as [Eb Hlt].
  - assert (Hle : (d_assignment (d_partialModel s) x <= beta' x)%DR).
    { rewrite E, E'. apply evalRow_le. intros e He.
      apply nonbasicEntries_In in He. destruct He as [He Hne].
      apply noSlack_term_above with (x_i := x); auto. }
    destruct (Hw x) as [_ Hu]. specialize (Hu v Eb).
    apply (@drat_lt_irrefl v).
    eapply drat_lt_le_trans; [ exact Hlt | ].
    eapply DRatFacts.le_trans; eauto.
  - assert (Hle : (beta' x <= d_assignment (d_partialModel s) x)%DR).
    { rewrite E, E'. apply evalRow_le. intros e He.
      apply nonbasicEntries_In in He. destruct He as [He Hne].
      apply noSlack_term_below with (x_i := x); auto. }
    destruct (Hw x) as [Hl _]. specialize (Hl v Eb).
    apply (@drat_lt_irrefl v).
    eapply DRatFacts.le_lt_trans; [ exact Hl | ].
    eapply DRatFacts.le_lt_trans; eauto.
Qed.

(** When [selectSlack] answers with the sentinel, no entry of the row is
    a slack. *)
Lemma selectSlack_none above s x row :
  Tableau.lookup (d_tableau s) x = Ok row ->
  tableauInRange (d_tableau s) ->
  selectSlack above x s = Ok ARITHVAR_SENTINEL ->
  forall e, In e (ReducedRowVector.entries row) ->
            slackCandidate above s x e = false.
Proof.
  intros Hrow [Hsize Hsent] H e He.
  destruct (lookup_Ok _ _ Hrow) as [Hin _].
  unfold selectSlack in H. rewrite Hrow in H. simpl in H. injection H as H.
  apply slackCandidate_false.
  set (es := ReducedRowVector.entries row) in *.
  assert (Hcount : forall e : Entry,
             Tableau.getRowCount (d_tableau s) (fst e) < UINT32_MAX).
  { intros e0. unfold Tableau.getRowCount.
    pose proof (filter_length_le (fun r => ReducedRowVector.has r (fst e0))
                  (d_tableau s)).
    lia. }
  assert (Hkey : forall e0 : Entry, In e0 es -> fst e0 <> ARITHVAR_SENTINEL).
  { intros e0 He0 Heq. apply (Hsent row Hin). unfold keys. fold es.
    rewrite <- Heq. now apply in_map. }
  destruct (d_pivotStage s) eqn:Hp.
  - destruct (@selectSlack_loop_griggio above s x es ARITHVAR_SENTINEL UINT32_MAX Hp)
      as [[H1 H2] | (pre & e0 & post & H1 & H2 & _)].
    + intros Hv. specialize (H2 e He Hv). specialize (Hcount e). lia.
    + exfalso. apply (Hkey e0).
      * rewrite H1. apply in_or_app. right. now left.
      * congruence.
  - destruct (@selectSlack_loop_bland above s x es ARITHVAR_SENTINEL UINT32_MAX Hp)
      as [[H1 H2] | (pre & e0 & post & H1 & H2 & _)].
    + now apply H2.
    + exfalso. apply (Hkey e0).
      * rewrite H1. apply in_or_app. right. now left.
      * congruence.
Qed.

Lemma feasible_same s s' beta :
  d_tableau s' = d_tableau s ->
  d_lowerBound (d_partialModel s') = d_lowerBound (d_partialModel s) ->
  d_upperBound (d_partialModel s') = d_upperBound (d_partialModel s) ->
  feasible s beta -> feasible s' beta.
Proof.
  intros T L U [H1 H2]. unfold feasible, withinBounds in *.
  rewrite T, L, U. auto.
Qed.

(** A non-null answer of [checkBasicForConflict] rules out every feasible
    assignment. *)
Lemma checkBasicForConflict_genuine x s n beta :
  tableauSound s -> tableauInRange (d_tableau s) ->
  checkBasicForConflict x s = Ok n -> isNull n = false ->
  feasible s beta -> False.
Proof.
  intros Hs Hr H Hn Hf. unfold checkBasicForConflict in H.
  destruct (isBasic s x) eqn:Hb; simpl in H; [ | discriminate ].
  destruct (lookup_basic _ _ Hb) as [row Hrow].
  destruct (belowLowerBound (d_partialModel s) x
              (getAssignment (d_partialModel s) x) true) eqn:Hlow.
  - apply belowLowerBound_strict in Hlow. destruct Hlow as (l & El & Hl).
    unfold selectSlackBelow in H.
    destruct (selectSlack false x s) as [x_j|] eqn:Ej; simpl in H;
      [ | discriminate ].
    destruct (x_j =? ARITHVAR_SENTINEL) eqn:Exj.
    + apply N.eqb_eq in Exj. subst x_j.
      apply (@row_infeasible false s x l row beta Hs Hrow); auto.
      * split; assumption.
      * eapply selectSlack_none; eauto.
    + injection H as <-. discriminate.
  - destruct (aboveUpperBound (d_partialModel s) x
                (getAssignment (d_partialModel s) x) true) eqn:Hup.
    + apply aboveUpperBound_strict in Hup. destruct Hup as (u & Eu & Hu).
      unfold selectSlackAbove in H.
      destruct (selectSlack true x s) as [x_j|] eqn:Ej; simpl in H;
        [ | discriminate ].
      destruct (x_j =? ARITHVAR_SENTINEL) eqn:Exj.
      * apply N.eqb_eq in Exj. subst x_j.
        apply (@row_infeasible true s x u row beta Hs Hrow); auto.
        -- split; assumption.
        -- eapply selectSlack_none; eauto.
      * injection H as <-. discriminate.
    + injection H as <-. discriminate.
Qed.

Lemma pivotRow_keys x_i x_j row_i r y :
  In y (keys (ReducedRowVector.entries
                (pivotRow x_i x_j (ReducedRowVector.pivot row_i x_j) r))) ->
  In y (keys (ReducedRowVector.entries r)) \/
  In y (keys (ReducedRowVector.entries row_i)).
Proof.
  unfold pivotRow.
  destruct (ReducedRowVector.basic r =? x_i).
  - unfold ReducedRowVector.pivot. simpl. rewrite keys_scale. auto.
  - destruct (ReducedRowVector.has r x_j); [ | auto ].
    unfold ReducedRowVector.substitute, ReducedRowVector.pivot. simpl.
    intros H. apply keys_addRows in H. rewrite keys_scale in H. exact H.
Qed.

Lemma pivot_inRange T x_i x_j T' :
  Tableau.pivot T x_i x_j = Ok T' ->
  tableauInRange T -> tableauInRange T'.
Proof.
  intros H [Hsize Hsent]. apply pivot_Ok in H.
  destruct H as (row_i & _ & _ & Hrow & _ & _ & ->).
  destruct (lookup_Ok _ _ Hrow) as [Hin _].
  split.
  - now rewrite length_map.
  - intros r Hr Hs. apply in_map_iff in Hr. destruct Hr as (r0 & <- & Hr0).
    apply pivotRow_keys in Hs. destruct Hs as [Hs | Hs].
    + exact (Hsent r0 Hr0 Hs).
    + exact (Hsent row_i Hin Hs).
Qed.

Definition unsatInv (s : Simplex) : Prop :=
  tableauSound s /\ tableauInRange (d_tableau s).

Lemma unsatInv_same s s' :
  d_partialModel s' = d_partialModel s -> d_tableau s' = d_tableau s ->
  unsatInv s -> unsatInv s'.
Proof.
  intros M T [H1 H2]. split.
  - apply (@tableauSound_ext s s'); [ exact T | now rewrite M | exact H1 ].
  - now rewrite T.
Qed.

Lemma selectSlack_row above x s x_j :
  selectSlack above x s = Ok x_j ->
  exists row, Tableau.lookup (d_tableau s) x = Ok row.
Proof.
  unfold selectSlack. destruct (Tableau.lookup (d_tableau s) x) as [row|];
    [ eauto | discriminate ].
Qed.

Lemma privateUpdate_body_conflict s e s1 :
  unsatInv s ->
  privateUpdate_body s = Ok (e, s1) ->
  unsatInv s1 /\
  (forall beta, feasible s beta -> feasible s1 beta) /\
  (forall n, e = Return n -> isNull n = false ->
             forall beta, ~ feasible s1 beta).
Proof.
  intros Hu H.
  destruct (selectSmallestInconsistentVar_frame s) as (M & T & _).
  assert (Hu0 : unsatInv (snd (selectSmallestInconsistentVar s)))
    by now apply (@unsatInv_same s).
  assert (Hf0 : forall beta, feasible s beta ->
                  feasible (snd (selectSmallestInconsistentVar s)) beta).
  { intros beta. apply feasible_same; [ exact T | now rewrite M | now rewrite M ]. }
  apply privateUpdate_body_cases in H. cbv zeta in H.
  destruct H as [(_ & -> & ->) | [(_ & above & v & n' & Hv & Hsl & _ & -> & ->)
                                | (_ & above & x_j & v & c & Hv & _ & _ & Hp & Hc & ->)]].
  - split_and; auto. intros n E Hn. injection E as <-. discriminate.
  - split_and.
    + now apply (@unsatInv_same (snd (selectSmallestInconsistentVar s))).
    + intros beta Hb. apply Hf0 in Hb. revert Hb. now apply feasible_same.
    + intros n _ _ beta Hb.
      destruct (selectSlack_row _ _ _ Hsl) as [row Hrow].
      destruct Hu0 as [Hs0 Hr0].
      apply (@row_infeasible above _ _ v row beta Hs0 Hrow Hv).
      * eapply selectSlack_none; eauto.
      * revert Hb. now apply feasible_same.
  - assert (Hs1 : tableauSound s1).
    { eapply pivotAndUpdate_sound; [ apply Hu0 | exact Hp ]. }
    pose proof Hp as Hp'. apply pivotAndUpdate_Ok in Hp'.
    destruct Hp' as (row_i & T' & _ & Hrow & Hhas & Hpivot & HT & _ & L & U & _).
    assert (Hr1 : tableauInRange (d_tableau s1)).
    { rewrite HT. eapply pivot_inRange; [ exact Hpivot | apply Hu0 ]. }
    assert (Hf1 : forall beta, feasible s beta -> feasible s1 beta).
    { intros beta Hb. apply Hf0 in Hb. destruct Hb as [Hb1 Hb2]. split.
      - rewrite HT. apply pivot_Ok in Hpivot.
        destruct Hpivot as (row_i' & _ & Hnb & Hrow' & _ & _ & ->).
        assert (row_i' = row_i) by congruence. subst row_i'.
        destruct Hu0 as [[Hwf _] _].
        now apply (@pivot_holds _ _ x_j row_i Hwf Hrow Hnb Hhas).
      - intros y. unfold withinBounds. rewrite L, U. apply Hb2. }
    split_and; [ split; assumption | exact Hf1 | ].
    intros n E Hn beta Hb. destruct (isNull c) eqn:Ec; [ discriminate | ].
    injection E as <-.
    exact (@checkBasicForConflict_genuine x_j s1 c beta Hs1 Hr1 Hc Ec Hb).
Qed.

Lemma privateUpdate_loop_conflict fuel : forall iter s e s',
  unsatInv s ->
  privateUpdate_loop fuel iter s = Some (Ok (e, s')) ->
  unsatInv s' /\
  (forall beta, feasible s beta -> feasible s' beta) /\
  (forall n, e = Returned n -> isNull n = false ->
             forall beta, ~ feasible s' beta).
Proof.
  induction fuel as [|fuel IH]; intros iter s e s' Hs H; [ discriminate | ].
  cbn [privateUpdate_loop] in H.
  destruct (negb (d_pivotStage s) || (iter <=? d_numVariables s)).
  - destruct (privateUpdate_body s) as [[[n|] s1]|] eqn:Eb; [ | | discriminate ].
    + injection H as <- <-.
      destruct (privateUpdate_body_conflict Hs Eb) as (H1 & H2 & H3).
      split_and; auto. intros n' E. injection E as <-. now apply H3.
    + destruct (privateUpdate_body_conflict Hs Eb) as (H1 & H2 & _).
      destruct (IH _ _ _ _ H1 H) as (K1 & K2 & K3).
      split_and; auto.
  - injection H as <- <-. split_and; auto. discriminate.
Qed.

Lemma privateUpdateInconsistentVars_conflict fuel : forall s n s',
  unsatInv s ->
  privateUpdateInconsistentVars fuel s = Some (Ok (n, s')) ->
  isNull n = false -> forall beta, ~ feasible s beta.
Proof.
  induction fuel as [|fuel IH]; intros s n s' Hs H Hn beta Hb;
    [ discriminate | ].
  cbn [privateUpdateInconsistentVars] in H.
  destruct (negb (d_pivotStage s || queueEmpty (d_griggioRuleQueue s)));
    [ discriminate | ].
  destruct (privateUpdate_loop fuel 0 s) as [[[[m|it] s1]|]|] eqn:El;
    try discriminate.
  - injection H as <- <-.
    destruct (privateUpdate_loop_conflict _ _ Hs El) as (_ & H2 & H3).
    exact (H3 m eq_refl Hn beta (H2 beta Hb)).
  - destruct (d_pivotStage s1 && (d_numVariables s1 <=? it)); [ | discriminate ].
    destruct (privateUpdate_loop_conflict _ _ Hs El) as (H1 & H2 & _).
    refine (IH (enterBlandStage s1) n s' _ H Hn beta _).
    + apply (@unsatInv_same s1); auto.
    + apply (@feasible_same s1); auto.
Qed.

Lemma betterConflict_either x y :
  betterConflict x y = x \/ betterConflict x y = y.
Proof.
  unfold betterConflict.
  destruct (isNull x); [ now right | ].
  destruct (isNull y); [ now left | ].
  destruct (getNumChildren x <=? getNumChildren y)%nat; auto.
Qed.

(** The clause chosen by [selectInitialConflict] is the initial choice or
    an answer of [checkBasicForConflict] on the same tableau and model. *)
Lemma selectInitialConflict_loop_origin init : forall best changes s0 b c s1,
  selectInitialConflict_loop init best changes s0 = Ok (b, c, s1) ->
  b = best \/
  exists x s2, sameView s2 s0 /\ checkBasicForConflict x s2 = Ok b.
Proof.
  induction init as [|i init IH]; intros best changes s0 b c s1 H.
  - injection H as <- _ _. now left.
  - cbn [selectInitialConflict_loop] in H. cbv zeta in H.
    match type of H with
    | bind (checkBasicForConflict _ ?s') _ = _ => set (s0' := s') in H
    end.
    assert (Hv : sameView s0' s0) by (unfold sameView; simpl; auto).
    destruct (checkBasicForConflict (fst i) s0') as [n|] eqn:En; simpl in H;
      [ | discriminate ].
    destruct (negb (isNull n)).
    + apply IH in H. destruct H as [-> | (x & s2 & Hv2 & E2)].
      * destruct (betterConflict_either best n) as [-> | ->]; [ now left | ].
        right. exists (fst i), s0'. auto.
      * right. exists x, s2. split; [ | exact E2 ].
        eapply sameView_trans; [ exact Hv2 | ].
        eapply sameView_trans; [ | exact Hv ].
        unfold sameView. simpl. auto.
    + apply IH in H. destruct H as [-> | (x & s2 & Hv2 & E2)]; [ now left | ].
      right. exists x, s2. split; [ | exact E2 ].
      eapply sameView_trans; [ exact Hv2 | exact Hv ].
Qed.

Lemma selectInitialConflict_conflict s n s' :
  unsatInv s ->
  selectInitialConflict s = Ok (n, s') ->
  isNull n = false -> forall beta, ~ feasible s beta.
Proof.
  intros [Hs Hr] H Hn beta Hb. unfold selectInitialConflict in H.
  cbv zeta in H.
  match type of H with
  | bind ?l _ = _ => destruct l as [[[b c] s1]|] eqn:E
  end; simpl in H; [ | discriminate ].
  assert (b = n) by (destruct (1 <? c)%Z; injection H as -> _; reflexivity).
  subst b.
  apply selectInitialConflict_loop_origin in E.
  destruct E as [-> | (x & s2 & Hv & E)]; [ discriminate | ].
  assert (Hv' : sameView s2 s).
  { eapply sameView_trans; [ exact Hv | ]. unfold sameView. simpl. auto. }
  rewrite (checkBasicForConflict_view x Hv') in E.
  exact (@checkBasicForConflict_genuine x s n beta Hs Hr E Hn Hb).
Qed.

(** X4.  Let the tableau be sound, with fewer than [2^32 - 1] rows, none
    of which mentions the sentinel.  If [updateInconsistentVars] returns
    a node that is not null, no assignment of delta-rationals satisfies
    both the rows of the tableau and the stored bounds: the conflict is
    genuine. *)
Theorem updateInconsistentVars_conflict_genuine (fuel : nat) (s s' : Simplex)
    (n : Node) :
  tableauSound s ->
  tableauInRange (d_tableau s) ->
  updateInconsistentVars fuel s = Some (Ok (n, s')) ->
  isNull n = false ->
  forall beta, ~ feasible s beta.
Proof.
  intros Hs Hr H Hn beta Hb.
  apply updateInconsistentVars_cases in H.
  destruct H as [(_ & -> & _) | (_ & H)]; [ discriminate | ].
  cbv zeta in H. destruct H as (m & s2 & E2 & H).
  set (s1 := set_pivotsSinceConflict (set_foundAConflict s false) 0) in *.
  assert (Hu1 : unsatInv s1) by (apply (@unsatInv_same s); [ | | split ]; auto).
  assert (Hb1 : feasible s1 beta) by (revert Hb; now apply feasible_same).
  destruct H as [(Hm & Hf) | (Hm & s3 & m3 & E3 & Hf)];
    apply finishCheck_Ok in Hf; destruct Hf as [-> _].
  - destruct (1 <? length _)%nat.
    + exact (@selectInitialConflict_conflict s1 m s2 Hu1 E2 Hm beta Hb1).
    + injection E2 as <- _. discriminate.
  - assert (H2 : unsatInv s2 /\ feasible s2 beta).
    { destruct (1 <? length _)%nat.
      - apply selectInitialConflict_keeps in E2.
        destruct E2 as (A1 & A2 & _). split.
        + now apply (@unsatInv_same s1).
        + revert Hb1. apply feasible_same; [ exact A2 | now rewrite A1 | now rewrite A1 ].
      - injection E2 as _ <-. auto. }
    destruct H2 as [Hu2 Hb2].
    exact (@privateUpdateInconsistentVars_conflict fuel s2 m3 s3 Hu2 E3 Hn beta Hb2).
Qed.

Definition tableauInRangeb (T : Tableau.t) : bool :=
  (N.of_nat (length T) <? UINT32_MAX) &&
  forallb (fun r => negb (existsb (N.eqb ARITHVAR_SENTINEL)
                            (keys (ReducedRowVector.entries r)))) T.

Lemma tableauInRangeb_ok T : tableauInRangeb T = true -> tableauInRange T.
Proof.
  unfold tableauInRangeb, tableauInRange. rewrite andb_true_iff, N.ltb_lt.
  intros [H1 H2]. split; [ exact H1 | ].
  intros r Hr Hin. rewrite forallb_forall in H2. specialize (H2 r Hr).
  apply negb_true_iff in H2.
  assert (E : existsb (N.eqb ARITHVAR_SENTINEL)
                (keys (ReducedRowVector.entries r)) = true).
  { apply existsb_exists. exists ARITHVAR_SENTINEL.
    split; [ exact Hin | apply N.eqb_refl ]. }
  congruence.
Qed.

Lemma sumConflictState_ready : ready sumConflictState.
Proof.
  cbv delta [sumConflictState].
  ready_step.
  - apply freshSimplex_ready.
    + apply wfTableaub_ok. vm_compute. reflexivity.
    + vm_compute. reflexivity.
  - repeat (cbv beta; ready_step; [ ready_assert | ]).
    cbv beta. ready_assert.
Qed.

Example sumConflictState_check :
  match updateInconsistentVars 5 sumConflictState with
  | Some (Ok (n, s')) => n = mkNode AND [atom 12; atom 10; atom 11]
  | _ => False
  end.
Proof. vm_compute. reflexivity. Qed.

(** X4 on [x2 = x0 + x1] with [x0 >= 1], [x1 >= 1] and [x2 <= 1]: the
    check returns a conflict, and indeed no assignment satisfies the row
    and the three bounds. *)
Lemma updateInconsistentVars_conflict_genuine_witness :
  match updateInconsistentVars 5 sumConflictState with
  | Some (Ok (n, s')) =>
      isNull n = false /\ forall beta, ~ feasible sumConflictState beta
  | _ => False
  end.
Proof.
  pose proof sumConflictState_check as Hrun.
  destruct (updateInconsistentVars 5 sumConflictState) as [[[n s']|]|] eqn:E;
    try contradiction.
  subst n. split; [ reflexivity | ].
  apply (@updateInconsistentVars_conflict_genuine 5 sumConflictState s'
           (mkNode AND [atom 12; atom 10; atom 11])).
  - exact (proj1 (proj1 (proj1 sumConflictState_ready))).
  - apply tableauInRangeb_ok. vm_compute. reflexivity.
  - exact E.
  - reflexivity.
Defined.

(** ** The assertions and the queue *)

(** X5.  On a ready engine each of the three assertions, whatever it
    returns, leaves the engine ready: stored bounds are in order, every
    non-basic variable is within its bounds, and every basic variable
    that breaks a bound, the asserted one and those moved by [update]
    among them, waits in the Griggio queue for the next check. *)
Theorem assertions_keep_ready (s : Simplex) :
  ready s ->
  (forall x c t b s', AssertLower x c t s = Ok (b, s') -> ready s') /\
  (forall x c t b s', AssertUpper x c t s = Ok (b, s') -> ready s') /\
  (forall x c t b s', AssertEquality x c t s = Ok (b, s') -> ready s').
Proof.
  intros Hr. split_and; intros x c t b s' H.
  - eapply ready_AssertLower; eauto.
  - eapply ready_AssertUpper; eauto.
  - eapply ready_AssertEquality; eauto.
Qed.

Lemma assertions_keep_ready_witness :
  let s := freshSimplex budgetTableau 5 in
  (forall x c t b s', AssertLower x c t s = Ok (b, s') -> ready s') /\
  (forall x c t b s', AssertUpper x c t s = Ok (b, s') -> ready s') /\
  (forall x c t b s', AssertEquality x c t s = Ok (b, s') -> ready s').
Proof.
  intros s. apply (@assertions_keep_ready s).
  apply freshSimplex_ready.
  - apply wfTableaub_ok. vm_compute. reflexivity.
  - vm_compute. reflexivity.
Defined.

(** After [x3 <= -1] on the fresh engine over [budgetTableau], the basic
    [x3] sits at zero above its bound and is the one entry of the queue. *)
Example AssertUpper_queues_basic :
  match AssertUpper 3 (intBound (-1)) (atom 31) (freshSimplex budgetTableau 5) with
  | Ok (b, s') =>
      b = false /\ map fst (d_griggioRuleQueue s') = [3] /\
      assignmentIsConsistent (d_partialModel s') 3 = false
  | Fatal => False
  end.
Proof. vm_compute. split_and; reflexivity. Qed.

(** ** Runs keep the bounds in order *)

Lemma runCall_core fuel call s s' :
  coreInv s -> runCall fuel call s = Some (Ok s') -> coreInv s'.
Proof.
  intros Hs H. destruct call as [x c t | x c t | x c t | ]; cbn [runCall] in H.
  - destruct (AssertLower x c t s) as [[b s1]|] eqn:E; simpl in H;
      [ | discriminate ].
    injection H as <-. apply AssertLower_inv in E. now apply E.
  - destruct (AssertUpper x c t s) as [[b s1]|] eqn:E; simpl in H;
      [ | discriminate ].
    injection H as <-. apply AssertUpper_inv in E. now apply E.
  - destruct (AssertEquality x c t s) as [[b s1]|] eqn:E; simpl in H;
      [ | discriminate ].
    injection H as <-. apply AssertEquality_inv in E. now apply E.
  - destruct (updateInconsistentVars fuel s) as [[[n s1]|]|] eqn:E; simpl in H;
      try discriminate.
    injection H as <-. eapply updateInconsistentVars_core; [ exact Hs | exact E ].
Qed.

Lemma runCalls_core fuel calls : forall s s',
  coreInv s -> runCalls fuel calls s = Some (Ok s') -> coreInv s'.
Proof.
  induction calls as [|call rest IH]; intros s s' Hs H.
  - injection H as <-. exact Hs.
  - cbn [runCalls] in H.
    destruct (runCall fuel call s) as [[s1|]|] eqn:E; try discriminate.
    eapply IH; [ | exact H ]. eapply runCall_core; [ exact Hs | exact E ].
Qed.

(** X6.  Start from a sound tableau with stored bounds in order and every
    non-basic variable within its bounds.  After any sequence of calls to
    [AssertLower], [AssertUpper], [AssertEquality] and
    [updateInconsistentVars] that returns, whether or not the calls
    reported conflicts, every variable has [l(x) <= u(x)] and every
    non-basic variable has [l(x) <= beta(x) <= u(x)]. *)
Theorem runCalls_keep_bounds (fuel : nat) (calls : list Call) (s s' : Simplex) :
  coreInv s ->
  runCalls fuel calls s = Some (Ok s') ->
  (forall x l u,
     d_lowerBound (d_partialModel s') x = Some l ->
     d_upperBound (d_partialModel s') x = Some u -> (l <= u)%DR) /\
  (forall x, isBasic s' x = false ->
     withinBounds (d_partialModel s') (d_assignment (d_partialModel s')) x).
Proof.
  intros Hs H.
  destruct (@runCalls_core fuel calls s s' Hs H) as (_ & Ho & Hn).
  split.
  - intros x. apply Ho.
  - intros x Hx. apply assignmentIsConsistent_iff. now apply Hn.
Qed.

Lemma runCalls_keep_bounds_witness :
  match runCalls 20 budgetCalls (freshSimplex budgetTableau 5) with
  | Some (Ok s') =>
      (forall x l u,
         d_lowerBound (d_partialModel s') x = Some l ->
         d_upperBound (d_partialModel s') x = Some u -> (l <= u)%DR) /\
      (forall x, isBasic s' x = false ->
         withinBounds (d_partialModel s') (d_assignment (d_partialModel s')) x)
  | _ => False
  end.
Proof.
  pose proof budgetCalls_run as Hrun.
  destruct (runCalls 20 budgetCalls (freshSimplex budgetTableau 5))
    as [[s'|]|] eqn:E; try contradiction.
  apply (@runCalls_keep_bounds 20 budgetCalls (freshSimplex budgetTableau 5) s').
  - refine (proj1 (proj1 (@freshSimplex_ready budgetTableau 5 _ _))).
    + apply wfTableaub_ok. vm_compute. reflexivity.
    + vm_compute. reflexivity.
  - exact E.
Defined.

(** ** Bounds only tighten *)

(** [tightened m m']: every bound stored in [m] is still stored in [m'],
    a lower bound no smaller and an upper bound no larger than before. *)
Definition tightened (m m' : ArithPartialModel.t) : Prop :=
  forall x,
    (forall l, d_lowerBound m x = Some l ->
       exists l', d_lowerBound m' x = Some l' /\ (l <= l')%DR) /\
    (forall u, d_upperBound m x = Some u ->
       exists u', d_upperBound m' x = Some u' /\ (u' <= u)%DR).

Lemma tightened_same m m' :
  d_lowerBound m' = d_lowerBound m -> d_upperBound m' = d_upperBound m ->
  tightened m m'.
Proof.
  intros L U x. rewrite L, U. split; intros b E; exists b;
    (split; [ exact E | apply DRatFacts.le_refl ]).
Qed.

Lemma tightened_refl m : tightened m m.
Proof. now apply tightened_same. Qed.

Lemma tightened_trans m1 m2 m3 :
  tightened m1 m2 -> tightened m2 m3 -> tightened m1 m3.
Proof.
  intros H1 H2 x. destruct (H1 x) as [L1 U1], (H2 x) as [L2 U2]. split.
  - intros l El. destruct (L1 l El) as (l' & El' & Hl').
    destruct (L2 l' El') as (l'' & El'' & Hl''). exists l''.
    split; [ exact El'' | eapply DRatFacts.le_trans; eauto ].
  - intros u Eu. destruct (U1 u Eu) as (u' & Eu' & Hu').
    destruct (U2 u' Eu') as (u'' & Eu'' & Hu''). exists u''.
    split; [ exact Eu'' | eapply DRatFacts.le_trans; eauto ].
Qed.

Lemma assertTail_bounds cond x c s1 s' :
  assertTail cond x c s1 = Ok s' ->
  d_lowerBound (d_partialModel s') = d_lowerBound (d_partialModel s1) /\
  d_upperBound (d_partialModel s') = d_upperBound (d_partialModel s1).
Proof.
  unfold assertTail. intros H.
  destruct (isBasic s1 x); simpl in H.
  - apply checkBasicVariable_queue in H. destruct H as (-> & _). auto.
  - destruct cond.
    + now apply update_bounds in H.
    + injection H as <-. auto.
Qed.

Lemma leb_false_le (a b : DRat) : DeltaRational.leb a b = false -> (b <= a)%DR.
Proof.
  intros H. destruct (drat_le_total a b) as [Hle | Hlt].
  - apply DRatFacts.leb_le in Hle. congruence.
  - now apply DRatFacts.lt_le_incl.
Qed.

Lemma AssertLower_tightens x c t s b s' :
  AssertLower x c t s = Ok (b, s') ->
  tightened (d_partialModel s) (d_partialModel s').
Proof.
  intros H. unfold AssertLower in H.
  destruct (belowLowerBound _ x c false) eqn:Hred;
    [ injection H as _ <-; apply tightened_refl | ].
  destruct (aboveUpperBound _ x c true).
  { injection H as _ <-. apply tightened_refl. }
  cbv zeta in H.
  match type of H with
  | context [ isBasic ?s0 x ] => set (s1 := s0) in H
  end.
  match type of H with
  | bind ?l _ = _ =>
      change l with
        (assertTail
           (DeltaRational.ltb (getAssignment (d_partialModel s1) x) c) x c s1)
        in H
  end.
  destruct (assertTail _ x c s1) as [s2|] eqn:E; simpl in H; [ | discriminate ].
  injection H as _ <-. apply assertTail_bounds in E. destruct E as [L U].
  intros y. rewrite L, U. unfold s1. simpl. split.
  - intros l El. destruct (N.eq_dec y x) as [-> | Hne].
    + rewrite upd_same. exists c. split; [ reflexivity | ].
      unfold belowLowerBound in Hred. rewrite El in Hred.
      now apply leb_false_le.
    + rewrite upd_other by exact Hne. exists l.
      split; [ exact El | apply DRatFacts.le_refl ].
  - intros u Eu. exists u. split; [ exact Eu | apply DRatFacts.le_refl ].
Qed.

Lemma AssertUpper_tightens x c t s b s' :
  AssertUpper x c t s = Ok (b, s') ->
  tightened (d_partialModel s) (d_partialModel s').
Proof.
  intros H. unfold AssertUpper in H.
  destruct (aboveUpperBound _ x c false) eqn:Hred;
    [ injection H as _ <-; apply tightened_refl | ].
  destruct (belowLowerBound _ x c true).
  { injection H as _ <-. apply tightened_refl. }
  cbv zeta in H.
  match type of H with
  | context [ isBasic ?s0 x ] => set (s1 := s0) in H
  end.
  match type of H with
  | bind ?l _ = _ =>
      change l with
        (assertTail
           (DeltaRational.gtb (getAssignment (d_partialModel s1) x) c) x c s1)
        in H
  end.
  destruct (assertTail _ x c s1) as [s2|] eqn:E; simpl in H; [ | discriminate ].
  injection H as _ <-. apply assertTail_bounds in E. destruct E as [L U].
  intros y. rewrite L, U. unfold s1. simpl. split.
  - intros l El. exists l. split; [ exact El | apply DRatFacts.le_refl ].
  - intros u Eu. destruct (N.eq_dec y x) as [-> | Hne].
    + rewrite upd_same. exists c. split; [ reflexivity | ].
      unfold aboveUpperBound in Hred. rewrite Eu in Hred.
      unfold DeltaRational.geb in Hred. now apply leb_false_le.
    + rewrite upd_other by exact Hne. exists u.
      split; [ exact Eu | apply DRatFacts.le_refl ].
Qed.

Lemma AssertEquality_tightens x c t s b s' :
  AssertEquality x c t s = Ok (b, s') ->
  tightened (d_partialModel s) (d_partialModel s').
Proof.
  intros H. unfold AssertEquality in H.
  destruct (belowLowerBound _ x c false && aboveUpperBound _ x c false);
    [ injection H as _ <-; apply tightened_refl | ].
  destruct (aboveUpperBound _ x c true) eqn:Hup.
  { injection H as _ <-. apply tightened_refl. }
  destruct (belowLowerBound _ x c true) eqn:Hlow.
  { injection H as _ <-. apply tightened_refl. }
  cbv zeta in H.
  match type of H with
  | context [ isBasic ?s0 x ] => set (s1 := s0) in H
  end.
  match type of H with
  | bind ?l _ = _ =>
      change l with
        (assertTail
           (negb (DeltaRational.eqb (getAssignment (d_partialModel s1) x) c))
           x c s1)
        in H
  end.
  destruct (assertTail _ x c s1) as [s2|] eqn:E; simpl in H; [ | discriminate ].
  injection H as _ <-. apply assertTail_bounds in E. destruct E as [L U].
  intros y. rewrite L, U. unfold s1. simpl. split.
  - intros l El. destruct (N.eq_dec y x) as [-> | Hne].
    + rewrite upd_same. exists c. split; [ reflexivity | ].
      eapply belowLowerBound_false; eauto.
    + rewrite upd_other by exact Hne. exists l.
      split; [ exact El | apply DRatFacts.le_refl ].
  - intros u Eu. destruct (N.eq_dec y x) as [-> | Hne].
    + rewrite upd_same. exists c. split; [ reflexivity | ].
      eapply aboveUpperBound_false; eauto.
    + rewrite upd_other by exact Hne. exists u.
      split; [ exact Eu | apply DRatFacts.le_refl ].
Qed.

Lemma runCall_tightens fuel call s s' :
  runCall fuel call s = Some (Ok s') ->
  tightened (d_partialModel s) (d_partialModel s').
Proof.
  intros H. destruct call as [x c t | x c t | x c t | ]; cbn [runCall] in H.
  - destruct (AssertLower x c t s) as [[b s1]|] eqn:E; simpl in H;
      [ | discriminate ].
    injection H as <-. eapply AssertLower_tightens; exact E.
  - destruct (AssertUpper x c t s) as [[b s1]|] eqn:E; simpl in H;
      [ | discriminate ].
    injection H as <-. eapply AssertUpper_tightens; exact E.
  - destruct (AssertEquality x c t s) as [[b s1]|] eqn:E; simpl in H;
      [ | discriminate ].
    injection H as <-. eapply AssertEquality_tightens; exact E.
  - destruct (updateInconsistentVars fuel s) as [[[n s1]|]|] eqn:E; simpl in H;
      try discriminate.
    injection H as <-. apply updateInconsistentVars_frame in E.
    destruct E as (L & U & _). now apply tightened_same.
Qed.

(** X7.  Along any sequence of calls that returns, bounds only tighten:
    a variable that had a lower bound [l] still has one, [l' >= l], and a
    variable that had an upper bound [u] still has one, [u' <= u].  No
    call removes or loosens a bound. *)
Theorem runCalls_tighten (fuel : nat) (calls : list Call) (s s' : Simplex) :
  runCalls fuel calls s = Some (Ok s') ->
  tightened (d_partialModel s) (d_partialModel s').
Proof.
  revert s. induction calls as [|call rest IH]; intros s H.
  - injection H as <-. apply tightened_refl.
  - cbn [runCalls] in H.
    destruct (runCall fuel call s) as [[s1|]|] eqn:E; try discriminate.
    eapply tightened_trans; [ eapply runCall_tightens; exact E | ].
    now apply IH.
Qed.

(** Further calls on the engine that holds the ten bounds of
    [budgetAsserted]: a weaker and a stronger lower bound for [x2], an
    equality for [x0], and a check. *)
Definition tighteningCalls : list Call :=
  [ CallAssertLower 2 (intBound (-5)) (atom 50);
    CallAssertLower 2 (intBound (-2)) (atom 51);
    CallAssertEquality 0 (intBound 0) (atom 52);
    CallUpdateInconsistentVars ].

Example tighteningCalls_run :
  match runCalls 20 tighteningCalls budgetAsserted with
  | Some (Ok s') =>
      DeltaRational.eqb
        (match getLowerBound (d_partialModel budgetAsserted) 2 with
         | Ok l => l | Fatal => DeltaRational.zero end) (intBound (-3)) = true /\
      DeltaRational.eqb
        (match getLowerBound (d_partialModel s') 2 with
         | Ok l => l | Fatal => DeltaRational.zero end) (intBound (-2)) = true /\
      DeltaRational.eqb
        (match getUpperBound (d_partialModel s') 0 with
         | Ok u => u | Fatal => DeltaRational.zero end) (intBound 0) = true
  | _ => False
  end.
Proof. vm_compute. split_and; reflexivity. Qed.

Lemma runCalls_tighten_witness :
  exists s',
    runCalls 20 tighteningCalls budgetAsserted = Some (Ok s') /\
    tightened (d_partialModel budgetAsserted) (d_partialModel s').
Proof.
  pose proof tighteningCalls_run as Hrun.
  destruct (runCalls 20 tighteningCalls budgetAsserted) as [[s'|]|] eqn:E;
    try contradiction.
  exists s'. split; [ reflexivity | ].
  exact (@runCalls_tighten 20 tighteningCalls budgetAsserted s' E).
Defined.

(** ** What a check leaves behind *)

(** X8.  A call of [updateInconsistentVars] that returns never changes a
    bound, an explanation, the conflict sink or the number of variables:
    the clause it finds is returned, not sent to the sink.  It leaves the
    Griggio queue empty and, unless that queue was empty at the start,
    the Bland queue empty and the engine in the Griggio stage.  A check
    repeated at once therefore returns null and changes nothing, also
    right after a conflict. *)
Theorem updateInconsistentVars_settles (fuel : nat) (s s' : Simplex) (n : Node) :
  updateInconsistentVars fuel s = Some (Ok (n, s')) ->
  checkFrame s s' /\
  d_griggioRuleQueue s' = [] /\
  (d_griggioRuleQueue s <> [] ->
   d_possiblyInconsistent s' = [] /\ d_pivotStage s' = true) /\
  (forall fuel', updateInconsistentVars fuel' s' = Some (Ok (NullNode, s'))).
Proof.
  intros H.
  assert (Hq : d_griggioRuleQueue s' = [] /\
               (d_griggioRuleQueue s <> [] ->
                d_possiblyInconsistent s' = [] /\ d_pivotStage s' = true)).
  { pose proof H as H0. apply updateInconsistentVars_cases in H0.
    destruct H0 as [(Eq & _ & ->) | (Hne & H0)].
    - split; [ exact Eq | ]. intros Hn. contradiction.
    - cbv zeta in H0. destruct H0 as (m & s2 & _ & H0).
      destruct H0 as [(_ & Hf) | (_ & s3 & m3 & _ & Hf)];
        apply finishCheck_Ok in Hf; destruct Hf as [_ ->]; simpl; auto. }
  destruct Hq as [Hq Hb]. split_and.
  - eapply updateInconsistentVars_frame; exact H.
  - exact Hq.
  - exact Hb.
  - intros fuel'. unfold updateInconsistentVars. rewrite Hq. reflexivity.
Qed.

Lemma updateInconsistentVars_settles_witness :
  exists n s',
    updateInconsistentVars 5 sumConflictState = Some (Ok (n, s')) /\
    isNull n = false /\
    checkFrame sumConflictState s' /\
    d_griggioRuleQueue s' = [] /\
    (d_griggioRuleQueue sumConflictState <> [] ->
     d_possiblyInconsistent s' = [] /\ d_pivotStage s' = true) /\
    (forall fuel', updateInconsistentVars fuel' s' = Some (Ok (NullNode, s'))).
Proof.
  pose proof sumConflictState_check as Hrun.
  destruct (updateInconsistentVars 5 sumConflictState) as [[[n s']|]|] eqn:E;
    try contradiction.
  exists n, s'. split; [ reflexivity | ].
  split; [ subst n; reflexivity | ].
  exact (@updateInconsistentVars_settles 5 sumConflictState s' n E).
Defined.

(** ** [update], [computeRowValue] and [checkTableau] *)

Lemma update_statistics x_i v s s' :
  update x_i v s = Ok s' ->
  d_statistics s' = Statistics.incUpdates (d_statistics s).
Proof.
  intros H. unfold update in H.
  destruct (Assert _); simpl in H; [ | discriminate ].
  match type of H with
  | bind ?l _ = _ => destruct l as [s1|] eqn:E1
  end; simpl in H; [ | discriminate ].
  injection H as <-. apply update_loop_Ok in E1. destruct E1 as [F _].
  unfold frame in F. simpl in *. tauto.
Qed.

(** X9.  [update(x_i, v)] aborts when [x_i] is basic.  When [x_i] is
    non-basic (and no variable owns two rows) it returns, and afterwards
    [beta(x_i) = v]; every basic [x_j] whose row mentions [x_i] has moved
    by [(v - beta(x_i)) * a_ji]; every other variable keeps its value;
    the tableau and the bounds are unchanged and the counter [updates]
    has grown by one. *)
Theorem update_postcondition (s : Simplex) (x_i : ArithVar) (v : DRat) :
  NoDup (Tableau.basics (d_tableau s)) ->
  (isBasic s x_i = true -> update x_i v s = Fatal) /\
  (isBasic s x_i = false ->
   let beta := d_assignment (d_partialModel s) in
   exists s',
     update x_i v s = Ok s' /\
     d_assignment (d_partialModel s') x_i = v /\
     (forall x_j row_j,
        Tableau.lookup (d_tableau s) x_j = Ok row_j ->
        ReducedRowVector.has row_j x_i = true ->
        d_assignment (d_partialModel s') x_j =
          (beta x_j + (v - beta x_i) * ReducedRowVector.coeff row_j x_i)%DR) /\
     (forall y,
        y <> x_i ->
        (forall row, Tableau.lookup (d_tableau s) y = Ok row ->
                     ReducedRowVector.has row x_i = false) ->
        d_assignment (d_partialModel s') y = beta y) /\
     d_tableau s' = d_tableau s /\
     d_lowerBound (d_partialModel s') = d_lowerBound (d_partialModel s) /\
     d_upperBound (d_partialModel s') = d_upperBound (d_partialModel s) /\
     Statistics.d_statUpdates (d_statistics s') =
       (Statistics.d_statUpdates (d_statistics s) + 1)%Z).
Proof.
  intros Hnd. split.
  - intros Hb. unfold update. rewrite Hb. reflexivity.
  - intros Hnb beta.
    destruct (update_total x_i v s Hnb) as (s' & E & _).
    exists s'. split; [ exact E | ].
    destruct (update_bounds _ _ _ E) as [L U].
    pose proof (update_statistics _ _ _ E) as St.
    apply update_Ok in E. destruct E as (_ & HT & HA).
    assert (Hbs : forall x, In x (Tableau.basics (d_tableau s)) ->
                            Tableau.isBasic (d_tableau s) x = true).
    { intros x Hx. now apply isBasic_In. }
    split_and; auto.
    + rewrite HA. apply upd_same.
    + intros x_j row_j Hrow Hhas.
      assert (Hj : Tableau.isBasic (d_tableau s) x_j = true)
        by (eapply lookup_isBasic; exact Hrow).
      assert (Hne : x_j <> x_i).
      { intros ->. unfold isBasic in Hnb. congruence. }
      rewrite HA, upd_other by exact Hne.
      destruct (@updateAssign_spec (d_tableau s) x_i
                  (v - d_assignment (d_partialModel s) x_i)%DR
                  (Tableau.basics (d_tableau s))
                  (d_assignment (d_partialModel s)) Hnd Hbs x_j) as [_ Hin].
      rewrite (Hin row_j).
      * rewrite Hhas. reflexivity.
      * now apply isBasic_In.
      * now apply lookup_find.
    + intros y Hne Hrows. rewrite HA, upd_other by exact Hne.
      destruct (@updateAssign_spec (d_tableau s) x_i
                  (v - d_assignment (d_partialModel s) x_i)%DR
                  (Tableau.basics (d_tableau s))
                  (d_assignment (d_partialModel s)) Hnd Hbs y) as [Hout Hin].
      destruct (Tableau.isBasic (d_tableau s) y) eqn:Hy.
      * destruct (lookup_basic _ _ Hy) as [row Hrow].
        rewrite (Hin row).
        -- rewrite (Hrows row Hrow). reflexivity.
        -- now apply isBasic_In.
        -- now apply lookup_find.
      * apply Hout. now apply not_basic_not_In.
    + rewrite St. destruct (d_statistics s). reflexivity.
Qed.

(** X9 on [x2 = x0 + x1]: moving [x0] from zero to [3] moves [x2] to [3]
    and leaves [x1] alone. *)
Lemma update_postcondition_witness :
  let s := freshSimplex sumTableau 3 in
  let beta := d_assignment (d_partialModel s) in
  exists s',
    update 0 (intBound 3) s = Ok s' /\
    d_assignment (d_partialModel s') 0 = intBound 3 /\
    (forall x_j row_j,
       Tableau.lookup (d_tableau s) x_j = Ok row_j ->
       ReducedRowVector.has row_j 0 = true ->
       d_assignment (d_partialModel s') x_j =
         (beta x_j + (intBound 3 - beta 0) * ReducedRowVector.coeff row_j 0)%DR) /\
    (forall y,
       y <> 0 ->
       (forall row, Tableau.lookup (d_tableau s) y = Ok row ->
                    ReducedRowVector.has row 0 = false) ->
       d_assignment (d_partialModel s') y = beta y) /\
    d_tableau s' = d_tableau s /\
    d_lowerBound (d_partialModel s') = d_lowerBound (d_partialModel s) /\
    d_upperBound (d_partialModel s') = d_upperBound (d_partialModel s) /\
    Statistics.d_statUpdates (d_statistics s') =
      (Statistics.d_statUpdates (d_statistics s) + 1)%Z.
Proof.
  intros s beta.
  refine (proj2 (@update_postcondition s 0 (intBound 3) _) _).
  - vm_compute. constructor; [ intros [] | constructor ].
  - vm_compute. reflexivity.
Defined.

Example update_sum :
  match update 0 (intBound 3) (freshSimplex sumTableau 3) with
  | Ok s' =>
      forallb (fun p => DeltaRational.eqb (d_assignment (d_partialModel s') (fst p))
                          (intBound (snd p)))
        [(0, 3%Z); (1, 0%Z); (2, 3%Z)] = true
  | Fatal => False
  end.
Proof. vm_compute. reflexivity. Qed.

(** X10.  [computeRowValue(x, useSafe)] aborts when [x] is not basic.
    For a basic [x] it returns the sum, over the non-basic variables of
    the row of [x], of coefficient times the chosen assignment (the safe
    one when [useSafe] is set); on a sound tableau the value computed
    from the current assignment is the stored value of [x]. *)
Theorem computeRowValue_spec (s : Simplex) (x : ArithVar) (useSafe : bool) :
  (isBasic s x = false -> computeRowValue x useSafe s = Fatal) /\
  (forall row,
     Tableau.lookup (d_tableau s) x = Ok row ->
     computeRowValue x useSafe s =
       Ok (evalRow
             (if useSafe then d_safeAssignment (d_partialModel s)
              else d_assignment (d_partialModel s))
             (nonbasicEntries x (ReducedRowVector.entries row))) /\
     (tableauSound s ->
      computeRowValue x false s = Ok (d_assignment (d_partialModel s) x))).
Proof.
  split.
  - intros Hb. unfold computeRowValue. rewrite Hb. reflexivity.
  - intros row Hrow.
    assert (Hb : isBasic s x = true) by (eapply lookup_isBasic; exact Hrow).
    destruct (lookup_Ok _ _ Hrow) as [Hin Hbasic].
    assert (E : forall b,
              computeRowValue x b s =
              Ok (evalRow
                    (if b then d_safeAssignment (d_partialModel s)
                     else d_assignment (d_partialModel s))
                    (nonbasicEntries x (ReducedRowVector.entries row)))).
    { intros b. unfold computeRowValue. rewrite Hb, Hrow. simpl.
      rewrite computeRowValue_loop_evalRow, DRatFacts.add_zero_l, Hbasic.
      destruct b; reflexivity. }
    split; [ apply E | ].
    intros [_ Hh]. rewrite E. f_equal.
    unfold tableauHolds in Hh. rewrite Forall_forall in Hh.
    pose proof (rowHolds_evalRow (Hh row Hin)) as Er.
    rewrite Hbasic in Er. now symmetry.
Qed.

Example computeRowValue_sum :
  match update 0 (intBound 3) (freshSimplex sumTableau 3) with
  | Ok s' =>
      match computeRowValue 2 false s', computeRowValue 2 true s' with
      | Ok a, Ok b =>
          DeltaRational.eqb a (intBound 3) = true /\
          DeltaRational.eqb b (intBound 0) = true
      | _, _ => False
      end /\
      computeRowValue 0 false s' = Fatal
  | Fatal => False
  end.
Proof. vm_compute. split_and; reflexivity. Qed.

(** X11.  When no variable owns two rows, [checkTableau] returns normally
    exactly when every basic variable's value is the sum, over the
    non-basic variables of its row, of coefficient times value; it
    aborts as soon as one row fails the test. *)
Theorem checkTableau_decides (s : Simplex) :
  NoDup (Tableau.basics (d_tableau s)) ->
  (checkTableau s = Ok tt <-> rowEquations s) /\
  (~ rowEquations s -> checkTableau s = Fatal).
Proof.
  intros Hnd.
  assert (Hiff : checkTableau s = Ok tt <-> rowEquations s).
  { unfold checkTableau, rowEquations. split.
    - intros H x row Hrow. destruct (lookup_Ok _ _ Hrow) as [Hin Hb].
      assert (Hr : rowHolds (d_assignment (d_partialModel s)) row).
      { apply (@checkTableau_loop_holds s _ Hnd H row Hin).
        unfold Tableau.basics. now apply in_map. }
      apply rowHolds_evalRow in Hr. now rewrite Hb in Hr.
    - intros H. apply checkTableau_loop_Ok; [ exact Hnd | | ].
      + intros r Hr _. unfold rowHolds.
        rewrite computeRowValue_loop_evalRow, DRatFacts.add_zero_l.
        symmetry. apply H. apply lookup_find.
        now apply find_row_of_basic.
      + intros x Hx. now apply isBasic_In. }
  split; [ exact Hiff | ].
  intros Hn. destruct (checkTableau s) as [[]|] eqn:E; [ | reflexivity ].
  exfalso. apply Hn. now apply Hiff.
Qed.

(** A state in which the row [x2 = x0 + x1] is broken: [x0] is [1] and
    the other two variables are zero. *)
Definition brokenRowState : Simplex :=
  let s := freshSimplex sumTableau 3 in
  set_partialModel s (setAssignment (d_partialModel s) 0 (intBound 1)).

Lemma checkTableau_decides_witness :
  (checkTableau brokenRowState = Ok tt <-> rowEquations brokenRowState) /\
  (~ rowEquations brokenRowState -> checkTableau brokenRowState = Fatal).
Proof.
  apply (@checkTableau_decides brokenRowState).
  vm_compute. constructor; [ intros [] | constructor ].
Defined.

Example checkTableau_broken :
  checkTableau brokenRowState = Fatal /\
  checkTableau (freshSimplex sumTableau 3) = Ok tt.
Proof. vm_compute. split; reflexivity. Qed.

Lemma computeRowValue_spec_witness :
  let s := after (AssertLower 0 (intBound 3) (atom 1) (freshSimplex sumTableau 3))
                 (freshSimplex sumTableau 3) in
  computeRowValue 0 false s = Fatal /\
  exists row,
    Tableau.lookup (d_tableau s) 2 = Ok row /\
    computeRowValue 2 false s =
      Ok (evalRow (d_assignment (d_partialModel s))
            (nonbasicEntries 2 (ReducedRowVector.entries row))) /\
    computeRowValue 2 false s = Ok (d_assignment (d_partialModel s) 2).
Proof.
  intros s.
  destruct (@computeRowValue_spec s 0 false) as [H0 _].
  destruct (@computeRowValue_spec s 2 false) as [_ H2].
  split; [ apply H0; vm_compute; reflexivity | ].
  exists (intRow 2 [(0, 1%Z); (1, 1%Z); (2, (-1)%Z)]).
  assert (Hrow : Tableau.lookup (d_tableau s) 2 =
                 Ok (intRow 2 [(0, 1%Z); (1, 1%Z); (2, (-1)%Z)]))
    by (vm_compute; reflexivity).
  destruct (H2 _ Hrow) as [E1 E2].
  split_and; [ exact Hrow | exact E1 | ].
  apply E2. unfold s.
  refine (proj1 (proj1 (proj1
            (@ready_after_AssertLower 0 (intBound 3) (atom 1) _ _)))).
  apply freshSimplex_ready.
  - apply wfTableaub_ok. vm_compute. reflexivity.
  - vm_compute. reflexivity.
Defined.

(** ** [betterConflict] *)

(** X12.  [betterConflict] chooses one of its two arguments; the null
    node is neutral on either side; of two clauses it chooses one with
    no more conjuncts than the other, the first on a tie; and it is
    associative, so the fold in [selectInitialConflict] does not depend
    on how the candidates are grouped. *)
Theorem betterConflict_spec (x y z : Node) :
  (betterConflict x y = x \/ betterConflict x y = y) /\
  betterConflict NullNode y = y /\
  betterConflict x NullNode = x /\
  (isNull x = false -> isNull y = false ->
   (getNumChildren (betterConflict x y) <= getNumChildren x)%nat /\
   (getNumChildren (betterConflict x y) <= getNumChildren y)%nat /\
   (getNumChildren x = getNumChildren y -> betterConflict x y = x)) /\
  betterConflict (betterConflict x y) z = betterConflict x (betterConflict y z).
Proof.
  split_and.
  - apply betterConflict_either.
  - reflexivity.
  - unfold betterConflict. destruct x; reflexivity.
  - intros Hx Hy. unfold betterConflict. rewrite Hx, Hy.
    destruct (getNumChildren x <=? getNumChildren y)%nat eqn:E.
    + apply Nat.leb_le in E. auto.
    + apply Nat.leb_gt in E. split_and; [ lia | lia | intros H; lia ].
  - unfold betterConflict.
    destruct (isNull x) eqn:Hx; [ reflexivity | ].
    destruct (isNull y) eqn:Hy.
    + rewrite Hx. reflexivity.
    + destruct (isNull z) eqn:Hz.
      * destruct (getNumChildren x <=? getNumChildren y)%nat;
          rewrite ?Hx, ?Hy; reflexivity.
      * destruct (getNumChildren x <=? getNumChildren y)%nat eqn:Exy;
          destruct (getNumChildren y <=? getNumChildren z)%nat eqn:Eyz;
          rewrite ?Hx, ?Hy, ?Hz, ?Exy, ?Eyz; try reflexivity.
        -- apply Nat.leb_le in Exy, Eyz.
           assert (E : (getNumChildren x <=? getNumChildren z)%nat = true)
             by (apply Nat.leb_le; lia).
           now rewrite E.
        -- apply Nat.leb_gt in Exy, Eyz.
           assert (E : (getNumChildren x <=? getNumChildren z)%nat = false)
             by (apply Nat.leb_gt; lia).
           now rewrite E.
Qed.

(** ** [checkBasicVariable] *)

Lemma drat_sub_pos (a b : DRat) :
  (a < b)%DR -> (DeltaRational.zero < b - a)%DR.
Proof.
  rewrite !DRatFacts.lt_iff.
  cbn [DeltaRational.c DeltaRational.k DeltaRational.sub DeltaRational.zero].
  intros [H | [H1 H2]].
  - left. qc_to_Q. lra.
  - right. split.
    + rewrite H1. ring.
    + qc_to_Q. lra.
Qed.

(** X13.  [checkBasicVariable(x)] aborts when [x] is not basic.  For a
    basic [x] it returns and touches nothing but a queue: nothing at all
    when [x] is within its bounds; otherwise, in the Griggio stage, the
    pair of [x] and the size of its violation ([l - beta(x)] below the
    lower bound, [beta(x) - u] above the upper bound, positive in both
    cases) is pushed on the Griggio queue, and in the Bland stage [x] is
    pushed on the Bland queue. *)
Theorem checkBasicVariable_effect (s : Simplex) (x : ArithVar) :
  (isBasic s x = false -> checkBasicVariable x s = Fatal) /\
  (isBasic s x = true ->
   let m := d_partialModel s in
   (assignmentIsConsistent m x = true -> checkBasicVariable x s = Ok s) /\
   (assignmentIsConsistent m x = false -> d_pivotStage s = true ->
    exists diff,
      checkBasicVariable x s =
        Ok (set_griggioRuleQueue s
              (griggio_push (x, diff) (d_griggioRuleQueue s))) /\
      (DeltaRational.zero < diff)%DR /\
      ((exists l, d_lowerBound m x = Some l /\
                  (d_assignment m x < l)%DR /\
                  diff = (l - d_assignment m x)%DR) \/
       (exists u, d_upperBound m x = Some u /\
                  (u < d_assignment m x)%DR /\
                  diff = (d_assignment m x - u)%DR))) /\
   (assignmentIsConsistent m x = false -> d_pivotStage s = false ->
    checkBasicVariable x s =
      Ok (set_possiblyInconsistent s
            (bland_push x (d_possiblyInconsistent s))))).
Proof.
  split.
  - intros Hb. unfold checkBasicVariable. rewrite Hb. reflexivity.
  - intros Hb m. unfold checkBasicVariable. rewrite Hb. simpl. split_and.
    + intros Hc. fold m. rewrite Hc. reflexivity.
    + intros Hc Hp. fold m. rewrite Hc, Hp. simpl.
      destruct (belowLowerBound m x (getAssignment m x) true) eqn:Hlow.
      * apply belowLowerBound_strict in Hlow. destruct Hlow as (l & El & Hl).
        unfold getLowerBound. rewrite El. simpl.
        exists (l - getAssignment m x)%DR. split_and.
        -- reflexivity.
        -- now apply drat_sub_pos.
        -- left. exists l. auto.
      * destruct (inconsistent_has_bound _ _ Hc Hlow) as [u Eu].
        unfold getUpperBound. rewrite Eu. simpl.
        assert (Hu : (u < d_assignment m x)%DR).
        { unfold assignmentIsConsistent in Hc. unfold getAssignment in Hlow.
          rewrite Hlow in Hc. simpl in Hc. apply negb_false_iff in Hc.
          apply aboveUpperBound_strict in Hc.
          destruct Hc as (u' & Eu' & Hu'). congruence. }
        exists (getAssignment m x - u)%DR. split_and.
        -- reflexivity.
        -- now apply drat_sub_pos.
        -- right. exists u. auto.
    + intros Hc Hp. fold m. rewrite Hc, Hp. reflexivity.
Qed.

Lemma checkBasicVariable_effect_witness :
  let s := after (AssertUpper 3 (intBound (-1)) (atom 31)
                    (freshSimplex budgetTableau 5))
                 (freshSimplex budgetTableau 5) in
  exists diff,
    checkBasicVariable 3 s =
      Ok (set_griggioRuleQueue s (griggio_push (3, diff) (d_griggioRuleQueue s))) /\
    (DeltaRational.zero < diff)%DR /\
    ((exists l, d_lowerBound (d_partialModel s) 3 = Some l /\
                (d_assignment (d_partialModel s) 3 < l)%DR /\
                diff = (l - d_assignment (d_partialModel s) 3)%DR) \/
     (exists u, d_upperBound (d_partialModel s) 3 = Some u /\
                (u < d_assignment (d_partialModel s) 3)%DR /\
                diff = (d_assignment (d_partialModel s) 3 - u)%DR)).
Proof.
  intros s.
  destruct (@checkBasicVariable_effect s 3) as [_ H].
  assert (Hb : isBasic s 3 = true) by (vm_compute; reflexivity).
  destruct (H Hb) as (_ & H2 & _).
  apply H2; vm_compute; reflexivity.
Defined.

(** ** Assertions: the sink and repetition *)

Lemma assertTail_out cond x c s1 s' :
  assertTail cond x c s1 = Ok s' -> d_out s' = d_out s1.
Proof.
  unfold assertTail. intros H.
  destruct (isBasic s1 x) eqn:Hb; simpl in H.
  - apply checkBasicVariable_frame in H. destruct H as [F _].
    unfold frame in F. tauto.
  - destruct cond.
    + destruct (update_total x c s1 Hb) as (s2 & E2 & _ & O & _).
      rewrite E2 in H. injection H as <-. exact O.
    + injection H as <-. reflexivity.
Qed.

Lemma drat_leb_refl (a : DRat) : DeltaRational.leb a a = true.
Proof. apply DRatFacts.leb_le. apply DRatFacts.le_refl. Qed.

(** X14.  An assertion writes to the conflict sink exactly when it
    returns true, and then it appends one node, its conflict clause; an
    assertion that returns false leaves the sink as it was.  An
    assertion that returned false and is repeated at once, with any
    explanation, returns false again and changes nothing: the bound is
    already in place. *)
Theorem assertion_sink_and_repeat (s : Simplex) (x : ArithVar) (c : DRat)
    (t : TNode) :
  (forall b s',
     AssertLower x c t s = Ok (b, s') ->
     d_out s' =
       (if b
        then d_out s ++ [mkNode AND [getUpperConstraint (d_partialModel s) x; t]]
        else d_out s) /\
     (b = false -> forall t', AssertLower x c t' s' = Ok (false, s'))) /\
  (forall b s',
     AssertUpper x c t s = Ok (b, s') ->
     d_out s' =
       (if b
        then d_out s ++ [mkNode AND [getLowerConstraint (d_partialModel s) x; t]]
        else d_out s) /\
     (b = false -> forall t', AssertUpper x c t' s' = Ok (false, s'))) /\
  (forall b s',
     AssertEquality x c t s = Ok (b, s') ->
     d_out s' =
       (if b
        then d_out s ++
             [mkNode AND
                [if aboveUpperBound (d_partialModel s) x c true
                 then getUpperConstraint (d_partialModel s) x
                 else getLowerConstraint (d_partialModel s) x; t]]
        else d_out s) /\
     (b = false -> forall t', AssertEquality x c t' s' = Ok (false, s'))).
Proof.
  split_and; intros b s' H.
  - unfold AssertLower in H.
    destruct (belowLowerBound _ x c false) eqn:Hred.
    { injection H as <- <-. split; [ reflexivity | ].
      intros _ t'. unfold AssertLower. now rewrite Hred. }
    destruct (aboveUpperBound _ x c true).
    { injection H as <- <-. split; [ reflexivity | discriminate ]. }
    cbv zeta in H.
    match type of H with
    | context [ isBasic ?s0 x ] => set (s1 := s0) in H
    end.
    match type of H with
    | bind ?l _ = _ =>
        change l with
          (assertTail
             (DeltaRational.ltb (getAssignment (d_partialModel s1) x) c) x c s1)
          in H
    end.
    destruct (assertTail _ x c s1) as [s2|] eqn:E; simpl in H; [ | discriminate ].
    injection H as <- <-.
    pose proof (assertTail_out _ _ _ _ E) as O.
    apply assertTail_bounds in E. destruct E as [L _].
    split; [ rewrite O; reflexivity | ].
    intros _ t'. unfold AssertLower, belowLowerBound. rewrite L.
    unfold s1. simpl. rewrite upd_same. now rewrite drat_leb_refl.
  - unfold AssertUpper in H.
    destruct (aboveUpperBound _ x c false) eqn:Hred.
    { injection H as <- <-. split; [ reflexivity | ].
      intros _ t'. unfold AssertUpper. now rewrite Hred. }
    destruct (belowLowerBound _ x c true).
    { injection H as <- <-. split; [ reflexivity | discriminate ]. }
    cbv zeta in H.
    match type of H with
    | context [ isBasic ?s0 x ] => set (s1 := s0) in H
    end.
    match type of H with
    | bind ?l _ = _ =>
        change l with
          (assertTail
             (DeltaRational.gtb (getAssignment (d_partialModel s1) x) c) x c s1)
          in H
    end.
    destruct (assertTail _ x c s1) as [s2|] eqn:E; simpl in H; [ | discriminate ].
    injection H as <- <-.
    pose proof (assertTail_out _ _ _ _ E) as O.
    apply assertTail_bounds in E. destruct E as [_ U].
    split; [ rewrite O; reflexivity | ].
    intros _ t'. unfold AssertUpper, aboveUpperBound. rewrite U.
    unfold s1. simpl. rewrite upd_same.
    unfold DeltaRational.geb. now rewrite drat_leb_refl.
  - unfold AssertEquality in H.
    destruct (belowLowerBound _ x c false && aboveUpperBound _ x c false) eqn:Hred.
    { injection H as <- <-. split; [ reflexivity | ].
      intros _ t'. unfold AssertEquality. now rewrite Hred. }
    destruct (aboveUpperBound _ x c true).
    { injection H as <- <-. split; [ reflexivity | discriminate ]. }
    destruct (belowLowerBound _ x c true).
    { injection H as <- <-. split; [ reflexivity | discriminate ]. }
    cbv zeta in H.
    match type of H with
    | context [ isBasic ?s0 x ] => set (s1 := s0) in H
    end.
    match type of H with
    | bind ?l _ = _ =>
        change l with
          (assertTail
             (negb (DeltaRational.eqb (getAssignment (d_partialModel s1) x) c))
             x c s1)
          in H
    end.
    destruct (assertTail _ x c s1) as [s2|] eqn:E; simpl in H; [ | discriminate ].
    injection H as <- <-.
    pose proof (assertTail_out _ _ _ _ E) as O.
    apply assertTail_bounds in E. destruct E as [L U].
    split; [ rewrite O; reflexivity | ].
    intros _ t'. unfold AssertEquality, belowLowerBound, aboveUpperBound.
    rewrite L, U. unfold s1. simpl. rewrite !upd_same.
    unfold DeltaRational.geb. now rewrite drat_leb_refl.
Qed.

Example assertion_repeat_run :
  let s := freshSimplex budgetTableau 5 in
  match AssertUpper 3 (intBound (-1)) (atom 31) s with
  | Ok (b, s') =>
      b = false /\ d_out s' = [] /\
      match AssertUpper 3 (intBound (-1)) (atom 32) s' with
      | Ok (b', s'') =>
          b' = false /\
          getUpperConstraint (d_partialModel s'') 3 = atom 31 /\
          length (d_griggioRuleQueue s'') = 1%nat
      | Fatal => False
      end
  | Fatal => False
  end.
Proof. vm_compute. split_and; reflexivity. Qed.

(** X14 on a fresh engine: [x3 <= -1] is accepted without a word to the
    sink, and asserting it again changes nothing. *)
Lemma assertion_sink_and_repeat_witness :
  exists s',
    AssertUpper 3 (intBound (-1)) (atom 31) (freshSimplex budgetTableau 5)
      = Ok (false, s') /\
    d_out s' = [] /\
    forall t', AssertUpper 3 (intBound (-1)) t' s' = Ok (false, s').
Proof.
  pose proof assertion_repeat_run as Hrun. cbv zeta in Hrun.
  destruct (AssertUpper 3 (intBound (-1)) (atom 31)
              (freshSimplex budgetTableau 5)) as [[b s']|] eqn:E;
    [ | contradiction ].
  destruct Hrun as [-> _]. exists s'. split; [ reflexivity | ].
  destruct (@assertion_sink_and_repeat (freshSimplex budgetTableau 5) 3
              (intBound (-1)) (atom 31)) as (_ & H & _).
  destruct (H false s' E) as [Hlen Hrep].
  split; [ exact Hlen | exact (Hrep eq_refl) ].
Defined.

(** ** [checkBasicForConflict] *)

(** The bound that the value of [x] breaks, the lower bound being tested
    first: [Some false] below the lower bound, [Some true] above the
    upper bound. *)
Definition violatedSide (s : Simplex) (x : ArithVar) : option bool :=
  let beta := getAssignment (d_partialModel s) x in
  if belowLowerBound (d_partialModel s) x beta true then Some false
  else if aboveUpperBound (d_partialModel s) x beta true then Some true
  else None.

Lemma selectSlack_sentinel_iff above s x row :
  Tableau.lookup (d_tableau s) x = Ok row ->
  tableauInRange (d_tableau s) ->
  exists x_j,
    selectSlack above x s = Ok x_j /\
    (x_j = ARITHVAR_SENTINEL <->
     forall e, In e (ReducedRowVector.entries row) -> ~ validSlack above s x e).
Proof.
  intros Hrow Hr. eexists. split.
  - unfold selectSlack. rewrite Hrow. reflexivity.
  - split.
    + intros E e He. apply slackCandidate_false.
      apply (@selectSlack_none above s x row Hrow Hr); [ | exact He ].
      unfold selectSlack. rewrite Hrow. simpl. now rewrite E.
    + intros Hall. destruct (d_pivotStage s) eqn:Hp.
      * destruct (@selectSlack_loop_griggio above s x
                    (ReducedRowVector.entries row) ARITHVAR_SENTINEL UINT32_MAX Hp)
          as [[H1 _] | (pre & e & post & H1 & _ & H3 & _)]; [ exact H1 | ].
        exfalso. apply (Hall e); [ | exact H3 ].
        rewrite H1. apply in_or_app. right. now left.
      * destruct (@selectSlack_loop_bland above s x
                    (ReducedRowVector.entries row) ARITHVAR_SENTINEL UINT32_MAX Hp)
          as [[H1 _] | (pre & e & post & H1 & _ & H3 & _)]; [ exact H1 | ].
        exfalso. apply (Hall e); [ | exact H3 ].
        rewrite H1. apply in_or_app. right. now left.
Qed.

(** X15.  [checkBasicForConflict(x)] aborts when [x] is not basic.  On a
    tableau with nonzero coefficients, fewer than [2^32 - 1] rows and no
    mention of the sentinel, it returns for a basic [x]: null when [x] is
    within its bounds or when its row holds a slack for the violated
    bound (the lower bound being tested first); otherwise the clause of
    [generateConflictBelow] or [generateConflictAbove], which is not
    null.  It changes nothing. *)
Theorem checkBasicForConflict_spec (s : Simplex) (x : ArithVar) :
  (isBasic s x = false -> checkBasicForConflict x s = Fatal) /\
  (isBasic s x = true ->
   rowsNonzero (d_tableau s) -> tableauInRange (d_tableau s) ->
   exists n row,
     Tableau.lookup (d_tableau s) x = Ok row /\
     checkBasicForConflict x s = Ok n /\
     match violatedSide s x with
     | None => n = NullNode
     | Some above =>
         ((exists e, In e (ReducedRowVector.entries row) /\
                     validSlack above s x e) -> n = NullNode) /\
         ((forall e, In e (ReducedRowVector.entries row) ->
                     ~ validSlack above s x e) ->
          generateConflict above x s = Ok n /\ isNull n = false)
     end).
Proof.
  split.
  - intros Hb. unfold checkBasicForConflict. rewrite Hb. reflexivity.
  - intros Hb Hnz Hr. destruct (lookup_basic _ _ Hb) as [row Hrow].
    unfold checkBasicForConflict, violatedSide. rewrite Hb. simpl.
    destruct (belowLowerBound (d_partialModel s) x
                (getAssignment (d_partialModel s) x) true).
    + unfold selectSlackBelow.
      destruct (@selectSlack_sentinel_iff false s x row Hrow Hr)
        as (x_j & E & Hiff).
      rewrite E. simpl. destruct (x_j =? ARITHVAR_SENTINEL) eqn:Ex.
      * apply N.eqb_eq in Ex.
        destruct (generateConflictBelow_total x s Hb Hnz) as (cs & Eg & _).
        exists (mkNode AND cs), row.
        split; [ exact Hrow | split; [ exact Eg | split ] ].
        -- intros (e & He & Hv). exfalso.
           exact (proj1 Hiff Ex e He Hv).
        -- intros _. split; [ exact Eg | reflexivity ].
      * apply N.eqb_neq in Ex. exists NullNode, row.
        split; [ exact Hrow | split; [ reflexivity | split ] ].
        -- intros _. reflexivity.
        -- intros Hall. exfalso. apply Ex. now apply Hiff.
    + destruct (aboveUpperBound (d_partialModel s) x
                  (getAssignment (d_partialModel s) x) true).
      * unfold selectSlackAbove.
        destruct (@selectSlack_sentinel_iff true s x row Hrow Hr)
          as (x_j & E & Hiff).
        rewrite E. simpl. destruct (x_j =? ARITHVAR_SENTINEL) eqn:Ex.
        -- apply N.eqb_eq in Ex.
           destruct (generateConflictAbove_total x s Hb Hnz) as (cs & Eg & _).
           exists (mkNode AND cs), row.
           split; [ exact Hrow | split; [ exact Eg | split ] ].
           ++ intros (e & He & Hv). exfalso.
              exact (proj1 Hiff Ex e He Hv).
           ++ intros _. split; [ exact Eg | reflexivity ].
        -- apply N.eqb_neq in Ex. exists NullNode, row.
           split; [ exact Hrow | split; [ reflexivity | split ] ].
           ++ intros _. reflexivity.
           ++ intros Hall. exfalso. apply Ex. now apply Hiff.
      * exists NullNode, row. auto.
Qed.

(** X15 on [sumConflictState]: [x2] is above its upper bound and neither
    [x0] nor [x1] can be lowered. *)
Lemma checkBasicForConflict_spec_witness :
  let s := sumConflictState in
  exists n row,
    Tableau.lookup (d_tableau s) 2 = Ok row /\
    checkBasicForConflict 2 s = Ok n /\
    match violatedSide s 2 with
    | None => n = NullNode
    | Some above =>
        ((exists e, In e (ReducedRowVector.entries row) /\
                    validSlack above s 2 e) -> n = NullNode) /\
        ((forall e, In e (ReducedRowVector.entries row) ->
                    ~ validSlack above s 2 e) ->
         generateConflict above 2 s = Ok n /\ isNull n = false)
    end.
Proof.
  intros s.
  refine (proj2 (@checkBasicForConflict_spec s 2) _ _ _).
  - vm_compute. reflexivity.
  - apply rowsNonzerob_ok. vm_compute. reflexivity.
  - apply tableauInRangeb_ok. vm_compute. reflexivity.
Defined.

Example checkBasicForConflict_sum :
  violatedSide sumConflictState 2 = Some true /\
  checkBasicForConflict 2 sumConflictState
    = Ok (mkNode AND [atom 12; atom 10; atom 11]) /\
  checkBasicForConflict 0 sumConflictState = Fatal.
Proof. vm_compute. split_and; reflexivity. Qed.

(** ** The order of selection *)

Section PushSorted.
Variable A : Type.
Variable le : A -> A -> Prop.
Variable before : A -> A -> bool.

Hypothesis le_trans : forall x y z, le x y -> le y z -> le x z.
Hypothesis before_true : forall x y, before x y = true -> le x y.
Hypothesis before_false : forall x y, before x y = false -> le y x.

Lemma pq_push_sorted x q :
  StronglySorted le q -> StronglySorted le (pq_push before x q).
Proof.
  induction q as [|y q IH]; intros Hs; simpl.
  - constructor; constructor.
  - inversion Hs as [|? ? Hs' Hy]; subst.
    destruct (before x y) eqn:E.
    + constructor; [ exact Hs | ]. constructor.
      * now apply before_true.
      * rewrite Forall_forall in *. intros z Hz.
        apply le_trans with y; [ now apply before_true | now apply Hy ].
    + constructor; [ now apply IH | ].
      rewrite Forall_forall in *. intros z Hz.
      apply pq_push_In in Hz. destruct Hz as [-> | Hz].
      * now apply before_false.
      * now apply Hy.
Qed.
End PushSorted.

(** The Bland queue delivers smaller variables first, the Griggio queue
    larger violations first. *)
Definition blandSorted (q : BlandQueue) : Prop := StronglySorted N.le q.

Definition griggioSorted (q : GriggioPQueue) : Prop :=
  StronglySorted (fun a b : VarDRatPair => (snd b <= snd a)%DR) q.

Lemma bland_push_sorted x q : blandSorted q -> blandSorted (bland_push x q).
Proof.
  unfold blandSorted, bland_push. apply pq_push_sorted.
  - intros a b c. apply N.le_trans.
  - intros a b H. apply N.ltb_lt in H. lia.
  - intros a b H. apply N.ltb_ge in H. exact H.
Qed.

Lemma griggio_push_sorted e q :
  griggioSorted q -> griggioSorted (griggio_push e q).
Proof.
  unfold griggioSorted, griggio_push. apply pq_push_sorted.
  - intros a b c H1 H2. eapply DRatFacts.le_trans; eauto.
  - intros a b H. apply DRatFacts.gtb_lt in H. now apply DRatFacts.lt_le_incl.
  - intros a b H. now apply not_lt_le.
Qed.

Lemma sorted_head_le (A : Type) (le : A -> A -> Prop) pre top rest y :
  (forall a, le a a) ->
  StronglySorted le (pre ++ top :: rest) ->
  In y (top :: rest) -> le top y.
Proof.
  intros Hrefl Hs [<- | Hy]; [ apply Hrefl | ].
  induction pre as [|p pre IH]; simpl in Hs.
  - inversion Hs as [|? ? _ HF]; subst.
    rewrite Forall_forall in HF. now apply HF.
  - inversion Hs; subst. now apply IH.
Qed.

(** X16.  [selectSmallestInconsistentVar] follows the order of the active
    queue.  In the Bland stage, on a queue that delivers smaller
    variables first, the variable it returns is no larger than any queued
    variable that is basic and breaks a bound (Bland's rule).  In the
    Griggio stage, on a queue that delivers larger violations first, it
    returns the variable of a queued entry whose recorded violation is no
    smaller than that of any queued entry of such a variable.  Both
    orders are kept by every push. *)
Theorem selectSmallestInconsistentVar_order (s : Simplex) :
  (d_pivotStage s = false ->
   blandSorted (d_possiblyInconsistent s) ->
   forall y, In y (d_possiblyInconsistent s) -> live s y = true ->
             fst (selectSmallestInconsistentVar s) <= y) /\
  (d_pivotStage s = true ->
   griggioSorted (d_griggioRuleQueue s) ->
   forall e, In e (d_griggioRuleQueue s) -> live s (fst e) = true ->
   exists top,
     In top (d_griggioRuleQueue s) /\
     fst top = fst (selectSmallestInconsistentVar s) /\
     live s (fst top) = true /\
     (snd e <= snd top)%DR) /\
  (forall x q, blandSorted q -> blandSorted (bland_push x q)) /\
  (forall e q, griggioSorted q -> griggioSorted (griggio_push e q)).
Proof.
  split_and.
  - intros Hp Hs y Hy Hl. unfold selectSmallestInconsistentVar. rewrite Hp.
    rewrite selectSmallest_bland_scan.
    destruct (scanQueue_split (fun x => x) s (d_possiblyInconsistent s))
      as (popped & E & HF).
    destruct (scanQueue_result (fun x => x) s (d_possiblyInconsistent s))
      as [(_ & _ & Hall) | (top & rest & E2 & E3 & _)].
    + rewrite Forall_forall in Hall. specialize (Hall y Hy). congruence.
    + destruct (scanQueue (fun x => x) s (d_possiblyInconsistent s)) as [v q'].
      simpl in *. subst q' v. rewrite E in Hy, Hs.
      apply in_app_or in Hy. destruct Hy as [Hy | Hy].
      * rewrite Forall_forall in HF. specialize (HF y Hy). congruence.
      * exact (@sorted_head_le _ N.le popped top rest y N.le_refl Hs Hy).
  - intros Hp Hs e He Hl. unfold selectSmallestInconsistentVar. rewrite Hp.
    rewrite selectSmallest_griggio_scan.
    destruct (scanQueue_split fst s (d_griggioRuleQueue s))
      as (popped & E & HF).
    destruct (scanQueue_result fst s (d_griggioRuleQueue s))
      as [(_ & _ & Hall) | (top & rest & E2 & E3 & Hlt)].
    + rewrite Forall_forall in Hall. specialize (Hall e He). congruence.
    + destruct (scanQueue fst s (d_griggioRuleQueue s)) as [v q'].
      simpl in *. subst q' v. exists top. split_and; auto.
      * rewrite E. apply in_or_app. right. now left.
      * rewrite E in He, Hs.
        apply in_app_or in He. destruct He as [He | He].
        -- rewrite Forall_forall in HF. specialize (HF e He). congruence.
        -- exact (@sorted_head_le _ (fun a b : VarDRatPair => (snd b <= snd a)%DR)
                    popped top rest e (fun a => DRatFacts.le_refl (snd a)) Hs He).
  - intros x q. apply bland_push_sorted.
  - intros e q. apply griggio_push_sorted.
Qed.

(** The engine after [x3 <= -2] and [x4 <= -1] on [budgetTableau]: both
    basic variables sit at zero above their bounds. *)
Definition twoViolationsState : Simplex :=
  let s := freshSimplex budgetTableau 5 in
  let s := after (AssertUpper 4 (intBound (-1)) (atom 41) s) s in
  after (AssertUpper 3 (intBound (-2)) (atom 31) s) s.

Example twoViolationsState_select :
  map fst (d_griggioRuleQueue twoViolationsState) = [3; 4] /\
  fst (selectSmallestInconsistentVar twoViolationsState) = 3 /\
  fst (selectSmallestInconsistentVar (enterBlandStage twoViolationsState)) = 3.
Proof. vm_compute. split_and; reflexivity. Qed.

Fixpoint griggioSortedb (q : GriggioPQueue) : bool :=
  match q with
  | [] => true
  | a :: rest =>
      forallb (fun b => DeltaRational.leb (snd b) (snd a)) rest &&
      griggioSortedb rest
  end.

Lemma griggioSortedb_ok q : griggioSortedb q = true -> griggioSorted q.
Proof.
  unfold griggioSorted. induction q as [|a q IH]; simpl; intros H; constructor.
  - apply IH. apply andb_true_iff in H. apply H.
  - apply andb_true_iff in H. destruct H as [H _].
    rewrite forallb_forall in H. apply Forall_forall.
    intros b Hb. apply DRatFacts.leb_le. now apply H.
Qed.

(** X16 on [twoViolationsState]: [x3], two below its bound, is selected
    before [x4], one below. *)
Lemma selectSmallestInconsistentVar_order_witness :
  let s := twoViolationsState in
  griggioSorted (d_griggioRuleQueue s) /\
  forall e, In e (d_griggioRuleQueue s) -> live s (fst e) = true ->
  exists top,
    In top (d_griggioRuleQueue s) /\
    fst top = fst (selectSmallestInconsistentVar s) /\
    live s (fst top) = true /\
    (snd e <= snd top)%DR.
Proof.
  intros s.
  assert (Hs : griggioSorted (d_griggioRuleQueue s))
    by (apply griggioSortedb_ok; vm_compute; reflexivity).
  split; [ exact Hs | ].
  destruct (@selectSmallestInconsistentVar_order s) as (_ & H & _).
  apply H; [ vm_compute; reflexivity | exact Hs ].
Defined.

(** ** The check keeps every solution *)

Lemma privateUpdate_body_holds s e s1 :
  tableauSound s ->
  privateUpdate_body s = Ok (e, s1) ->
  forall beta, tableauHolds beta (d_tableau s) ->
               tableauHolds beta (d_tableau s1).
Proof.
  intros Hs H beta Hb.
  destruct (selectSmallestInconsistentVar_frame s) as (M & T & _).
  assert (Hs0 : tableauSound (snd (selectSmallestInconsistentVar s))).
  { apply (@tableauSound_ext s _); [ exact T | now rewrite M | exact Hs ]. }
  rewrite <- T in Hb.
  apply privateUpdate_body_cases in H. cbv zeta in H.
  destruct H as [(_ & _ & ->) | [(_ & above & v & n' & _ & _ & _ & _ & ->)
                                | (_ & above & x_j & v & c & _ & _ & _ & Hp & _ & _)]].
  - exact Hb.
  - exact Hb.
  - apply pivotAndUpdate_Ok in Hp.
    destruct Hp as (row_i & T' & _ & Hrow & Hhas & Hpivot & HT & _).
    rewrite HT. apply pivot_Ok in Hpivot.
    destruct Hpivot as (row_i' & _ & Hnb & Hrow' & _ & _ & ->).
    assert (row_i' = row_i) by congruence. subst row_i'.
    destruct Hs0 as [Hwf _].
    now apply (@pivot_holds _ _ x_j row_i Hwf Hrow Hnb Hhas).
Qed.

Lemma privateUpdate_loop_holds fuel : forall iter s e s',
  tableauSound s ->
  privateUpdate_loop fuel iter s = Some (Ok (e, s')) ->
  forall beta, tableauHolds beta (d_tableau s) ->
               tableauHolds beta (d_tableau s').
Proof.
  induction fuel as [|fuel IH]; intros iter s e s' Hs H beta Hb;
    [ discriminate | ].
  cbn [privateUpdate_loop] in H.
  destruct (negb (d_pivotStage s) || (iter <=? d_numVariables s)).
  - destruct (privateUpdate_body s) as [[[n|] s1]|] eqn:Eb; [ | | discriminate ].
    + injection H as _ <-.
      eapply privateUpdate_body_holds; [ exact Hs | exact Eb | exact Hb ].
    + eapply IH; [ | exact H | ].
      * eapply privateUpdate_body_sound; [ exact Hs | exact Eb ].
      * eapply privateUpdate_body_holds; [ exact Hs | exact Eb | exact Hb ].
  - injection H as _ <-. exact Hb.
Qed.

Lemma privateUpdateInconsistentVars_holds fuel : forall s n s',
  tableauSound s ->
  privateUpdateInconsistentVars fuel s = Some (Ok (n, s')) ->
  forall beta, tableauHolds beta (d_tableau s) ->
               tableauHolds beta (d_tableau s').
Proof.
  induction fuel as [|fuel IH]; intros s n s' Hs H beta Hb; [ discriminate | ].
  cbn [privateUpdateInconsistentVars] in H.
  destruct (negb (d_pivotStage s || queueEmpty (d_griggioRuleQueue s)));
    [ discriminate | ].
  destruct (privateUpdate_loop fuel 0 s) as [[[[m|it] s1]|]|] eqn:El;
    try discriminate.
  - injection H as _ <-.
    eapply privateUpdate_loop_holds; [ exact Hs | exact El | exact Hb ].
  - destruct (d_pivotStage s1 && (d_numVariables s1 <=? it)); [ | discriminate ].
    eapply (IH (enterBlandStage s1)); [ | exact H | ].
    + apply (@tableauSound_ext s1 _); [ reflexivity | reflexivity | ].
      eapply privateUpdate_loop_sound; [ exact Hs | exact El ].
    + change (d_tableau (enterBlandStage s1)) with (d_tableau s1).
      eapply privateUpdate_loop_holds; [ exact Hs | exact El | exact Hb ].
Qed.

(** X17.  On a sound tableau, a check loses no solution: an assignment
    that satisfies every row of the tableau and every stored bound before
    [updateInconsistentVars] still does so in the state the call returns,
    whatever the call answers and however many pivots it made. *)
Theorem updateInconsistentVars_keeps_solutions (fuel : nat) (s s' : Simplex)
    (n : Node) :
  tableauSound s ->
  updateInconsistentVars fuel s = Some (Ok (n, s')) ->
  forall beta, feasible s beta -> feasible s' beta.
Proof.
  intros Hs H beta [Hb1 Hb2].
  pose proof (updateInconsistentVars_frame _ _ H) as (L & U & _).
  split; [ | intros y; unfold withinBounds; rewrite L, U; apply Hb2 ].
  apply updateInconsistentVars_cases in H.
  destruct H as [(_ & _ & ->) | (_ & H)]; [ exact Hb1 | ].
  cbv zeta in H. destruct H as (m & s2 & E2 & H).
  set (s1 := set_pivotsSinceConflict (set_foundAConflict s false) 0) in *.
  assert (Hs1 : tableauSound s1)
    by (apply (@tableauSound_ext s _); [ reflexivity | reflexivity | exact Hs ]).
  assert (T2 : d_tableau s2 = d_tableau s /\ tableauSound s2).
  { destruct (1 <? length _)%nat.
    - split.
      + apply selectInitialConflict_keeps in E2. now destruct E2 as (_ & -> & _).
      + eapply selectInitialConflict_sound; [ exact Hs1 | exact E2 ].
    - injection E2 as _ <-. split; [ reflexivity | exact Hs1 ]. }
  destruct T2 as [T2 Hs2].
  destruct H as [(_ & Hf) | (_ & s3 & m3 & E3 & Hf)];
    apply finishCheck_Ok in Hf; destruct Hf as [_ ->]; simpl.
  - now rewrite T2.
  - eapply privateUpdateInconsistentVars_holds; [ exact Hs2 | exact E3 | ].
    now rewrite T2.
Qed.

(** The point [x0 = 1], [x1 = -2], [x2 = -3], [x3 = -1], [x4 = -3]. *)
Definition budgetPoint (x : ArithVar) : DRat :=
  match x with
  | 0%N => intBound 1
  | 1%N => intBound (-2)
  | 2%N => intBound (-3)
  | 3%N => intBound (-1)
  | _ => intBound (-3)
  end.

(** The bounds of [m] hold at [beta] when the test of the source accepts
    [beta] as the assignment of [m]. *)
Lemma withinBounds_test m beta x :
  assignmentIsConsistent
    (ArithPartialModel.mk beta (d_safeAssignment m) (d_lowerBound m)
       (d_upperBound m) (d_lowerConstraint m) (d_upperConstraint m)) x = true ->
  withinBounds m beta x.
Proof. intros H. apply assignmentIsConsistent_iff in H. exact H. Qed.

Lemma budgetPoint_feasible : feasible budgetAsserted budgetPoint.
Proof.
  split.
  - assert (T : d_tableau budgetAsserted = budgetTableau)
      by (vm_compute; reflexivity).
    rewrite T. unfold tableauHolds, budgetTableau.
    constructor; [ | constructor; [ | constructor ] ];
      unfold rowHolds; apply DRatFacts.eqb_eq; vm_compute; reflexivity.
  - intros y. apply withinBounds_test.
    destruct y as [|[[p|p|]|[[p|p|]|[p|p|]|]|]]; vm_compute; reflexivity.
Qed.

(** X17 on the ten assertions of [budgetAsserted]: the point
    [budgetPoint] is a solution before the check and still one after its
    six pivots. *)
Lemma updateInconsistentVars_keeps_solutions_witness :
  exists n s',
    updateInconsistentVars 20 budgetAsserted = Some (Ok (n, s')) /\
    feasible budgetAsserted budgetPoint /\
    feasible s' budgetPoint.
Proof.
  pose proof budget_check_pivots as Hrun.
  destruct (updateInconsistentVars 20 budgetAsserted) as [[[n s']|]|] eqn:E;
    try contradiction.
  exists n, s'. split; [ reflexivity | ].
  split; [ exact budgetPoint_feasible | ].
  apply (@updateInconsistentVars_keeps_solutions 20 budgetAsserted s' n).
  - exact (proj1 (proj1 (proj1 budgetAsserted_ready))).
  - exact E.
  - exact budgetPoint_feasible.
Defined.

(** ** What an accepted bound changes *)

Lemma assertTail_model cond x c s1 s' :
  assertTail cond x c s1 = Ok s' ->
  d_tableau s' = d_tableau s1 /\
  d_lowerBound (d_partialModel s') = d_lowerBound (d_partialModel s1) /\
  d_upperBound (d_partialModel s') = d_upperBound (d_partialModel s1) /\
  d_lowerConstraint (d_partialModel s') = d_lowerConstraint (d_partialModel s1) /\
  d_upperConstraint (d_partialModel s') = d_upperConstraint (d_partialModel s1).
Proof.
  unfold assertTail. intros H.
  destruct (isBasic s1 x) eqn:Hb; simpl in H.
  - apply checkBasicVariable_queue in H. destruct H as (-> & -> & _).
    split_and; reflexivity.
  - destruct cond.
    + destruct (update_total x c s1 Hb) as (s2 & E2 & T & _ & _ & L & U & LC & UC).
      rewrite E2 in H. injection H as <-. split_and; assumption.
    + injection H as <-. split_and; reflexivity.
Qed.

(** X18.  When [AssertLower(x, c, t)] returns false, the stored lower
    bound of [x] is at least [c]: the call was redundant and changed
    nothing, or it stored [c] with the explanation [t].  Either way the
    tableau, every upper bound with its explanation, and the lower bound
    and explanation of every other variable are as before.  Dually for
    [AssertUpper]. *)
Theorem assertion_installs_bound (s s' : Simplex) (x : ArithVar) (c : DRat)
    (t : TNode) :
  (AssertLower x c t s = Ok (false, s') ->
   (exists l, d_lowerBound (d_partialModel s') x = Some l /\ (c <= l)%DR) /\
   (if belowLowerBound (d_partialModel s) x c false then s' = s
    else d_lowerBound (d_partialModel s') x = Some c /\
         d_lowerConstraint (d_partialModel s') x = t) /\
   d_tableau s' = d_tableau s /\
   d_upperBound (d_partialModel s') = d_upperBound (d_partialModel s) /\
   d_upperConstraint (d_partialModel s') = d_upperConstraint (d_partialModel s) /\
   (forall y, y <> x ->
      d_lowerBound (d_partialModel s') y = d_lowerBound (d_partialModel s) y /\
      d_lowerConstraint (d_partialModel s') y =
        d_lowerConstraint (d_partialModel s) y)) /\
  (AssertUpper x c t s = Ok (false, s') ->
   (exists u, d_upperBound (d_partialModel s') x = Some u /\ (u <= c)%DR) /\
   (if aboveUpperBound (d_partialModel s) x c false then s' = s
    else d_upperBound (d_partialModel s') x = Some c /\
         d_upperConstraint (d_partialModel s') x = t) /\
   d_tableau s' = d_tableau s /\
   d_lowerBound (d_partialModel s') = d_lowerBound (d_partialModel s) /\
   d_lowerConstraint (d_partialModel s') = d_lowerConstraint (d_partialModel s) /\
   (forall y, y <> x ->
      d_upperBound (d_partialModel s') y = d_upperBound (d_partialModel s) y /\
      d_upperConstraint (d_partialModel s') y =
        d_upperConstraint (d_partialModel s) y)).
Proof.
  split; intros H.
  - unfold AssertLower in H.
    destruct (belowLowerBound _ x c false) eqn:Hred.
    { injection H as <-. apply belowLowerBound_weak in Hred.
      split; [ exact Hred | ]. split_and; auto. }
    destruct (aboveUpperBound _ x c true); [ discriminate | ].
    cbv zeta in H.
    match type of H with
    | context [ isBasic ?s0 x ] => set (s1 := s0) in H
    end.
    match type of H with
    | bind ?l _ = _ =>
        change l with
          (assertTail
             (DeltaRational.ltb (getAssignment (d_partialModel s1) x) c) x c s1)
          in H
    end.
    destruct (assertTail _ x c s1) as [s2|] eqn:E; simpl in H; [ | discriminate ].
    injection H as <-. apply assertTail_model in E.
    destruct E as (T & L & U & LC & UC). rewrite T, L, U, LC, UC.
    unfold s1. simpl.
    split; [ exists c; split; [ apply upd_same | apply DRatFacts.le_refl ] | ].
    split; [ split; apply upd_same | ].
    split; [ reflexivity | ]. split; [ reflexivity | ]. split; [ reflexivity | ].
    intros y Hne. split; now apply upd_other.
  - unfold AssertUpper in H.
    destruct (aboveUpperBound _ x c false) eqn:Hred.
    { injection H as <-. apply aboveUpperBound_weak in Hred.
      split; [ exact Hred | ]. split_and; auto. }
    destruct (belowLowerBound _ x c true); [ discriminate | ].
    cbv zeta in H.
    match type of H with
    | context [ isBasic ?s0 x ] => set (s1 := s0) in H
    end.
    match type of H with
    | bind ?l _ = _ =>
        change l with
          (assertTail
             (DeltaRational.gtb (getAssignment (d_partialModel s1) x) c) x c s1)
          in H
    end.
    destruct (assertTail _ x c s1) as [s2|] eqn:E; simpl in H; [ | discriminate ].
    injection H as <-. apply assertTail_model in E.
    destruct E as (T & L & U & LC & UC). rewrite T, L, U, LC, UC.
    unfold s1. simpl.
    split; [ exists c; split; [ apply upd_same | apply DRatFacts.le_refl ] | ].
    split; [ split; apply upd_same | ].
    split; [ reflexivity | ]. split; [ reflexivity | ]. split; [ reflexivity | ].
    intros y Hne. split; now apply upd_other.
Qed.

Example AssertLower_accepts :
  match AssertLower 0 (intBound 1) (atom 10) (freshSimplex sumTableau 3) with
  | Ok (b, s') =>
      b = false /\
      DeltaRational.eqb (getAssignment (d_partialModel s') 0) (intBound 1) = true /\
      DeltaRational.eqb (getAssignment (d_partialModel s') 2) (intBound 1) = true
  | Fatal => False
  end.
Proof. vm_compute. split_and; reflexivity. Qed.

(** X18 on a fresh engine over [x2 = x0 + x1]: [x0 >= 1] is accepted and
    stored with its explanation, and the tableau stays. *)
Lemma assertion_installs_bound_witness :
  exists s',
    AssertLower 0 (intBound 1) (atom 10) (freshSimplex sumTableau 3)
      = Ok (false, s') /\
    d_lowerBound (d_partialModel s') 0 = Some (intBound 1) /\
    d_lowerConstraint (d_partialModel s') 0 = atom 10 /\
    d_upperBound (d_partialModel s') 0 = None /\
    d_tableau s' = sumTableau.
Proof.
  pose proof AssertLower_accepts as Hrun.
  destruct (AssertLower 0 (intBound 1) (atom 10) (freshSimplex sumTableau 3))
    as [[b s']|] eqn:E; [ | contradiction ].
  destruct Hrun as [-> _]. exists s'. split; [ reflexivity | ].
  destruct (proj1 (@assertion_installs_bound (freshSimplex sumTableau 3) s' 0
                     (intBound 1) (atom 10)) E)
    as (_ & H2 & T & U & _).
  assert (Hb : belowLowerBound (d_partialModel (freshSimplex sumTableau 3)) 0
                 (intBound 1) false = false) by reflexivity.
  rewrite Hb in H2. destruct H2 as [L LC].
  split; [ exact L | ]. split; [ exact LC | ].
  split; [ now rewrite U | exact T ].
Defined.
